(** * angular-web-file-upload: chunked ingestion into IndexedDB

    A shallow embedding of the [FileUpload] component (the IndexedDB variant:
    [handleFiles] / [processNextChunk], [saveChunk], [clearChunksByFileId],
    [removePreview], [removeAll], [uploadAll]) and the properties its
    specification states about it.

    Layout:
    - [Binary64]: the arithmetic of JavaScript numbers that the component
      uses on non-integers ([/], [*], [Math.ceil], [Math.round]);
    - the data model ([File], [PreviewFile], [FileChunk], the object store,
      the component state);
    - the operations, as a step function over the events the runtime
      delivers to the component;
    - invariants of the reachable states, then the properties. *)

From stdpp Require Import gmap strings list fin_maps pretty sorting.
From Stdlib Require Import QArith Qcanon Qround Qpower Lqa Lia ZArith.
From Stdlib Require PrimFloat FloatOps SpecFloat Uint63.

(** * JavaScript numbers

    A JavaScript [number] is an IEEE 754 binary64 value: every arithmetic
    operation returns the exact result rounded to the nearest value with a
    53-bit significand, ties to the even significand.  The component only
    computes with non-negative finite numbers far from the ends of the
    exponent range, so a number is modelled by the rational it denotes and
    the exponent range is left out.  Integers below 2^53 are numbers as they
    are ([fl_integer]). *)
Module Binary64.
Local Open Scope Q_scope.

Definition two : Q := 2.

(** [ilog2 x] is the binade of [x > 0]: 2^(ilog2 x) <= x < 2^(ilog2 x + 1). *)
Definition ilog2 (x : Q) : Z :=
  let l := (Z.log2 (Qnum x) - Z.log2 (Zpos (Qden x)))%Z in
  if Qle_bool (two ^ l) x then l else (l - 1)%Z.

(** Nearest integer, ties to even. *)
Definition rne (y : Q) : Z :=
  let f := Qfloor y in
  match Qcompare (y - inject_Z f) (1 # 2) with
  | Lt => f
  | Gt => (f + 1)%Z
  | Eq => if Z.even f then f else (f + 1)%Z
  end.

(** The binary64 number nearest to the rational [x >= 0]: the significand is
    the rounding of [x] scaled into [2^52, 2^53). *)
Definition fl (x : Q) : Q :=
  match Qcompare 0 x with
  | Lt => let e := (ilog2 x - 52)%Z in inject_Z (rne (x * two ^ (- e))) * two ^ e
  | _ => 0
  end.

(** [a / b] and [a * b] on numbers. *)
Definition div (a b : Q) : Q := fl (a / b).
Definition mul (a b : Q) : Q := fl (a * b).
(** [Math.ceil] and [Math.round] (the latter rounds halves up). *)
Definition ceil (x : Q) : Z := Qceiling x.
Definition round (x : Q) : Z := Qfloor (x + (1 # 2)).

(** Powers of two. *)
Lemma two_neq0 : ~ two == 0.
Proof. discriminate. Qed.

Lemma pow_pos (z : Z) : 0 < two ^ z.
Proof. apply Qpower_0_lt. reflexivity. Qed.

Lemma pow_add (a b : Z) : two ^ (a + b) == two ^ a * two ^ b.
Proof. apply Qpower_plus, two_neq0. Qed.

Lemma pow_succ (a : Z) : two ^ (a + 1) == 2 * two ^ a.
Proof. rewrite pow_add. change (two ^ 1) with 2. ring. Qed.

Lemma pow_pred (a : Z) : 2 * two ^ (a - 1) == two ^ a.
Proof. rewrite <- pow_succ. replace (a - 1 + 1)%Z with a by lia. reflexivity. Qed.

Lemma pow_cancel (a : Z) : two ^ a * two ^ (- a) == 1.
Proof. rewrite <- pow_add. replace (a + - a)%Z with 0%Z by lia. reflexivity. Qed.

Lemma pow_le (a b : Z) : (a <= b)%Z -> two ^ a <= two ^ b.
Proof. intros H. apply Qpower_le_compat_l; [exact H | discriminate]. Qed.

Lemma pow_lt_inv (a b : Z) : two ^ a < two ^ b -> (a < b)%Z.
Proof. intros H. apply (Qpower_lt_compat_l_inv two); [exact H | reflexivity]. Qed.

Lemma pow_inject (n : Z) : (0 <= n)%Z -> inject_Z (2 ^ n) == two ^ n.
Proof. intros H. apply (Zpower_Qpower 2 n H). Qed.

Lemma log2_bounds (n : Z) :
  (0 < n)%Z -> two ^ Z.log2 n <= inject_Z n /\ inject_Z n < two ^ (Z.log2 n + 1).
Proof.
  intros Hn. destruct (Z.log2_spec n Hn) as [Hlo Hhi].
  pose proof (Z.log2_nonneg n) as Hl.
  rewrite <- !pow_inject by lia. split.
  - rewrite <- Zle_Qle. exact Hlo.
  - rewrite <- Zlt_Qlt. replace (Z.log2 n + 1)%Z with (Z.succ (Z.log2 n)) by lia. exact Hhi.
Qed.

Lemma Q_as_fraction (x : Q) : x * inject_Z (Zpos (Qden x)) == inject_Z (Qnum x).
Proof. destruct x as [n d]. unfold Qeq, Qmult, inject_Z. simpl. lia. Qed.

Lemma ilog2_spec (x : Q) : 0 < x -> two ^ ilog2 x <= x /\ x < two ^ (ilog2 x + 1).
Proof.
  intros Hx. unfold ilog2.
  set (a := Z.log2 (Qnum x)). set (b := Z.log2 (Zpos (Qden x))).
  assert (Hn : (0 < Qnum x)%Z).
  { destruct x as [n d]. unfold Qlt in Hx. simpl in *. lia. }
  destruct (log2_bounds _ Hn) as [Hn1 Hn2]. fold a in Hn1, Hn2.
  destruct (log2_bounds (Zpos (Qden x)) eq_refl) as [Hd1 Hd2]. fold b in Hd1, Hd2.
  pose proof (Q_as_fraction x) as Hf.
  pose proof (pow_pos a) as Pa. pose proof (pow_pos b) as Pb.
  pose proof (pow_pos (a - b)) as Pab.
  assert (E1 : two ^ a == two ^ (a - b) * two ^ b).
  { rewrite <- pow_add. replace (a - b + b)%Z with a by lia. reflexivity. }
  rewrite pow_succ in Hn2, Hd2.
  destruct (Qle_bool (two ^ (a - b)) x) eqn:Hc.
  - apply Qle_bool_iff in Hc. split; [exact Hc|].
    rewrite pow_succ. nra.
  - assert (Hlt : x < two ^ (a - b)).
    { apply Qnot_le_lt. intros Hle. apply Qle_bool_iff in Hle. congruence. }
    replace (a - b - 1 + 1)%Z with (a - b)%Z by lia. split; [|exact Hlt].
    pose proof (pow_pred (a - b)) as Hp. pose proof (pow_pos (a - b - 1)) as Pp.
    nra.
Qed.

Lemma ilog2_unique (x : Q) (l : Z) :
  two ^ l <= x -> x < two ^ (l + 1) -> ilog2 x = l.
Proof.
  intros H1 H2.
  assert (Hx : 0 < x) by (pose proof (pow_pos l); lra).
  destruct (ilog2_spec x Hx) as [H3 H4].
  assert (l < ilog2 x + 1)%Z by (apply pow_lt_inv; lra).
  assert (ilog2 x < l + 1)%Z by (apply pow_lt_inv; lra).
  lia.
Qed.

Lemma ilog2_mono (x y : Q) : 0 < x -> x <= y -> (ilog2 x <= ilog2 y)%Z.
Proof.
  intros Hx Hxy.
  destruct (ilog2_spec x Hx) as [H1 _].
  destruct (ilog2_spec y) as [_ H2]; [lra|].
  assert (ilog2 x < ilog2 y + 1)%Z by (apply pow_lt_inv; lra).
  lia.
Qed.

Lemma ilog2_compat (x y : Q) : 0 < x -> x == y -> ilog2 x = ilog2 y.
Proof.
  intros Hx Hxy. symmetry. destruct (ilog2_spec x Hx) as [H1 H2].
  apply ilog2_unique; lra.
Qed.


(** [lra] with the integer injections taken as atoms. *)
Ltac zlra :=
  change (inject_Z 1) with (1 # 1) in *;
  repeat match goal with
  | |- context [inject_Z ?z] =>
      lazymatch z with
      | Z0 => fail | Zpos _ => fail | Zneg _ => fail
      | _ => let q := fresh "q" in set (q := inject_Z z) in *; clearbody q
      end
  | H : context [inject_Z ?z] |- _ =>
      lazymatch z with
      | Z0 => fail | Zpos _ => fail | Zneg _ => fail
      | _ => let q := fresh "q" in set (q := inject_Z z) in *; clearbody q
      end
  end; lra.

(** Rounding to the nearest integer, ties to even. *)
Lemma rne_cases (y : Q) :
  (rne y = Qfloor y /\ y - inject_Z (Qfloor y) <= 1 # 2) \/
  (rne y = (Qfloor y + 1)%Z /\ 1 # 2 <= y - inject_Z (Qfloor y)).
Proof.
  unfold rne.
  destruct (Qcompare_spec (y - inject_Z (Qfloor y)) (1 # 2)) as [H|H|H].
  - destruct (Z.even (Qfloor y)); [left | right]; split; auto; lra.
  - left. split; auto; lra.
  - right. split; auto; lra.
Qed.

Lemma floor_bounds (y : Q) : inject_Z (Qfloor y) <= y /\ y < inject_Z (Qfloor y) + 1.
Proof.
  split; [apply Qfloor_le|].
  pose proof (Qlt_floor y) as H. rewrite inject_Z_plus in H. exact H.
Qed.

Lemma rne_lo (y : Q) : y - (1 # 2) <= inject_Z (rne y).
Proof.
  destruct (floor_bounds y) as [H1 H2].
  destruct (rne_cases y) as [[-> H]|[-> H]]; [|rewrite inject_Z_plus]; zlra.
Qed.

Lemma rne_hi (y : Q) : inject_Z (rne y) <= y + (1 # 2).
Proof.
  destruct (floor_bounds y) as [H1 H2].
  destruct (rne_cases y) as [[-> H]|[-> H]]; [|rewrite inject_Z_plus]; zlra.
Qed.

Lemma rne_compat (x y : Q) : x == y -> rne x = rne y.
Proof.
  intros H. unfold rne. rewrite (Qfloor_comp _ _ H).
  assert (Hc : Qcompare (x - inject_Z (Qfloor y)) (1 # 2)
             = Qcompare (y - inject_Z (Qfloor y)) (1 # 2)).
  { apply Qcompare_comp; [rewrite H|]; reflexivity. }
  rewrite Hc. reflexivity.
Qed.

Lemma rne_Z (z : Z) : rne (inject_Z z) = z.
Proof.
  unfold rne. rewrite Qfloor_Z.
  destruct (Qcompare_spec (inject_Z z - inject_Z z) (1 # 2)) as [H|H|H]; [lra| reflexivity |lra].
Qed.

Lemma rne_mono (x y : Q) : x <= y -> (rne x <= rne y)%Z.
Proof.
  intros Hxy. pose proof (Qfloor_resp_le _ _ Hxy) as Hf.
  destruct (floor_bounds x) as [X1 X2]. destruct (floor_bounds y) as [Y1 Y2].
  destruct (Z.eq_dec (Qfloor x) (Qfloor y)) as [E|NE].
  - unfold rne. rewrite <- E.
    destruct (Qcompare_spec (x - inject_Z (Qfloor x)) (1 # 2)) as [H|H|H];
    destruct (Qcompare_spec (y - inject_Z (Qfloor x)) (1 # 2)) as [H'|H'|H'];
    try destruct (Z.even (Qfloor x)); try lia; lra.
  - destruct (rne_cases x) as [[-> _]|[-> _]]; destruct (rne_cases y) as [[-> _]|[-> _]]; lia.
Qed.


(** The rounding [fl]. *)
Definition expo (x : Q) : Z := (ilog2 x - 52)%Z.

Lemma fl_unfold (x : Q) :
  0 < x -> fl x = inject_Z (rne (x * two ^ (- expo x))) * two ^ expo x.
Proof.
  intros Hx. unfold fl, expo.
  destruct (Qcompare_spec 0 x) as [H|H|H]; [lra | reflexivity | lra].
Qed.

Lemma fl_nonpos (x : Q) : x <= 0 -> fl x = 0.
Proof.
  intros Hx. unfold fl.
  destruct (Qcompare_spec 0 x) as [H|H|H]; [reflexivity | lra | reflexivity].
Qed.

Lemma scaled_bounds (x : Q) :
  0 < x -> two ^ 52 <= x * two ^ (- expo x) /\ x * two ^ (- expo x) < two ^ 53.
Proof.
  intros Hx. destruct (ilog2_spec x Hx) as [H1 H2]. unfold expo.
  set (l := ilog2 x) in *.
  pose proof (pow_pos (- (l - 52))) as Pe.
  assert (E1 : two ^ 52 == two ^ l * two ^ (- (l - 52))).
  { rewrite <- pow_add. replace (l + - (l - 52))%Z with 52%Z by lia. reflexivity. }
  assert (E2 : two ^ 53 == two ^ (l + 1) * two ^ (- (l - 52))).
  { rewrite <- pow_add. replace (l + 1 + - (l - 52))%Z with 53%Z by lia. reflexivity. }
  rewrite E1, E2. split.
  - apply Qmult_le_compat_r; lra.
  - apply Qmult_lt_compat_r; lra.
Qed.

Lemma mant_bounds (x : Q) :
  0 < x -> (2 ^ 52 <= rne (x * two ^ (- expo x)) <= 2 ^ 53)%Z.
Proof.
  intros Hx. destruct (scaled_bounds x Hx) as [H1 H2].
  split.
  - rewrite <- (rne_Z (2 ^ 52)). apply rne_mono.
    rewrite pow_inject by lia. exact H1.
  - rewrite <- (rne_Z (2 ^ 53)). apply rne_mono.
    rewrite pow_inject by lia. apply Qlt_le_weak, H2.
Qed.

Lemma fl_compat (x y : Q) : x == y -> fl x == fl y.
Proof.
  intros Hxy. destruct (Qlt_le_dec 0 x) as [Hx|Hx].
  - rewrite !fl_unfold by lra. unfold expo.
    rewrite <- (ilog2_compat x y Hx Hxy).
    rewrite (rne_compat (x * two ^ (- (ilog2 x - 52))) (y * two ^ (- (ilog2 x - 52)))).
    + reflexivity.
    + apply Qmult_comp; [exact Hxy | reflexivity].
  - rewrite !fl_nonpos by lra. reflexivity.
Qed.

#[global] Instance fl_proper : Proper (Qeq ==> Qeq) fl.
Proof. intros x y H. apply fl_compat, H. Qed.

Lemma fl_pos (x : Q) : 0 < x -> 0 < fl x.
Proof.
  intros Hx. rewrite fl_unfold by exact Hx.
  destruct (mant_bounds x Hx) as [H _].
  apply Qmult_lt_0_compat; [|apply pow_pos].
  change 0 with (inject_Z 0). rewrite <- Zlt_Qlt. lia.
Qed.

Lemma fl_nonneg (x : Q) : 0 <= fl x.
Proof.
  destruct (Qlt_le_dec 0 x) as [Hx|Hx].
  - apply Qlt_le_weak, fl_pos, Hx.
  - rewrite fl_nonpos by exact Hx. lra.
Qed.

(** Rounding is monotone. *)
Lemma fl_mono (x y : Q) : x <= y -> fl x <= fl y.
Proof.
  intros Hxy. destruct (Qlt_le_dec 0 x) as [Hx|Hx].
  2:{ rewrite (fl_nonpos x Hx). apply fl_nonneg. }
  assert (Hy : 0 < y) by lra.
  rewrite !fl_unfold by assumption.
  pose proof (ilog2_mono x y Hx Hxy) as Hl.
  destruct (mant_bounds x Hx) as [_ Mx]. destruct (mant_bounds y Hy) as [My _].
  destruct (Z.eq_dec (expo x) (expo y)) as [E|NE].
  - rewrite E. apply Qmult_le_compat_r; [|apply Qlt_le_weak, pow_pos].
    rewrite <- Zle_Qle. apply rne_mono.
    apply Qmult_le_compat_r; [exact Hxy | apply Qlt_le_weak, pow_pos].
  - assert (Hlt : (expo x + 1 <= expo y)%Z) by (unfold expo in *; lia).
    apply Qle_trans with (inject_Z (2 ^ 53) * two ^ expo x).
    + apply Qmult_le_compat_r; [|apply Qlt_le_weak, pow_pos].
      rewrite <- Zle_Qle. exact Mx.
    + apply Qle_trans with (inject_Z (2 ^ 52) * two ^ expo y).
      * rewrite !pow_inject by lia. rewrite <- !pow_add.
        apply pow_le. lia.
      * apply Qmult_le_compat_r; [|apply Qlt_le_weak, pow_pos].
        rewrite <- Zle_Qle. exact My.
Qed.

(** A number with a 53-bit significand is its own rounding. *)
Lemma fl_exact (m k : Z) :
  (0 <= m < 2 ^ 53)%Z -> fl (inject_Z m * two ^ k) == inject_Z m * two ^ k.
Proof.
  intros [Hm0 Hm]. destruct (Z.eq_dec m 0) as [->|Hne].
  { rewrite fl_nonpos; [|rewrite Qmult_0_l; lra]. ring. }
  set (x := inject_Z m * two ^ k).
  assert (Ex : x == inject_Z m * two ^ k) by reflexivity. clearbody x.
  assert (Hx : 0 < x).
  { rewrite Ex. apply Qmult_lt_0_compat; [|apply pow_pos].
    change 0 with (inject_Z 0). rewrite <- Zlt_Qlt. lia. }
  rewrite fl_unfold by exact Hx.
  destruct (ilog2_spec x Hx) as [H1 _].
  assert (Hk : (expo x <= k)%Z).
  { assert (Hlt : two ^ ilog2 x < two ^ (53 + k)).
    { apply Qle_lt_trans with x; [exact H1|]. rewrite Ex.
      rewrite pow_add, <- (pow_inject 53) by lia.
      apply Qmult_lt_compat_r; [apply pow_pos|]. rewrite <- Zlt_Qlt. exact Hm. }
    apply pow_lt_inv in Hlt. unfold expo. lia. }
  assert (Es : x * two ^ (- expo x) == inject_Z (m * 2 ^ (k - expo x))).
  { rewrite Ex at 1. rewrite inject_Z_mult, (pow_inject (k - expo x)) by lia.
    rewrite <- Qmult_assoc, <- pow_add.
    replace (k + - expo x)%Z with (k - expo x)%Z by lia. reflexivity. }
  rewrite (rne_compat _ _ Es), rne_Z.
  rewrite inject_Z_mult, (pow_inject (k - expo x)) by lia.
  rewrite <- Qmult_assoc, <- pow_add.
  replace (k - expo x + expo x)%Z with k by lia. symmetry. exact Ex.
Qed.

Lemma fl_integer (n : Z) : (0 <= n < 2 ^ 53)%Z -> fl (inject_Z n) == inject_Z n.
Proof.
  intros Hn.
  assert (E : inject_Z n == inject_Z n * two ^ 0) by (change (two ^ 0) with 1; ring).
  rewrite E at 1. rewrite fl_exact by exact Hn. symmetry. exact E.
Qed.

(** Relative error of one rounding: at most half a unit in the last place. *)
Definition eps : Q := two ^ (-53).

Lemma fl_error (x : Q) :
  0 <= x -> x - x * eps <= fl x /\ fl x <= x + x * eps.
Proof.
  intros Hx0. destruct (Qlt_le_dec 0 x) as [Hx|Hx].
  2:{ rewrite fl_nonpos by exact Hx. assert (x == 0) as -> by lra. lra. }
  rewrite fl_unfold by exact Hx.
  set (e := expo x). set (s := x * two ^ (- e)).
  pose proof (rne_lo s) as Lo. pose proof (rne_hi s) as Hi.
  destruct (scaled_bounds x Hx) as [S1 _]. fold e s in S1.
  pose proof (pow_pos e) as Pe.
  assert (Ex : x == s * two ^ e).
  { unfold s. rewrite <- Qmult_assoc, (Qmult_comm (two ^ (- e))), pow_cancel. ring. }
  assert (Eu : two ^ 52 * eps == 1 # 2).
  { unfold eps. rewrite <- pow_add. reflexivity. }
  assert (Hh : (1 # 2) <= s * eps).
  { rewrite <- Eu. apply Qmult_le_compat_r; [exact S1|]. apply Qlt_le_weak, pow_pos. }
  set (r := inject_Z (rne s)) in *. clearbody r.
  rewrite Ex. split; nra.
Qed.

End Binary64.

(** The rounding model against the kernel's binary64 numbers: the two agree,
    significand and exponent, on the quotients and percentages below. *)
Module Binary64Check.
Import PrimFloat FloatOps SpecFloat.
Local Open Scope Q_scope.

Definition to_spec (x : Q) : spec_float :=
  match Qcompare 0 x with
  | Lt =>
      S754_finite false
        (Z.to_pos (Binary64.rne (x * Binary64.two ^ (- Binary64.expo x))))
        (Binary64.expo x)
  | _ => S754_zero false
  end.

Example check_div_300000 :
  Prim2SF (300000 / 262144)%float = to_spec (Binary64.div 300000 262144).
Proof. vm_compute. reflexivity. Qed.

Example check_div_1_3 :
  Prim2SF (1 / 3)%float = to_spec (Binary64.div 1 3).
Proof. vm_compute. reflexivity. Qed.

Example check_percent_1_3 :
  Prim2SF (1 / 3 * 100)%float = to_spec (Binary64.mul (Binary64.div 1 3) 100).
Proof. vm_compute. reflexivity. Qed.

Example check_percent_23_40 :
  Prim2SF (23 / 40 * 100)%float = to_spec (Binary64.mul (Binary64.div 23 40) 100).
Proof. vm_compute. reflexivity. Qed.

Example check_percent_29_200 :
  Prim2SF (29 / 200 * 100)%float = to_spec (Binary64.mul (Binary64.div 29 200) 100).
Proof. vm_compute. reflexivity. Qed.

Definition same (a b : spec_float) : bool :=
  match a, b with
  | S754_zero s, S754_zero s' => Bool.eqb s s'
  | S754_finite s m e, S754_finite s' m' e' =>
      Bool.eqb s s' && Pos.eqb m m' && Z.eqb e e'
  | _, _ => false
  end.

Definition of_Z (z : Z) : float := PrimFloat.of_uint63 (Uint63.of_Z z).

(** [a / b] and [(c / t) * 100] computed on both sides. *)
Definition quotient_agrees (a b : Z) : bool :=
  same (Prim2SF (of_Z a / of_Z b)%float)
       (to_spec (Binary64.div (inject_Z a) (inject_Z b))).

Definition percent_agrees (c t : Z) : bool :=
  same (Prim2SF (of_Z c / of_Z t * 100)%float)
       (to_spec (Binary64.mul (Binary64.div (inject_Z c) (inject_Z t)) 100)).

(** Every percentage of up to a hundred chunks. *)
Example check_percent_upto_100 :
  forallb (λ t, forallb (λ c, percent_agrees c t) (seqZ 1 t)) (seqZ 1 100) = true.
Proof. vm_compute. reflexivity. Qed.

Example check_quotients_upto_60 :
  forallb (λ a, forallb (λ b, quotient_agrees a b) (seqZ 1 60)) (seqZ 0 60) = true.
Proof. vm_compute. reflexivity. Qed.

(** Sizes around the multiples of the chunk size, divided by the chunk size. *)
Example check_size_quotients :
  forallb (λ k, forallb (λ d, quotient_agrees (k * 262144 + d) 262144)
                        [-1; 0; 1; 37856]%Z)
          (seqZ 1 50) = true.
Proof. vm_compute. reflexivity. Qed.

End Binary64Check.

(** * Data model *)

Open Scope Z_scope.

(** [type: 'image' | 'video'] *)
Inductive Kind := image | video.

#[global] Instance Kind_eq_dec : EqDecision Kind.
Proof. solve_decision. Defined.

(** A [File] of the browser: a name and the bytes; [file.size] is their
    number. *)
Module File.
Record t := mk { name : string; bytes : list Byte.byte }.

Definition size (f : t) : Z := Z.of_nat (length (bytes f)).

(** [file.slice(start, end)] read with [arrayBuffer()]: the bytes at offsets
    [start, end), both ends clamped to the file as the File API prescribes. *)
Definition slice (f : t) (start end_ : Z) : list Byte.byte :=
  let clamp i := if i <? 0 then Z.max (size f + i) 0 else Z.min i (size f) in
  let s := clamp start in
  let e := clamp end_ in
  take (Z.to_nat (Z.max (e - s) 0)) (drop (Z.to_nat s) (bytes f)).
End File.

(** An object URL is a handle of the browser's registry; as a string it is
    never empty, so [if (it.objectUrl)] tests whether the field is set. *)
Definition ObjectURL := nat.

(** [interface PreviewFile] *)
Module PreviewFile.
Record t := mk {
  id : Z;
  fileName : string;
  size : Z;
  url : option ObjectURL;
  objectUrl : option ObjectURL;
  loading : bool;
  progress : Z;
  totalChunks : option Z
}.

Definition with_loading (b : bool) (p : t) : t :=
  mk (id p) (fileName p) (size p) (url p) (objectUrl p) b (progress p) (totalChunks p).

Definition with_progress (n : Z) (p : t) : t :=
  mk (id p) (fileName p) (size p) (url p) (objectUrl p) (loading p) n (totalChunks p).
End PreviewFile.

(** [interface FileChunk], the records of the object store. *)
Module FileChunk.
Record t := mk {
  fileId : Z;
  chunkIndex : Z;
  totalChunks : Z;
  data : list Byte.byte
}.
End FileChunk.

(** The database [FileUploadDB]: its one object store [chunks], keyed by
    [keyPath: ["fileId", "chunkIndex"]], and the names of the indexes that the
    store has. *)
Module IDB.
Record Database := mk {
  indexNames : list string;
  chunks : gmap (Z * Z) FileChunk.t
}.

Inductive Error :=
  | EnvironmentUnsupported   (* the rejection of [dbPromise] *)
  | NotFoundError            (* [store.index(name)]: no such index *)
  | TransactionError         (* [tx.onerror] *)
  | RequestError.            (* [request.onerror] *)

(** [store.put(chunk)]: insert or overwrite at the key read off the record. *)
Definition put (chunk : FileChunk.t) (db : Database) : Database :=
  mk (indexNames db)
     (<[(FileChunk.fileId chunk, FileChunk.chunkIndex chunk) := chunk]> (chunks db)).

(** [store.getAll()] *)
Definition getAll (db : Database) : list FileChunk.t := (map_to_list (chunks db)).*2.

(** The cursor over [index.openCursor(IDBKeyRange.only(fileId))] deleting
    every record it visits. *)
Definition deleteByIndex (fileId : Z) (db : Database) : Database :=
  mk (indexNames db)
     (filter (λ kv, FileChunk.fileId kv.2 ≠ fileId) (chunks db)).
End IDB.

(** How a promise settles. *)
Inductive Outcome := Resolved | Rejected (e : IDB.Error).

(** Where a [processNextChunk] closure stands: suspended at one of its two
    [await]s, waiting for the timer that calls it again, or over; or
    suspended for ever at the [await] of a [saveChunk] promise that can no
    longer settle. *)
Inductive Phase :=
  | AwaitRead (blob : list Byte.byte)    (* [await blob.arrayBuffer()] *)
  | AwaitSave (chunk : FileChunk.t)      (* [await this.saveChunk(...)] *)
  | AwaitTimer                           (* [setTimeout(processNextChunk, 0)] *)
  | Finished                             (* returned from the first branch *)
  | Aborted (inSave : bool)              (* left through [catch]; from which [await] *)
  | Stalled (chunk : FileChunk.t).       (* the promise of [saveChunk] stays pending *)

(** What one run of the [forEach] callback of [handleFiles] allocates: the
    [placeholder] object and the closure over it ([file], [id],
    [totalChunks], the mutable [currentChunk]).  The arrays [images] and
    [videos] hold references to the placeholder, the closure mutates it. *)
Module Closure.
Record t := mk {
  file : File.t;
  id : Z;
  totalChunks : Z;
  placeholder : PreviewFile.t;
  currentChunk : Z;
  phase : Phase
}.

Definition with_phase (ph : Phase) (c : t) : t :=
  mk (file c) (id c) (totalChunks c) (placeholder c) (currentChunk c) ph.

Definition with_placeholder (p : PreviewFile.t) (c : t) : t :=
  mk (file c) (id c) (totalChunks c) p (currentChunk c) (phase c).

Definition with_currentChunk (n : Z) (c : t) : t :=
  mk (file c) (id c) (totalChunks c) (placeholder c) n (phase c).
End Closure.

(** One entry of the array that [uploadAll] serializes. *)
Module Metadata.
Record t := mk {
  id : Z;
  name : string;
  size : Z;
  totalChunks : option Z;
  uploadedAt : Z
}.
End Metadata.

(** Where an activation of [uploadAll] stands: suspended at
    [await this.dbPromise], suspended at the [await] of the [getAll] promise
    for one record of its loop, or over. *)
Inductive UploadPhase :=
  | AwaitDb
  | AwaitGetAll (ref : nat)
  | Settled (o : Outcome).

(** The array that [const items] of an activation refers to: the array that
    the field [images] (or [videos]) still holds, on which [handleFiles]
    pushes, or an array that a removal has replaced in the field since,
    with the elements it keeps. *)
Inductive ArrayRef := Live | Detached (l : list nat).

(** An activation of [uploadAll] past its first [await]: [next] is the
    position of the iterator of [for (const f of items)]. *)
Module Upload.
Record t := mk {
  type : Kind;
  items : ArrayRef;
  next : nat;
  phase : UploadPhase
}.

Definition with_phase (ph : UploadPhase) (a : t) : t :=
  mk (type a) (items a) (next a) ph.
End Upload.

(** What the component does to the world outside its fields, in order. *)
Inductive Effect :=
  | PutStarted (fileId chunkIndex : Z)      (* [saveChunk] called *)
  | PutCommitted (fileId chunkIndex : Z)    (* its transaction completed *)
  | ChunkError (fileId : Z)                 (* [console.error] in [catch] *)
  | ChunksCleared (fileId : Z)              (* [clearChunksByFileId] resolved *)
  | ClearFailed (fileId : Z) (e : IDB.Error)  (* ... rejected *)
  | Revoked (u : ObjectURL)                 (* [URL.revokeObjectURL] *)
  | Removed (type : Kind) (id : Z)          (* the array filtered *)
  | Emptied (type : Kind)                   (* the array replaced by [[]] *)
  | ManifestWritten (key : string)          (* [localStorage.setItem] *)
  | Warned (fileName : string)              (* [console.warn] *)
  | Alerted (type : Kind).                  (* [alert] *)

#[global] Instance Error_eq_dec : EqDecision IDB.Error.
Proof. solve_decision. Defined.

#[global] Instance Effect_eq_dec : EqDecision Effect.
Proof. solve_decision. Defined.

(** The component and what it talks to.  [heap] holds the closures by
    address; [dbPromise] is [None] when [openDB] rejected; [uploads] holds
    the activations of [uploadAll] that got to their first [await], in the
    order of the calls. *)
Record World := mkWorld {
  images : list nat;
  videos : list nat;
  heap : list Closure.t;
  idCounter : Z;
  dbPromise : option IDB.Database;
  nextUrl : ObjectURL;
  localStorage : gmap string (list Metadata.t);
  log : list Effect;
  uploads : list Upload.t
}.

Definition with_images (l : list nat) (w : World) : World :=
  mkWorld l (videos w) (heap w) (idCounter w) (dbPromise w) (nextUrl w) (localStorage w) (log w)
          (uploads w).

Definition with_videos (l : list nat) (w : World) : World :=
  mkWorld (images w) l (heap w) (idCounter w) (dbPromise w) (nextUrl w) (localStorage w) (log w)
          (uploads w).

Definition with_heap (h : list Closure.t) (w : World) : World :=
  mkWorld (images w) (videos w) h (idCounter w) (dbPromise w) (nextUrl w) (localStorage w) (log w)
          (uploads w).

Definition with_db (d : option IDB.Database) (w : World) : World :=
  mkWorld (images w) (videos w) (heap w) (idCounter w) d (nextUrl w) (localStorage w) (log w)
          (uploads w).

Definition with_localStorage (s : gmap string (list Metadata.t)) (w : World) : World :=
  mkWorld (images w) (videos w) (heap w) (idCounter w) (dbPromise w) (nextUrl w) s (log w)
          (uploads w).

Definition emit (e : Effect) (w : World) : World :=
  mkWorld (images w) (videos w) (heap w) (idCounter w) (dbPromise w) (nextUrl w)
          (localStorage w) (log w ++ [e]) (uploads w).

Definition with_uploads (us : list Upload.t) (w : World) : World :=
  mkWorld (images w) (videos w) (heap w) (idCounter w) (dbPromise w) (nextUrl w)
          (localStorage w) (log w) us.

Definition set_upload (u : nat) (a : Upload.t) (w : World) : World :=
  with_uploads (<[u := a]> (uploads w)) w.

Definition set_cell (r : nat) (c : Closure.t) (w : World) : World :=
  with_heap (<[r := c]> (heap w)) w.

(** The array of a partition, and the placeholder behind a reference. *)
Definition items (type : Kind) (w : World) : list nat :=
  match type with image => images w | video => videos w end.

Definition with_items (type : Kind) (l : list nat) (w : World) : World :=
  match type with image => with_images l w | video => with_videos l w end.

Definition deref (w : World) (r : nat) : option PreviewFile.t :=
  Closure.placeholder <$> heap w !! r.

Definition records (type : Kind) (w : World) : list PreviewFile.t :=
  omap (deref w) (items type w).

(** The elements of the array that an activation of [uploadAll] iterates,
    as they are now. *)
Definition array_of (a : Upload.t) (w : World) : list nat :=
  match Upload.items a with
  | Live => items (Upload.type a) w
  | Detached l => l
  end.

(** [this.images = ...] (or [this.videos = ...]): the field gets another
    array, and the activations of [uploadAll] that iterate the array it held
    keep that one, with the elements [old] it has. *)
Definition detach (type : Kind) (old : list nat) (a : Upload.t) : Upload.t :=
  match Upload.items a with
  | Live =>
      if decide (Upload.type a = type)
      then Upload.mk (Upload.type a) (Detached old) (Upload.next a) (Upload.phase a)
      else a
  | Detached _ => a
  end.

Definition assign_items (type : Kind) (l : list nat) (w : World) : World :=
  with_items type l (with_uploads (detach type (items type w) <$> uploads w) w).

(** * The operations *)

(** [const chunkSize = 1024 * 256] *)
Definition chunkSize : Z := 1024 * 256.

(** [Math.ceil(file.size / chunkSize)] *)
Definition totalChunksOf (size : Z) : Z :=
  Binary64.ceil (Binary64.div (inject_Z size) (inject_Z chunkSize)).

(** [Math.round((currentChunk / totalChunks) * 100)] *)
Definition percentOf (currentChunk totalChunks : Z) : Z :=
  Binary64.round
    (Binary64.mul (Binary64.div (inject_Z currentChunk) (inject_Z totalChunks))
                  (inject_Z 100)).

#[global] Arguments totalChunksOf : simpl never.
#[global] Arguments percentOf : simpl never.

(** [openDB]: rejects where there is no [indexedDB]; otherwise the database,
    whose store [chunks] was created by [onupgradeneeded] with its key path
    and nothing else, holding what earlier sessions left in it. *)
Definition openDB (supported : bool) (persisted : gmap (Z * Z) FileChunk.t)
  : option IDB.Database :=
  if supported then Some (IDB.mk [] persisted) else None.

(** [saveChunk]: after [dbPromise], one read-write transaction with one
    [put]; [txOk] tells whether the transaction completes or errors. *)
Definition saveChunk (chunk : FileChunk.t) (txOk : bool) (w : World) : Outcome * World :=
  match dbPromise w with
  | None => (Rejected IDB.EnvironmentUnsupported, w)
  | Some db =>
      if txOk then
        (Resolved,
         emit (PutCommitted (FileChunk.fileId chunk) (FileChunk.chunkIndex chunk))
              (with_db (Some (IDB.put chunk db)) w))
      else (Rejected IDB.TransactionError, w)
  end.

(** [clearChunksByFileId]: after [dbPromise], [store.index('fileId')] throws
    inside the promise's executor when the store has no such index, and the
    promise rejects; otherwise the cursor deletes the records of [fileId]
    and the transaction completes or errors. *)
Definition clearChunksByFileId (fileId : Z) (txOk : bool) (w : World) : Outcome * World :=
  match dbPromise w with
  | None =>
      (Rejected IDB.EnvironmentUnsupported,
       emit (ClearFailed fileId IDB.EnvironmentUnsupported) w)
  | Some db =>
      if bool_decide ("fileId"%string ∈ IDB.indexNames db) then
        if txOk then
          (Resolved,
           emit (ChunksCleared fileId) (with_db (Some (IDB.deleteByIndex fileId db)) w))
        else
          (Rejected IDB.TransactionError, emit (ClearFailed fileId IDB.TransactionError) w)
      else
        (Rejected IDB.NotFoundError, emit (ClearFailed fileId IDB.NotFoundError) w)
  end.

(** [storageKey] *)
Definition storageKey (type : Kind) : string :=
  match type with image => "uploaded_images" | video => "uploaded_videos" end.

(** The first branch of [processNextChunk]: mark the file as fully loaded. *)
Definition markLoaded (c : Closure.t) : Closure.t :=
  Closure.with_phase Finished
    (Closure.with_placeholder
       (PreviewFile.with_progress 100
          (PreviewFile.with_loading false (Closure.placeholder c))) c).

(** [processNextChunk], from its call to its first [await]. *)
Definition processNextChunk (r : nat) (w : World) : World :=
  match heap w !! r with
  | None => w
  | Some c =>
      if Closure.totalChunks c <=? Closure.currentChunk c then
        set_cell r (markLoaded c) w
      else
        let start := Closure.currentChunk c * chunkSize in
        let end_ := Z.min (start + chunkSize) (File.size (Closure.file c)) in
        let blob := File.slice (Closure.file c) start end_ in
        set_cell r (Closure.with_phase (AwaitRead blob) c) w
  end.

(** The [catch] block, entered from the [await] of the read or of the save. *)
Definition catchError (r : nat) (c : Closure.t) (inSave : bool) (w : World) : World :=
  emit (ChunkError (Closure.id c))
    (set_cell r
       (Closure.with_phase (Aborted inSave)
          (Closure.with_placeholder
             (PreviewFile.with_loading false (Closure.placeholder c)) c))
       w).

(** [blob.arrayBuffer()] settled: on success [saveChunk] is called with the
    chunk, on failure control goes to [catch]. *)
Definition onReadSettled (r : nat) (ok : bool) (w : World) : World :=
  match heap w !! r with
  | Some c =>
      match Closure.phase c with
      | AwaitRead blob =>
          if ok then
            let chunk :=
              FileChunk.mk (Closure.id c) (Closure.currentChunk c)
                           (Closure.totalChunks c) blob in
            emit (PutStarted (Closure.id c) (Closure.currentChunk c))
                 (set_cell r (Closure.with_phase (AwaitSave chunk) c) w)
          else catchError r c false w
      | _ => w
      end
  | None => w
  end.

(** [saveChunk] settled: on success [currentChunk++], the progress update
    and [setTimeout(processNextChunk, 0)]; on failure [catch]. *)
Definition onSaveSettled (r : nat) (txOk : bool) (w : World) : World :=
  match heap w !! r with
  | Some c =>
      match Closure.phase c with
      | AwaitSave chunk =>
          match saveChunk chunk txOk w with
          | (Resolved, w1) =>
              let currentChunk := Closure.currentChunk c + 1 in
              let percent := percentOf currentChunk (Closure.totalChunks c) in
              set_cell r
                (Closure.with_phase AwaitTimer
                   (Closure.with_placeholder
                      (PreviewFile.with_progress percent (Closure.placeholder c))
                      (Closure.with_currentChunk currentChunk c)))
                w1
          | (Rejected _, w1) => catchError r c true w1
          end
      | _ => w
      end
  | None => w
  end.

(** The transaction of [saveChunk] aborted with no [error] event, as when
    its commit fails: [saveChunk] sets [oncomplete] and [onerror] and no
    [onabort], so neither [resolve] nor [reject] is called.  The put is rolled
    back and the [await] of the closure never returns.  (Without a database
    [saveChunk] has rejected before it made a transaction.) *)
Definition onSaveAborted (r : nat) (w : World) : World :=
  match heap w !! r with
  | Some c =>
      match Closure.phase c, dbPromise w with
      | AwaitSave chunk, Some _ => set_cell r (Closure.with_phase (Stalled chunk) c) w
      | _, _ => w
      end
  | None => w
  end.

(** The timer fired: [processNextChunk] runs again. *)
Definition onTimer (r : nat) (w : World) : World :=
  match heap w !! r with
  | Some c =>
      match Closure.phase c with
      | AwaitTimer => processNextChunk r w
      | _ => w
      end
  | None => w
  end.

(** The [forEach] callback of [handleFiles] for one file: a fresh id and
    object URL, the placeholder pushed on the array of its partition, the
    closure allocated with [currentChunk = 0], and [processNextChunk()]
    called at once (the closure is allocated in the phase of one that is
    about to be called, which is also the phase the timer leaves it in). *)
Definition handleFile (type : Kind) (w : World) (file : File.t) : World :=
  let id := idCounter w + 1 in
  let objectUrl := nextUrl w in
  let totalChunks := totalChunksOf (File.size file) in
  let placeholder :=
    PreviewFile.mk id (File.name file) (File.size file) (Some objectUrl)
                   (Some objectUrl) true 0 (Some totalChunks) in
  let r := length (heap w) in
  let w1 :=
    mkWorld (images w) (videos w)
            (heap w ++ [Closure.mk file id totalChunks placeholder 0 AwaitTimer])
            id (dbPromise w) (S (nextUrl w)) (localStorage w) (log w) (uploads w) in
  let w2 := with_items type (items type w1 ++ [r]) w1 in
  processNextChunk r w2.

Definition handleFiles (files : list File.t) (type : Kind) (w : World) : World :=
  fold_left (handleFile type) files w.

(** [if (it.objectUrl) URL.revokeObjectURL(it.objectUrl)] *)
Definition revokeObjectUrl (it : PreviewFile.t) (w : World) : World :=
  match PreviewFile.objectUrl it with
  | Some u => emit (Revoked u) w
  | None => w
  end.

(** [i => i.id === id] on the placeholder behind a reference. *)
Definition has_id (w : World) (id : Z) (r : nat) : Prop :=
  PreviewFile.id <$> deref w r = Some id.

#[global] Instance has_id_dec w id r : Decision (has_id w id r).
Proof. unfold has_id. apply _. Defined.

(** One partition's part of [removePreview]: [findIndex], the revocation
    and the filtered array; [None] when the id is not in the partition. *)
Definition removeFrom (type : Kind) (id : Z) (w : World) : option World :=
  match list_find (has_id w id) (items type w) with
  | Some (_, r) =>
      let w1 := match deref w r with Some it => revokeObjectUrl it w | None => w end in
      Some (emit (Removed type id)
              (assign_items type (filter (λ r', ¬ has_id w id r') (items type w)) w1))
  | None => None
  end.

(** [removePreview]: the chunks are cleared first; a rejection there leaves
    the function at its [await]. *)
Definition removePreview (id : Z) (txOk : bool) (w : World) : Outcome * World :=
  match clearChunksByFileId id txOk w with
  | (Rejected e, w1) => (Rejected e, w1)
  | (Resolved, w1) =>
      match removeFrom image id w1 with
      | Some w2 => (Resolved, w2)
      | None =>
          match removeFrom video id w1 with
          | Some w2 => (Resolved, w2)
          | None => (Resolved, w1)
          end
      end
  end.

(** The [async] callback that [removeAll] starts for each item; a rejection
    of [clearChunksByFileId] ends it before the revocation. *)
Definition removeAllItem (txOk : Z → bool) (w : World) (it : PreviewFile.t) : World :=
  match clearChunksByFileId (PreviewFile.id it) (txOk (PreviewFile.id it)) w with
  | (Resolved, w1) => revokeObjectUrl it w1
  | (Rejected _, w1) => w1
  end.

(** [removeAll]: the callbacks suspend at once (at [await this.dbPromise]),
    the array is replaced, and the callbacks go on over the items they
    captured. *)
Definition removeAll (type : Kind) (txOk : Z → bool) (w : World) : World :=
  let captured := records type w in
  let w1 := emit (Emptied type) (assign_items type [] w) in
  fold_left (removeAllItem txOk) captured w1.

(** [f.totalChunks || 0] *)
Definition totalChunks_or_0 (f : PreviewFile.t) : Z :=
  default 0 (PreviewFile.totalChunks f).

(** The head of the loop [for (const f of items)]: the iterator gives the
    next element of the array as it is now, and a read-only transaction
    with its [getAll] request is made for it; or the array is exhausted and
    [alert] ends the call. *)
Definition nextRecord (u : nat) (a : Upload.t) (w : World) : World :=
  match array_of a w !! Upload.next a with
  | Some f =>
      set_upload u
        (Upload.mk (Upload.type a) (Upload.items a) (S (Upload.next a)) (AwaitGetAll f)) w
  | None =>
      emit (Alerted (Upload.type a))
           (set_upload u (Upload.with_phase (Settled Resolved) a) w)
  end.

(** [uploadAll] up to [await this.dbPromise]; [now k] is what the [k]-th
    call of [Date.now()] returns.  On an empty array the call returns and
    leaves no activation behind. *)
Definition uploadAll (type : Kind) (now : nat → Z) (w : World) : World :=
  let fs := records type w in
  if bool_decide (length (items type w) = 0%nat) then w
  else
    let metadata :=
      imap (λ k f, Metadata.mk (PreviewFile.id f) (PreviewFile.fileName f)
                               (PreviewFile.size f) (PreviewFile.totalChunks f) (now k))
           fs in
    let w1 :=
      emit (ManifestWritten (storageKey type))
           (with_localStorage (<[storageKey type := metadata]> (localStorage w)) w) in
    with_uploads (uploads w1 ++ [Upload.mk type Live 0 AwaitDb]) w1.

(** [await this.dbPromise] of the activation [u] returned, or threw when
    [openDB] had rejected. *)
Definition onDbSettled (u : nat) (w : World) : World :=
  match uploads w !! u with
  | Some a =>
      match Upload.phase a, dbPromise w with
      | AwaitDb, Some _ => nextRecord u a w
      | AwaitDb, None =>
          set_upload u
            (Upload.with_phase (Settled (Rejected IDB.EnvironmentUnsupported)) a) w
      | _, _ => w
      end
  | None => w
  end.

(** The [getAll] request of the activation [u] settled.  Transactions on
    one store run in the order in which they were made, so what [onsuccess]
    finds in [request.result] is what the store holds when the event is
    delivered.  On success the rows of the file are counted and compared,
    and the loop goes on; [onerror] rejects the promise and the call. *)
Definition onGetAllSettled (u : nat) (ok : bool) (w : World) : World :=
  match uploads w !! u with
  | Some a =>
      match Upload.phase a with
      | AwaitGetAll ref =>
          if ok then
            match dbPromise w, deref w ref with
            | Some db, Some f =>
                let allChunks :=
                  filter (λ c, FileChunk.fileId c = PreviewFile.id f) (IDB.getAll db) in
                let w1 :=
                  if bool_decide (Z.of_nat (length allChunks) ≠ totalChunks_or_0 f)
                  then emit (Warned (PreviewFile.fileName f)) w else w in
                nextRecord u a w1
            | _, _ => w
            end
          else set_upload u (Upload.with_phase (Settled (Rejected IDB.RequestError)) a) w
      | _ => w
      end
  | None => w
  end.

(** * The component as a transition system *)

(** What the runtime delivers: a call from the template, or the settling
    of something a closure waits for. *)
Inductive Event :=
  | HandleFiles (files : list File.t) (type : Kind)
  | ReadSettled (r : nat) (ok : bool)
  | SaveSettled (r : nat) (txOk : bool)
  | TimerFired (r : nat)
  | RemovePreview (id : Z) (txOk : bool)
  | RemoveAll (type : Kind) (txOk : Z → bool)
  | UploadAll (type : Kind) (now : nat → Z)
  | SaveAborted (r : nat)
  | DbSettled (u : nat)
  | GetAllSettled (u : nat) (ok : bool).

Definition step (w : World) (e : Event) : World :=
  match e with
  | HandleFiles files type => handleFiles files type w
  | ReadSettled r ok => onReadSettled r ok w
  | SaveSettled r txOk => onSaveSettled r txOk w
  | TimerFired r => onTimer r w
  | RemovePreview id txOk => (removePreview id txOk w).2
  | RemoveAll type txOk => removeAll type txOk w
  | UploadAll type now => uploadAll type now w
  | SaveAborted r => onSaveAborted r w
  | DbSettled u => onDbSettled u w
  | GetAllSettled u ok => onGetAllSettled u ok w
  end.

Definition run (evs : list Event) (w : World) : World := fold_left step evs w.

(** The component as constructed: empty arrays, [idCounter = 0], and
    [dbPromise = openDB()]. *)
Definition initial (supported : bool) (persisted : gmap (Z * Z) FileChunk.t)
    (stored : gmap string (list Metadata.t)) : World :=
  mkWorld [] [] [] 0 (openDB supported persisted) 0%nat stored [] [].

(** The events of an ingestion of the closure at [r] in which nothing fails:
    [k] rounds of read, save and timer. *)
Fixpoint rounds (r : nat) (k : nat) : list Event :=
  match k with
  | O => []
  | S k' => rounds r k' ++ [ReadSettled r true; SaveSettled r true; TimerFired r]
  end.

(** * The two computations on numbers *)
Section Numbers.
Local Open Scope Q_scope.
Import Binary64.

Lemma chunkSize_pow : inject_Z chunkSize == two ^ 18.
Proof. reflexivity. Qed.

(** The quotient [file.size / chunkSize] is exact: dividing by a power of
    two keeps the significand. *)
Lemma size_quotient_exact (size : Z) :
  (0 <= size < 2 ^ 53)%Z ->
  div (inject_Z size) (inject_Z chunkSize) == inject_Z size / inject_Z chunkSize.
Proof.
  intros H. unfold div.
  assert (E : inject_Z size / inject_Z chunkSize == inject_Z size * two ^ (-18)).
  { rewrite chunkSize_pow. unfold Qdiv. rewrite <- Qpower_opp. reflexivity. }
  rewrite E. apply fl_exact, H.
Qed.

Lemma inject_Z_nonneg (n : Z) : (0 <= n)%Z -> 0 <= inject_Z n.
Proof. intros H. change 0 with (inject_Z 0). rewrite <- Zle_Qle. exact H. Qed.

Lemma inject_Z_pos (n : Z) : (0 < n)%Z -> 0 < inject_Z n.
Proof. intros H. change 0 with (inject_Z 0). rewrite <- Zlt_Qlt. exact H. Qed.

Lemma quotient_le (a b t : Z) :
  (a <= b)%Z -> (0 < t)%Z -> inject_Z a / inject_Z t <= inject_Z b / inject_Z t.
Proof.
  intros Hab Ht. apply Qmult_le_compat_r.
  - rewrite <- Zle_Qle. exact Hab.
  - apply Qlt_le_weak, Qinv_lt_0_compat, inject_Z_pos, Ht.
Qed.

Lemma totalChunksOf_nonneg (size : Z) : (0 <= totalChunksOf size)%Z.
Proof.
  unfold totalChunksOf, ceil, div.
  pose proof (fl_nonneg (inject_Z size / inject_Z chunkSize)) as H.
  apply Qceiling_resp_le in H. exact H.
Qed.

Lemma percentOf_mono (c1 c2 t : Z) :
  (c1 <= c2)%Z -> (0 < t)%Z -> (percentOf c1 t <= percentOf c2 t)%Z.
Proof.
  intros Hc Ht. unfold percentOf, round, mul, div.
  apply Qfloor_resp_le, Qplus_le_compat; [|apply Qle_refl].
  apply fl_mono, Qmult_le_compat_r; [|discriminate].
  apply fl_mono, quotient_le; assumption.
Qed.

Lemma percentOf_full (t : Z) : (0 < t)%Z -> percentOf t t = 100%Z.
Proof.
  intros Ht. unfold percentOf, round, mul, div.
  assert (E1 : inject_Z t / inject_Z t == inject_Z 1).
  { apply Qmult_inv_r. intros H. apply inject_Z_pos in Ht. rewrite H in Ht. discriminate. }
  assert (E2 : fl (inject_Z t / inject_Z t) * inject_Z 100 == inject_Z 100).
  { rewrite E1, fl_integer by lia. reflexivity. }
  assert (E3 : fl (fl (inject_Z t / inject_Z t) * inject_Z 100) + (1 # 2) == 201 # 2).
  { rewrite E2, fl_integer by lia. reflexivity. }
  rewrite (Qfloor_comp _ _ E3). reflexivity.
Qed.

Lemma percentOf_nonneg (c t : Z) : (0 <= percentOf c t)%Z.
Proof.
  unfold percentOf, round, mul.
  pose proof (fl_nonneg (div (inject_Z c) (inject_Z t) * inject_Z 100)) as H.
  assert (H' : 0 <= fl (div (inject_Z c) (inject_Z t) * inject_Z 100) + (1 # 2)) by lra.
  apply Qfloor_resp_le in H'. exact H'.
Qed.

Lemma percentOf_le_100 (c t : Z) : (c <= t)%Z -> (0 < t)%Z -> (percentOf c t <= 100)%Z.
Proof.
  intros Hc Ht. rewrite <- (percentOf_full t Ht). apply percentOf_mono; assumption.
Qed.


(** With an exact quotient, [Math.ceil] gives the ceiling of the fraction. *)
Lemma totalChunksOf_exact (size : Z) :
  (0 <= size < 2 ^ 53)%Z ->
  totalChunksOf size = Qceiling (inject_Z size / inject_Z chunkSize).
Proof.
  intros H. unfold totalChunksOf, ceil.
  apply Qceiling_comp, size_quotient_exact, H.
Qed.

Lemma totalChunksOf_bounds (size : Z) :
  (0 <= size < 2 ^ 53)%Z ->
  ((totalChunksOf size - 1) * chunkSize < size <= totalChunksOf size * chunkSize)%Z.
Proof.
  intros H. rewrite totalChunksOf_exact by exact H.
  set (x := inject_Z size / inject_Z chunkSize).
  pose proof (Qle_ceiling x) as Hhi. pose proof (Qceiling_lt x) as Hlo.
  assert (Ex : x * inject_Z chunkSize == inject_Z size).
  { unfold x. field. discriminate. }
  assert (Pc : 0 < inject_Z chunkSize) by reflexivity.
  split.
  - rewrite Zlt_Qlt, inject_Z_mult, <- Ex.
    apply Qmult_lt_compat_r; [exact Pc | exact Hlo].
  - rewrite Zle_Qle, inject_Z_mult, <- Ex.
    apply Qmult_le_compat_r; [exact Hhi | apply Qlt_le_weak, Pc].
Qed.

(** Two roundings lose at most three units in the last place of the
    product. *)
Lemma percent_error (c t : Z) :
  (0 <= c <= t)%Z -> (0 < t)%Z ->
  let x := inject_Z 100 * inject_Z c / inject_Z t in
  let y := mul (div (inject_Z c) (inject_Z t)) (inject_Z 100) in
  x - 300 * eps <= y /\ y <= x + 300 * eps.
Proof.
  intros Hc Ht x y.
  set (q0 := inject_Z c / inject_Z t).
  assert (Hq0 : 0 <= q0 /\ q0 <= 1).
  { split.
    - apply Qmult_le_0_compat; [apply inject_Z_nonneg; lia|].
      apply Qlt_le_weak, Qinv_lt_0_compat, inject_Z_pos, Ht.
    - assert (E : 1 == inject_Z t / inject_Z t).
      { symmetry. apply Qmult_inv_r. intros H. apply inject_Z_pos in Ht.
        rewrite H in Ht. discriminate. }
      rewrite E. apply quotient_le; lia. }
  assert (Ex : x == 100 * q0).
  { unfold x, q0. change (inject_Z 100) with 100. unfold Qdiv. ring. }
  assert (Ey : y = fl (fl q0 * inject_Z 100)) by reflexivity.
  destruct (fl_error q0 (proj1 Hq0)) as [Q1 Q2].
  set (q := fl q0) in *.
  assert (Hq : 0 <= q) by apply fl_nonneg.
  assert (Hq100 : 0 <= q * inject_Z 100).
  { apply Qmult_le_0_compat; [exact Hq | discriminate]. }
  destruct (fl_error (q * inject_Z 100) Hq100) as [Y1 Y2].
  rewrite <- Ey in Y1, Y2.
  change (inject_Z 100) with 100 in Y1, Y2.
  assert (He : 0 < eps) by apply pow_pos.
  assert (He1 : eps <= 1 # 2) by (unfold eps; apply (pow_le (-53) (-1)); lia).
  rewrite Ex. destruct Hq0 as [Hq00 Hq01]. clear Ex.
  clearbody q0 q y. clear x.
  assert (A1 : 0 <= q0 * eps /\ q0 * eps <= eps).
  { split; [apply Qmult_le_0_compat; lra|].
    rewrite <- (Qmult_1_l eps) at 2. apply Qmult_le_compat_r; lra. }
  assert (Hq32 : q <= 3 # 2) by lra.
  assert (A2 : 0 <= q * eps /\ q * eps <= (3 # 2) * eps).
  { split; [apply Qmult_le_0_compat; lra|]. apply Qmult_le_compat_r; lra. }
  split; lra.
Qed.


(** [Math.round] of the twice-rounded product is a nearest integer of the
    exact percentage: the rounding error is far below the distance between
    a fraction over [t] and a half-integer it does not equal. *)
Lemma percentOf_nearest (c t : Z) :
  (0 <= c <= t)%Z -> (0 < t <= 2 ^ 35)%Z ->
  (- t <= 2 * (percentOf c t * t - 100 * c) <= t)%Z.
Proof.
  intros Hc [Ht Ht35].
  destruct (percent_error c t Hc Ht) as [E1 E2]. cbv zeta in E1, E2.
  set (y := mul (div (inject_Z c) (inject_Z t)) (inject_Z 100)) in *.
  assert (Hp : percentOf c t = Qfloor (y + (1 # 2))) by reflexivity.
  destruct (floor_bounds (y + (1 # 2))) as [F1 F2]. rewrite <- Hp in F1, F2.
  set (p := percentOf c t) in *. clearbody p y. clear Hp.
  assert (PT : 0 < inject_Z t) by (apply inject_Z_pos, Ht).
  assert (T35 : inject_Z t <= inject_Z (2 ^ 35)) by (rewrite <- Zle_Qle; exact Ht35).
  assert (Ex : inject_Z 100 * inject_Z c / inject_Z t * inject_Z t
               == inject_Z 100 * inject_Z c).
  { field. intros H. rewrite H in PT. discriminate. }
  set (x := inject_Z 100 * inject_Z c / inject_Z t) in *.
  assert (He : 0 < eps) by apply pow_pos.
  assert (E35 : eps * inject_Z (2 ^ 35) == 1 # 262144).
  { unfold eps. rewrite pow_inject, <- pow_add by lia. reflexivity. }
  assert (ET : eps * inject_Z t <= 1 # 262144).
  { rewrite <- E35. apply Qmult_le_l; assumption. }
  change (inject_Z 100) with 100 in Ex.
  assert (U : inject_Z p * inject_Z t <= (x + 300 * eps + (1 # 2)) * inject_Z t).
  { apply Qmult_le_compat_r; [lra | lra]. }
  assert (L : (x - 300 * eps - (1 # 2)) * inject_Z t <= inject_Z p * inject_Z t).
  { apply Qmult_le_compat_r; [lra | lra]. }
  assert (U' : 2 * inject_Z p * inject_Z t - 200 * inject_Z c - inject_Z t < 1) by lra.
  assert (L' : -1 < 2 * inject_Z p * inject_Z t - 200 * inject_Z c + inject_Z t) by lra.
  assert (UZ : inject_Z (2 * p * t - 200 * c - t) < inject_Z 1).
  { unfold Z.sub. rewrite !inject_Z_plus, !inject_Z_opp, !inject_Z_mult.
    change (inject_Z 2) with 2. change (inject_Z 200) with 200.
    change (inject_Z 1) with 1. lra. }
  assert (LZ : inject_Z (-1) < inject_Z (2 * p * t - 200 * c + t)).
  { unfold Z.sub. rewrite !inject_Z_plus, !inject_Z_opp, !inject_Z_mult.
    change (inject_Z 2) with 2. change (inject_Z 200) with 200.
    change (inject_Z (-1)) with (-1). lra. }
  rewrite <- Zlt_Qlt in UZ, LZ. lia.
Qed.

End Numbers.

(** * Invariants of the reachable states *)

(** The chunk of index [j] as [processNextChunk] builds it for the closure
    [c]. *)
Definition chunk_of (c : Closure.t) (j : Z) : FileChunk.t :=
  FileChunk.mk (Closure.id c) j (Closure.totalChunks c)
    (File.slice (Closure.file c) (j * chunkSize)
       (Z.min (j * chunkSize + chunkSize) (File.size (Closure.file c)))).

(** The puts of one file in a log, and the puts of its first [k] chunks written
    one after the other. *)
Definition is_put (id : Z) (e : Effect) : Prop :=
  match e with
  | PutStarted i _ | PutCommitted i _ => i = id
  | _ => False
  end.

#[global] Instance is_put_dec id e : Decision (is_put id e).
Proof. destruct e; simpl; apply _. Defined.

Definition puts_of (id : Z) (l : list Effect) : list Effect := filter (is_put id) l.

Definition puts_until (id : Z) (k : Z) : list Effect :=
  seqZ 0 k ≫= λ j, [PutStarted id j; PutCommitted id j].

(** The progress a live closure shows. *)
Definition progress_of (c : Closure.t) : Z :=
  if Closure.currentChunk c =? 0 then 0
  else percentOf (Closure.currentChunk c) (Closure.totalChunks c).

(** What the phase says about the fields, and about the put that was
    started and has not committed. *)
Definition phase_ok (c : Closure.t) : Prop :=
  let p := Closure.placeholder c in
  match Closure.phase c with
  | AwaitRead blob =>
      Closure.currentChunk c < Closure.totalChunks c ∧
      blob = FileChunk.data (chunk_of c (Closure.currentChunk c)) ∧
      PreviewFile.loading p = true ∧ PreviewFile.progress p = progress_of c
  | AwaitSave chunk =>
      Closure.currentChunk c < Closure.totalChunks c ∧
      chunk = chunk_of c (Closure.currentChunk c) ∧
      PreviewFile.loading p = true ∧ PreviewFile.progress p = progress_of c
  | AwaitTimer =>
      PreviewFile.loading p = true ∧ PreviewFile.progress p = progress_of c
  | Finished =>
      Closure.currentChunk c = Closure.totalChunks c ∧
      PreviewFile.loading p = false ∧ PreviewFile.progress p = 100
  | Aborted _ =>
      Closure.currentChunk c < Closure.totalChunks c ∧
      PreviewFile.loading p = false ∧ PreviewFile.progress p = progress_of c
  | Stalled chunk =>
      Closure.currentChunk c < Closure.totalChunks c ∧
      chunk = chunk_of c (Closure.currentChunk c) ∧
      PreviewFile.loading p = true ∧ PreviewFile.progress p = progress_of c
  end.

Definition pending (c : Closure.t) : list Effect :=
  match Closure.phase c with
  | AwaitSave _ | Aborted true | Stalled _ =>
      [PutStarted (Closure.id c) (Closure.currentChunk c)]
  | _ => []
  end.

Record cell_inv (db : option IDB.Database) (lg : list Effect) (r : nat) (c : Closure.t)
  : Prop := {
  ci_id : Closure.id c = Z.of_nat r + 1;
  ci_pid : PreviewFile.id (Closure.placeholder c) = Closure.id c;
  ci_total : Closure.totalChunks c = totalChunksOf (File.size (Closure.file c));
  ci_ptotal : PreviewFile.totalChunks (Closure.placeholder c) = Some (Closure.totalChunks c);
  ci_cur : 0 <= Closure.currentChunk c <= Closure.totalChunks c;
  ci_phase : phase_ok c;
  ci_rows : ∀ j, 0 <= j < Closure.currentChunk c →
            ∃ d, db = Some d ∧ IDB.chunks d !! (Closure.id c, j) = Some (chunk_of c j);
  ci_log : puts_of (Closure.id c) lg
           = puts_until (Closure.id c) (Closure.currentChunk c) ++ pending c
}.

(** Every start of a put after the first follows the commit of the one
    before. *)
Definition ordered (lg : list Effect) : Prop :=
  ∀ l1 l2 id i, 0 <= i → lg = l1 ++ PutStarted id (i + 1) :: l2 → PutCommitted id i ∈ l1.

Record inv (h : list Closure.t) (n : Z) (db : option IDB.Database) (lg : list Effect)
  : Prop := {
  inv_counter : n = Z.of_nat (length h);
  inv_index : ∀ d, db = Some d → IDB.indexNames d = [];
  inv_fresh : ∀ id, Z.of_nat (length h) < id → puts_of id lg = [];
  inv_ordered : ordered lg;
  inv_cells : ∀ r c, h !! r = Some c → cell_inv db lg r c
}.

Definition Inv (w : World) : Prop := inv (heap w) (idCounter w) (dbPromise w) (log w).

(** ** Lists of effects *)

Lemma puts_of_app id l1 l2 : puts_of id (l1 ++ l2) = puts_of id l1 ++ puts_of id l2.
Proof. apply filter_app. Qed.

Lemma puts_of_put id e : is_put id e → puts_of id [e] = [e].
Proof. intros H. unfold puts_of. rewrite filter_cons_True by exact H. reflexivity. Qed.

Lemma puts_of_other id e : ¬ is_put id e → puts_of id [e] = [].
Proof. intros H. unfold puts_of. rewrite filter_cons_False by exact H. reflexivity. Qed.

Lemma puts_until_succ id k :
  0 <= k → puts_until id (k + 1) = puts_until id k ++ [PutStarted id k; PutCommitted id k].
Proof.
  intros Hk. unfold puts_until.
  rewrite seqZ_app by lia. rewrite bind_app.
  rewrite (seqZ_cons (0 + k) 1), (seqZ_nil _ (Z.pred 1)) by lia. simpl.
  rewrite Z.add_0_l. reflexivity.
Qed.

Lemma puts_until_0 id : puts_until id 0 = [].
Proof. reflexivity. Qed.

Lemma committed_in_puts_until id k j :
  0 <= j < k → PutCommitted id j ∈ puts_until id k.
Proof.
  intros H. unfold puts_until. apply list_elem_of_bind.
  exists j. split; [repeat constructor|]. apply elem_of_seqZ. lia.
Qed.

Lemma elem_of_puts_of id e l : e ∈ puts_of id l → e ∈ l.
Proof. unfold puts_of. rewrite list_elem_of_filter. tauto. Qed.

(** Where an element of [lg ++ l] stands. *)
Lemma app_split_cases {A} (lg l l1 l2 : list A) (x : A) :
  lg ++ l = l1 ++ x :: l2 →
  (∃ l2', lg = l1 ++ x :: l2') ∨ (∃ l1', l1 = lg ++ l1' ∧ l = l1' ++ x :: l2).
Proof.
  revert l1. induction lg as [|a lg IH]; intros l1 H.
  - right. exists l1. auto.
  - destruct l1 as [|b l1]; simpl in H.
    + injection H as -> H. left. exists lg. reflexivity.
    + injection H as -> H. destruct (IH _ H) as [[l2' ->]|[l1' [-> ->]]].
      * left. exists l2'. reflexivity.
      * right. exists l1'. auto.
Qed.

Lemma ordered_app lg l :
  ordered lg →
  (∀ l1' l2' id i, 0 <= i → l = l1' ++ PutStarted id (i + 1) :: l2' →
                   PutCommitted id i ∈ lg ++ l1') →
  ordered (lg ++ l).
Proof.
  intros Ho Hl l1 l2 id i Hi E.
  destruct (app_split_cases _ _ _ _ _ E) as [[l2' ->]|[l1' [-> ->]]].
  - eapply Ho; [exact Hi | reflexivity].
  - eapply Hl; [exact Hi | reflexivity].
Qed.

Lemma ordered_app_quiet lg l :
  ordered lg → (∀ id i, PutStarted id i ∉ l) → ordered (lg ++ l).
Proof.
  intros Ho Hl. apply ordered_app; [exact Ho|].
  intros l1' l2' id i _ ->. exfalso. apply (Hl id (i + 1)).
  apply elem_of_app. right. constructor.
Qed.

(** ** Frames: what a step on one closure leaves to the others *)

Definition db_frame (id : Z) (db db' : option IDB.Database) : Prop :=
  match db, db' with
  | Some d, Some d' =>
      IDB.indexNames d' = IDB.indexNames d ∧
      ∀ k, k.1 ≠ id → IDB.chunks d' !! k = IDB.chunks d !! k
  | None, None => True
  | _, _ => False
  end.

Lemma db_frame_refl id db : db_frame id db db.
Proof. destruct db; simpl; auto. Qed.

Lemma cell_inv_frame db db' lg l r c id :
  cell_inv db lg r c → Closure.id c ≠ id → db_frame id db db' →
  puts_of (Closure.id c) l = [] → cell_inv db' (lg ++ l) r c.
Proof.
  intros [] Hne Hdb Hl. split; try assumption.
  - intros j Hj. destruct (ci_rows0 j Hj) as [d [-> Hd]].
    destruct db' as [d'|]; simpl in Hdb; [|contradiction].
    exists d'. split; [reflexivity|]. destruct Hdb as [_ Hk].
    rewrite Hk; [exact Hd | exact Hne].
  - rewrite puts_of_app, Hl, app_nil_r. assumption.
Qed.

Lemma inv_set_cell h n db lg r c c' db' l :
  inv h n db lg → h !! r = Some c →
  db_frame (Closure.id c) db db' →
  (∀ id, id ≠ Closure.id c → puts_of id l = []) →
  (∀ l1' l2' id i, 0 <= i → l = l1' ++ PutStarted id (i + 1) :: l2' →
                   PutCommitted id i ∈ lg ++ l1') →
  cell_inv db' (lg ++ l) r c' →
  inv (<[r := c']> h) n db' (lg ++ l).
Proof.
  intros [] Hr Hdb Hl Ho Hc'.
  pose proof (lookup_lt_Some _ _ _ Hr) as Hlt.
  pose proof (ci_id _ _ _ _ (inv_cells0 r c Hr)) as Hid.
  split.
  - rewrite length_insert. assumption.
  - intros d' ->. destruct db as [d|]; simpl in Hdb; [|contradiction].
    destruct Hdb as [-> _]. apply inv_index0. reflexivity.
  - intros id Hlen. rewrite length_insert in Hlen.
    rewrite puts_of_app, inv_fresh0 by exact Hlen. apply Hl. lia.
  - apply ordered_app; assumption.
  - intros r' c2 H2. destruct (decide (r' = r)) as [->|Hne].
    + rewrite list_lookup_insert_eq in H2 by exact Hlt. congruence.
    + rewrite list_lookup_insert_ne in H2 by congruence.
      pose proof (inv_cells0 r' c2 H2) as I2.
      apply cell_inv_frame with (db := db) (id := Closure.id c); try assumption.
      * rewrite (ci_id _ _ _ _ I2), Hid. lia.
      * apply Hl. rewrite (ci_id _ _ _ _ I2), Hid. lia.
Qed.

(** A step that leaves the closures, the store and the puts alone. *)
Lemma inv_quiet h n db lg l :
  inv h n db lg → (∀ id, puts_of id l = []) → (∀ id i, PutStarted id i ∉ l) →
  inv h n db (lg ++ l).
Proof.
  intros [] Hl Hs. split; try assumption.
  - intros id Hlen. rewrite puts_of_app, inv_fresh0, Hl by exact Hlen. reflexivity.
  - apply ordered_app_quiet; assumption.
  - intros r c Hr. apply cell_inv_frame with (db := db) (id := Closure.id c + 1).
    + apply inv_cells0, Hr.
    + lia.
    + apply db_frame_refl.
    + apply Hl.
Qed.

(** ** The steps of a closure keep the invariant *)

Lemma lg_nil (lg : list Effect) : lg = lg ++ [].
Proof. symmetry. apply app_nil_r. Qed.

Lemma Inv_processNextChunk w r c :
  Inv w → heap w !! r = Some c → Closure.phase c = AwaitTimer →
  Inv (processNextChunk r w).
Proof.
  intros HI Hr Hph. unfold processNextChunk. rewrite Hr.
  pose proof (inv_cells _ _ _ _ HI r c Hr) as [].
  unfold phase_ok in ci_phase0. rewrite Hph in ci_phase0. destruct ci_phase0 as [Hl Hp].
  unfold Inv in *.
  destruct (Z.leb_spec (Closure.totalChunks c) (Closure.currentChunk c)) as [Hle|Hlt];
    unfold set_cell, with_heap; simpl; rewrite (lg_nil (log w)).
  - apply inv_set_cell with (c := c) (db := dbPromise w); try assumption.
    + apply db_frame_refl.
    + intros; reflexivity.
    + intros [|? ?] ? ? ? ? E; simplify_eq.
    + rewrite app_nil_r. split; simpl; try assumption.
      * unfold phase_ok; simpl. repeat split. lia.
      * unfold pending in *; simpl. rewrite Hph in ci_log0. exact ci_log0.
  - apply inv_set_cell with (c := c) (db := dbPromise w); try assumption.
    + apply db_frame_refl.
    + intros; reflexivity.
    + intros [|? ?] ? ? ? ? E; simplify_eq.
    + rewrite app_nil_r. split; simpl; try assumption.
      * unfold phase_ok; simpl. repeat split; assumption.
      * unfold pending in *; simpl. rewrite Hph in ci_log0. exact ci_log0.
Qed.

Lemma Inv_catchError w r c (inSave : bool) :
  Inv w → heap w !! r = Some c →
  Closure.currentChunk c < Closure.totalChunks c →
  PreviewFile.progress (Closure.placeholder c) = progress_of c →
  pending c = (if inSave then [PutStarted (Closure.id c) (Closure.currentChunk c)] else []) →
  Inv (catchError r c inSave w).
Proof.
  intros HI Hr Hlt Hp Hpend. pose proof (inv_cells _ _ _ _ HI r c Hr) as [].
  unfold Inv, catchError, emit, set_cell, with_heap in *; simpl.
  apply inv_set_cell with (c := c) (db := dbPromise w); try assumption.
  - apply db_frame_refl.
  - intros; reflexivity.
  - intros [|? [|? ?]] ? ? ? ? E; simplify_eq.
  - split; simpl; try assumption.
    + unfold phase_ok; simpl. repeat split; assumption.
    + rewrite puts_of_app, ci_log0, Hpend. unfold pending; simpl.
      destruct inSave; rewrite app_nil_r; reflexivity.
Qed.

Lemma Inv_onReadSettled w r ok : Inv w → Inv (onReadSettled r ok w).
Proof.
  intros HI. unfold onReadSettled.
  destruct (heap w !! r) as [c|] eqn:Hr; [|exact HI].
  destruct (Closure.phase c) as [blob|chunk| | |b|stuck] eqn:Hph; try exact HI.
  pose proof (inv_cells _ _ _ _ HI r c Hr) as [].
  unfold phase_ok in ci_phase0. rewrite Hph in ci_phase0.
  destruct ci_phase0 as (Hlt & -> & Hl & Hp).
  destruct ok.
  - unfold Inv, emit, set_cell, with_heap in *; simpl.
    apply inv_set_cell with (c := c) (db := dbPromise w); try assumption.
    + apply db_frame_refl.
    + intros id Hne. apply puts_of_other. simpl. congruence.
    + intros [|? [|? ?]] ? id i Hi E; simplify_eq.
      simpl in E. injection E as Eid Ecur _. subst id.
      rewrite app_nil_r. apply (elem_of_puts_of (Closure.id c)).
      rewrite ci_log0. apply elem_of_app. left.
      apply committed_in_puts_until. lia.
    + split; simpl; try assumption.
      * unfold phase_ok; simpl. repeat split; assumption.
      * rewrite puts_of_app, ci_log0. unfold pending; simpl. rewrite Hph.
        rewrite app_nil_r, puts_of_put by reflexivity. reflexivity.
  - apply Inv_catchError; try assumption.
    unfold pending. rewrite Hph. reflexivity.
Qed.

Lemma Inv_onSaveSettled w r txOk : Inv w → Inv (onSaveSettled r txOk w).
Proof.
  intros HI. unfold onSaveSettled.
  destruct (heap w !! r) as [c|] eqn:Hr; [|exact HI].
  destruct (Closure.phase c) as [blob|chunk| | |b|stuck] eqn:Hph; try exact HI.
  pose proof (inv_cells _ _ _ _ HI r c Hr) as [].
  unfold phase_ok in ci_phase0. rewrite Hph in ci_phase0.
  destruct ci_phase0 as (Hlt & -> & Hl & Hp).
  assert (Hab : Inv (catchError r c true w)).
  { apply Inv_catchError; try assumption. unfold pending. rewrite Hph. reflexivity. }
  unfold saveChunk. destruct (dbPromise w) as [db|] eqn:Hdb; [|exact Hab].
  destruct txOk; [|exact Hab].
  unfold Inv, emit, set_cell, with_heap, with_db in *; simpl. rewrite Hdb in HI.
  apply inv_set_cell with (c := c) (db := Some db); try assumption.
  - simpl. split; [reflexivity|]. intros k Hk.
    apply lookup_insert_ne. intros E. apply Hk. rewrite <- E. reflexivity.
  - intros id Hne. apply puts_of_other. simpl. congruence.
  - intros [|? [|? ?]] ? ? ? ? E; simplify_eq.
  - split; simpl; try assumption.
    + lia.
    + unfold phase_ok; simpl. split; [exact Hl|].
      unfold progress_of; simpl.
      destruct (Z.eqb_spec (Closure.currentChunk c + 1) 0); [lia | reflexivity].
    + intros j Hj. exists (IDB.put (chunk_of c (Closure.currentChunk c)) db).
      split; [reflexivity|]. simpl.
      destruct (decide (j = Closure.currentChunk c)) as [->|Hne].
      * apply lookup_insert_eq.
      * rewrite lookup_insert_ne by congruence.
        destruct (ci_rows0 j) as [d [Ed Hd]]; [lia|].
        injection Ed as <-. exact Hd.
    + rewrite puts_of_app, ci_log0. unfold pending; simpl. rewrite Hph.
      rewrite puts_of_put by reflexivity.
      rewrite puts_until_succ by lia. rewrite <- !app_assoc, app_nil_r. reflexivity.
Qed.

Lemma Inv_onTimer w r : Inv w → Inv (onTimer r w).
Proof.
  intros HI. unfold onTimer.
  destruct (heap w !! r) as [c|] eqn:Hr; [|exact HI].
  destruct (Closure.phase c) eqn:Hph; try exact HI.
  apply Inv_processNextChunk with (c := c); assumption.
Qed.

(** ** [handleFiles] keeps the invariant *)

Lemma heap_with_items type l w : heap (with_items type l w) = heap w.
Proof. destruct type; reflexivity. Qed.

Lemma idCounter_with_items type l w : idCounter (with_items type l w) = idCounter w.
Proof. destruct type; reflexivity. Qed.

Lemma dbPromise_with_items type l w : dbPromise (with_items type l w) = dbPromise w.
Proof. destruct type; reflexivity. Qed.

Lemma log_with_items type l w : log (with_items type l w) = log w.
Proof. destruct type; reflexivity. Qed.

Lemma Inv_with_items type l w : Inv w → Inv (with_items type l w).
Proof.
  unfold Inv.
  rewrite heap_with_items, idCounter_with_items, dbPromise_with_items, log_with_items.
  auto.
Qed.

Lemma heap_assign_items type l w : heap (assign_items type l w) = heap w.
Proof. destruct type; reflexivity. Qed.

Lemma idCounter_assign_items type l w : idCounter (assign_items type l w) = idCounter w.
Proof. destruct type; reflexivity. Qed.

Lemma dbPromise_assign_items type l w : dbPromise (assign_items type l w) = dbPromise w.
Proof. destruct type; reflexivity. Qed.

Lemma log_assign_items type l w : log (assign_items type l w) = log w.
Proof. destruct type; reflexivity. Qed.

Lemma Inv_assign_items type l w : Inv w → Inv (assign_items type l w).
Proof.
  unfold Inv.
  rewrite heap_assign_items, idCounter_assign_items, dbPromise_assign_items,
    log_assign_items.
  auto.
Qed.

Lemma Inv_handleFile type w file : Inv w → Inv (handleFile type w file).
Proof.
  intros HI. unfold handleFile.
  set (c0 := Closure.mk file (idCounter w + 1) (totalChunksOf (File.size file))
               (PreviewFile.mk (idCounter w + 1) (File.name file) (File.size file)
                  (Some (nextUrl w)) (Some (nextUrl w)) true 0
                  (Some (totalChunksOf (File.size file))))
               0 AwaitTimer).
  set (w1 := mkWorld _ _ _ _ _ _ _ _ _).
  apply Inv_processNextChunk with (c := c0); [apply Inv_with_items| |reflexivity].
  - destruct HI as []. unfold Inv, w1; simpl. split.
    + rewrite length_app; simpl. lia.
    + assumption.
    + intros id Hid. rewrite length_app in Hid; simpl in Hid. apply inv_fresh0. lia.
    + assumption.
    + intros r c Hr. destruct (decide (r < length (heap w))%nat) as [Hlt|Hge].
      * rewrite lookup_app_l in Hr by exact Hlt. apply inv_cells0, Hr.
      * rewrite lookup_app_r in Hr by lia.
        destruct (r - length (heap w))%nat as [|k] eqn:Ek; simpl in Hr; [|discriminate].
        injection Hr as <-.
        assert (r = length (heap w)) as -> by lia.
        split; simpl; try reflexivity.
        -- lia.
        -- split; [lia | apply totalChunksOf_nonneg].
        -- unfold phase_ok; simpl. split; reflexivity.
        -- intros j Hj. lia.
        -- rewrite inv_fresh0 by lia. reflexivity.
  - rewrite heap_with_items. unfold w1; simpl.
    rewrite lookup_app_r by lia. rewrite Nat.sub_diag. reflexivity.
Qed.

Lemma Inv_handleFiles files type w : Inv w → Inv (handleFiles files type w).
Proof.
  unfold handleFiles. revert w.
  induction files as [|f fs IH]; intros w HI; simpl; [exact HI|].
  apply IH, Inv_handleFile, HI.
Qed.

(** ** Removal and export keep the invariant *)

(** While the store has no index [fileId], [clearChunksByFileId] rejects and
    changes nothing but the log. *)
Lemma clearChunksByFileId_rejects w fileId txOk :
  (∀ d, dbPromise w = Some d → IDB.indexNames d = []) →
  ∃ e, clearChunksByFileId fileId txOk w = (Rejected e, emit (ClearFailed fileId e) w).
Proof.
  intros Hidx. unfold clearChunksByFileId.
  destruct (dbPromise w) as [d|] eqn:Hd; [|eauto].
  rewrite (Hidx d eq_refl). simpl. eauto.
Qed.

Lemma Inv_emit e w :
  (∀ id, ¬ is_put id e) → Inv w → Inv (emit e w).
Proof.
  intros He HI. unfold Inv, emit; simpl. apply inv_quiet; [exact HI| |].
  - intros id. apply puts_of_other, He.
  - intros id i Hin. apply list_elem_of_singleton in Hin. subst e.
    apply (He id). reflexivity.
Qed.

Lemma Inv_revokeObjectUrl it w : Inv w → Inv (revokeObjectUrl it w).
Proof.
  intros HI. unfold revokeObjectUrl. destruct (PreviewFile.objectUrl it); [|exact HI].
  apply Inv_emit; [|exact HI]. intros id H. exact H.
Qed.

Lemma Inv_removePreview id txOk w : Inv w → Inv (removePreview id txOk w).2.
Proof.
  intros HI. unfold removePreview.
  destruct (clearChunksByFileId_rejects w id txOk (inv_index _ _ _ _ HI)) as [e ->].
  simpl. apply Inv_emit; [|exact HI]. intros i H. exact H.
Qed.

Lemma Inv_removeAllItem txOk w it : Inv w → Inv (removeAllItem txOk w it).
Proof.
  intros HI. unfold removeAllItem.
  destruct (clearChunksByFileId_rejects w (PreviewFile.id it) (txOk (PreviewFile.id it))
              (inv_index _ _ _ _ HI)) as [e ->].
  apply Inv_emit; [|exact HI]. intros i H. exact H.
Qed.

Lemma Inv_removeAll type txOk w : Inv w → Inv (removeAll type txOk w).
Proof.
  intros HI. unfold removeAll.
  generalize (records type w). intros captured.
  assert (H1 : Inv (emit (Emptied type) (assign_items type [] w))).
  { apply Inv_emit; [intros i H; exact H | apply Inv_assign_items, HI]. }
  revert H1. generalize (emit (Emptied type) (assign_items type [] w)).
  induction captured as [|it its IH]; intros w1 H1; simpl; [exact H1|].
  apply IH, Inv_removeAllItem, H1.
Qed.

Lemma Inv_with_localStorage s w : Inv w → Inv (with_localStorage s w).
Proof. intros HI. exact HI. Qed.

Lemma Inv_with_uploads us w : Inv w → Inv (with_uploads us w).
Proof. intros HI. exact HI. Qed.

Lemma Inv_nextRecord u a w : Inv w → Inv (nextRecord u a w).
Proof.
  intros HI. unfold nextRecord. destruct (array_of a w !! Upload.next a).
  - apply Inv_with_uploads, HI.
  - apply Inv_emit; [intros i Hp; exact Hp | apply Inv_with_uploads, HI].
Qed.

Lemma Inv_uploadAll type now w : Inv w → Inv (uploadAll type now w).
Proof.
  intros HI. unfold uploadAll. case_bool_decide; [exact HI|].
  apply Inv_with_uploads, Inv_emit; [intros i Hp; exact Hp|].
  apply Inv_with_localStorage, HI.
Qed.

Lemma Inv_onDbSettled u w : Inv w → Inv (onDbSettled u w).
Proof.
  intros HI. unfold onDbSettled.
  destruct (uploads w !! u) as [a|]; [|exact HI].
  destruct (Upload.phase a); try exact HI.
  destruct (dbPromise w); [apply Inv_nextRecord, HI | apply Inv_with_uploads, HI].
Qed.

Lemma Inv_onGetAllSettled u ok w : Inv w → Inv (onGetAllSettled u ok w).
Proof.
  intros HI. unfold onGetAllSettled.
  destruct (uploads w !! u) as [a|]; [|exact HI].
  destruct (Upload.phase a) as [|ref|o]; try exact HI.
  destruct ok; [|apply Inv_with_uploads, HI].
  destruct (dbPromise w) as [db|]; [|exact HI].
  destruct (deref w ref) as [f|]; [|exact HI].
  apply Inv_nextRecord. case_bool_decide; [|exact HI].
  apply Inv_emit; [intros i Hp; exact Hp | exact HI].
Qed.

Lemma Inv_onSaveAborted w r : Inv w → Inv (onSaveAborted r w).
Proof.
  intros HI. unfold onSaveAborted.
  destruct (heap w !! r) as [c|] eqn:Hr; [|exact HI].
  destruct (Closure.phase c) as [blob|chunk| | |b|stuck] eqn:Hph; try exact HI.
  destruct (dbPromise w) as [db|] eqn:Hdb; [|exact HI].
  pose proof (inv_cells _ _ _ _ HI r c Hr) as [].
  unfold phase_ok in ci_phase0. rewrite Hph in ci_phase0.
  unfold Inv, set_cell, with_heap in *; simpl. rewrite (lg_nil (log w)).
  rewrite Hdb in *.
  apply inv_set_cell with (c := c) (db := Some db); try assumption.
  - apply db_frame_refl.
  - intros; reflexivity.
  - intros [|? ?] ? ? ? ? E; simplify_eq.
  - rewrite app_nil_r. split; simpl; try assumption.
    unfold pending in *; simpl. rewrite Hph in ci_log0. exact ci_log0.
Qed.

Theorem Inv_step w e : Inv w → Inv (step w e).
Proof.
  intros HI. destruct e; simpl.
  - apply Inv_handleFiles, HI.
  - apply Inv_onReadSettled, HI.
  - apply Inv_onSaveSettled, HI.
  - apply Inv_onTimer, HI.
  - apply Inv_removePreview, HI.
  - apply Inv_removeAll, HI.
  - apply Inv_uploadAll, HI.
  - apply Inv_onSaveAborted, HI.
  - apply Inv_onDbSettled, HI.
  - apply Inv_onGetAllSettled, HI.
Qed.

Lemma Inv_run evs w : Inv w → Inv (run evs w).
Proof.
  unfold run. revert w. induction evs as [|e evs IH]; intros w HI; simpl; [exact HI|].
  apply IH, Inv_step, HI.
Qed.

Lemma Inv_initial supported persisted stored : Inv (initial supported persisted stored).
Proof.
  unfold Inv, initial; simpl. split.
  - reflexivity.
  - intros d Hd. unfold openDB in Hd. destruct supported; [|discriminate].
    injection Hd as <-. reflexivity.
  - intros id _. reflexivity.
  - intros [|? ?] ? ? ? ? E; discriminate.
  - intros r c Hr. discriminate.
Qed.

Theorem Inv_reachable supported persisted stored evs :
  Inv (run evs (initial supported persisted stored)).
Proof. apply Inv_run, Inv_initial. Qed.

(** * How one step moves one closure *)

(** The closure that [handleFile] allocates, before [processNextChunk]
    runs on it. *)
Definition fresh_closure (w : World) (file : File.t) : Closure.t :=
  Closure.mk file (idCounter w + 1) (totalChunksOf (File.size file))
    (PreviewFile.mk (idCounter w + 1) (File.name file) (File.size file)
       (Some (nextUrl w)) (Some (nextUrl w)) true 0
       (Some (totalChunksOf (File.size file))))
    0 AwaitTimer.

(** What [processNextChunk] makes of a closure. *)
Definition started (c : Closure.t) : Closure.t :=
  if Closure.totalChunks c <=? Closure.currentChunk c then markLoaded c
  else
    Closure.with_phase
      (AwaitRead (File.slice (Closure.file c) (Closure.currentChunk c * chunkSize)
                    (Z.min (Closure.currentChunk c * chunkSize + chunkSize)
                           (File.size (Closure.file c)))))
      c.

Lemma processNextChunk_cell w r c :
  heap w !! r = Some c → processNextChunk r w = set_cell r (started c) w.
Proof.
  intros Hr. unfold processNextChunk, started. rewrite Hr.
  destruct (Closure.totalChunks c <=? Closure.currentChunk c); reflexivity.
Qed.

Lemma handleFile_heap type w file :
  heap (handleFile type w file) = heap w ++ [started (fresh_closure w file)].
Proof.
  unfold handleFile. fold (fresh_closure w file).
  set (w1 := mkWorld _ _ _ _ _ _ _ _ _).
  rewrite (processNextChunk_cell _ _ (fresh_closure w file)).
  - unfold set_cell, with_heap; simpl. rewrite heap_with_items. unfold w1; simpl.
    replace (length (heap w)) with (length (heap w) + 0)%nat by lia.
    rewrite insert_app_r. reflexivity.
  - rewrite heap_with_items. unfold w1; simpl.
    rewrite lookup_app_r by lia. rewrite Nat.sub_diag. reflexivity.
Qed.

Lemma handleFile_idCounter type w file :
  idCounter (handleFile type w file) = idCounter w + 1.
Proof.
  unfold handleFile. fold (fresh_closure w file).
  set (w1 := mkWorld _ _ _ _ _ _ _ _ _).
  rewrite (processNextChunk_cell _ _ (fresh_closure w file)).
  - unfold set_cell, with_heap; simpl. rewrite idCounter_with_items. reflexivity.
  - rewrite heap_with_items. unfold w1; simpl.
    rewrite lookup_app_r by lia. rewrite Nat.sub_diag. reflexivity.
Qed.

Lemma handleFile_log type w file : log (handleFile type w file) = log w.
Proof.
  unfold handleFile. fold (fresh_closure w file).
  set (w1 := mkWorld _ _ _ _ _ _ _ _ _).
  rewrite (processNextChunk_cell _ _ (fresh_closure w file)).
  - unfold set_cell, with_heap; simpl. rewrite log_with_items. reflexivity.
  - rewrite heap_with_items. unfold w1; simpl.
    rewrite lookup_app_r by lia. rewrite Nat.sub_diag. reflexivity.
Qed.

Lemma handleFile_dbPromise type w file : dbPromise (handleFile type w file) = dbPromise w.
Proof.
  unfold handleFile. fold (fresh_closure w file).
  set (w1 := mkWorld _ _ _ _ _ _ _ _ _).
  rewrite (processNextChunk_cell _ _ (fresh_closure w file)).
  - unfold set_cell, with_heap; simpl. rewrite dbPromise_with_items. reflexivity.
  - rewrite heap_with_items. unfold w1; simpl.
    rewrite lookup_app_r by lia. rewrite Nat.sub_diag. reflexivity.
Qed.

(** [handleFiles] appends one closure per file, in order, and leaves the
    closures that exist alone. *)
Lemma handleFiles_heap files type w :
  ∃ cs, heap (handleFiles files type w) = heap w ++ cs ∧
        length cs = length files ∧
        ∀ i file, files !! i = Some file →
          ∃ c, cs !! i = Some c ∧ Closure.file c = file ∧
               Closure.totalChunks c = totalChunksOf (File.size file) ∧
               PreviewFile.totalChunks (Closure.placeholder c)
               = Some (totalChunksOf (File.size file)).
Proof.
  unfold handleFiles. revert w. induction files as [|f fs IH]; intros w; simpl.
  - exists []. rewrite app_nil_r. split; [reflexivity|]. split; [reflexivity|].
    intros i file H. discriminate.
  - destruct (IH (handleFile type w f)) as (cs & Hh & Hlen & Hcs).
    rewrite handleFile_heap in Hh.
    exists (started (fresh_closure w f) :: cs). split; [|split].
    + rewrite Hh, <- app_assoc. reflexivity.
    + simpl. rewrite Hlen. reflexivity.
    + intros [|i] file Hi; simpl in Hi.
      * injection Hi as <-. eexists. split; [reflexivity|].
        unfold started, fresh_closure; simpl.
        destruct (totalChunksOf (File.size f) <=? 0); auto.
      * apply Hcs, Hi.
Qed.

(** * The number of chunks *)

(** The ceiling of the fraction [a / b], as the specification writes it. *)
Definition ceil_div (a b : Z) : Z := Qceiling (inject_Z a / inject_Z b).

Lemma ceil_div_spec (a b : Z) :
  0 < b → (ceil_div a b - 1) * b < a <= ceil_div a b * b.
Proof.
  intros Hb. unfold ceil_div.
  set (x := (inject_Z a / inject_Z b)%Q).
  pose proof (Qle_ceiling x) as Hhi. pose proof (Qceiling_lt x) as Hlo.
  assert (Pb : (0 < inject_Z b)%Q) by (apply inject_Z_pos, Hb).
  assert (Ex : (x * inject_Z b == inject_Z a)%Q).
  { unfold x. field. intros H. rewrite H in Pb. discriminate. }
  split.
  - rewrite Zlt_Qlt, inject_Z_mult, <- Ex.
    apply Qmult_lt_compat_r; [exact Pb | exact Hlo].
  - rewrite Zle_Qle, inject_Z_mult, <- Ex.
    apply Qmult_le_compat_r; [exact Hhi | apply Qlt_le_weak, Pb].
Qed.

Lemma File_size_nonneg (file : File.t) : 0 <= File.size file.
Proof. unfold File.size. lia. Qed.

(** C1. For every file handed to [handleFiles] (of a size that is a safe
    integer, below 2^53), the closure and the placeholder allocated for it
    carry [totalChunks = ceil(size / 262144)]; a file of 300000 bytes gets
    2 chunks. *)
Theorem totalChunks_is_ceiling files type w (i : nat) file :
  files !! i = Some file → File.size file < 2 ^ 53 →
  ∃ c, heap (handleFiles files type w) !! (length (heap w) + i)%nat = Some c ∧
       Closure.file c = file ∧
       Closure.totalChunks c = ceil_div (File.size file) 262144 ∧
       PreviewFile.totalChunks (Closure.placeholder c)
       = Some (ceil_div (File.size file) 262144) ∧
       (File.size file = 300000 → Closure.totalChunks c = 2).
Proof.
  intros Hi Hsz.
  destruct (handleFiles_heap files type w) as (cs & Hh & _ & Hcs).
  destruct (Hcs i file Hi) as (c & Hc & Hf & Ht & Hp).
  assert (E : totalChunksOf (File.size file) = ceil_div (File.size file) 262144).
  { apply totalChunksOf_exact. pose proof (File_size_nonneg file). lia. }
  exists c. rewrite Hh, lookup_app_r by lia.
  replace (length (heap w) + i - length (heap w))%nat with i by lia.
  rewrite Ht, Hp, E. repeat split; try assumption.
  intros ->. reflexivity.
Qed.

Lemma totalChunks_is_ceiling_witness :
  let file := File.mk "clip.mp4" (replicate (Z.to_nat 300000) Byte.x00) in
  ∃ c, heap (handleFiles [file] video (initial true ∅ ∅)) !! 0%nat = Some c ∧
       Closure.file c = file ∧
       Closure.totalChunks c = ceil_div (File.size file) 262144 ∧
       PreviewFile.totalChunks (Closure.placeholder c)
       = Some (ceil_div (File.size file) 262144) ∧
       (File.size file = 300000 → Closure.totalChunks c = 2).
Proof.
  intros file.
  apply (totalChunks_is_ceiling [file] video (initial true ∅ ∅) 0 file).
  - reflexivity.
  - vm_compute. reflexivity.
Defined.

(** * One step, one closure *)

(** The closure after [catch], and after a commit. *)
Definition aborted (inSave : bool) (c : Closure.t) : Closure.t :=
  Closure.with_phase (Aborted inSave)
    (Closure.with_placeholder
       (PreviewFile.with_loading false (Closure.placeholder c)) c).

Definition committed (c : Closure.t) : Closure.t :=
  Closure.with_phase AwaitTimer
    (Closure.with_placeholder
       (PreviewFile.with_progress
          (percentOf (Closure.currentChunk c + 1) (Closure.totalChunks c))
          (Closure.placeholder c))
       (Closure.with_currentChunk (Closure.currentChunk c + 1) c)).

(** The moves of the closure at [r]: each is the answer to one event
    addressed to [r], in the phase that waits for it. *)
Inductive moves (w : World) (r : nat) (c : Closure.t) : Event → Closure.t → Prop :=
  | moves_read_ok blob :
      Closure.phase c = AwaitRead blob →
      moves w r c (ReadSettled r true)
        (Closure.with_phase
           (AwaitSave (FileChunk.mk (Closure.id c) (Closure.currentChunk c)
                         (Closure.totalChunks c) blob)) c)
  | moves_read_fail blob :
      Closure.phase c = AwaitRead blob →
      moves w r c (ReadSettled r false) (aborted false c)
  | moves_save_ok chunk d :
      Closure.phase c = AwaitSave chunk → dbPromise w = Some d →
      moves w r c (SaveSettled r true) (committed c)
  | moves_save_fail chunk txOk :
      Closure.phase c = AwaitSave chunk → txOk = false ∨ dbPromise w = None →
      moves w r c (SaveSettled r txOk) (aborted true c)
  | moves_timer :
      Closure.phase c = AwaitTimer →
      moves w r c (TimerFired r) (started c)
  | moves_save_abort chunk d :
      Closure.phase c = AwaitSave chunk → dbPromise w = Some d →
      moves w r c (SaveAborted r) (Closure.with_phase (Stalled chunk) c).

Lemma heap_emit e w : heap (emit e w) = heap w.
Proof. reflexivity. Qed.

Lemma heap_clearChunksByFileId id txOk w : heap (clearChunksByFileId id txOk w).2 = heap w.
Proof.
  unfold clearChunksByFileId. destruct (dbPromise w); [|reflexivity].
  case_bool_decide; [destruct txOk|]; reflexivity.
Qed.

Lemma heap_revokeObjectUrl it w : heap (revokeObjectUrl it w) = heap w.
Proof. unfold revokeObjectUrl. destruct (PreviewFile.objectUrl it); reflexivity. Qed.

Lemma heap_removeFrom type id w w' : removeFrom type id w = Some w' → heap w' = heap w.
Proof.
  unfold removeFrom. destruct (list_find _ _) as [[k r]|]; [|discriminate].
  intros H. injection H as <-. rewrite heap_emit, heap_assign_items.
  destruct (deref w r); [apply heap_revokeObjectUrl | reflexivity].
Qed.

Lemma heap_removePreview id txOk w : heap (removePreview id txOk w).2 = heap w.
Proof.
  unfold removePreview.
  pose proof (heap_clearChunksByFileId id txOk w) as Hc.
  destruct (clearChunksByFileId id txOk w) as [[|e] w1]; simpl in *; [|exact Hc].
  destruct (removeFrom image id w1) as [w2|] eqn:E1; simpl.
  { rewrite (heap_removeFrom _ _ _ _ E1). exact Hc. }
  destruct (removeFrom video id w1) as [w2|] eqn:E2; simpl.
  { rewrite (heap_removeFrom _ _ _ _ E2). exact Hc. }
  exact Hc.
Qed.

Lemma heap_removeAllItem txOk w it : heap (removeAllItem txOk w it) = heap w.
Proof.
  unfold removeAllItem.
  pose proof (heap_clearChunksByFileId (PreviewFile.id it) (txOk (PreviewFile.id it)) w) as Hc.
  destruct (clearChunksByFileId _ _ w) as [[|e] w1]; simpl in *; [|exact Hc].
  rewrite heap_revokeObjectUrl. exact Hc.
Qed.

Lemma heap_removeAll type txOk w : heap (removeAll type txOk w) = heap w.
Proof.
  unfold removeAll. generalize (records type w). intros captured.
  transitivity (heap (emit (Emptied type) (assign_items type [] w)));
    [|rewrite heap_emit; apply heap_assign_items].
  generalize (emit (Emptied type) (assign_items type [] w)).
  induction captured as [|it its IH]; intros w1; simpl; [reflexivity|].
  rewrite IH. apply heap_removeAllItem.
Qed.

Lemma heap_nextRecord u a w : heap (nextRecord u a w) = heap w.
Proof. unfold nextRecord. destruct (array_of a w !! Upload.next a); reflexivity. Qed.

Lemma heap_uploadAll type now w : heap (uploadAll type now w) = heap w.
Proof. unfold uploadAll. case_bool_decide; reflexivity. Qed.

Lemma heap_onDbSettled u w : heap (onDbSettled u w) = heap w.
Proof.
  unfold onDbSettled. destruct (uploads w !! u) as [a|]; [|reflexivity].
  destruct (Upload.phase a); try reflexivity.
  destruct (dbPromise w); [apply heap_nextRecord | reflexivity].
Qed.

Lemma heap_onGetAllSettled u ok w : heap (onGetAllSettled u ok w) = heap w.
Proof.
  unfold onGetAllSettled. destruct (uploads w !! u) as [a|]; [|reflexivity].
  destruct (Upload.phase a) as [|ref|o]; try reflexivity.
  destruct ok; [|reflexivity].
  destruct (dbPromise w) as [db|]; [|reflexivity].
  destruct (deref w ref) as [f|]; [|reflexivity].
  rewrite heap_nextRecord. case_bool_decide; reflexivity.
Qed.

(** Every step leaves a closure as it is or moves it once. *)
Lemma step_cell w e r c :
  heap w !! r = Some c →
  ∃ c', heap (step w e) !! r = Some c' ∧ (c' = c ∨ moves w r c e c').
Proof.
  intros Hr. pose proof (lookup_lt_Some _ _ _ Hr) as Hlt.
  destruct e as [files type|r' ok|r' txOk|r'|id txOk|type txOk|type now|r'|u|u ok]; simpl.
  - destruct (handleFiles_heap files type w) as (cs & -> & _).
    exists c. rewrite lookup_app_l by exact Hlt. auto.
  - unfold onReadSettled.
    destruct (heap w !! r') as [c2|] eqn:H2; [|eauto].
    destruct (Closure.phase c2) as [blob|chunk| | |b|stuck] eqn:Hph; eauto.
    destruct (decide (r' = r)) as [->|Hne].
    + assert (c2 = c) as -> by congruence.
      destruct ok; unfold catchError; simpl;
        rewrite list_lookup_insert_eq by exact Hlt; eexists; split; try reflexivity;
        right; econstructor; eassumption.
    + exists c. split; [|auto].
      destruct ok; unfold catchError; simpl; rewrite list_lookup_insert_ne by exact Hne;
        exact Hr.
  - unfold onSaveSettled.
    destruct (heap w !! r') as [c2|] eqn:H2; [|eauto].
    destruct (Closure.phase c2) as [blob|chunk| | |b|stuck] eqn:Hph; eauto.
    unfold saveChunk. destruct (decide (r' = r)) as [->|Hne].
    + assert (c2 = c) as -> by congruence.
      destruct (dbPromise w) as [d|] eqn:Hd; [destruct txOk|]; unfold catchError; simpl;
        rewrite list_lookup_insert_eq by exact Hlt; eexists; split; try reflexivity;
        right; econstructor; eauto.
    + exists c. split; [|auto].
      destruct (dbPromise w) as [d|] eqn:Hd; [destruct txOk|]; unfold catchError; simpl;
        rewrite list_lookup_insert_ne by exact Hne; exact Hr.
  - unfold onTimer.
    destruct (heap w !! r') as [c2|] eqn:H2; [|eauto].
    destruct (Closure.phase c2) as [blob|chunk| | |b|stuck] eqn:Hph; eauto.
    rewrite (processNextChunk_cell _ _ _ H2). unfold set_cell; simpl.
    destruct (decide (r' = r)) as [->|Hne].
    + assert (c2 = c) as -> by congruence.
      rewrite list_lookup_insert_eq by exact Hlt. eexists; split; [reflexivity|].
      right. constructor. exact Hph.
    + exists c. rewrite list_lookup_insert_ne by exact Hne. auto.
  - rewrite heap_removePreview. eauto.
  - rewrite heap_removeAll. eauto.
  - rewrite heap_uploadAll. eauto.
  - unfold onSaveAborted.
    destruct (heap w !! r') as [c2|] eqn:H2; [|eauto].
    destruct (Closure.phase c2) as [blob|chunk| | |b|stuck] eqn:Hph; eauto.
    destruct (dbPromise w) as [d|] eqn:Hd; [|eauto].
    unfold set_cell; simpl. destruct (decide (r' = r)) as [->|Hne].
    + assert (c2 = c) as -> by congruence.
      rewrite list_lookup_insert_eq by exact Hlt. eexists; split; [reflexivity|].
      right. econstructor; eassumption.
    + exists c. rewrite list_lookup_insert_ne by exact Hne. auto.
  - rewrite heap_onDbSettled. eauto.
  - rewrite heap_onGetAllSettled. eauto.
Qed.

(** A closure that is over never moves again. *)
Definition terminal (c : Closure.t) : Prop :=
  match Closure.phase c with Finished | Aborted _ | Stalled _ => True | _ => False end.

Lemma terminal_step w e r c :
  heap w !! r = Some c → terminal c → heap (step w e) !! r = Some c.
Proof.
  intros Hr Ht. destruct (step_cell w e r c Hr) as (c' & Hc' & [->|Hm]); [exact Hc'|].
  unfold terminal in Ht.
  destruct Hm as [? H|? H|? ? H|? ? H|H|? ? H]; rewrite H in Ht; contradiction.
Qed.

Lemma terminal_run evs w r c :
  heap w !! r = Some c → terminal c → heap (run evs w) !! r = Some c.
Proof.
  unfold run. revert w. induction evs as [|e evs IH]; intros w Hr Ht; simpl; [exact Hr|].
  apply IH; [apply terminal_step|]; assumption.
Qed.

Lemma run_app evs1 evs2 w : run (evs1 ++ evs2) w = run evs2 (run evs1 w).
Proof. unfold run. apply fold_left_app. Qed.

Lemma run_cons e evs w : run (e :: evs) w = run evs (step w e).
Proof. reflexivity. Qed.

Lemma not_in_puts_of id e l : is_put id e → puts_of id l = [] → e ∉ l.
Proof.
  intros He Hl Hin.
  assert (H : e ∈ puts_of id l) by (apply list_elem_of_filter; auto).
  rewrite Hl in H. inversion H.
Qed.

(** C10. A zero-byte file completes inside [handleFiles]: [totalChunks] is 0,
    the record is at once [loading = false], [progress = 100], and no put
    is ever started or committed for its id. *)
Theorem zero_byte_file_completes_at_once supported persisted stored evs0 name type :
  let w := run evs0 (initial supported persisted stored) in
  let file := File.mk name [] in
  let w1 := step w (HandleFiles [file] type) in
  let r := length (heap w) in
  let id := idCounter w + 1 in
  ∃ c, heap w1 !! r = Some c ∧
       Closure.id c = id ∧ Closure.file c = file ∧
       Closure.totalChunks c = 0 ∧
       PreviewFile.totalChunks (Closure.placeholder c) = Some 0 ∧
       Closure.phase c = Finished ∧
       PreviewFile.loading (Closure.placeholder c) = false ∧
       PreviewFile.progress (Closure.placeholder c) = 100 ∧
       log w1 = log w ∧
       ∀ evs, let w2 := run evs w1 in
         heap w2 !! r = Some c ∧
         ∀ j, (PutStarted id j ∉ log w2) ∧ (PutCommitted id j ∉ log w2).
Proof.
  intros w file w1 r id.
  assert (HI1 : Inv w1) by (apply Inv_step, Inv_reachable).
  assert (Hh : heap w1 = heap w ++ [started (fresh_closure w file)]).
  { unfold w1; simpl. apply handleFile_heap. }
  set (c := started (fresh_closure w file)) in *.
  assert (Hc : heap w1 !! r = Some c).
  { rewrite Hh. unfold r. rewrite lookup_app_r by lia. rewrite Nat.sub_diag. reflexivity. }
  exists c. repeat split; try reflexivity; try exact Hc.
  - unfold w1; simpl. apply handleFile_log.
  - apply terminal_run; [exact Hc | exact I].
  - apply not_in_puts_of with (id := id); [reflexivity|].
    assert (H2 : heap (run evs w1) !! r = Some c) by (apply terminal_run; [exact Hc | exact I]).
    pose proof (ci_log _ _ _ _ (inv_cells _ _ _ _ (Inv_run evs w1 HI1) r c H2)) as Hl.
    exact Hl.
  - apply not_in_puts_of with (id := id); [reflexivity|].
    assert (H2 : heap (run evs w1) !! r = Some c) by (apply terminal_run; [exact Hc | exact I]).
    pose proof (ci_log _ _ _ _ (inv_cells _ _ _ _ (Inv_run evs w1 HI1) r c H2)) as Hl.
    exact Hl.
Qed.

(** * Failure of a chunk *)

(** The read or the save of the chunk that the closure at [r] works on
    fails: the promise it awaits rejects ([saveChunk] also rejects when
    [dbPromise] did). *)
Inductive chunk_fails (w : World) (r : nat) (c : Closure.t) : Event → Prop :=
  | read_fails blob :
      Closure.phase c = AwaitRead blob → chunk_fails w r c (ReadSettled r false)
  | save_fails chunk txOk :
      Closure.phase c = AwaitSave chunk → txOk = false ∨ dbPromise w = None →
      chunk_fails w r c (SaveSettled r txOk).

Lemma chunk_fails_step w r c e :
  heap w !! r = Some c → chunk_fails w r c e →
  ∃ b, step w e = catchError r c b w.
Proof.
  intros Hr [blob Hph|chunk txOk Hph Hfail]; simpl.
  - exists false. unfold onReadSettled. rewrite Hr, Hph. reflexivity.
  - exists true. unfold onSaveSettled, saveChunk. rewrite Hr, Hph.
    destruct Hfail as [-> | ->]; [destruct (dbPromise w)|]; reflexivity.
Qed.

(** What the specification says of a failed chunk holds when the promise
    that the closure awaits rejects: the closure is over, its record gets
    [loading = false] and keeps its progress, the failure is reported, no
    other closure and nothing of the store changes, and whatever happens
    later the record stays as it is and no put of that file is started or
    committed any more. *)
Lemma chunk_failure_is_local supported persisted stored evs0 r c e :
  let w := run evs0 (initial supported persisted stored) in
  heap w !! r = Some c → chunk_fails w r c e →
  let w1 := step w e in
  ∃ c1, heap w1 !! r = Some c1 ∧
        PreviewFile.loading (Closure.placeholder c1) = false ∧
        PreviewFile.progress (Closure.placeholder c1)
        = PreviewFile.progress (Closure.placeholder c) ∧
        log w1 = log w ++ [ChunkError (Closure.id c)] ∧
        dbPromise w1 = dbPromise w ∧
        (∀ r', r' ≠ r → heap w1 !! r' = heap w !! r') ∧
        ∀ evs, let w2 := run evs w1 in
          heap w2 !! r = Some c1 ∧
          puts_of (Closure.id c) (log w2) = puts_of (Closure.id c) (log w1).
Proof.
  intros w Hr Hf w1.
  destruct (chunk_fails_step w r c e Hr Hf) as [b Hs]. fold w1 in Hs.
  pose proof (lookup_lt_Some _ _ _ Hr) as Hlt.
  assert (HI1 : Inv w1) by (apply Inv_step, Inv_reachable).
  assert (Hc1 : heap w1 !! r = Some (aborted b c)).
  { rewrite Hs. unfold catchError; simpl. apply list_lookup_insert_eq, Hlt. }
  exists (aborted b c). repeat split; try reflexivity; try exact Hc1.
  - rewrite Hs. reflexivity.
  - rewrite Hs. reflexivity.
  - intros r' Hne. rewrite Hs. unfold catchError; simpl.
    apply list_lookup_insert_ne. congruence.
  - apply terminal_run; [exact Hc1 | exact I].
  - assert (H2 : heap (run evs w1) !! r = Some (aborted b c))
      by (apply terminal_run; [exact Hc1 | exact I]).
    pose proof (ci_log _ _ _ _ (inv_cells _ _ _ _ (Inv_run evs w1 HI1) r _ H2)) as L2.
    pose proof (ci_log _ _ _ _ (inv_cells _ _ _ _ HI1 r _ Hc1)) as L1.
    simpl in L1, L2. rewrite L1, L2. reflexivity.
Qed.

Definition tiny : File.t := File.mk "a.png" [Byte.x61; Byte.x62; Byte.x63].

(** Two files dropped together: the read of the first fails, the second
    is stored and completes. *)
Example failure_leaves_the_other_file :
  let w := run [HandleFiles [tiny; tiny] image; ReadSettled 0 false;
                ReadSettled 1 true; SaveSettled 1 true; TimerFired 1]
               (initial true ∅ ∅) in
  (λ p, (PreviewFile.id p, PreviewFile.loading p, PreviewFile.progress p))
    <$> records image w
  = [(1, false, 0); (2, false, 100)] ∧
  (λ d, (λ c, (FileChunk.fileId c, FileChunk.chunkIndex c, FileChunk.data c))
          <$> IDB.getAll d) <$> dbPromise w
  = Some [(2, 0, File.bytes tiny)].
Proof. vm_compute. split; reflexivity. Qed.

(** * Progress *)

Lemma progress_of_bounds c :
  0 <= Closure.currentChunk c <= Closure.totalChunks c → 0 <= progress_of c <= 100.
Proof.
  intros H. unfold progress_of.
  destruct (Z.eqb_spec (Closure.currentChunk c) 0); [lia|].
  split; [apply percentOf_nonneg | apply percentOf_le_100; lia].
Qed.

Lemma cell_progress_bounds db lg r c :
  cell_inv db lg r c → 0 <= PreviewFile.progress (Closure.placeholder c) <= 100.
Proof.
  intros [_ _ _ _ Hcur Hph _ _]. pose proof (progress_of_bounds c Hcur) as Hb.
  unfold phase_ok in Hph.
  destruct (Closure.phase c); intuition (try lia; congruence).
Qed.

(** A move never lowers the progress. *)
Lemma moves_progress db lg w r c e c' :
  cell_inv db lg r c → moves w r c e c' →
  PreviewFile.progress (Closure.placeholder c)
  <= PreviewFile.progress (Closure.placeholder c').
Proof.
  intros HI Hm. pose proof (cell_progress_bounds _ _ _ _ HI) as Hb.
  destruct HI as [_ _ _ _ Hcur Hok _ _]. unfold phase_ok in Hok.
  destruct Hm as [blob Hph|blob Hph|chunk d Hph Hd|chunk txOk Hph Hf|Hph|chunk d Hph Hd];
    rewrite Hph in Hok; simpl; try lia.
  - destruct Hok as (Hlt & _ & _ & ->). unfold progress_of.
    destruct (Z.eqb_spec (Closure.currentChunk c) 0); [apply percentOf_nonneg|].
    apply percentOf_mono; lia.
  - unfold started. destruct (Closure.totalChunks c <=? Closure.currentChunk c); simpl; lia.
Qed.

Lemma progress_run evs w r c c' :
  Inv w → heap w !! r = Some c → heap (run evs w) !! r = Some c' →
  PreviewFile.progress (Closure.placeholder c)
  <= PreviewFile.progress (Closure.placeholder c').
Proof.
  revert w c. induction evs as [|e evs IH]; intros w c HI Hr Hr'.
  - simpl in Hr'. assert (c' = c) as -> by congruence. lia.
  - rewrite run_cons in Hr'.
    destruct (step_cell w e r c Hr) as (c1 & H1 & Hc1).
    pose proof (IH (step w e) c1 (Inv_step w e HI) H1 Hr') as Hle.
    destruct Hc1 as [->|Hm]; [exact Hle|].
    pose proof (moves_progress _ _ w r c e c1 (inv_cells _ _ _ _ HI r c Hr) Hm). lia.
Qed.

Lemma loading_false_terminal db lg r c :
  cell_inv db lg r c → PreviewFile.loading (Closure.placeholder c) = false → terminal c.
Proof.
  intros [_ _ _ _ _ Hok _ _] Hl. unfold phase_ok in Hok. unfold terminal.
  destruct (Closure.phase c); try exact I; intuition congruence.
Qed.

(** C6, as the code has it.  Over the life of a record its progress never
    decreases and stays within 0..100.  A record with [loading = false]
    either finished, with progress 100, or was aborted by a failed chunk,
    with the progress of the chunks committed before; from then on it
    does not change. *)
Theorem progress_never_decreases supported persisted stored evs0 evs r c c' :
  let w := run evs0 (initial supported persisted stored) in
  heap w !! r = Some c → heap (run evs w) !! r = Some c' →
  0 <= PreviewFile.progress (Closure.placeholder c)
    <= PreviewFile.progress (Closure.placeholder c') ∧
  PreviewFile.progress (Closure.placeholder c') <= 100 ∧
  (PreviewFile.loading (Closure.placeholder c') = false →
     (Closure.phase c' = Finished ∧ PreviewFile.progress (Closure.placeholder c') = 100) ∨
     (∃ b, Closure.phase c' = Aborted b ∧
           PreviewFile.progress (Closure.placeholder c') = progress_of c')) ∧
  (PreviewFile.loading (Closure.placeholder c) = false → c' = c).
Proof.
  intros w Hr Hr'.
  assert (HI : Inv w) by apply Inv_reachable.
  assert (HI' : Inv (run evs w)) by (apply Inv_run, HI).
  pose proof (inv_cells _ _ _ _ HI r c Hr) as Hc.
  pose proof (inv_cells _ _ _ _ HI' r c' Hr') as Hc'.
  pose proof (cell_progress_bounds _ _ _ _ Hc).
  pose proof (cell_progress_bounds _ _ _ _ Hc').
  pose proof (progress_run evs w r c c' HI Hr Hr').
  repeat split; try lia.
  - intros Hl. destruct Hc' as [_ _ _ _ _ Hok _ _]. unfold phase_ok in Hok.
    destruct (Closure.phase c') as [blob|chunk| | |b|stuck].
    + destruct Hok as (_ & _ & Ht & _). congruence.
    + destruct Hok as (_ & _ & Ht & _). congruence.
    + destruct Hok as (Ht & _). congruence.
    + left. split; [reflexivity | apply Hok].
    + right. exists b. split; [reflexivity | apply Hok].
    + destruct Hok as (_ & _ & Ht & _). congruence.
  - intros Hl. pose proof (loading_false_terminal _ _ _ _ Hc Hl) as Ht.
    pose proof (terminal_run evs w r c Hr Ht). congruence.
Qed.

Lemma progress_never_decreases_witness :
  let w := run [HandleFiles [tiny] image] (initial true ∅ ∅) in
  let c := started (fresh_closure (initial true ∅ ∅) tiny) in
  let c' := markLoaded (committed c) in
  0 <= PreviewFile.progress (Closure.placeholder c)
    <= PreviewFile.progress (Closure.placeholder c') ∧
  PreviewFile.progress (Closure.placeholder c') <= 100 ∧
  (PreviewFile.loading (Closure.placeholder c') = false →
     (Closure.phase c' = Finished ∧ PreviewFile.progress (Closure.placeholder c') = 100) ∨
     (∃ b, Closure.phase c' = Aborted b ∧
           PreviewFile.progress (Closure.placeholder c') = progress_of c')) ∧
  (PreviewFile.loading (Closure.placeholder c) = false → c' = c).
Proof.
  intros w c c'.
  apply (progress_never_decreases true ∅ ∅ [HandleFiles [tiny] image] (rounds 0 1) 0 c c').
  - reflexivity.
  - reflexivity.
Defined.

(** C6 as the specification states it fails: a record whose first
    read fails has [loading = false] and progress 0. *)
Lemma loading_false_without_100 :
  let w0 := run [HandleFiles [tiny] image] (initial true ∅ ∅) in
  let w := step w0 (ReadSettled 0 false) in
  ∃ c0 c, heap w0 !! 0%nat = Some c0 ∧
          PreviewFile.loading (Closure.placeholder c0) = true ∧
          heap w !! 0%nat = Some c ∧
          PreviewFile.loading (Closure.placeholder c) = false ∧
          PreviewFile.progress (Closure.placeholder c) = 0 ∧
          PreviewFile.progress (Closure.placeholder c) ≠ 100.
Proof.
  intros w0 w. do 2 eexists. split; [reflexivity|]. split; [reflexivity|].
  split; [reflexivity|]. repeat split. discriminate.
Qed.

(** * The progress after a commit *)

Lemma step_read_ok w r c blob :
  heap w !! r = Some c → Closure.phase c = AwaitRead blob →
  step w (ReadSettled r true)
  = emit (PutStarted (Closure.id c) (Closure.currentChunk c))
      (set_cell r
         (Closure.with_phase
            (AwaitSave (FileChunk.mk (Closure.id c) (Closure.currentChunk c)
                          (Closure.totalChunks c) blob)) c) w).
Proof. intros Hr Hph. simpl. unfold onReadSettled. rewrite Hr, Hph. reflexivity. Qed.

Lemma step_save_ok w r c chunk d :
  heap w !! r = Some c → Closure.phase c = AwaitSave chunk → dbPromise w = Some d →
  step w (SaveSettled r true)
  = set_cell r (committed c)
      (emit (PutCommitted (FileChunk.fileId chunk) (FileChunk.chunkIndex chunk))
         (with_db (Some (IDB.put chunk d)) w)).
Proof.
  intros Hr Hph Hd. simpl. unfold onSaveSettled, saveChunk. rewrite Hr, Hph, Hd. reflexivity.
Qed.

Lemma step_timer w r c :
  heap w !! r = Some c → Closure.phase c = AwaitTimer →
  step w (TimerFired r) = set_cell r (started c) w.
Proof.
  intros Hr Hph. simpl. unfold onTimer. rewrite Hr, Hph. apply processNextChunk_cell, Hr.
Qed.

Lemma totalChunksOf_le (size : Z) : 0 <= size < 2 ^ 53 → totalChunksOf size <= 2 ^ 35.
Proof.
  intros H. pose proof (totalChunksOf_bounds size H) as [Hlo _].
  unfold chunkSize in Hlo. lia.
Qed.

(** C3, as the code has it.  When the put of chunk [i] commits, the record's
    progress becomes [Math.round((i + 1) / totalChunks * 100)] computed on
    numbers, which is a nearest integer of [100 * (i + 1) / totalChunks]
    (it is within one half of it), and [loading] is still true; when that
    was the last chunk, the timer that follows sets [loading = false] and
    [progress = 100]. *)
Theorem progress_after_commit supported persisted stored evs0 r c chunk d :
  let w := run evs0 (initial supported persisted stored) in
  heap w !! r = Some c → Closure.phase c = AwaitSave chunk → dbPromise w = Some d →
  File.size (Closure.file c) < 2 ^ 53 →
  let i := FileChunk.chunkIndex chunk in
  let n := Closure.totalChunks c in
  let w1 := step w (SaveSettled r true) in
  ∃ c1, heap w1 !! r = Some c1 ∧
        log w1 = log w ++ [PutCommitted (Closure.id c) i] ∧
        Closure.currentChunk c1 = i + 1 ∧
        PreviewFile.progress (Closure.placeholder c1) = percentOf (i + 1) n ∧
        - n <= 2 * (PreviewFile.progress (Closure.placeholder c1) * n - 100 * (i + 1)) <= n ∧
        PreviewFile.loading (Closure.placeholder c1) = true ∧
        (i + 1 = n →
         ∃ c2, heap (step w1 (TimerFired r)) !! r = Some c2 ∧
               PreviewFile.loading (Closure.placeholder c2) = false ∧
               PreviewFile.progress (Closure.placeholder c2) = 100).
Proof.
  intros w Hr Hph Hd Hsz i n w1.
  pose proof (lookup_lt_Some _ _ _ Hr) as Hlt.
  destruct (inv_cells _ _ _ _ (Inv_reachable supported persisted stored evs0) r c Hr)
    as [_ _ Htot _ Hcur Hok _ _].
  unfold phase_ok in Hok. rewrite Hph in Hok. destruct Hok as (Hlt' & -> & Hl & _).
  assert (Hw1 : w1 = set_cell r (committed c)
                 (emit (PutCommitted (Closure.id c) (Closure.currentChunk c))
                    (with_db (Some (IDB.put (chunk_of c (Closure.currentChunk c)) d)) w))).
  { unfold w1. apply (step_save_ok w r c _ d Hr Hph Hd). }
  assert (Hc1 : heap w1 !! r = Some (committed c)).
  { rewrite Hw1. unfold set_cell; simpl. apply list_lookup_insert_eq, Hlt. }
  assert (Hn : 0 < n <= 2 ^ 35).
  { split; [unfold n; lia|]. unfold n. rewrite Htot. apply totalChunksOf_le.
    pose proof (File_size_nonneg (Closure.file c)). lia. }
  assert (Ht : heap (step w1 (TimerFired r)) !! r = Some (started (committed c))).
  { rewrite (step_timer w1 r (committed c) Hc1 eq_refl).
    unfold set_cell; simpl. apply list_lookup_insert_eq.
    rewrite Hw1. unfold set_cell; simpl. rewrite length_insert. exact Hlt. }
  exists (committed c). repeat split; try assumption.
  - rewrite Hw1. reflexivity.
  - apply percentOf_nearest; [unfold i, n; simpl; lia | exact Hn].
  - apply percentOf_nearest; [unfold i, n; simpl; lia | exact Hn].
  - intros Hlast. exists (started (committed c)). split; [exact Ht|].
    unfold started; simpl.
    destruct (Z.leb_spec (Closure.totalChunks c) (Closure.currentChunk c + 1)).
    + split; reflexivity.
    + unfold i, n in Hlast; simpl in Hlast. lia.
Qed.

Lemma progress_after_commit_witness :
  let w := run [HandleFiles [tiny] image; ReadSettled 0 true] (initial true ∅ ∅) in
  let c0 := started (fresh_closure (initial true ∅ ∅) tiny) in
  let chunk := chunk_of c0 0 in
  let c := Closure.with_phase (AwaitSave chunk) c0 in
  let i := FileChunk.chunkIndex chunk in
  let n := Closure.totalChunks c in
  let w1 := step w (SaveSettled 0 true) in
  ∃ c1, heap w1 !! 0%nat = Some c1 ∧
        log w1 = log w ++ [PutCommitted (Closure.id c) i] ∧
        Closure.currentChunk c1 = i + 1 ∧
        PreviewFile.progress (Closure.placeholder c1) = percentOf (i + 1) n ∧
        - n <= 2 * (PreviewFile.progress (Closure.placeholder c1) * n - 100 * (i + 1)) <= n ∧
        PreviewFile.loading (Closure.placeholder c1) = true ∧
        (i + 1 = n →
         ∃ c2, heap (step w1 (TimerFired 0)) !! 0%nat = Some c2 ∧
               PreviewFile.loading (Closure.placeholder c2) = false ∧
               PreviewFile.progress (Closure.placeholder c2) = 100).
Proof.
  intros w c0 chunk c.
  apply (progress_after_commit true ∅ ∅ [HandleFiles [tiny] image; ReadSettled 0 true] 0
           c chunk (IDB.mk [] ∅)).
  - reflexivity.
  - reflexivity.
  - reflexivity.
  - vm_compute. reflexivity.
Defined.

(** ** Rounds in which nothing fails *)

Lemma one_round w r c blob d :
  heap w !! r = Some c → Closure.phase c = AwaitRead blob → dbPromise w = Some d →
  let w' := run [ReadSettled r true; SaveSettled r true; TimerFired r] w in
  heap w' !! r = Some (started (committed c)) ∧ is_Some (dbPromise w').
Proof.
  intros Hr Hph Hd w'. pose proof (lookup_lt_Some _ _ _ Hr) as Hlt.
  unfold w'. rewrite !run_cons.
  rewrite (step_read_ok w r c blob Hr Hph).
  set (w1 := emit _ _).
  set (c1 := Closure.with_phase _ c) in w1.
  assert (H1 : heap w1 !! r = Some c1).
  { unfold w1, set_cell; simpl. apply list_lookup_insert_eq, Hlt. }
  rewrite (step_save_ok w1 r c1 _ d H1 eq_refl Hd).
  set (w2 := set_cell _ _ _).
  assert (H2 : heap w2 !! r = Some (committed c)).
  { unfold w2, set_cell; simpl. apply list_lookup_insert_eq.
    rewrite length_insert. exact Hlt. }
  rewrite (step_timer w2 r (committed c) H2 eq_refl).
  simpl. split; [|eauto].
  apply list_lookup_insert_eq. rewrite !length_insert. exact Hlt.
Qed.

Lemma rounds_run (k : nat) w r c blob :
  heap w !! r = Some c → Closure.phase c = AwaitRead blob → is_Some (dbPromise w) →
  Closure.currentChunk c + Z.of_nat k <= Closure.totalChunks c →
  ∃ c', heap (run (rounds r k) w) !! r = Some c' ∧
        Closure.currentChunk c' = Closure.currentChunk c + Z.of_nat k ∧
        Closure.totalChunks c' = Closure.totalChunks c ∧
        Closure.id c' = Closure.id c ∧ Closure.file c' = Closure.file c ∧
        is_Some (dbPromise (run (rounds r k) w)) ∧
        (Closure.currentChunk c' < Closure.totalChunks c →
         ∃ blob', Closure.phase c' = AwaitRead blob').
Proof.
  intros Hr Hph Hd. induction k as [|k IH]; intros Hk.
  - exists c. simpl. rewrite Z.add_0_r. repeat split; eauto.
  - destruct IH as (ck & Hck & Hcur & Htot & Hid & Hf & Hdk & Hphk); [lia|].
    destruct Hphk as [blobk Hphk]; [lia|]. destruct Hdk as [dk Hdk].
    simpl rounds. rewrite run_app.
    destruct (one_round _ r ck blobk dk Hck Hphk Hdk) as [H1 H2].
    exists (started (committed ck)). split; [exact H1|].
    assert (Hs : ∀ c0, Closure.currentChunk (started c0) = Closure.currentChunk c0 ∧
                       Closure.totalChunks (started c0) = Closure.totalChunks c0 ∧
                       Closure.id (started c0) = Closure.id c0 ∧
                       Closure.file (started c0) = Closure.file c0).
    { intros c0. unfold started.
      destruct (Closure.totalChunks c0 <=? Closure.currentChunk c0); auto. }
    destruct (Hs (committed ck)) as (E1 & E2 & E3 & E4).
    rewrite E1, E2, E3, E4. simpl. repeat split; try assumption; try lia.
    intros Hlt. unfold started. simpl.
    destruct (Z.leb_spec (Closure.totalChunks ck) (Closure.currentChunk ck + 1)); [lia|].
    simpl. eauto.
Qed.

(** ** The rounded quotient of the specification *)

(** [round(100 * (i + 1) / totalChunks)] on exact fractions, halves up. *)
Definition round_half_up (a b : Z) : Z := Qfloor (inject_Z a / inject_Z b + (1 # 2)).

(** The same with halves to the even neighbour. *)
Definition round_half_even (a b : Z) : Z := Binary64.rne (inject_Z a / inject_Z b).

(** The closure of a file that is not empty starts by reading chunk 0. *)
Lemma started_fresh w file :
  0 < totalChunksOf (File.size file) →
  let c0 := started (fresh_closure w file) in
  Closure.currentChunk c0 = 0 ∧
  Closure.totalChunks c0 = totalChunksOf (File.size file) ∧
  Closure.file c0 = file ∧ Closure.id c0 = idCounter w + 1 ∧
  ∃ blob, Closure.phase c0 = AwaitRead blob.
Proof.
  intros Hn c0. unfold c0, started.
  change (Closure.totalChunks (fresh_closure w file)) with (totalChunksOf (File.size file)).
  change (Closure.currentChunk (fresh_closure w file)) with 0.
  destruct (Z.leb_spec (totalChunksOf (File.size file)) 0); [lia|].
  repeat split. eexists. reflexivity.
Qed.

(** The state after [k] chunks of the first file given to a fresh component,
    when nothing fails. *)
Lemma first_file_rounds (k : nat) file type persisted stored w :
  w = run (HandleFiles [file] type :: rounds 0 k) (initial true persisted stored) →
  Z.of_nat k < totalChunksOf (File.size file) →
  ∃ c blob, heap w !! 0%nat = Some c ∧ Closure.phase c = AwaitRead blob ∧
            Closure.currentChunk c = Z.of_nat k ∧
            Closure.totalChunks c = totalChunksOf (File.size file) ∧
            Closure.id c = 1 ∧ Closure.file c = file ∧
            is_Some (dbPromise w).
Proof.
  intros Hw Hk. rewrite run_cons in Hw.
  set (w0 := step (initial true persisted stored) (HandleFiles [file] type)) in Hw.
  set (c0 := started (fresh_closure (initial true persisted stored) file)).
  assert (H0 : heap w0 !! 0%nat = Some c0).
  { unfold w0. change (step ?x (HandleFiles [file] type)) with (handleFile type x file).
    rewrite handleFile_heap. reflexivity. }
  assert (Hd0 : is_Some (dbPromise w0)).
  { unfold w0. change (step ?x (HandleFiles [file] type)) with (handleFile type x file).
    rewrite handleFile_dbPromise. eexists. reflexivity. }
  destruct (started_fresh (initial true persisted stored) file) as
    (Hcur0 & Htot0 & Hf0 & Hid0 & blob0 & Hph0); [lia|]. fold c0 in Hcur0, Htot0, Hf0, Hid0, Hph0.
  clearbody w0 c0.
  destruct (rounds_run k w0 0 c0 blob0 H0 Hph0 Hd0) as
    (c & Hc & Hcur & Htot & Hid & Hf & Hd & Hph); [lia|].
  destruct Hph as [blob Hph]; [lia|].
  rewrite <- Hw in Hc, Hd.
  exists c, blob. repeat split; try assumption; try congruence; try lia.
  rewrite Hid, Hid0. reflexivity.
Qed.

Lemma run_single e w : run [e] w = step w e.
Proof. reflexivity. Qed.

(** A read that succeeds followed by a save that commits. *)
Lemma read_then_commit w0 r c blob d w w1 :
  heap w0 !! r = Some c → Closure.phase c = AwaitRead blob → dbPromise w0 = Some d →
  w = step w0 (ReadSettled r true) → w1 = step w (SaveSettled r true) →
  let chunk := FileChunk.mk (Closure.id c) (Closure.currentChunk c)
                            (Closure.totalChunks c) blob in
  heap w !! r = Some (Closure.with_phase (AwaitSave chunk) c) ∧
  heap w1 !! r = Some (committed c) ∧
  PutCommitted (Closure.id c) (Closure.currentChunk c) ∈ log w1.
Proof.
  intros Hr Hph Hd Hw Hw1 chunk. pose proof (lookup_lt_Some _ _ _ Hr) as Hlt.
  rewrite (step_read_ok w0 r c blob Hr Hph) in Hw. fold chunk in Hw.
  assert (Hc : heap w !! r = Some (Closure.with_phase (AwaitSave chunk) c)).
  { rewrite Hw. unfold set_cell; simpl. apply list_lookup_insert_eq, Hlt. }
  assert (Hdw : dbPromise w = Some d) by (rewrite Hw; exact Hd).
  rewrite (step_save_ok w r _ chunk d Hc eq_refl Hdw) in Hw1.
  split; [exact Hc|]. split.
  - rewrite Hw1. unfold set_cell; simpl. apply list_lookup_insert_eq.
    rewrite Hw. simpl. rewrite length_insert. exact Hlt.
  - rewrite Hw1. simpl. apply elem_of_app. right. constructor.
Qed.

Lemma progress_at_23_of_40 (file : File.t) w w1 :
  File.size file = 10485760 →
  w = run (HandleFiles [file] video :: rounds 0 22 ++ [ReadSettled 0 true])
          (initial true ∅ ∅) →
  w1 = step w (SaveSettled 0 true) →
  ∃ c chunk c1,
    heap w !! 0%nat = Some c ∧ Closure.phase c = AwaitSave chunk ∧
    FileChunk.chunkIndex chunk = 22 ∧ Closure.totalChunks c = 40 ∧
    heap w1 !! 0%nat = Some c1 ∧
    PutCommitted (Closure.id c) 22 ∈ log w1 ∧
    PreviewFile.progress (Closure.placeholder c1) = 57.
Proof.
  intros Hsz Hw Hw1.
  assert (Ht : totalChunksOf (File.size file) = 40) by (rewrite Hsz; vm_compute; reflexivity).
  rewrite app_comm_cons, run_app, run_single in Hw.
  destruct (first_file_rounds 22 file video ∅ ∅ _ eq_refl) as
    (c22 & blob22 & H22 & Hph22 & Hcur & Htot & Hid & Hf & [d22 Hd22]); [lia|].
  destruct (read_then_commit _ 0 c22 blob22 d22 w w1 H22 Hph22 Hd22 Hw Hw1)
    as (Hc & Hc1 & Hlog).
  eexists _, _, _. split; [exact Hc|]. split; [reflexivity|].
  split; [exact Hcur|]. split; [simpl; lia|]. split; [exact Hc1|]. split.
  - simpl. rewrite Hcur in Hlog. exact Hlog.
  - simpl. rewrite Hcur, Htot, Ht. vm_compute. reflexivity.
Qed.

(** C3 as the specification states it fails on a file of 10 MiB (40
    chunks): when chunk 22 commits, the code sets the progress to 57, while
    100 * 23 / 40 = 57.5 rounds to 58, halves up or halves to even.  The
    quotient 23 / 40 is not a binary fraction, and its double times 100 is
    57.49999999999999. *)
Lemma progress_differs_from_rounded_quotient :
  let file := File.mk "clip.mp4" (replicate (Z.to_nat 10485760) Byte.x00) in
  let w := run (HandleFiles [file] video :: rounds 0 22 ++ [ReadSettled 0 true])
               (initial true ∅ ∅) in
  let w1 := step w (SaveSettled 0 true) in
  ∃ c chunk c1,
    heap w !! 0%nat = Some c ∧ Closure.phase c = AwaitSave chunk ∧
    FileChunk.chunkIndex chunk = 22 ∧ Closure.totalChunks c = 40 ∧
    heap w1 !! 0%nat = Some c1 ∧
    PutCommitted (Closure.id c) 22 ∈ log w1 ∧
    PreviewFile.progress (Closure.placeholder c1) = 57 ∧
    round_half_up (100 * (22 + 1)) 40 = 58 ∧
    round_half_even (100 * (22 + 1)) 40 = 58.
Proof.
  cbv zeta.
  assert (Hsz : File.size (File.mk "clip.mp4" (replicate (Z.to_nat 10485760) Byte.x00))
                = 10485760).
  { unfold File.size. change (File.bytes (File.mk ?n ?l)) with l.
    rewrite length_replicate. apply Z2Nat.id. lia. }
  destruct (progress_at_23_of_40 _ _ _ Hsz eq_refl eq_refl)
    as (c & chunk & c1 & H1 & H2 & H3 & H4 & H5 & H6 & H7).
  exists c, chunk, c1.
  split; [exact H1|]. split; [exact H2|]. split; [exact H3|]. split; [exact H4|].
  split; [exact H5|]. split; [exact H6|]. split; [exact H7|].
  split; vm_compute; reflexivity.
Qed.

(** * Chunks: their byte ranges and the round trip *)

(** The bytes of [l] at offsets [a, b). *)
Definition byte_range (l : list Byte.byte) (a b : Z) : list Byte.byte :=
  take (Z.to_nat (b - a)) (drop (Z.to_nat a) l).

(** The payloads stored for the chunks [0 .. n - 1] of a file, in index
    order. *)
Definition payloads (d : IDB.Database) (id n : Z) : list (list Byte.byte) :=
  omap (λ j, FileChunk.data <$> IDB.chunks d !! (id, j)) (seqZ 0 n).

Lemma slice_byte_range file a b :
  0 <= a <= b → b <= File.size file →
  File.slice file a b = byte_range (File.bytes file) a b.
Proof.
  intros Hab Hb. unfold File.slice, byte_range.
  destruct (Z.ltb_spec a 0); [lia|]. destruct (Z.ltb_spec b 0); [lia|].
  rewrite !Z.min_l by lia. rewrite Z.max_l by lia. reflexivity.
Qed.

(** The ranges of the first [k] chunks, one after the other, are the first
    [k * chunkSize] bytes (all of them at the last chunk). *)
Lemma byte_ranges_concat (l : list Byte.byte) (k : nat) :
  let n := Z.of_nat (length l) in
  (Z.of_nat k - 1) * chunkSize < n ∨ k = 0%nat →
  concat ((λ j, byte_range l (j * chunkSize) (Z.min ((j + 1) * chunkSize) n))
            <$> seqZ 0 (Z.of_nat k))
  = take (Z.to_nat (Z.min (Z.of_nat k * chunkSize) n)) l.
Proof.
  intros n. induction k as [|k IH]; intros Hk.
  - rewrite seqZ_nil by lia. simpl. rewrite Z.min_l by lia. reflexivity.
  - assert (Hc : 0 < chunkSize) by reflexivity.
    assert (Hlt : Z.of_nat k * chunkSize < n) by lia.
    rewrite seqZ_S, fmap_app, concat_app. rewrite IH by (left; nia). simpl.
    rewrite app_nil_r, Z.add_0_l. unfold byte_range.
    rewrite Z.min_l by lia.
    rewrite take_take_drop. f_equal. lia.
Qed.

Lemma omap_all_some {A B} (f : A → option B) (g : A → B) (l : list A) :
  (∀ x, x ∈ l → f x = Some (g x)) → omap f l = g <$> l.
Proof.
  induction l as [|a l IH]; intros H; [reflexivity|]. simpl.
  rewrite (H a) by constructor. simpl. f_equal. apply IH.
  intros x Hx. apply H. constructor. exact Hx.
Qed.

(** Within the file, the slice that the code takes for chunk [j] is the
    byte range that the specification names. *)
Lemma chunk_of_range c j :
  Closure.totalChunks c = totalChunksOf (File.size (Closure.file c)) →
  File.size (Closure.file c) < 2 ^ 53 →
  0 <= j < Closure.totalChunks c →
  chunk_of c j
  = FileChunk.mk (Closure.id c) j (Closure.totalChunks c)
      (byte_range (File.bytes (Closure.file c)) (j * chunkSize)
         (Z.min ((j + 1) * chunkSize) (File.size (Closure.file c)))).
Proof.
  intros Htot Hsz Hj. unfold chunk_of. f_equal.
  pose proof (File_size_nonneg (Closure.file c)) as H0.
  destruct (totalChunksOf_bounds (File.size (Closure.file c))) as [Hlo Hhi]; [lia|].
  rewrite <- Htot in Hlo, Hhi.
  assert (Hc : 0 < chunkSize) by reflexivity.
  replace ((j + 1) * chunkSize) with (j * chunkSize + chunkSize) by lia.
  apply slice_byte_range; nia.
Qed.

(** A file of 300000 bytes is stored as two chunks, of 262144 and of 37856
    bytes. *)
Example chunks_of_300000_bytes :
  let file := File.mk "clip.mp4" (replicate (Z.to_nat 300000) Byte.x00) in
  let w := run (HandleFiles [file] video :: rounds 0 2) (initial true ∅ ∅) in
  (λ d, (λ j, (λ c, Z.of_nat (length (FileChunk.data c)))
                <$> IDB.chunks d !! (1, j)) <$> [0; 1; 2]) <$> dbPromise w
  = Some [Some 262144; Some 37856; None] ∧
  (λ p, (PreviewFile.loading p, PreviewFile.progress p)) <$> records video w
  = [(false, 100)].
Proof. vm_compute. split; reflexivity. Qed.

(** * Clearing the chunks of a file *)

(** What the cursor loop does where the index exists: every record of the
    file goes, every other record stays, and a second pass finds nothing. *)
Lemma deleteByIndex_lookup fileId d k :
  IDB.chunks (IDB.deleteByIndex fileId d) !! k
  = match IDB.chunks d !! k with
    | Some chunk => if decide (FileChunk.fileId chunk = fileId) then None else Some chunk
    | None => None
    end.
Proof.
  unfold IDB.deleteByIndex; simpl.
  destruct (IDB.chunks d !! k) as [chunk|] eqn:Hk.
  - destruct (decide (FileChunk.fileId chunk = fileId)) as [E|NE].
    + apply map_lookup_filter_None. right. intros x Hx. simpl.
      assert (x = chunk) as -> by congruence. auto.
    + apply map_lookup_filter_Some. auto.
  - apply map_lookup_filter_None. left. exact Hk.
Qed.

Lemma deleteByIndex_idempotent fileId d :
  IDB.deleteByIndex fileId (IDB.deleteByIndex fileId d) = IDB.deleteByIndex fileId d.
Proof.
  assert (E : IDB.chunks (IDB.deleteByIndex fileId (IDB.deleteByIndex fileId d))
              = IDB.chunks (IDB.deleteByIndex fileId d)).
  { apply map_eq. intros k. rewrite !deleteByIndex_lookup.
    destruct (IDB.chunks d !! k) as [chunk|]; [|reflexivity].
    destruct (decide (FileChunk.fileId chunk = fileId)) as [E|NE]; [reflexivity|].
    destruct (decide (FileChunk.fileId chunk = fileId)); [contradiction | reflexivity]. }
  unfold IDB.deleteByIndex in *. simpl in *. rewrite E. reflexivity.
Qed.

Lemma deleteByIndex_none fileId d :
  (∀ k chunk, IDB.chunks d !! k = Some chunk → FileChunk.fileId chunk ≠ fileId) →
  IDB.deleteByIndex fileId d = d.
Proof.
  intros H. destruct d as [names rows]. unfold IDB.deleteByIndex; simpl in *. f_equal.
  apply map_eq. intros k.
  pose proof (deleteByIndex_lookup fileId (IDB.mk names rows) k) as Hk.
  unfold IDB.deleteByIndex in Hk; simpl in Hk. rewrite Hk.
  destruct (rows !! k) as [chunk|] eqn:E; [|reflexivity].
  destruct (decide (FileChunk.fileId chunk = fileId)) as [E'|NE]; [|reflexivity].
  exfalso. exact (H k chunk E E').
Qed.

(** With the index, [clearChunksByFileId] does what C4 asks of it. *)
Lemma clearChunksByFileId_with_index fileId w d :
  dbPromise w = Some d → "fileId"%string ∈ IDB.indexNames d →
  clearChunksByFileId fileId true w
  = (Resolved, emit (ChunksCleared fileId) (with_db (Some (IDB.deleteByIndex fileId d)) w)).
Proof.
  intros Hd Hi. unfold clearChunksByFileId. rewrite Hd.
  rewrite bool_decide_eq_true_2 by exact Hi. reflexivity.
Qed.

(** C4 on the code.  The store that [openDB] creates has no index: in every
    state the component reaches, [clearChunksByFileId] rejects, for a file
    with chunks and for one without, and deletes nothing. *)
Theorem clearChunksByFileId_never_resolves supported persisted stored evs fileId txOk :
  let w := run evs (initial supported persisted stored) in
  let e := match dbPromise w with
           | Some _ => IDB.NotFoundError
           | None => IDB.EnvironmentUnsupported
           end in
  clearChunksByFileId fileId txOk w = (Rejected e, emit (ClearFailed fileId e) w) ∧
  dbPromise (clearChunksByFileId fileId txOk w).2 = dbPromise w.
Proof.
  intros w e.
  pose proof (Inv_reachable supported persisted stored evs) as HI. fold w in HI.
  assert (E : clearChunksByFileId fileId txOk w = (Rejected e, emit (ClearFailed fileId e) w)).
  { unfold clearChunksByFileId, e. destruct (dbPromise w) as [d|] eqn:Hd; [|reflexivity].
    rewrite (inv_index _ _ _ _ HI d Hd). reflexivity. }
  split; [exact E|]. rewrite E. reflexivity.
Qed.

(** The failing input of C4: the chunk of an ingested file is still stored
    after its removal was asked for, twice. *)
Example removal_leaves_the_chunks :
  let w := run (HandleFiles [tiny] image :: rounds 0 1) (initial true ∅ ∅) in
  let '(o1, w1) := removePreview 1 true w in
  let '(o2, w2) := removePreview 1 true w1 in
  o1 = Rejected IDB.NotFoundError ∧ o2 = Rejected IDB.NotFoundError ∧
  images w2 = [0%nat] ∧
  (λ d, FileChunk.data <$> IDB.getAll d) <$> dbPromise w2
  = Some [[Byte.x61; Byte.x62; Byte.x63]].
Proof. vm_compute. repeat split. Qed.

(** * Removing previews *)

Definition other (type : Kind) : Kind :=
  match type with image => video | video => image end.

(** The effect of [if (it.objectUrl) URL.revokeObjectURL(it.objectUrl)]. *)
Definition revocation (it : PreviewFile.t) : list Effect :=
  match PreviewFile.objectUrl it with Some u => [Revoked u] | None => [] end.

Lemma items_with_items type l w : items type (with_items type l w) = l.
Proof. destruct type; reflexivity. Qed.

Lemma items_other_with_items type l w :
  items (other type) (with_items type l w) = items (other type) w.
Proof. destruct type; reflexivity. Qed.

Lemma items_assign_items type l w : items type (assign_items type l w) = l.
Proof. destruct type; reflexivity. Qed.

Lemma items_other_assign_items type l w :
  items (other type) (assign_items type l w) = items (other type) w.
Proof. destruct type; reflexivity. Qed.

Lemma items_emit type e w : items type (emit e w) = items type w.
Proof. destruct type; reflexivity. Qed.

Lemma items_revokeObjectUrl type it w : items type (revokeObjectUrl it w) = items type w.
Proof. unfold revokeObjectUrl. destruct (PreviewFile.objectUrl it); destruct type; reflexivity. Qed.

Lemma log_revokeObjectUrl it w : log (revokeObjectUrl it w) = log w ++ revocation it.
Proof.
  unfold revokeObjectUrl, revocation.
  destruct (PreviewFile.objectUrl it); simpl; [reflexivity | rewrite app_nil_r; reflexivity].
Qed.

Lemma dbPromise_revokeObjectUrl it w : dbPromise (revokeObjectUrl it w) = dbPromise w.
Proof. unfold revokeObjectUrl. destruct (PreviewFile.objectUrl it); reflexivity. Qed.

Lemma removeFrom_Some type id w w' :
  removeFrom type id w = Some w' →
  ∃ it, it ∈ records type w ∧ PreviewFile.id it = id ∧
        log w' = log w ++ revocation it ++ [Removed type id] ∧
        items type w' = filter (λ r, ¬ has_id w id r) (items type w) ∧
        items (other type) w' = items (other type) w ∧
        heap w' = heap w ∧ dbPromise w' = dbPromise w.
Proof.
  unfold removeFrom. destruct (list_find _ _) as [[k r]|] eqn:Hf; [|discriminate].
  intros H. injection H as <-.
  apply list_find_Some in Hf. destruct Hf as (Hk & Hid & _).
  unfold has_id in Hid. destruct (deref w r) as [it|] eqn:Hd; [|discriminate].
  simpl in Hid. injection Hid as Hid.
  exists it. split.
  { unfold records. apply list_elem_of_omap. exists r. split; [|exact Hd].
    apply list_elem_of_lookup. eauto. }
  split; [exact Hid|]. simpl.
  rewrite items_emit, items_assign_items, items_emit, items_other_assign_items.
  rewrite items_revokeObjectUrl, heap_assign_items, heap_revokeObjectUrl.
  rewrite dbPromise_assign_items, dbPromise_revokeObjectUrl, log_assign_items,
    log_revokeObjectUrl.
  rewrite <- app_assoc. repeat split.
Qed.

Lemma removeFrom_None type id w :
  removeFrom type id w = None → ∀ r, r ∈ items type w → ¬ has_id w id r.
Proof.
  unfold removeFrom. destruct (list_find _ _) as [[k r]|] eqn:Hf; [discriminate|].
  intros _ r Hr. apply list_find_None in Hf. rewrite Forall_forall in Hf. apply Hf, Hr.
Qed.

(** The order of [removePreview], in any state: the chunks are cleared
    first; when that fails the call rejects and the arrays, the records and
    the store are as before; when it succeeds the handle is revoked next
    and the record leaves its array last. *)
Lemma removePreview_cleans_storage_first id txOk w :
  match removePreview id txOk w with
  | (Rejected e, w') =>
      log w' = log w ++ [ClearFailed id e] ∧
      images w' = images w ∧ videos w' = videos w ∧
      heap w' = heap w ∧ dbPromise w' = dbPromise w
  | (Resolved, w') =>
      ∃ d, dbPromise w = Some d ∧ dbPromise w' = Some (IDB.deleteByIndex id d) ∧
           heap w' = heap w ∧
           ((∃ type it, it ∈ records type w ∧ PreviewFile.id it = id ∧
               log w' = log w ++ [ChunksCleared id] ++ revocation it ++ [Removed type id] ∧
               items type w' = filter (λ r, ¬ has_id w id r) (items type w) ∧
               items (other type) w' = items (other type) w)
            ∨ (log w' = log w ++ [ChunksCleared id] ∧
               images w' = images w ∧ videos w' = videos w ∧
               ∀ type r, r ∈ items type w → ¬ has_id w id r))
  end.
Proof.
  unfold removePreview, clearChunksByFileId.
  destruct (dbPromise w) as [d|] eqn:Hd; [|simpl; rewrite Hd; auto].
  case_bool_decide; [|simpl; rewrite Hd; auto].
  destruct txOk; [|simpl; rewrite Hd; auto].
  set (w1 := emit (ChunksCleared id) (with_db (Some (IDB.deleteByIndex id d)) w)).
  destruct (removeFrom image id w1) as [w2|] eqn:E1.
  { destruct (removeFrom_Some _ _ _ _ E1) as (it & Hin & Hid & Hlog & Hit & Hot & Hh & Hdb).
    exists d. repeat split; try assumption. left. exists image, it.
    rewrite Hlog. simpl. rewrite <- app_assoc. repeat split; assumption. }
  destruct (removeFrom video id w1) as [w2|] eqn:E2.
  { destruct (removeFrom_Some _ _ _ _ E2) as (it & Hin & Hid & Hlog & Hit & Hot & Hh & Hdb).
    exists d. repeat split; try assumption. left. exists video, it.
    rewrite Hlog. simpl. rewrite <- app_assoc. repeat split; assumption. }
  exists d. repeat split. right. repeat split.
  intros [|] r Hr; [apply (removeFrom_None _ _ _ E1 r Hr) | apply (removeFrom_None _ _ _ E2 r Hr)].
Qed.

(** Both paths of [removePreview] on a store that has the index: the record
    of file 1 goes after its chunk and its handle; and on the store of
    [openDB], where the record stays. *)
Example removePreview_with_index :
  let w := run (HandleFiles [tiny] image :: rounds 0 1) (initial true ∅ ∅) in
  let indexed :=
    with_db (Some (IDB.mk ["fileId"%string] (default ∅ (IDB.chunks <$> dbPromise w)))) w in
  let '(o, w') := removePreview 1 true indexed in
  o = Resolved ∧ images w' = [] ∧
  IDB.getAll <$> dbPromise w' = Some [] ∧
  log w' = log w ++ [ChunksCleared 1; Revoked 0%nat; Removed image 1].
Proof. vm_compute. repeat split. Qed.

Example removePreview_without_index :
  let w := run (HandleFiles [tiny] image :: rounds 0 1) (initial true ∅ ∅) in
  let '(o, w') := removePreview 1 true w in
  o = Rejected IDB.NotFoundError ∧ images w' = [0%nat] ∧
  log w' = log w ++ [ClearFailed 1 IDB.NotFoundError].
Proof. vm_compute. repeat split. Qed.

(** ** [removeAll] *)

Lemma items_clearChunksByFileId type id txOk w :
  items type (clearChunksByFileId id txOk w).2 = items type w.
Proof.
  unfold clearChunksByFileId. destruct (dbPromise w); [|destruct type; reflexivity].
  case_bool_decide; [destruct txOk|]; destruct type; reflexivity.
Qed.

Lemma items_removeAllItem type txOk w it :
  items type (removeAllItem txOk w it) = items type w.
Proof.
  unfold removeAllItem.
  pose proof (items_clearChunksByFileId type (PreviewFile.id it) (txOk (PreviewFile.id it)) w) as Hc.
  destruct (clearChunksByFileId _ _ w) as [[|e] w1]; simpl in *; [|exact Hc].
  rewrite items_revokeObjectUrl. exact Hc.
Qed.

(** What C8 says of the arrays holds in every state: the partition is
    emptied, the other one and the records are left as they are. *)
Lemma removeAll_empties_partition type txOk w :
  items type (removeAll type txOk w) = [] ∧
  items (other type) (removeAll type txOk w) = items (other type) w ∧
  heap (removeAll type txOk w) = heap w.
Proof.
  split; [|split; [|apply heap_removeAll]].
  - unfold removeAll. generalize (records type w). intros captured.
    transitivity (items type (emit (Emptied type) (assign_items type [] w)));
      [|rewrite items_emit; apply items_assign_items].
    generalize (emit (Emptied type) (assign_items type [] w)).
    induction captured as [|it its IH]; intros w1; simpl; [reflexivity|].
    rewrite IH. apply items_removeAllItem.
  - unfold removeAll. generalize (records type w). intros captured.
    transitivity (items (other type) (emit (Emptied type) (assign_items type [] w)));
      [|rewrite items_emit; apply items_other_assign_items].
    generalize (emit (Emptied type) (assign_items type [] w)).
    induction captured as [|it its IH]; intros w1; simpl; [reflexivity|].
    rewrite IH. apply items_removeAllItem.
Qed.

(** The error with which [clearChunksByFileId] rejects on the store of
    [openDB]. *)
Definition clear_error (db : option IDB.Database) : IDB.Error :=
  match db with Some _ => IDB.NotFoundError | None => IDB.EnvironmentUnsupported end.

Lemma removeAllItems_without_index txOk captured w :
  (∀ d, dbPromise w = Some d → IDB.indexNames d = []) →
  let w' := fold_left (removeAllItem txOk) captured w in
  dbPromise w' = dbPromise w ∧
  log w' = log w ++ ((λ it, ClearFailed (PreviewFile.id it) (clear_error (dbPromise w)))
                       <$> captured).
Proof.
  revert w. induction captured as [|it its IH]; intros w Hidx; simpl.
  - rewrite app_nil_r. auto.
  - assert (E : removeAllItem txOk w it
                = emit (ClearFailed (PreviewFile.id it) (clear_error (dbPromise w))) w).
    { unfold removeAllItem, clearChunksByFileId, clear_error.
      destruct (dbPromise w) as [d|] eqn:Hd; [|reflexivity].
      rewrite (Hidx d eq_refl). reflexivity. }
    rewrite E. destruct (IH (emit (ClearFailed (PreviewFile.id it) (clear_error (dbPromise w))) w))
      as [H1 H2]; [exact Hidx|].
    simpl in *. split; [exact H1|]. rewrite H2, <- app_assoc. reflexivity.
Qed.

(** C8 on the code.  In every state the component reaches, [removeAll]
    empties the partition and leaves the other one alone, but the cleanup
    of its items stops at the rejection of [clearChunksByFileId]: no chunk
    is deleted and no handle is revoked. *)
Theorem removeAll_skips_the_cleanup supported persisted stored evs type txOk :
  let w := run evs (initial supported persisted stored) in
  let w' := removeAll type txOk w in
  items type w' = [] ∧
  items (other type) w' = items (other type) w ∧
  heap w' = heap w ∧
  dbPromise w' = dbPromise w ∧
  log w' = log w ++ Emptied type ::
             ((λ it, ClearFailed (PreviewFile.id it) (clear_error (dbPromise w)))
                <$> records type w).
Proof.
  intros w w'.
  pose proof (Inv_reachable supported persisted stored evs) as HI. fold w in HI.
  destruct (removeAll_empties_partition type txOk w) as (H1 & H2 & H3).
  split; [exact H1|]. split; [exact H2|]. split; [exact H3|].
  unfold w', removeAll.
  destruct (removeAllItems_without_index txOk (records type w)
              (emit (Emptied type) (assign_items type [] w))) as [Hd Hl].
  { simpl. rewrite dbPromise_assign_items. apply (inv_index _ _ _ _ HI). }
  simpl in Hd, Hl. rewrite dbPromise_assign_items in Hd, Hl. rewrite log_assign_items in Hl.
  split; [exact Hd|]. rewrite Hl, <- app_assoc. reflexivity.
Qed.

(** The failing input of C8: after [removeAll] on an ingested image its
    chunk is still stored and its handle was never revoked; on a store
    with the index both would have happened. *)
Example removeAll_leaves_chunks_and_handles :
  let w := run (HandleFiles [tiny] image :: rounds 0 1) (initial true ∅ ∅) in
  let w' := removeAll image (λ _, true) w in
  images w' = [] ∧
  (λ d, FileChunk.data <$> IDB.getAll d) <$> dbPromise w'
  = Some [[Byte.x61; Byte.x62; Byte.x63]] ∧
  log w' = log w ++ [Emptied image; ClearFailed 1 IDB.NotFoundError].
Proof. vm_compute. repeat split. Qed.

Example removeAll_with_index :
  let w := run (HandleFiles [tiny] image :: rounds 0 1) (initial true ∅ ∅) in
  let indexed :=
    with_db (Some (IDB.mk ["fileId"%string] (default ∅ (IDB.chunks <$> dbPromise w)))) w in
  let w' := removeAll image (λ _, true) indexed in
  images w' = [] ∧ IDB.getAll <$> dbPromise w' = Some [] ∧
  log w' = log w ++ [Emptied image; ChunksCleared 1; Revoked 0%nat].
Proof. vm_compute. repeat split. Qed.

(** * Export *)

(** The number of chunks stored for a file, as the verification loop counts
    them, and the records it warns about. *)
Definition stored_count (d : IDB.Database) (id : Z) : Z :=
  Z.of_nat (length (filter (λ c, FileChunk.fileId c = id) (IDB.getAll d))).

Definition incomplete (d : IDB.Database) (f : PreviewFile.t) : Prop :=
  stored_count d (PreviewFile.id f) ≠ totalChunks_or_0 f.

#[global] Instance incomplete_dec d f : Decision (incomplete d f).
Proof. unfold incomplete. apply _. Defined.

(** The manifest that the specification describes: one entry per record,
    in order, with the record's id, name, size and chunk count and the time
    of its serialization. *)
Definition manifest_of (now : nat → Z) (fs : list PreviewFile.t) : list Metadata.t :=
  imap (λ k f, Metadata.mk (PreviewFile.id f) (PreviewFile.fileName f)
                           (PreviewFile.size f) (PreviewFile.totalChunks f) (now k)) fs.

Lemma manifest_of_length now fs : length (manifest_of now fs) = length fs.
Proof. apply length_imap. Qed.

Lemma manifest_of_lookup now fs k f :
  fs !! k = Some f →
  manifest_of now fs !! k
  = Some (Metadata.mk (PreviewFile.id f) (PreviewFile.fileName f) (PreviewFile.size f)
                      (PreviewFile.totalChunks f) (now k)).
Proof. intros H. unfold manifest_of. rewrite list_lookup_imap, H. reflexivity. Qed.

(** * The arrays, the object URLs and the ids *)

(** Two states with the same arrays, closures and counters: they differ in
    the store, in [localStorage] and in what was done to the outside. *)
Definition same_records (w w' : World) : Prop :=
  images w' = images w ∧ videos w' = videos w ∧ heap w' = heap w ∧
  idCounter w' = idCounter w ∧ nextUrl w' = nextUrl w.

Lemma same_records_refl w : same_records w w.
Proof. repeat split. Qed.

Lemma same_records_trans w1 w2 w3 :
  same_records w1 w2 → same_records w2 w3 → same_records w1 w3.
Proof.
  intros (A1 & A2 & A3 & A4 & A5) (B1 & B2 & B3 & B4 & B5).
  repeat split; congruence.
Qed.

Lemma same_records_emit e w : same_records w (emit e w).
Proof. repeat split. Qed.

Lemma same_records_clearChunksByFileId id txOk w :
  same_records w (clearChunksByFileId id txOk w).2.
Proof.
  unfold clearChunksByFileId. destruct (dbPromise w); [|repeat split].
  case_bool_decide; [destruct txOk|]; repeat split.
Qed.

Lemma same_records_revokeObjectUrl it w : same_records w (revokeObjectUrl it w).
Proof. unfold revokeObjectUrl. destruct (PreviewFile.objectUrl it); repeat split. Qed.

Lemma same_records_nextRecord u a w : same_records w (nextRecord u a w).
Proof. unfold nextRecord. destruct (array_of a w !! Upload.next a); repeat split. Qed.

Lemma same_records_uploadAll type now w : same_records w (uploadAll type now w).
Proof. unfold uploadAll. case_bool_decide; repeat split. Qed.

Lemma same_records_onDbSettled u w : same_records w (onDbSettled u w).
Proof.
  unfold onDbSettled. destruct (uploads w !! u) as [a|]; [|apply same_records_refl].
  destruct (Upload.phase a); try apply same_records_refl.
  destruct (dbPromise w); [apply same_records_nextRecord | repeat split].
Qed.

Lemma same_records_onGetAllSettled u ok w : same_records w (onGetAllSettled u ok w).
Proof.
  unfold onGetAllSettled. destruct (uploads w !! u) as [a|]; [|apply same_records_refl].
  destruct (Upload.phase a) as [|ref|o]; try apply same_records_refl.
  destruct ok; [|repeat split].
  destruct (dbPromise w) as [db|]; [|apply same_records_refl].
  destruct (deref w ref) as [f|]; [|apply same_records_refl].
  eapply same_records_trans; [|apply same_records_nextRecord].
  case_bool_decide; repeat split.
Qed.

(** In the states the component reaches, [removePreview] stops at its
    [await] and [removeAll] only empties its array. *)
Lemma removePreview_reachable id txOk w :
  Inv w → ∃ e, removePreview id txOk w = (Rejected e, emit (ClearFailed id e) w).
Proof.
  intros HI. unfold removePreview.
  destruct (clearChunksByFileId_rejects w id txOk (inv_index _ _ _ _ HI)) as [e ->].
  eauto.
Qed.

Lemma removeAllItems_same_records txOk captured w :
  same_records w (fold_left (removeAllItem txOk) captured w).
Proof.
  revert w. induction captured as [|it its IH]; intros w; simpl; [apply same_records_refl|].
  eapply same_records_trans; [|apply IH].
  unfold removeAllItem.
  pose proof (same_records_clearChunksByFileId (PreviewFile.id it) (txOk (PreviewFile.id it)) w) as Hc.
  destruct (clearChunksByFileId _ _ w) as [[|e] w1]; simpl in *; [|exact Hc].
  eapply same_records_trans; [exact Hc|]. apply same_records_revokeObjectUrl.
Qed.

Lemma removeAll_arrays type txOk w :
  let w' := removeAll type txOk w in
  items type w' = [] ∧ items (other type) w' = items (other type) w ∧
  heap w' = heap w ∧ idCounter w' = idCounter w ∧ nextUrl w' = nextUrl w.
Proof.
  intros w'. unfold w', removeAll.
  destruct (removeAllItems_same_records txOk (records type w)
              (emit (Emptied type) (assign_items type [] w))) as (A1 & A2 & A3 & A4 & A5).
  assert (Hi : ∀ t, items t (fold_left (removeAllItem txOk) (records type w)
                               (emit (Emptied type) (assign_items type [] w)))
                    = items t (assign_items type [] w)).
  { intros []; simpl; assumption. }
  rewrite !Hi, A3, A4, A5.
  destruct type; repeat split.
Qed.

(** The events addressed to a closure leave the arrays and the counters
    alone and keep the number of closures. *)
Lemma cell_event_arrays w e :
  match e with
  | ReadSettled _ _ | SaveSettled _ _ | TimerFired _ | SaveAborted _ => True
  | _ => False
  end →
  images (step w e) = images w ∧ videos (step w e) = videos w ∧
  length (heap (step w e)) = length (heap w) ∧
  idCounter (step w e) = idCounter w ∧ nextUrl (step w e) = nextUrl w.
Proof.
  destruct e as [| r ok | r txOk | r | | | | r | |]; try contradiction; intros _; simpl.
  - unfold onReadSettled. destruct (heap w !! r) as [c|]; [|repeat split].
    destruct (Closure.phase c); try (repeat split; fail).
    destruct ok; unfold catchError; simpl; rewrite length_insert; repeat split.
  - unfold onSaveSettled. destruct (heap w !! r) as [c|]; [|repeat split].
    destruct (Closure.phase c); try (repeat split; fail).
    unfold saveChunk. destruct (dbPromise w); [destruct txOk|];
      unfold catchError; simpl; rewrite length_insert; repeat split.
  - unfold onTimer. destruct (heap w !! r) as [c|] eqn:Hr; [|repeat split].
    destruct (Closure.phase c); try (repeat split; fail).
    rewrite (processNextChunk_cell _ _ _ Hr). unfold set_cell; simpl.
    rewrite length_insert. repeat split.
  - unfold onSaveAborted. destruct (heap w !! r) as [c|]; [|repeat split].
    destruct (Closure.phase c); try (repeat split; fail).
    destruct (dbPromise w); [|repeat split].
    unfold set_cell; simpl. rewrite length_insert. repeat split.
Qed.

(** What [handleFile] does to the arrays and to the URL registry. *)
Lemma handleFile_arrays type w file :
  let w' := handleFile type w file in
  items type w' = items type w ++ [length (heap w)] ∧
  items (other type) w' = items (other type) w ∧
  nextUrl w' = S (nextUrl w).
Proof.
  intros w'. unfold w', handleFile. fold (fresh_closure w file).
  set (w1 := mkWorld _ _ _ _ _ _ _ _ _).
  rewrite (processNextChunk_cell _ _ (fresh_closure w file)).
  - destruct type; repeat split.
  - rewrite heap_with_items. unfold w1; simpl.
    rewrite lookup_app_r by lia. rewrite Nat.sub_diag. reflexivity.
Qed.

(** The fields of a placeholder that nothing assigns after its creation. *)
Definition identity (p : PreviewFile.t)
  : Z * string * Z * option ObjectURL * option ObjectURL * option Z :=
  (PreviewFile.id p, PreviewFile.fileName p, PreviewFile.size p,
   PreviewFile.url p, PreviewFile.objectUrl p, PreviewFile.totalChunks p).

Lemma started_identity c :
  identity (Closure.placeholder (started c)) = identity (Closure.placeholder c) ∧
  Closure.file (started c) = Closure.file c ∧ Closure.id (started c) = Closure.id c.
Proof. unfold started. destruct (_ <=? _); repeat split. Qed.

Lemma moves_identity w r c e c' :
  moves w r c e c' →
  identity (Closure.placeholder c') = identity (Closure.placeholder c) ∧
  Closure.file c' = Closure.file c ∧ Closure.id c' = Closure.id c.
Proof. intros [| | | | |]; try (repeat split; fail). apply started_identity. Qed.

(** The arrays hold references to closures that exist, none twice; the
    object URL of a placeholder is the one created with it. *)
Record shape (w : World) : Prop := {
  sh_url : nextUrl w = length (heap w);
  sh_refs : ∀ r, r ∈ images w ++ videos w → (r < length (heap w))%nat;
  sh_nodup : NoDup (images w ++ videos w);
  sh_cell : ∀ (r : nat) c, heap w !! r = Some c →
    PreviewFile.objectUrl (Closure.placeholder c) = Some r ∧
    PreviewFile.url (Closure.placeholder c) = Some r ∧
    PreviewFile.fileName (Closure.placeholder c) = File.name (Closure.file c) ∧
    PreviewFile.size (Closure.placeholder c) = File.size (Closure.file c)
}.

Lemma shape_same_records w w' : same_records w w' → shape w → shape w'.
Proof.
  intros (A1 & A2 & A3 & A4 & A5) [B1 B2 B3 B4].
  split; rewrite ?A1, ?A2, ?A3, ?A5; assumption.
Qed.

Lemma images_videos_items type w :
  images w ++ videos w ≡ₚ items type w ++ items (other type) w.
Proof. destruct type; simpl; [reflexivity|apply Permutation_app_comm]. Qed.

Lemma shape_handleFile type w file : shape w → shape (handleFile type w file).
Proof.
  intros [B1 B2 B3 B4].
  destruct (handleFile_arrays type w file) as (I1 & I2 & U).
  pose proof (handleFile_heap type w file) as Hh.
  split.
  - rewrite U, Hh, length_app, B1. simpl. lia.
  - intros r. rewrite (images_videos_items type), I1, I2, Hh, length_app. simpl.
    rewrite !elem_of_app, list_elem_of_singleton. intros [[Hr | ->] | Hr]; [| lia |].
    + assert (r < length (heap w))%nat; [|lia].
      apply B2. rewrite (images_videos_items type), elem_of_app. auto.
    + assert (r < length (heap w))%nat; [|lia].
      apply B2. rewrite (images_videos_items type), elem_of_app. auto.
  - rewrite (images_videos_items type), I1, I2.
    rewrite (images_videos_items type) in B3.
    rewrite <- app_assoc. simpl.
    apply NoDup_app in B3 as (N1 & N2 & N3).
    apply NoDup_app. split; [exact N1|]. split.
    + intros r Hr. rewrite elem_of_cons. intros [-> | Hr'].
      * assert (length (heap w) < length (heap w))%nat; [|lia].
        apply B2. rewrite (images_videos_items type), elem_of_app. auto.
      * exact (N2 r Hr Hr').
    + apply NoDup_cons. split; [|exact N3].
      intros Hin. assert (length (heap w) < length (heap w))%nat; [|lia].
      apply B2. rewrite (images_videos_items type), elem_of_app. auto.
  - intros r c. rewrite Hh. intros Hr.
    destruct (decide (r < length (heap w))%nat) as [Hlt | Hge].
    + rewrite lookup_app_l in Hr by exact Hlt. apply B4, Hr.
    + rewrite lookup_app_r in Hr by lia.
      destruct (r - length (heap w))%nat as [|k] eqn:Ek; [|discriminate].
      injection Hr as <-. assert (r = length (heap w)) as -> by lia.
      destruct (started_identity (fresh_closure w file)) as (Hi & Hf & _).
      unfold identity in Hi. injection Hi as _ E2 E3 E4 E5 _.
      rewrite E5, E4, E3, E2, Hf. unfold fresh_closure; simpl. rewrite B1. auto.
Qed.

Lemma shape_handleFiles files type w : shape w → shape (handleFiles files type w).
Proof.
  unfold handleFiles. revert w. induction files as [|f fs IH]; intros w H; simpl; [exact H|].
  apply IH, shape_handleFile, H.
Qed.

Lemma shape_cell_event w e :
  match e with
  | ReadSettled _ _ | SaveSettled _ _ | TimerFired _ | SaveAborted _ => True
  | _ => False
  end →
  shape w → shape (step w e).
Proof.
  intros He [B1 B2 B3 B4].
  destruct (cell_event_arrays w e He) as (A1 & A2 & A3 & A4 & A5).
  split; rewrite ?A1, ?A2, ?A3, ?A5; try assumption.
  intros r c' Hr'.
  assert (Hlt : (r < length (heap w))%nat).
  { rewrite <- A3. eapply lookup_lt_Some, Hr'. }
  destruct (lookup_lt_is_Some_2 _ _ Hlt) as [c Hr].
  destruct (step_cell w e r c Hr) as (c2 & Hc2 & Hm).
  assert (c2 = c') as -> by congruence.
  destruct Hm as [-> | Hm]; [apply B4, Hr|].
  destruct (moves_identity _ _ _ _ _ Hm) as (Hi & Hf & _).
  unfold identity in Hi. injection Hi as _ E2 E3 E4 E5 _.
  rewrite E5, E4, E3, E2, Hf. apply B4, Hr.
Qed.

Lemma shape_step w e : Inv w → shape w → shape (step w e).
Proof.
  intros HI HS.
  destruct e as [files type|r ok|r txOk|r|id txOk|type txOk|type now|r|u|u ok].
  - apply shape_handleFiles, HS.
  - apply shape_cell_event; [exact I | exact HS].
  - apply shape_cell_event; [exact I | exact HS].
  - apply shape_cell_event; [exact I | exact HS].
  - simpl. destruct (removePreview_reachable id txOk w HI) as [e ->]; simpl.
    eapply shape_same_records; [apply same_records_emit | exact HS].
  - simpl. destruct (removeAll_arrays type txOk w) as (I1 & I2 & Hh & _ & U).
    destruct HS as [B1 B2 B3 B4].
    assert (Hsub : images (removeAll type txOk w) ++ videos (removeAll type txOk w)
                   `sublist_of` images w ++ videos w).
    { destruct type; simpl in I1, I2; rewrite I1, I2.
      - apply sublist_inserts_l. reflexivity.
      - rewrite app_nil_r. apply sublist_inserts_r. reflexivity. }
    split; rewrite ?Hh, ?U; try assumption.
    + intros r Hr. apply B2. eapply elem_of_sublist; eassumption.
    + eapply sublist_NoDup; eassumption.
  - simpl. eapply shape_same_records; [apply same_records_uploadAll | exact HS].
  - apply shape_cell_event; [exact I | exact HS].
  - simpl. eapply shape_same_records; [apply same_records_onDbSettled | exact HS].
  - simpl. eapply shape_same_records; [apply same_records_onGetAllSettled | exact HS].
Qed.

(** The invariants together. *)
Definition Good (w : World) : Prop := Inv w ∧ shape w.

Lemma Good_step w e : Good w → Good (step w e).
Proof. intros [HI HS]. split; [apply Inv_step, HI | apply shape_step; assumption]. Qed.

Lemma Good_run evs w : Good w → Good (run evs w).
Proof.
  unfold run. revert w. induction evs as [|e evs IH]; intros w H; simpl; [exact H|].
  apply IH, Good_step, H.
Qed.

Lemma Good_reachable supported persisted stored evs :
  Good (run evs (initial supported persisted stored)).
Proof.
  apply Good_run. split; [apply Inv_initial|].
  split; simpl.
  - reflexivity.
  - intros r Hr. inversion Hr.
  - constructor.
  - intros r c Hr. discriminate.
Qed.

(** ** The records behind the references *)

Lemma deref_valid w (r : nat) c : heap w !! r = Some c → deref w r = Some (Closure.placeholder c).
Proof. intros H. unfold deref. rewrite H. reflexivity. Qed.

Lemma omap_deref_fmap {B} (f : PreviewFile.t → B) (g : nat → B) w (l : list nat) :
  (∀ r, r ∈ l → ∃ c, heap w !! r = Some c ∧ f (Closure.placeholder c) = g r) →
  f <$> omap (deref w) l = g <$> l.
Proof.
  induction l as [|r l IH]; intros H; simpl; [reflexivity|].
  destruct (H r) as (c & Hc & Hf); [left|].
  rewrite (deref_valid _ _ _ Hc). simpl. rewrite Hf. f_equal.
  apply IH. intros r' Hr'. apply H. right. exact Hr'.
Qed.

Lemma items_listed type w r : r ∈ items type w → r ∈ images w ++ videos w.
Proof. rewrite elem_of_app. destruct type; simpl; auto. Qed.

Lemma record_ids type w :
  Good w →
  PreviewFile.id <$> records type w = (λ r : nat, Z.of_nat r + 1) <$> items type w.
Proof.
  intros [HI HS]. apply omap_deref_fmap. intros r Hr.
  destruct (lookup_lt_is_Some_2 (heap w) r) as [c Hc].
  { apply (sh_refs _ HS), (items_listed type), Hr. }
  exists c. split; [exact Hc|].
  destruct (inv_cells _ _ _ _ HI r c Hc) as [Hid Hpid _ _ _ _ _ _]. congruence.
Qed.

Lemma record_urls type w :
  Good w →
  PreviewFile.objectUrl <$> records type w = Some <$> items type w.
Proof.
  intros [HI HS]. apply omap_deref_fmap. intros r Hr.
  destruct (lookup_lt_is_Some_2 (heap w) r) as [c Hc].
  { apply (sh_refs _ HS), (items_listed type), Hr. }
  exists c. split; [exact Hc|]. apply (sh_cell _ HS r c Hc).
Qed.

Lemma records_length type w : Good w → length (records type w) = length (items type w).
Proof.
  intros H. pose proof (f_equal length (record_ids type w H)) as E.
  rewrite !length_fmap in E. exact E.
Qed.

(** X1. The records shown have pairwise different ids, all between 1 and
    [idCounter]; [idCounter] counts the files ever handed to [handleFiles],
    and the file handed in as the [r+1]-th has id [r + 1]. *)
Theorem record_ids_are_unique supported persisted stored evs :
  let w := run evs (initial supported persisted stored) in
  let shown := records image w ++ records video w in
  NoDup (PreviewFile.id <$> shown) ∧
  (∀ p, p ∈ shown → 1 <= PreviewFile.id p <= idCounter w) ∧
  idCounter w = Z.of_nat (length (heap w)) ∧
  ∀ (r : nat) c, heap w !! r = Some c →
    Closure.id c = Z.of_nat r + 1 ∧ PreviewFile.id (Closure.placeholder c) = Z.of_nat r + 1.
Proof.
  intros w shown.
  pose proof (Good_reachable supported persisted stored evs) as HG. fold w in HG.
  destruct HG as [HI HS].
  assert (Hids : PreviewFile.id <$> shown
                 = (λ r : nat, Z.of_nat r + 1) <$> (images w ++ videos w)).
  { unfold shown. rewrite !fmap_app.
    rewrite (record_ids image w (conj HI HS)), (record_ids video w (conj HI HS)).
    reflexivity. }
  split; [|split; [|split]].
  - rewrite Hids. apply NoDup_fmap_2; [|apply (sh_nodup _ HS)].
    intros a b H. lia.
  - intros p Hp.
    assert (Hin : PreviewFile.id p ∈ PreviewFile.id <$> shown).
    { apply list_elem_of_fmap. eauto. }
    rewrite Hids in Hin. apply list_elem_of_fmap in Hin as (r & -> & Hr).
    pose proof (sh_refs _ HS r Hr) as Hlt.
    rewrite (inv_counter _ _ _ _ HI). lia.
  - apply (inv_counter _ _ _ _ HI).
  - intros r c Hc.
    destruct (inv_cells _ _ _ _ HI r c Hc) as [Hid Hpid _ _ _ _ _ _].
    split; congruence.
Qed.

(** ** [handleFiles] on the arrays *)

(** The record that [handleFiles] shows for a file once the loop is over:
    still loading at 0, or complete at once when the file has no chunk. *)
Definition placeholder_of (id : Z) (u : ObjectURL) (file : File.t) : PreviewFile.t :=
  let n := totalChunksOf (File.size file) in
  PreviewFile.mk id (File.name file) (File.size file) (Some u) (Some u)
    (negb (n <=? 0)) (if n <=? 0 then 100 else 0) (Some n).

Lemma started_fresh_placeholder w file :
  Closure.placeholder (started (fresh_closure w file))
  = placeholder_of (idCounter w + 1) (nextUrl w) file.
Proof.
  unfold started, fresh_closure, placeholder_of; simpl.
  destruct (totalChunksOf (File.size file) <=? 0); reflexivity.
Qed.

Lemma omap_ext_in {A B} (f g : A → option B) (l : list A) :
  (∀ x, x ∈ l → f x = g x) → omap f l = omap g l.
Proof.
  induction l as [|a l IH]; intros H; simpl; [reflexivity|].
  rewrite (H a) by left.
  assert (E : omap f l = omap g l).
  { apply IH. intros x Hx. apply H. right. exact Hx. }
  destruct (g a); [f_equal|]; exact E.
Qed.

Lemma omap_deref_app w c (l : list nat) :
  (∀ r, r ∈ l → (r < length (heap w))%nat) →
  omap (λ r : nat, Closure.placeholder <$> (heap w ++ [c]) !! r) l = omap (deref w) l.
Proof.
  intros H. apply omap_ext_in. intros r Hr. unfold deref.
  rewrite lookup_app_l by (apply H, Hr). reflexivity.
Qed.

Lemma handleFile_records type w file :
  shape w →
  let w' := handleFile type w file in
  records type w' = records type w ++ [placeholder_of (idCounter w + 1) (nextUrl w) file] ∧
  records (other type) w' = records (other type) w.
Proof.
  intros HS w'.
  destruct (handleFile_arrays type w file) as (I1 & I2 & _).
  pose proof (handleFile_heap type w file) as Hh. fold w' in I1, I2, Hh.
  unfold records, deref. rewrite I1, I2, Hh. split.
  - rewrite omap_app. simpl.
    rewrite lookup_app_r by lia. rewrite Nat.sub_diag. simpl.
    rewrite started_fresh_placeholder. f_equal.
    apply omap_deref_app. intros r Hr. apply (sh_refs _ HS), (items_listed type), Hr.
  - apply omap_deref_app. intros r Hr. apply (sh_refs _ HS), (items_listed (other type)), Hr.
Qed.

Lemma handleFiles_records files type w :
  Good w →
  let w' := handleFiles files type w in
  records type w'
  = records type w
    ++ imap (λ k file, placeholder_of (idCounter w + Z.of_nat k + 1) (nextUrl w + k)%nat file)
            files ∧
  records (other type) w' = records (other type) w ∧
  idCounter w' = idCounter w + Z.of_nat (length files) ∧
  log w' = log w ∧ dbPromise w' = dbPromise w ∧ localStorage w' = localStorage w.
Proof.
  unfold handleFiles. revert w. induction files as [|f fs IH]; intros w HG; simpl.
  - rewrite app_nil_r. repeat split. lia.
  - assert (HG1 : Good (handleFile type w f)) by apply (Good_step w (HandleFiles [f] type) HG).
    destruct (IH _ HG1) as (R1 & R2 & C & L & D & S).
    destruct (handleFile_records type w f (proj2 HG)) as (Q1 & Q2).
    destruct (handleFile_arrays type w f) as (_ & _ & U).
    rewrite R1, R2, C, L, D, S, Q1, Q2, U, handleFile_idCounter, handleFile_log,
      handleFile_dbPromise.
    split; [|repeat split; try lia].
    + rewrite <- app_assoc. simpl. f_equal.
      rewrite Z.add_0_r, Nat.add_0_r. f_equal.
      apply imap_ext. intros k file _. simpl. f_equal; lia.
    + unfold handleFile. fold (fresh_closure w f).
      set (w1 := mkWorld _ _ _ _ _ _ _ _ _).
      rewrite (processNextChunk_cell _ _ (fresh_closure w f)).
      * destruct type; reflexivity.
      * rewrite heap_with_items. unfold w1; simpl.
        rewrite lookup_app_r by lia. rewrite Nat.sub_diag. reflexivity.
Qed.

(** X2. [handleFiles] appends one record per file to the array of its
    partition, in the order of the files, with consecutive ids and object
    URLs, the name and the size of the file and its number of chunks; the
    record of a file without chunks is complete at once, the others are
    loading at 0.  The other partition, the store, [localStorage] and the
    log stay as they are. *)
Theorem handleFiles_appends_in_order supported persisted stored evs files type :
  let w := run evs (initial supported persisted stored) in
  let w' := handleFiles files type w in
  records type w'
  = records type w
    ++ imap (λ k file, placeholder_of (idCounter w + Z.of_nat k + 1) (nextUrl w + k)%nat file)
            files ∧
  records (other type) w' = records (other type) w ∧
  idCounter w' = idCounter w + Z.of_nat (length files) ∧
  log w' = log w ∧ dbPromise w' = dbPromise w ∧ localStorage w' = localStorage w.
Proof. intros w. apply handleFiles_records, Good_reachable. Qed.

(** * What the component never undoes *)

(** The effects of a cleanup: chunks deleted, an object URL revoked, a
    record taken out of its array by [removePreview]. *)
Definition cleanup (e : Effect) : Prop :=
  match e with
  | ChunksCleared _ | Revoked _ | Removed _ _ => True
  | _ => False
  end.

Lemma log_nextRecord u a w :
  ∃ l, log (nextRecord u a w) = log w ++ l ∧ Forall (λ e, ¬ cleanup e) l.
Proof.
  unfold nextRecord. destruct (array_of a w !! Upload.next a).
  - exists []. rewrite app_nil_r. auto.
  - eexists; (split; [reflexivity|]); repeat constructor; simpl; tauto.
Qed.

Lemma dbPromise_nextRecord u a w : dbPromise (nextRecord u a w) = dbPromise w.
Proof. unfold nextRecord. destruct (array_of a w !! Upload.next a); reflexivity. Qed.

Lemma dbPromise_uploadAll type now w : dbPromise (uploadAll type now w) = dbPromise w.
Proof. unfold uploadAll. case_bool_decide; reflexivity. Qed.

Lemma dbPromise_onDbSettled u w : dbPromise (onDbSettled u w) = dbPromise w.
Proof.
  unfold onDbSettled. destruct (uploads w !! u) as [a|]; [|reflexivity].
  destruct (Upload.phase a); try reflexivity.
  destruct (dbPromise w) eqn:Hd; [|exact Hd].
  rewrite dbPromise_nextRecord. exact Hd.
Qed.

Lemma dbPromise_onGetAllSettled u ok w : dbPromise (onGetAllSettled u ok w) = dbPromise w.
Proof.
  unfold onGetAllSettled. destruct (uploads w !! u) as [a|]; [|reflexivity].
  destruct (Upload.phase a) as [|ref|o]; try reflexivity.
  destruct ok; [|reflexivity].
  destruct (dbPromise w) as [db|] eqn:Hd; [|exact Hd].
  destruct (deref w ref) as [f|]; [|exact Hd].
  rewrite dbPromise_nextRecord. case_bool_decide; exact Hd.
Qed.

Lemma log_onDbSettled u w :
  ∃ l, log (onDbSettled u w) = log w ++ l ∧ Forall (λ e, ¬ cleanup e) l.
Proof.
  unfold onDbSettled.
  destruct (uploads w !! u) as [a|]; [|exists []; rewrite app_nil_r; auto].
  destruct (Upload.phase a); try (exists []; rewrite app_nil_r; auto; fail).
  destruct (dbPromise w); [apply log_nextRecord | exists []; rewrite app_nil_r; auto].
Qed.

Lemma log_onGetAllSettled u ok w :
  ∃ l, log (onGetAllSettled u ok w) = log w ++ l ∧ Forall (λ e, ¬ cleanup e) l.
Proof.
  unfold onGetAllSettled.
  destruct (uploads w !! u) as [a|]; [|exists []; rewrite app_nil_r; auto].
  destruct (Upload.phase a) as [|ref|o]; try (exists []; rewrite app_nil_r; auto; fail).
  destruct ok; [|exists []; rewrite app_nil_r; auto].
  destruct (dbPromise w) as [db|]; [|exists []; rewrite app_nil_r; auto].
  destruct (deref w ref) as [f|]; [|exists []; rewrite app_nil_r; auto].
  case_bool_decide; [|apply log_nextRecord].
  destruct (log_nextRecord u a (emit (Warned (PreviewFile.fileName f)) w)) as (l & -> & Hl).
  exists (Warned (PreviewFile.fileName f) :: l). simpl. rewrite <- app_assoc.
  split; [reflexivity|]. constructor; [simpl; tauto | exact Hl].
Qed.

Lemma handleFiles_log files type w : log (handleFiles files type w) = log w.
Proof.
  unfold handleFiles. revert w. induction files as [|f fs IH]; intros w; simpl; [reflexivity|].
  rewrite IH. apply handleFile_log.
Qed.

Lemma handleFiles_dbPromise files type w : dbPromise (handleFiles files type w) = dbPromise w.
Proof.
  unfold handleFiles. revert w. induction files as [|f fs IH]; intros w; simpl; [reflexivity|].
  rewrite IH. apply handleFile_dbPromise.
Qed.

(** Every step either leaves the store alone or is the commit of the put
    that a closure waits for. *)
Lemma step_store w e :
  Inv w →
  dbPromise (step w e) = dbPromise w ∨
  ∃ (r : nat) c d,
    e = SaveSettled r true ∧ heap w !! r = Some c ∧
    Closure.phase c = AwaitSave (chunk_of c (Closure.currentChunk c)) ∧
    Closure.currentChunk c < Closure.totalChunks c ∧
    dbPromise w = Some d ∧
    dbPromise (step w e) = Some (IDB.put (chunk_of c (Closure.currentChunk c)) d) ∧
    heap (step w e) = <[r := committed c]> (heap w).
Proof.
  intros HI.
  destruct e as [files type|r ok|r txOk|r|id txOk|type txOk|type now|r|u|u ok]; simpl.
  - left. apply handleFiles_dbPromise.
  - left. unfold onReadSettled. destruct (heap w !! r) as [c|]; [|reflexivity].
    destruct (Closure.phase c); try reflexivity. destruct ok; reflexivity.
  - unfold onSaveSettled. destruct (heap w !! r) as [c|] eqn:Hr; [|auto].
    destruct (Closure.phase c) as [|chunk| | | |] eqn:Hph; auto.
    unfold saveChunk. destruct (dbPromise w) as [d|] eqn:Hd; [|auto].
    destruct txOk; [|auto]. right.
    pose proof (ci_phase _ _ _ _ (inv_cells _ _ _ _ HI r c Hr)) as Hok.
    unfold phase_ok in Hok. rewrite Hph in Hok. destruct Hok as (Hlt & -> & _).
    exists r, c, d. repeat split; auto.
  - left. unfold onTimer. destruct (heap w !! r) as [c|] eqn:Hr; [|reflexivity].
    destruct (Closure.phase c); try reflexivity.
    rewrite (processNextChunk_cell _ _ _ Hr). reflexivity.
  - left. destruct (removePreview_reachable id txOk w HI) as [e ->]. reflexivity.
  - left. unfold removeAll.
    destruct (removeAllItems_without_index txOk (records type w)
                (emit (Emptied type) (assign_items type [] w))) as [Hd _].
    { intros d Hd. apply (inv_index _ _ _ _ HI).
      rewrite <- Hd. destruct type; reflexivity. }
    rewrite Hd. destruct type; reflexivity.
  - left. apply dbPromise_uploadAll.
  - left. unfold onSaveAborted. destruct (heap w !! r) as [c|]; [|reflexivity].
    destruct (Closure.phase c); try reflexivity.
    destruct (dbPromise w) eqn:Hd; exact Hd.
  - left. apply dbPromise_onDbSettled.
  - left. apply dbPromise_onGetAllSettled.
Qed.

(** What a step appends to the log holds no cleanup. *)
Lemma step_log w e :
  Inv w → ∃ l, log (step w e) = log w ++ l ∧ Forall (λ x, ¬ cleanup x) l.
Proof.
  intros HI.
  destruct e as [files type|r ok|r txOk|r|id txOk|type txOk|type now|r|u|u ok]; simpl.
  - exists []. rewrite app_nil_r, handleFiles_log. auto.
  - unfold onReadSettled. destruct (heap w !! r) as [c|]; [|exists []; rewrite app_nil_r; auto].
    destruct (Closure.phase c); try (exists []; rewrite app_nil_r; auto; fail).
    destruct ok; eexists; (split; [reflexivity|]); repeat constructor; simpl; tauto.
  - unfold onSaveSettled. destruct (heap w !! r) as [c|]; [|exists []; rewrite app_nil_r; auto].
    destruct (Closure.phase c); try (exists []; rewrite app_nil_r; auto; fail).
    unfold saveChunk. destruct (dbPromise w); [destruct txOk|];
      eexists; (split; [reflexivity|]); repeat constructor; simpl; tauto.
  - unfold onTimer. destruct (heap w !! r) as [c|] eqn:Hr; [|exists []; rewrite app_nil_r; auto].
    destruct (Closure.phase c); try (exists []; rewrite app_nil_r; auto; fail).
    rewrite (processNextChunk_cell _ _ _ Hr). exists []. rewrite app_nil_r. auto.
  - destruct (removePreview_reachable id txOk w HI) as [e ->]. simpl.
    eexists; (split; [reflexivity|]); repeat constructor; simpl; tauto.
  - unfold removeAll.
    destruct (removeAllItems_without_index txOk (records type w)
                (emit (Emptied type) (assign_items type [] w))) as [_ Hl].
    { intros d Hd. apply (inv_index _ _ _ _ HI).
      rewrite <- Hd. destruct type; reflexivity. }
    rewrite Hl. simpl.
    exists (Emptied type ::
            ((λ it, ClearFailed (PreviewFile.id it)
                      (clear_error (dbPromise (assign_items type [] w)))) <$> records type w)).
    split; [rewrite log_assign_items, <- app_assoc; reflexivity|].
    constructor; [simpl; tauto|]. apply Forall_fmap, Forall_forall. intros; simpl; tauto.
  - unfold uploadAll. case_bool_decide; [exists []; rewrite app_nil_r; auto|].
    exists [ManifestWritten (storageKey type)]. split; [reflexivity|].
    repeat constructor; simpl; tauto.
  - unfold onSaveAborted.
    destruct (heap w !! r) as [c|]; [|exists []; rewrite app_nil_r; auto].
    destruct (Closure.phase c); try (exists []; rewrite app_nil_r; auto; fail).
    destruct (dbPromise w); exists []; rewrite app_nil_r; auto.
  - apply log_onDbSettled.
  - apply log_onGetAllSettled.
Qed.

Lemma run_log evs w :
  Inv w → ∃ l, log (run evs w) = log w ++ l ∧ Forall (λ x, ¬ cleanup x) l.
Proof.
  unfold run. revert w. induction evs as [|e evs IH]; intros w HI; simpl.
  - exists []. rewrite app_nil_r. auto.
  - destruct (step_log w e HI) as (l1 & E1 & F1).
    destruct (IH _ (Inv_step w e HI)) as (l2 & E2 & F2).
    exists (l1 ++ l2). rewrite E2, E1, <- app_assoc. split; [reflexivity|].
    apply Forall_app. auto.
Qed.

(** The keys of the store. *)
Definition keeps_rows (db db' : option IDB.Database) : Prop :=
  match db with
  | Some d => ∃ d', db' = Some d' ∧ IDB.indexNames d' = IDB.indexNames d ∧
                    ∀ k, is_Some (IDB.chunks d !! k) → is_Some (IDB.chunks d' !! k)
  | None => db' = None
  end.

Lemma keeps_rows_refl db : keeps_rows db db.
Proof. destruct db as [d|]; simpl; eauto. Qed.

Lemma keeps_rows_trans db1 db2 db3 :
  keeps_rows db1 db2 → keeps_rows db2 db3 → keeps_rows db1 db3.
Proof.
  destruct db1 as [d1|]; simpl.
  - intros (d2 & -> & I2 & H2). simpl. intros (d3 & -> & I3 & H3).
    exists d3. repeat split; [congruence | auto].
  - intros ->. auto.
Qed.

Lemma step_keeps_rows w e : Inv w → keeps_rows (dbPromise w) (dbPromise (step w e)).
Proof.
  intros HI. destruct (step_store w e HI) as [-> | (r & c & d & _ & _ & _ & _ & Hd & -> & _)].
  - apply keeps_rows_refl.
  - rewrite Hd. simpl. eexists. split; [reflexivity|]. split; [reflexivity|].
    intros k Hk. simpl.
    destruct (decide ((Closure.id c, Closure.currentChunk c) = k)) as [<-|Hne].
    + rewrite lookup_insert_eq. eauto.
    + rewrite lookup_insert_ne by exact Hne. exact Hk.
Qed.

Lemma run_keeps_rows evs w : Inv w → keeps_rows (dbPromise w) (dbPromise (run evs w)).
Proof.
  unfold run. revert w. induction evs as [|e evs IH]; intros w HI; simpl.
  - apply keeps_rows_refl.
  - eapply keeps_rows_trans; [apply step_keeps_rows, HI | apply IH, Inv_step, HI].
Qed.

(** X3. Whatever the component is made to do before it is destroyed, no row
    leaves the store, and
    no chunk is ever cleared, no object URL revoked and no record taken out
    by [removePreview]: on the database that [openDB] creates every cleanup
    stops at [clearChunksByFileId]. *)
Theorem store_and_urls_only_grow supported persisted stored evs0 evs :
  let w := run evs0 (initial supported persisted stored) in
  let w' := run evs w in
  (∀ e, e ∈ log w' → ¬ cleanup e) ∧
  match dbPromise w with
  | Some d => ∃ d', dbPromise w' = Some d' ∧
                    ∀ k, is_Some (IDB.chunks d !! k) → is_Some (IDB.chunks d' !! k)
  | None => dbPromise w' = None
  end.
Proof.
  intros w w'.
  pose proof (Inv_reachable supported persisted stored evs0) as HI. fold w in HI.
  split.
  - intros e He.
    destruct (run_log (evs0 ++ evs) (initial supported persisted stored)
                (Inv_initial _ _ _)) as (l & Hl & Hq).
    rewrite run_app in Hl. fold w in Hl. fold w' in Hl. simpl in Hl. subst l.
    rewrite Forall_forall in Hq. apply Hq, He.
  - pose proof (run_keeps_rows evs w HI) as H. fold w' in H.
    destruct (dbPromise w) as [d|]; simpl in H; [|exact H].
    destruct H as (d' & E & _ & H). eauto.
Qed.

(** * A save that neither completes nor errors *)

(** The closure whose [saveChunk] transaction aborted. *)
Definition stalled (chunk : FileChunk.t) (c : Closure.t) : Closure.t :=
  Closure.with_phase (Stalled chunk) c.

Lemma step_save_aborted w r c chunk d :
  heap w !! r = Some c → Closure.phase c = AwaitSave chunk → dbPromise w = Some d →
  step w (SaveAborted r) = set_cell r (stalled chunk c) w.
Proof. intros Hr Hph Hd. simpl. unfold onSaveAborted. rewrite Hr, Hph, Hd. reflexivity. Qed.

(** An error is logged for a file by the [catch] of its closure only. *)
Definition caught (w : World) : Prop :=
  ∀ id, ChunkError id ∈ log w →
    ∃ (r : nat) c b, heap w !! r = Some c ∧ Closure.id c = id ∧ Closure.phase c = Aborted b.

Lemma log_nextRecord_errors u a w id :
  ChunkError id ∈ log (nextRecord u a w) → ChunkError id ∈ log w.
Proof.
  unfold nextRecord. destruct (array_of a w !! Upload.next a); simpl; [auto|].
  rewrite elem_of_app, list_elem_of_singleton. intros [H|H]; [exact H | discriminate].
Qed.

Lemma step_errors w e id :
  Inv w → ChunkError id ∈ log (step w e) →
  ChunkError id ∈ log w ∨
  ∃ (r : nat) c b, heap w !! r = Some c ∧ Closure.id c = id ∧
                   heap (step w e) !! r = Some (aborted b c).
Proof.
  intros HI.
  destruct e as [files type|r ok|r txOk|r|id' txOk|type txOk|type now|r|u|u ok]; simpl.
  - rewrite handleFiles_log. auto.
  - unfold onReadSettled. destruct (heap w !! r) as [c|] eqn:Hr; [|auto].
    pose proof (lookup_lt_Some _ _ _ Hr) as Hlt.
    destruct (Closure.phase c); auto.
    destruct ok; simpl; rewrite elem_of_app, list_elem_of_singleton;
      (intros [H|H]; [auto|]); [discriminate|].
    injection H as ->. right. exists r, c, false.
    split; [exact Hr|]. split; [reflexivity|]. apply list_lookup_insert_eq, Hlt.
  - unfold onSaveSettled. destruct (heap w !! r) as [c|] eqn:Hr; [|auto].
    pose proof (lookup_lt_Some _ _ _ Hr) as Hlt.
    destruct (Closure.phase c); auto.
    unfold saveChunk. destruct (dbPromise w); [destruct txOk|]; simpl;
      rewrite elem_of_app, list_elem_of_singleton;
      (intros [H|H]; [auto|]); try discriminate;
      injection H as ->; right; exists r, c, true;
      (split; [exact Hr|]); (split; [reflexivity|]); apply list_lookup_insert_eq, Hlt.
  - unfold onTimer. destruct (heap w !! r) as [c|] eqn:Hr; [|auto].
    destruct (Closure.phase c); auto.
    rewrite (processNextChunk_cell _ _ _ Hr). auto.
  - destruct (removePreview_reachable id' txOk w HI) as [e ->]. simpl.
    rewrite elem_of_app, list_elem_of_singleton. intros [H|H]; [auto | discriminate].
  - unfold removeAll.
    destruct (removeAllItems_without_index txOk (records type w)
                (emit (Emptied type) (assign_items type [] w))) as [_ Hl].
    { intros d Hd. apply (inv_index _ _ _ _ HI).
      rewrite <- Hd. destruct type; reflexivity. }
    rewrite Hl. simpl. rewrite log_assign_items.
    rewrite !elem_of_app, list_elem_of_singleton, list_elem_of_fmap.
    intros [[H|H]|(it & H & _)]; [auto | discriminate | discriminate].
  - unfold uploadAll. case_bool_decide as Hempty; [auto|]. simpl.
    rewrite elem_of_app, list_elem_of_singleton. intros [H|H]; [auto | discriminate].
  - unfold onSaveAborted. destruct (heap w !! r) as [c|]; [|auto].
    destruct (Closure.phase c); auto. destruct (dbPromise w); auto.
  - unfold onDbSettled. destruct (uploads w !! u) as [a|]; [|auto].
    destruct (Upload.phase a); auto.
    destruct (dbPromise w); [|auto]. intros H. left. eapply log_nextRecord_errors, H.
  - unfold onGetAllSettled. destruct (uploads w !! u) as [a|]; [|auto].
    destruct (Upload.phase a) as [|ref|o]; auto.
    destruct ok; [|auto].
    destruct (dbPromise w) as [db|]; [|auto].
    destruct (deref w ref) as [f|]; [|auto].
    intros H. apply log_nextRecord_errors in H. left. revert H.
    case_bool_decide as Hcount; [|auto]. simpl.
    rewrite elem_of_app, list_elem_of_singleton. intros [H|H]; [auto | discriminate].
Qed.

Lemma caught_step w e : Inv w → caught w → caught (step w e).
Proof.
  intros HI HC id Hin.
  destruct (step_errors w e id HI Hin) as [H | (r & c & b & Hr & Hid & Hr')].
  - destruct (HC id H) as (r & c & b & Hr & Hid & Hph).
    exists r, c, b. split; [|auto].
    apply terminal_step; [exact Hr|]. unfold terminal. rewrite Hph. exact I.
  - exists r, (aborted b c), b. auto.
Qed.

Lemma caught_reachable supported persisted stored evs :
  caught (run evs (initial supported persisted stored)).
Proof.
  assert (H : ∀ w, Inv w → caught w → caught (run evs w)).
  { unfold run. induction evs as [|e evs IH]; intros w HI HC; simpl; [exact HC|].
    apply IH; [apply Inv_step, HI | apply caught_step; assumption]. }
  apply H; [apply Inv_initial|]. intros id Hin. inversion Hin.
Qed.

(** C7 on the code.  A transaction of [saveChunk] that aborts without an
    [error] event, as one whose commit fails does, settles nothing:
    [saveChunk] has no [onabort].  The chunk is not stored and no further
    chunk of the file is written, no other closure and nothing of the store
    changes; but the record keeps [loading = true] for ever, with the
    progress of the chunks committed before, and no error is ever logged for
    the file. *)
Theorem aborted_save_leaves_the_record_loading supported persisted stored evs0 r c chunk d :
  let w := run evs0 (initial supported persisted stored) in
  heap w !! r = Some c → Closure.phase c = AwaitSave chunk → dbPromise w = Some d →
  let w1 := step w (SaveAborted r) in
  ∃ c1, heap w1 !! r = Some c1 ∧
        PreviewFile.loading (Closure.placeholder c1) = true ∧
        PreviewFile.progress (Closure.placeholder c1)
        = PreviewFile.progress (Closure.placeholder c) ∧
        log w1 = log w ∧
        dbPromise w1 = dbPromise w ∧
        (∀ r', r' ≠ r → heap w1 !! r' = heap w !! r') ∧
        ∀ evs, let w2 := run evs w1 in
          heap w2 !! r = Some c1 ∧
          (ChunkError (Closure.id c) ∉ log w2) ∧
          puts_of (Closure.id c) (log w2) = puts_of (Closure.id c) (log w1).
Proof.
  intros w Hr Hph Hd w1.
  pose proof (lookup_lt_Some _ _ _ Hr) as Hlt.
  assert (Hs : w1 = set_cell r (stalled chunk c) w).
  { apply (step_save_aborted w r c chunk d Hr Hph Hd). }
  assert (HI : Inv w) by apply Inv_reachable.
  assert (HI1 : Inv w1) by (apply Inv_step, HI).
  assert (Hc1 : heap w1 !! r = Some (stalled chunk c)).
  { rewrite Hs. unfold set_cell; simpl. apply list_lookup_insert_eq, Hlt. }
  assert (Hl : PreviewFile.loading (Closure.placeholder c) = true).
  { pose proof (ci_phase _ _ _ _ (inv_cells _ _ _ _ HI r c Hr)) as Hok.
    unfold phase_ok in Hok. rewrite Hph in Hok. apply Hok. }
  exists (stalled chunk c). split; [exact Hc1|]. split; [exact Hl|].
  split; [reflexivity|]. split; [rewrite Hs; reflexivity|].
  split; [rewrite Hs; reflexivity|]. split.
  { intros r' Hne. rewrite Hs. unfold set_cell; simpl.
    apply list_lookup_insert_ne. congruence. }
  intros evs w2.
  assert (H2 : heap w2 !! r = Some (stalled chunk c)).
  { apply terminal_run; [exact Hc1 | exact I]. }
  split; [exact H2|]. split.
  - intros Hin.
    assert (HC : caught w2).
    { unfold w2, w1, w. rewrite <- run_cons, <- run_app. apply caught_reachable. }
    destruct (HC _ Hin) as (r' & c' & b & Hr' & Hid & Hph').
    assert (HI2 : Inv w2) by (apply Inv_run, HI1).
    pose proof (ci_id _ _ _ _ (inv_cells _ _ _ _ HI2 r' c' Hr')) as E1.
    pose proof (ci_id _ _ _ _ (inv_cells _ _ _ _ HI2 r _ H2)) as E2.
    simpl in E2. assert (r' = r) as -> by lia.
    rewrite H2 in Hr'. injection Hr' as <-. discriminate.
  - pose proof (ci_log _ _ _ _ (inv_cells _ _ _ _ (Inv_run evs w1 HI1) r _ H2)) as L2.
    pose proof (ci_log _ _ _ _ (inv_cells _ _ _ _ HI1 r _ Hc1)) as L1.
    simpl in L1, L2. fold w2 in L2. rewrite L1, L2. reflexivity.
Qed.

Lemma aborted_save_leaves_the_record_loading_witness :
  let w := run [HandleFiles [tiny; tiny] image; ReadSettled 0 true] (initial true ∅ ∅) in
  let c0 := started (fresh_closure (initial true ∅ ∅) tiny) in
  let chunk := chunk_of c0 0 in
  let c := Closure.with_phase (AwaitSave chunk) c0 in
  let w1 := step w (SaveAborted 0) in
  ∃ c1, heap w1 !! 0%nat = Some c1 ∧
        PreviewFile.loading (Closure.placeholder c1) = true ∧
        PreviewFile.progress (Closure.placeholder c1)
        = PreviewFile.progress (Closure.placeholder c) ∧
        log w1 = log w ∧
        dbPromise w1 = dbPromise w ∧
        (∀ r', r' ≠ 0%nat → heap w1 !! r' = heap w !! r') ∧
        ∀ evs, let w2 := run evs w1 in
          heap w2 !! 0%nat = Some c1 ∧
          (ChunkError (Closure.id c) ∉ log w2) ∧
          puts_of (Closure.id c) (log w2) = puts_of (Closure.id c) (log w1).
Proof.
  intros w c0 chunk c.
  apply (aborted_save_leaves_the_record_loading true ∅ ∅
           [HandleFiles [tiny; tiny] image; ReadSettled 0 true] 0 c chunk (IDB.mk [] ∅)).
  - reflexivity.
  - reflexivity.
  - reflexivity.
Defined.

(** The failing input of C7: of two files dropped together the save of the
    first aborts; the second completes, the first is shown loading at 0
    whatever comes, and nothing tells of it. *)
Example aborted_save_of_one_file :
  let w := run [HandleFiles [tiny; tiny] image; ReadSettled 0 true; SaveAborted 0;
                ReadSettled 1 true; SaveSettled 1 true; TimerFired 1;
                SaveSettled 0 true; SaveSettled 0 false; TimerFired 0]
               (initial true ∅ ∅) in
  (λ p, (PreviewFile.id p, PreviewFile.loading p, PreviewFile.progress p))
    <$> records image w
  = [(1, true, 0); (2, false, 100)] ∧
  (λ d, (λ c, (FileChunk.fileId c, FileChunk.chunkIndex c)) <$> IDB.getAll d) <$> dbPromise w
  = Some [(2, 0)] ∧
  log w = [PutStarted 1 0; PutStarted 2 0; PutCommitted 2 0].
Proof. vm_compute. repeat split. Qed.

(** * Removing one preview *)

(** C5 on the code.  In every state the component reaches, [removePreview]
    stops at its first step: [clearChunksByFileId] rejects for lack of the
    index, no chunk is deleted, and the call ends there, with the handle not
    revoked and the record still in its array, whether the id is shown or
    not.  The order that the specification asks for is the order of the
    code ([removePreview_cleans_storage_first]), but the second and the third
    step are never reached.  The defect is the one of C4. *)
Theorem removePreview_never_removes supported persisted stored evs id txOk :
  let w := run evs (initial supported persisted stored) in
  let e := clear_error (dbPromise w) in
  let w' := (removePreview id txOk w).2 in
  removePreview id txOk w = (Rejected e, emit (ClearFailed id e) w) ∧
  images w' = images w ∧ videos w' = videos w ∧ heap w' = heap w ∧
  dbPromise w' = dbPromise w ∧
  log w' = log w ++ [ClearFailed id e] ∧
  ∀ x, x ∈ log w' → ¬ cleanup x.
Proof.
  intros w e w'.
  pose proof (Inv_reachable supported persisted stored evs) as HI. fold w in HI.
  assert (E : removePreview id txOk w = (Rejected e, emit (ClearFailed id e) w)).
  { unfold removePreview, clearChunksByFileId, e, clear_error.
    destruct (dbPromise w) as [d|] eqn:Hd; [|reflexivity].
    rewrite (inv_index _ _ _ _ HI d Hd). reflexivity. }
  split; [exact E|]. unfold w'. rewrite E. simpl.
  repeat (split; [reflexivity|]).
  intros x Hx.
  destruct (run_log (evs ++ [RemovePreview id txOk]) (initial supported persisted stored)
              (Inv_initial _ _ _)) as (l & Hl & Hq).
  rewrite run_app, run_single in Hl. fold w in Hl. simpl in Hl. rewrite E in Hl.
  simpl in Hl. subst l. rewrite Forall_forall in Hq. apply Hq, Hx.
Qed.

(** * Where the rows of the store come from *)

Lemma moves_grows w r c e c' :
  moves w r c e c' →
  Closure.id c' = Closure.id c ∧ Closure.file c' = Closure.file c ∧
  Closure.totalChunks c' = Closure.totalChunks c ∧
  Closure.currentChunk c <= Closure.currentChunk c'.
Proof.
  intros [| | | | |]; simpl; try (repeat split; lia).
  unfold started. destruct (_ <=? _); simpl; repeat split; lia.
Qed.

Lemma chunk_of_ext c c' j :
  Closure.id c' = Closure.id c → Closure.file c' = Closure.file c →
  Closure.totalChunks c' = Closure.totalChunks c → chunk_of c' j = chunk_of c j.
Proof. intros E1 E2 E3. unfold chunk_of. rewrite E1, E2, E3. reflexivity. Qed.

(** A row written in this session: chunk [j] of the file of a closure that
    has committed it. *)
Definition written (w : World) (k : Z * Z) (chunk : FileChunk.t) : Prop :=
  ∃ (r : nat) c, heap w !! r = Some c ∧ k = (Closure.id c, FileChunk.chunkIndex chunk) ∧
                 0 <= k.2 < Closure.currentChunk c ∧ chunk = chunk_of c k.2.

Lemma written_step w e k chunk : written w k chunk → written (step w e) k chunk.
Proof.
  intros (r & c & Hr & Hk & Hj & Hc).
  destruct (step_cell w e r c Hr) as (c' & Hr' & [-> | Hm]).
  - exists r, c. auto.
  - destruct (moves_grows _ _ _ _ _ Hm) as (E1 & E2 & E3 & E4).
    exists r, c'. split; [exact Hr'|]. rewrite E1. split; [exact Hk|].
    split; [lia|]. rewrite Hc. symmetry. apply chunk_of_ext; assumption.
Qed.

(** Every row is one that an earlier session left under its key or one
    written in this session; what an earlier session left is still there
    or was overwritten under the same key. *)
Definition rows_inv (persisted : gmap (Z * Z) FileChunk.t) (w : World) : Prop :=
  ∀ d, dbPromise w = Some d →
    ∀ k chunk, IDB.chunks d !! k = Some chunk →
               persisted !! k = Some chunk ∨ written w k chunk.

Lemma rows_inv_step persisted w e : Inv w → rows_inv persisted w → rows_inv persisted (step w e).
Proof.
  intros HI HR d' Hd' k chunk Hk.
  destruct (step_store w e HI) as [E | (r & c & d & He & Hr & Hph & Hlt & Hd & E & Hh)].
  - rewrite E in Hd'. destruct (HR d' Hd' k chunk Hk) as [H | H]; [auto|].
    right. apply written_step, H.
  - rewrite E in Hd'. injection Hd' as <-. simpl in Hk.
    pose proof (ci_cur _ _ _ _ (inv_cells _ _ _ _ HI r c Hr)) as Hcur.
    destruct (decide ((Closure.id c, Closure.currentChunk c) = k)) as [<-|Hne].
    + rewrite lookup_insert_eq in Hk. injection Hk as <-. right.
      exists r, (committed c). rewrite Hh.
      rewrite list_lookup_insert_eq by (eapply lookup_lt_Some, Hr).
      simpl. repeat split; lia.
    + rewrite lookup_insert_ne in Hk by exact Hne.
      destruct (HR d Hd k chunk Hk) as [H | H]; [auto|].
      right. apply written_step, H.
Qed.

Lemma rows_inv_reachable supported persisted stored evs :
  rows_inv persisted (run evs (initial supported persisted stored)).
Proof.
  assert (H : ∀ w, Inv w → rows_inv persisted w → rows_inv persisted (run evs w)).
  { unfold run. induction evs as [|e evs IH]; intros w HI HR; simpl; [exact HR|].
    apply IH; [apply Inv_step, HI | apply rows_inv_step; assumption]. }
  apply H; [apply Inv_initial|].
  intros d Hd k chunk Hk. left. unfold initial, openDB in Hd; simpl in Hd.
  destruct supported; [|discriminate]. injection Hd as <-. exact Hk.
Qed.

(** X4. Every row of the store is a row that an earlier session left under
    that key, or chunk [j] of the file of a closure of this session that has
    committed it, stored under [(id, j)]; and every key that an earlier
    session left is still there. *)
Theorem rows_are_persisted_or_written supported persisted stored evs :
  let w := run evs (initial supported persisted stored) in
  ∀ d, dbPromise w = Some d →
    (∀ k chunk, IDB.chunks d !! k = Some chunk →
       persisted !! k = Some chunk ∨
       ∃ (r : nat) c, heap w !! r = Some c ∧
         k = (Closure.id c, FileChunk.chunkIndex chunk) ∧
         0 <= FileChunk.chunkIndex chunk < Closure.currentChunk c ∧
         chunk = chunk_of c (FileChunk.chunkIndex chunk)) ∧
    (∀ k, is_Some (persisted !! k) → is_Some (IDB.chunks d !! k)).
Proof.
  intros w d Hd. split.
  - intros k chunk Hk.
    destruct (rows_inv_reachable supported persisted stored evs d Hd k chunk Hk)
      as [H | (r & c & Hr & -> & Hj & Hc)]; [auto|].
    right. exists r, c. simpl in Hj, Hc. auto.
  - intros k Hk.
    pose proof (run_keeps_rows evs (initial supported persisted stored) (Inv_initial _ _ _)) as H.
    fold w in H. unfold initial, openDB in H; simpl in H.
    destruct supported; simpl in H.
    + destruct H as (d' & E & _ & H). rewrite Hd in E. injection E as <-. apply H, Hk.
    + rewrite Hd in H. discriminate.
Qed.

Lemma rows_are_persisted_or_written_witness :
  let w := run (HandleFiles [tiny] image :: rounds 0 1) (initial true ∅ ∅) in
  ∃ d, dbPromise w = Some d ∧
    (∀ k chunk, IDB.chunks d !! k = Some chunk →
       (∅ : gmap (Z * Z) FileChunk.t) !! k = Some chunk ∨
       ∃ (r : nat) c, heap w !! r = Some c ∧
         k = (Closure.id c, FileChunk.chunkIndex chunk) ∧
         0 <= FileChunk.chunkIndex chunk < Closure.currentChunk c ∧
         chunk = chunk_of c (FileChunk.chunkIndex chunk)) ∧
    (∀ k, is_Some ((∅ : gmap (Z * Z) FileChunk.t) !! k) → is_Some (IDB.chunks d !! k)).
Proof.
  intros w. eexists. split; [vm_compute; reflexivity|].
  apply (rows_are_persisted_or_written true ∅ ∅ (HandleFiles [tiny] image :: rounds 0 1)).
  vm_compute. reflexivity.
Defined.

(** ** A database that was empty when the session began *)

Lemma chunk_of_index c j : FileChunk.chunkIndex (chunk_of c j) = j.
Proof. reflexivity. Qed.

Lemma chunk_of_fileId c j : FileChunk.fileId (chunk_of c j) = Closure.id c.
Proof. reflexivity. Qed.

Lemma rows_of_file_fresh w d (r : nat) c :
  Inv w → rows_inv ∅ w → dbPromise w = Some d → heap w !! r = Some c →
  filter (λ chunk, FileChunk.fileId chunk = Closure.id c) (IDB.getAll d)
  ≡ₚ chunk_of c <$> seqZ 0 (Closure.currentChunk c).
Proof.
  intros HI HR Hd Hr.
  assert (Hkey : ∀ k chunk, IDB.chunks d !! k = Some chunk →
            ∃ (r' : nat) c', heap w !! r' = Some c' ∧
              k = (FileChunk.fileId chunk, FileChunk.chunkIndex chunk) ∧
              FileChunk.fileId chunk = Closure.id c' ∧
              0 <= FileChunk.chunkIndex chunk < Closure.currentChunk c' ∧
              chunk = chunk_of c' (FileChunk.chunkIndex chunk)).
  { intros k chunk Hk. destruct (HR d Hd k chunk Hk) as [H | (r' & c' & Hr' & -> & Hj & Hc)].
    - rewrite lookup_empty in H. discriminate.
    - simpl in Hj, Hc. exists r', c'.
      assert (Hf : FileChunk.fileId chunk = Closure.id c') by (rewrite Hc; reflexivity).
      rewrite Hf. auto. }
  unfold IDB.getAll. apply NoDup_Permutation.
  - apply NoDup_filter, NoDup_fmap_2_strong; [|apply NoDup_map_to_list].
    intros [k1 c1] [k2 c2] H1 H2 E. simpl in E. subst c2.
    apply elem_of_map_to_list in H1, H2.
    destruct (Hkey _ _ H1) as (_ & _ & _ & -> & _).
    destruct (Hkey _ _ H2) as (_ & _ & _ & -> & _). reflexivity.
  - apply NoDup_fmap_2_strong; [|apply NoDup_seqZ].
    intros j1 j2 _ _ E. apply (f_equal FileChunk.chunkIndex) in E. exact E.
  - intros chunk. rewrite list_elem_of_filter, !list_elem_of_fmap. split.
    + intros (Hf & [k ch] & -> & Hin). simpl in *.
      apply elem_of_map_to_list in Hin.
      destruct (Hkey _ _ Hin) as (r' & c' & Hr' & _ & Hf' & Hj & Hc).
      assert (r' = r) as ->.
      { pose proof (ci_id _ _ _ _ (inv_cells _ _ _ _ HI r c Hr)).
        pose proof (ci_id _ _ _ _ (inv_cells _ _ _ _ HI r' c' Hr')). lia. }
      assert (c' = c) as -> by congruence.
      exists (FileChunk.chunkIndex ch). split; [exact Hc|]. apply elem_of_seqZ. lia.
    + intros (j & -> & Hj). apply elem_of_seqZ in Hj. split; [reflexivity|].
      destruct (ci_rows _ _ _ _ (inv_cells _ _ _ _ HI r c Hr) j) as (d' & Hd' & Hrow); [lia|].
      assert (d' = d) as -> by congruence.
      exists ((Closure.id c, j), chunk_of c j). split; [reflexivity|].
      apply elem_of_map_to_list. exact Hrow.
Qed.

(** X5. On a database that was empty when the session began, the number of
    rows that [uploadAll] counts for a file is the number of chunks its
    closure has committed: the check warns about a record exactly when a
    chunk of its file is still missing, and never about a finished one. *)
Theorem stored_count_is_committed supported stored evs (r : nat) c d :
  let w := run evs (initial supported ∅ stored) in
  heap w !! r = Some c → dbPromise w = Some d →
  stored_count d (Closure.id c) = Closure.currentChunk c ∧
  (incomplete d (Closure.placeholder c) ↔ Closure.currentChunk c < Closure.totalChunks c) ∧
  (Closure.phase c = Finished → ¬ incomplete d (Closure.placeholder c)).
Proof.
  intros w Hr Hd.
  pose proof (Inv_reachable supported ∅ stored evs) as HI. fold w in HI.
  pose proof (rows_inv_reachable supported ∅ stored evs) as HR. fold w in HR.
  destruct (inv_cells _ _ _ _ HI r c Hr) as [_ Hpid _ Hpt Hcur Hok _ _].
  assert (Hn : stored_count d (Closure.id c) = Closure.currentChunk c).
  { unfold stored_count. rewrite (rows_of_file_fresh w d r c HI HR Hd Hr).
    rewrite length_fmap, length_seqZ. lia. }
  assert (Hiff : incomplete d (Closure.placeholder c)
                 ↔ Closure.currentChunk c < Closure.totalChunks c).
  { unfold incomplete, totalChunks_or_0. rewrite Hpid, Hn, Hpt. simpl. lia. }
  split; [exact Hn|]. split; [exact Hiff|].
  intros Hph. unfold phase_ok in Hok. rewrite Hph in Hok. rewrite Hiff. lia.
Qed.

Lemma stored_count_is_committed_witness :
  let w := run (HandleFiles [tiny; tiny] image :: rounds 0 1) (initial true ∅ ∅) in
  let c := started (committed (started (fresh_closure (initial true ∅ ∅) tiny))) in
  ∃ d, dbPromise w = Some d ∧
    stored_count d (Closure.id c) = Closure.currentChunk c ∧
    (incomplete d (Closure.placeholder c) ↔ Closure.currentChunk c < Closure.totalChunks c) ∧
    (Closure.phase c = Finished → ¬ incomplete d (Closure.placeholder c)).
Proof.
  intros w c. eexists. split; [vm_compute; reflexivity|].
  apply (stored_count_is_committed true ∅ (HandleFiles [tiny; tiny] image :: rounds 0 1) 0 c).
  - vm_compute. reflexivity.
  - vm_compute. reflexivity.
Defined.

(** Rows that an earlier session left under the id of a new file make
    [uploadAll] warn about a file that is completely stored: ids start
    again at 1 in every session while the database persists. *)
Example stale_rows_raise_a_warning :
  let stale := FileChunk.mk 1 1 2 [Byte.x7a] in
  let w := run (HandleFiles [tiny] image :: rounds 0 1)
               (initial true {[ (1, 1) := stale ]} ∅) in
  (λ p, (PreviewFile.loading p, PreviewFile.progress p)) <$> records image w
  = [(false, 100)] ∧
  log (run [UploadAll image (λ _, 0); DbSettled 0; GetAllSettled 0 true] w)
  = log w ++ [ManifestWritten "uploaded_images"; Warned "a.png"; Alerted image].
Proof. vm_compute. split; reflexivity. Qed.

(** ** The rows under the id of a file *)

(** The rows that the store holds with the [fileId] of a file, sorted by
    [chunkIndex], and their payloads. *)
Definition by_index (a b : FileChunk.t) : Prop :=
  FileChunk.chunkIndex a <= FileChunk.chunkIndex b.

#[global] Instance by_index_dec a b : Decision (by_index a b).
Proof. unfold by_index. apply _. Defined.

#[global] Instance by_index_total : Total by_index.
Proof. intros a b. unfold by_index. lia. Qed.

#[global] Instance by_index_trans : Transitive by_index.
Proof. intros a b c. unfold by_index. lia. Qed.

Definition rows_in_order (d : IDB.Database) (id : Z) : list FileChunk.t :=
  merge_sort by_index (filter (λ c, FileChunk.fileId c = id) (IDB.getAll d)).

Definition stored_payloads (d : IDB.Database) (id : Z) : list (list Byte.byte) :=
  FileChunk.data <$> rows_in_order d id.

Lemma values_of_filter {K A} (P : A → Prop) `{∀ x, Decision (P x)} (l : list (K * A)) :
  filter P (l.*2) = (filter (λ row, P row.2) l).*2.
Proof.
  induction l as [|[k a] l IH]; [reflexivity|]. simpl.
  destruct (decide (P a)) as [Hp|Hp].
  - rewrite !filter_cons_True by exact Hp. simpl. f_equal. exact IH.
  - rewrite !filter_cons_False by exact Hp. exact IH.
Qed.

(** Where no earlier session left a row with the id of the file, the rows
    with that id are the chunks that its closure has committed. *)
Lemma rows_of_file persisted w d (r : nat) c :
  Inv w → rows_inv persisted w → dbPromise w = Some d → heap w !! r = Some c →
  (∀ key row, persisted !! key = Some row → FileChunk.fileId row ≠ Closure.id c) →
  filter (λ chunk, FileChunk.fileId chunk = Closure.id c) (IDB.getAll d)
  ≡ₚ chunk_of c <$> seqZ 0 (Closure.currentChunk c).
Proof.
  intros HI HR Hd Hr Hfresh.
  assert (Hkey : ∀ k chunk, IDB.chunks d !! k = Some chunk →
            FileChunk.fileId chunk = Closure.id c →
            k = (Closure.id c, FileChunk.chunkIndex chunk) ∧
            0 <= FileChunk.chunkIndex chunk < Closure.currentChunk c ∧
            chunk = chunk_of c (FileChunk.chunkIndex chunk)).
  { intros k chunk Hk Hf.
    destruct (HR d Hd k chunk Hk) as [H | (r' & c' & Hr' & -> & Hj & Hc)].
    - exfalso. exact (Hfresh k chunk H Hf).
    - simpl in Hj, Hc.
      assert (Hf' : FileChunk.fileId chunk = Closure.id c') by (rewrite Hc; reflexivity).
      assert (r' = r) as ->.
      { pose proof (ci_id _ _ _ _ (inv_cells _ _ _ _ HI r c Hr)).
        pose proof (ci_id _ _ _ _ (inv_cells _ _ _ _ HI r' c' Hr')). lia. }
      assert (c' = c) as -> by congruence. auto. }
  unfold IDB.getAll. rewrite values_of_filter. apply NoDup_Permutation.
  - apply NoDup_fmap_2_strong; [|apply NoDup_filter, NoDup_map_to_list].
    intros [k1 c1] [k2 c2] H1 H2 E. simpl in E. subst c2.
    apply list_elem_of_filter in H1, H2. simpl in H1, H2.
    destruct H1 as [F1 H1], H2 as [F2 H2].
    apply elem_of_map_to_list in H1, H2.
    destruct (Hkey _ _ H1 F1) as (-> & _). destruct (Hkey _ _ H2 F2) as (-> & _).
    reflexivity.
  - apply NoDup_fmap_2_strong; [|apply NoDup_seqZ].
    intros j1 j2 _ _ E. apply (f_equal FileChunk.chunkIndex) in E. exact E.
  - intros chunk. rewrite !list_elem_of_fmap. split.
    + intros ([k ch] & -> & Hin). apply list_elem_of_filter in Hin. simpl in *.
      destruct Hin as [Hf Hin]. apply elem_of_map_to_list in Hin.
      destruct (Hkey _ _ Hin Hf) as (_ & Hj & Hc).
      exists (FileChunk.chunkIndex ch). split; [exact Hc|]. apply elem_of_seqZ. lia.
    + intros (j & -> & Hj). apply elem_of_seqZ in Hj.
      destruct (ci_rows _ _ _ _ (inv_cells _ _ _ _ HI r c Hr) j) as (d' & Hd' & Hrow); [lia|].
      assert (d' = d) as -> by congruence.
      exists ((Closure.id c, j), chunk_of c j). split; [reflexivity|].
      apply list_elem_of_filter. split; [reflexivity|].
      apply elem_of_map_to_list. exact Hrow.
Qed.

Lemma Sorted_seqZ (m n : Z) : Sorted Z.le (seqZ m n).
Proof.
  unfold seqZ. generalize (Z.to_nat n). intros k. generalize 0%nat.
  induction k as [|k IH]; intros s; simpl; constructor; [apply IH|].
  destruct k; simpl; constructor. lia.
Qed.

Lemma rows_in_order_committed persisted w d (r : nat) c :
  Inv w → rows_inv persisted w → dbPromise w = Some d → heap w !! r = Some c →
  (∀ key row, persisted !! key = Some row → FileChunk.fileId row ≠ Closure.id c) →
  rows_in_order d (Closure.id c) = chunk_of c <$> seqZ 0 (Closure.currentChunk c).
Proof.
  intros HI HR Hd Hr Hfresh. unfold rows_in_order.
  apply (Sorted_unique_strong by_index).
  - intros x1 x2 H1' H2 R1 R2. unfold by_index in R1, R2.
    assert (H1 : x1 ∈ chunk_of c <$> seqZ 0 (Closure.currentChunk c)).
    { rewrite <- (rows_of_file persisted w d r c HI HR Hd Hr Hfresh).
      rewrite <- (merge_sort_Permutation by_index). exact H1'. }
    apply list_elem_of_fmap in H1, H2.
    destruct H1 as (j1 & -> & _), H2 as (j2 & -> & _).
    simpl in R1, R2. f_equal. lia.
  - apply Sorted_merge_sort. apply _.
  - apply (Sorted_fmap _ Z.le); [|apply Sorted_seqZ].
    intros x y Hxy. unfold by_index. simpl. exact Hxy.
  - rewrite merge_sort_Permutation.
    apply (rows_of_file persisted w d r c HI HR Hd Hr Hfresh).
Qed.

(** C2, as the code has it.  The puts of a file are those of chunks 0, 1, 2,
    ... in this order, each started after the one before committed; chunk
    [i] holds the bytes [i * chunkSize, min((i + 1) * chunkSize, size)) of the
    file; once the closure finished, the payloads stored under the keys of
    the file with indexes 0 .. n - 1, one after the other, are the bytes of
    the file; and where no earlier session left a row with the id of the
    file, these are all the rows with that id. *)
Theorem chunks_sequential_and_contiguous supported persisted stored evs r c :
  let w := run evs (initial supported persisted stored) in
  heap w !! r = Some c → File.size (Closure.file c) < 2 ^ 53 →
  let id := Closure.id c in
  let file := Closure.file c in
  let n := Closure.totalChunks c in
  let k := Closure.currentChunk c in
  let range j :=
    byte_range (File.bytes file) (j * chunkSize)
               (Z.min ((j + 1) * chunkSize) (File.size file)) in
  puts_of id (log w) = puts_until id k ++ pending c ∧
  (∀ l1 l2 i, 0 <= i → log w = l1 ++ PutStarted id (i + 1) :: l2 →
              PutCommitted id i ∈ l1) ∧
  (∀ chunk, Closure.phase c = AwaitSave chunk → chunk = FileChunk.mk id k n (range k)) ∧
  (∀ j, 0 <= j < k →
        ∃ d, dbPromise w = Some d ∧
             IDB.chunks d !! (id, j) = Some (FileChunk.mk id j n (range j))) ∧
  (Closure.phase c = Finished →
   ∀ d, dbPromise w = Some d →
        length (payloads d id n) = Z.to_nat n ∧
        concat (payloads d id n) = File.bytes file) ∧
  ((∀ key row, persisted !! key = Some row → FileChunk.fileId row ≠ id) →
   ∀ d, dbPromise w = Some d →
        rows_in_order d id = (λ j, FileChunk.mk id j n (range j)) <$> seqZ 0 k ∧
        (Closure.phase c = Finished → concat (stored_payloads d id) = File.bytes file)).
Proof.
  intros w Hr Hsz id file n k range. subst id file n k.
  pose proof (Inv_reachable supported persisted stored evs) as HI. fold w in HI.
  pose proof (rows_inv_reachable supported persisted stored evs) as HR. fold w in HR.
  destruct (inv_cells _ _ _ _ HI r c Hr) as [_ _ Htot _ Hcur Hok Hrows Hlog].
  pose proof (inv_ordered _ _ _ _ HI) as Hord.
  assert (Hrange : ∀ j, 0 <= j < Closure.totalChunks c →
            chunk_of c j = FileChunk.mk (Closure.id c) j (Closure.totalChunks c) (range j)).
  { intros j Hj. apply chunk_of_range; assumption. }
  assert (Hall : concat (range <$> seqZ 0 (Closure.totalChunks c))
                 = File.bytes (Closure.file c)).
  { pose proof (File_size_nonneg (Closure.file c)) as H0.
    destruct (totalChunksOf_bounds (File.size (Closure.file c))) as [Hlo Hhi]; [lia|].
    rewrite <- Htot in Hlo, Hhi.
    assert (Hn : 0 <= Closure.totalChunks c) by lia.
    rewrite <- (Z2Nat.id _ Hn) at 1. unfold range, File.size.
    rewrite byte_ranges_concat.
    + rewrite Z2Nat.id by exact Hn. apply take_ge. unfold File.size in Hhi. lia.
    + rewrite Z2Nat.id by exact Hn. left. exact Hlo. }
  split; [exact Hlog|]. split.
  { intros l1 l2 i Hi E. apply (Hord l1 l2 _ i Hi E). }
  split.
  { intros chunk Hph. unfold phase_ok in Hok. rewrite Hph in Hok.
    destruct Hok as (Hlt & -> & _). apply Hrange. lia. }
  split.
  { intros j Hj. destruct (Hrows j Hj) as (d & Hd & Hrow).
    exists d. split; [exact Hd|]. rewrite Hrow. f_equal. apply Hrange. lia. }
  split.
  { intros Hph d Hd. unfold phase_ok in Hok. rewrite Hph in Hok.
    destruct Hok as (Hfull & _).
    assert (Hp : payloads d (Closure.id c) (Closure.totalChunks c)
                 = range <$> seqZ 0 (Closure.totalChunks c)).
    { unfold payloads. apply omap_all_some. intros j Hj. apply elem_of_seqZ in Hj.
      destruct (Hrows j) as (d' & Hd' & Hrow); [lia|].
      assert (d' = d) as -> by congruence.
      rewrite Hrow, Hrange by lia. reflexivity. }
    rewrite Hp. split; [|exact Hall].
    rewrite length_fmap, length_seqZ. reflexivity. }
  intros Hfresh d Hd.
  assert (Hsorted : rows_in_order d (Closure.id c)
            = (λ j, FileChunk.mk (Closure.id c) j (Closure.totalChunks c) (range j))
                <$> seqZ 0 (Closure.currentChunk c)).
  { rewrite (rows_in_order_committed persisted w d r c HI HR Hd Hr Hfresh).
    apply list_fmap_ext. intros i j Hj.
    apply list_elem_of_lookup_2, elem_of_seqZ in Hj. apply Hrange. lia. }
  split; [exact Hsorted|].
  intros Hph. unfold phase_ok in Hok. rewrite Hph in Hok. destruct Hok as (Hfull & _).
  unfold stored_payloads. rewrite Hsorted, Hfull, <- list_fmap_compose. exact Hall.
Qed.

Lemma chunks_sequential_and_contiguous_witness :
  let w := run (HandleFiles [tiny] image :: rounds 0 1) (initial true ∅ ∅) in
  let c := started (committed (started (fresh_closure (initial true ∅ ∅) tiny))) in
  let id := Closure.id c in
  let file := Closure.file c in
  let n := Closure.totalChunks c in
  let k := Closure.currentChunk c in
  let range j :=
    byte_range (File.bytes file) (j * chunkSize)
               (Z.min ((j + 1) * chunkSize) (File.size file)) in
  puts_of id (log w) = puts_until id k ++ pending c ∧
  (∀ l1 l2 i, 0 <= i → log w = l1 ++ PutStarted id (i + 1) :: l2 →
              PutCommitted id i ∈ l1) ∧
  (∀ chunk, Closure.phase c = AwaitSave chunk → chunk = FileChunk.mk id k n (range k)) ∧
  (∀ j, 0 <= j < k →
        ∃ d, dbPromise w = Some d ∧
             IDB.chunks d !! (id, j) = Some (FileChunk.mk id j n (range j))) ∧
  (Closure.phase c = Finished →
   ∀ d, dbPromise w = Some d →
        length (payloads d id n) = Z.to_nat n ∧
        concat (payloads d id n) = File.bytes file) ∧
  ((∀ key row, (∅ : gmap (Z * Z) FileChunk.t) !! key = Some row → FileChunk.fileId row ≠ id) →
   ∀ d, dbPromise w = Some d →
        rows_in_order d id = (λ j, FileChunk.mk id j n (range j)) <$> seqZ 0 k ∧
        (Closure.phase c = Finished → concat (stored_payloads d id) = File.bytes file)).
Proof.
  intros w c.
  apply (chunks_sequential_and_contiguous true ∅ ∅
           (HandleFiles [tiny] image :: rounds 0 1) 0 c).
  - reflexivity.
  - vm_compute. reflexivity.
Defined.

(** The rows that a session leaves behind in which a file of 262145 bytes
    was stored, as its file 1, in two chunks. *)
Definition earlier_session : World :=
  run (HandleFiles [File.mk "old.bin" (replicate (Z.to_nat 262145) Byte.x7a)] image
         :: rounds 0 2)
      (initial true ∅ ∅).

Definition left_behind : gmap (Z * Z) FileChunk.t :=
  default ∅ (IDB.chunks <$> dbPromise earlier_session).

(** C2 as the specification states it fails where an earlier session left
    rows under the id that the file gets: ids begin at 1 again in every
    session and the database persists.  The new file 1 is stored, chunk by
    chunk, over the first chunk of the old one; the payloads of the rows with
    its id, in index order, are its bytes followed by the byte of the old
    second chunk. *)
Lemma stale_row_among_the_payloads :
  let w := run (HandleFiles [tiny] image :: rounds 0 1) (initial true left_behind ∅) in
  FileChunk.data <$> left_behind !! (1, 1) = Some [Byte.x7a] ∧
  ∃ c d, heap w !! 0%nat = Some c ∧ dbPromise w = Some d ∧
         Closure.file c = tiny ∧ Closure.phase c = Finished ∧
         puts_of (Closure.id c) (log w) = [PutStarted 1 0; PutCommitted 1 0] ∧
         concat (stored_payloads d (Closure.id c))
         = [Byte.x61; Byte.x62; Byte.x63; Byte.x7a] ∧
         concat (stored_payloads d (Closure.id c)) ≠ File.bytes (Closure.file c).
Proof.
  cbv zeta. split; [vm_compute; reflexivity|].
  eexists _, _. split; [vm_compute; reflexivity|].
  split; [vm_compute; reflexivity|]. split; [reflexivity|]. split; [reflexivity|].
  split; [vm_compute; reflexivity|]. split; [vm_compute; reflexivity|].
  vm_compute. discriminate.
Qed.

(** * The export *)

(** ** What the steps do to the activations of [uploadAll] *)

Lemma uploads_processNextChunk r w : uploads (processNextChunk r w) = uploads w.
Proof.
  unfold processNextChunk. destruct (heap w !! r) as [c|]; [|reflexivity].
  destruct (_ <=? _); reflexivity.
Qed.

Lemma uploads_handleFiles files type w : uploads (handleFiles files type w) = uploads w.
Proof.
  unfold handleFiles. revert w. induction files as [|f fs IH]; intros w; simpl; [reflexivity|].
  rewrite IH. unfold handleFile. rewrite uploads_processNextChunk.
  destruct type; reflexivity.
Qed.

Lemma uploads_removeAllItem txOk w it : uploads (removeAllItem txOk w it) = uploads w.
Proof.
  unfold removeAllItem, clearChunksByFileId, revokeObjectUrl.
  destruct (dbPromise w); [|reflexivity].
  case_bool_decide; [destruct (txOk _)|]; try reflexivity.
  destruct (PreviewFile.objectUrl it); reflexivity.
Qed.

Lemma uploads_removeAll type txOk w :
  uploads (removeAll type txOk w) = detach type (items type w) <$> uploads w.
Proof.
  unfold removeAll. generalize (records type w). intros captured.
  transitivity (uploads (emit (Emptied type) (assign_items type [] w)));
    [|destruct type; reflexivity].
  generalize (emit (Emptied type) (assign_items type [] w)).
  induction captured as [|it its IH]; intros w1; simpl; [reflexivity|].
  rewrite IH. apply uploads_removeAllItem.
Qed.

(** The events that leave the activations alone. *)
Definition upload_event (e : Event) : Prop :=
  match e with
  | RemoveAll _ _ | UploadAll _ _ | DbSettled _ | GetAllSettled _ _ => True
  | _ => False
  end.

#[global] Instance upload_event_dec e : Decision (upload_event e).
Proof. destruct e; simpl; apply _. Defined.

Lemma step_uploads w e : Inv w → ¬ upload_event e → uploads (step w e) = uploads w.
Proof.
  intros HI He.
  destruct e as [files type|r ok|r txOk|r|id txOk|type txOk|type now|r|u|u ok]; simpl;
    try (exfalso; apply He; exact I).
  - apply uploads_handleFiles.
  - unfold onReadSettled. destruct (heap w !! r) as [c|]; [|reflexivity].
    destruct (Closure.phase c); try reflexivity. destruct ok; reflexivity.
  - unfold onSaveSettled. destruct (heap w !! r) as [c|]; [|reflexivity].
    destruct (Closure.phase c); try reflexivity.
    unfold saveChunk. destruct (dbPromise w); [destruct txOk|]; reflexivity.
  - unfold onTimer. destruct (heap w !! r) as [c|]; [|reflexivity].
    destruct (Closure.phase c); try reflexivity. apply uploads_processNextChunk.
  - destruct (removePreview_reachable id txOk w HI) as [e ->]. reflexivity.
  - unfold onSaveAborted. destruct (heap w !! r) as [c|]; [|reflexivity].
    destruct (Closure.phase c); try reflexivity. destruct (dbPromise w); reflexivity.
Qed.

(** ** The records of an activation exist *)

(** The array that an activation iterates holds closures that exist, and
    so is the record whose rows it has asked for, from a database that
    opened. *)
Record upload_ok (w : World) (a : Upload.t) : Prop := {
  up_refs : ∀ r, r ∈ array_of a w → (r < length (heap w))%nat;
  up_next : match Upload.phase a with
            | AwaitGetAll ref => (ref < length (heap w))%nat ∧ is_Some (dbPromise w)
            | _ => True
            end
}.

Definition Checked (w : World) : Prop :=
  ∀ u a, uploads w !! u = Some a → upload_ok w a.

Lemma step_heap_length w e : (length (heap w) <= length (heap (step w e)))%nat.
Proof.
  destruct (decide (length (heap w) <= length (heap (step w e)))%nat) as [H|H]; [exact H|].
  destruct (lookup_lt_is_Some_2 (heap w) (length (heap (step w e)))) as [c Hc]; [lia|].
  destruct (step_cell w e _ c Hc) as (c' & Hc' & _).
  apply lookup_lt_Some in Hc'. lia.
Qed.

Lemma step_db_open w e : Inv w → is_Some (dbPromise w) → is_Some (dbPromise (step w e)).
Proof.
  intros HI [d Hd]. pose proof (step_keeps_rows w e HI) as H. rewrite Hd in H.
  destruct H as (d' & -> & _). eauto.
Qed.

(** An activation that a step leaves as it is. *)
Lemma upload_ok_later w w' a :
  upload_ok w a → shape w' →
  (length (heap w) <= length (heap w'))%nat →
  (is_Some (dbPromise w) → is_Some (dbPromise w')) →
  upload_ok w' a.
Proof.
  intros [H1 H2] HS Hlen Hdb. split.
  - intros r Hr. unfold array_of in *. destruct (Upload.items a) as [|l].
    + apply (sh_refs _ HS), (items_listed (Upload.type a)), Hr.
    + specialize (H1 r Hr). lia.
  - destruct (Upload.phase a) as [|ref|o]; [exact I | | exact I].
    destruct H2 as [H2 H3]. split; [lia | auto].
Qed.

Lemma upload_ok_detach w w' type a :
  shape w → upload_ok w a → shape w' →
  (length (heap w) <= length (heap w'))%nat →
  (is_Some (dbPromise w) → is_Some (dbPromise w')) →
  upload_ok w' (detach type (items type w) a).
Proof.
  intros HS Ha HS' Hlen Hdb. unfold detach.
  destruct (Upload.items a) as [|l] eqn:Hi; [|eapply upload_ok_later; eassumption].
  destruct (decide (Upload.type a = type)) as [E|NE]; [|eapply upload_ok_later; eassumption].
  destruct Ha as [H1 H2]. split; simpl.
  - intros r Hr. unfold array_of in Hr; simpl in Hr.
    pose proof (sh_refs _ HS r (items_listed type w r Hr)). lia.
  - destruct (Upload.phase a) as [|ref|o]; [exact I | | exact I].
    destruct H2 as [H2 H3]. split; [lia | auto].
Qed.

Lemma upload_ok_nextRecord w u a :
  upload_ok w a → is_Some (dbPromise w) →
  ∀ a', uploads (nextRecord u a w) !! u = Some a' →
        (u < length (uploads w))%nat → upload_ok w a'.
Proof.
  intros [H1 H2] Hdb a' Ha' Hu. unfold nextRecord in Ha'.
  destruct (array_of a w !! Upload.next a) as [ref|] eqn:Hn; simpl in Ha';
    rewrite list_lookup_insert_eq in Ha' by exact Hu; injection Ha' as <-.
  - split; [exact H1|]. simpl. split; [|exact Hdb].
    apply H1. apply list_elem_of_lookup. eauto.
  - split; [exact H1 | exact I].
Qed.

Lemma array_of_same w w' a :
  images w' = images w → videos w' = videos w → array_of a w' = array_of a w.
Proof.
  intros E1 E2. unfold array_of. destruct (Upload.items a); [|reflexivity].
  destruct (Upload.type a); simpl; assumption.
Qed.

Lemma upload_ok_same w w' a :
  images w' = images w → videos w' = videos w → heap w' = heap w →
  dbPromise w' = dbPromise w → upload_ok w a → upload_ok w' a.
Proof.
  intros E1 E2 E3 E4 [H1 H2]. split.
  - rewrite (array_of_same w w' a E1 E2), E3. exact H1.
  - rewrite E3, E4. exact H2.
Qed.

Lemma Checked_nextRecord w u a :
  Checked w → uploads w !! u = Some a → is_Some (dbPromise w) →
  Checked (nextRecord u a w).
Proof.
  intros HC Hu Hdb u' a' Ha'.
  pose proof (lookup_lt_Some _ _ _ Hu) as Hlt.
  assert (Hk : upload_ok w a') .
  { destruct (decide (u' = u)) as [->|Hne].
    - eapply upload_ok_nextRecord; [apply (HC u a Hu) | exact Hdb | exact Ha' | exact Hlt].
    - apply (HC u' a'). revert Ha'. unfold nextRecord.
      destruct (array_of a w !! Upload.next a); simpl;
        rewrite list_lookup_insert_ne by congruence; auto. }
  revert Hk. apply upload_ok_same; unfold nextRecord;
    destruct (array_of a w !! Upload.next a); reflexivity.
Qed.

Lemma Checked_same w w' :
  images w' = images w → videos w' = videos w → heap w' = heap w →
  dbPromise w' = dbPromise w → uploads w' = uploads w → Checked w → Checked w'.
Proof.
  intros E1 E2 E3 E4 E5 HC u a Ha. rewrite E5 in Ha.
  apply (upload_ok_same w w' a E1 E2 E3 E4), (HC u a Ha).
Qed.

Lemma Checked_step w e : Good w → Checked w → Checked (step w e).
Proof.
  intros HG HC.
  pose proof (Good_step w e HG) as [HI' HS'].
  destruct HG as [HI HS].
  pose proof (step_heap_length w e) as Hlen.
  pose proof (step_db_open w e HI) as Hdb.
  destruct (decide (upload_event e)) as [He|He].
  2:{ intros u a Ha. rewrite (step_uploads w e HI He) in Ha.
      apply (upload_ok_later w); [apply (HC u a Ha) | exact HS' | exact Hlen | exact Hdb]. }
  destruct e as [files type|r ok|r txOk|r|id txOk|type txOk|type now|r|u0|u0 ok];
    try contradiction.
  - intros u a' Ha'. simpl in Ha'. rewrite uploads_removeAll, list_lookup_fmap in Ha'.
    destruct (uploads w !! u) as [a|] eqn:Ha; [|discriminate]. injection Ha' as <-.
    apply (upload_ok_detach w); [exact HS | apply (HC u a Ha) | exact HS' | exact Hlen | exact Hdb].
  - intros u a' Ha'. revert HS' Hlen Hdb Ha'. simpl. unfold uploadAll.
    case_bool_decide as Hempty; intros HS' Hlen Hdb Ha'.
    { apply (upload_ok_later w); [apply (HC u a' Ha') | exact HS' | exact Hlen | exact Hdb]. }
    simpl in Ha'. apply lookup_app_Some in Ha'.
    destruct Ha' as [Ha' | [_ Ha']].
    + apply (upload_ok_later w); [apply (HC u a' Ha') | exact HS' | exact Hlen | exact Hdb].
    + destruct (u - length (uploads w))%nat; [|discriminate]. injection Ha' as <-.
      split; [|exact I]. intros r Hr.
      apply (sh_refs _ HS'), (items_listed type). exact Hr.
  - simpl. unfold onDbSettled.
    destruct (uploads w !! u0) as [a|] eqn:Ha; [|exact HC].
    destruct (Upload.phase a) eqn:Hph; try exact HC.
    destruct (dbPromise w) as [d|] eqn:Hd.
    + apply Checked_nextRecord; [exact HC | exact Ha | rewrite Hd; eauto].
    + intros u a' Ha'. unfold set_upload in Ha'; simpl in Ha'.
      destruct (decide (u = u0)) as [->|Hne].
      * rewrite list_lookup_insert_eq in Ha' by (eapply lookup_lt_Some, Ha).
        injection Ha' as <-. destruct (HC u0 a Ha) as [H1 H2].
        split; [exact H1 | exact I].
      * rewrite list_lookup_insert_ne in Ha' by congruence.
        apply (upload_ok_same w); try reflexivity. apply (HC u a' Ha').
  - simpl. unfold onGetAllSettled.
    destruct (uploads w !! u0) as [a|] eqn:Ha; [|exact HC].
    destruct (Upload.phase a) as [|ref|o] eqn:Hph; try exact HC.
    destruct ok.
    + destruct (dbPromise w) as [d|] eqn:Hd; [|exact HC].
      destruct (deref w ref) as [f|]; [|exact HC].
      apply Checked_nextRecord.
      * case_bool_decide; [|exact HC].
        apply (Checked_same w); try reflexivity. exact HC.
      * case_bool_decide; exact Ha.
      * case_bool_decide; simpl; rewrite Hd; eauto.
    + intros u a' Ha'. unfold set_upload in Ha'; simpl in Ha'.
      destruct (decide (u = u0)) as [->|Hne].
      * rewrite list_lookup_insert_eq in Ha' by (eapply lookup_lt_Some, Ha).
        injection Ha' as <-. destruct (HC u0 a Ha) as [H1 H2].
        split; [exact H1 | exact I].
      * rewrite list_lookup_insert_ne in Ha' by congruence.
        apply (upload_ok_same w); try reflexivity. apply (HC u a' Ha').
Qed.

Lemma Checked_reachable supported persisted stored evs :
  Checked (run evs (initial supported persisted stored)).
Proof.
  assert (H : ∀ w, Good w → Checked w → Checked (run evs w)).
  { unfold run. induction evs as [|e evs IH]; intros w HG HC; simpl; [exact HC|].
    apply IH; [apply Good_step, HG | apply Checked_step; assumption]. }
  apply H; [apply (Good_reachable supported persisted stored [])|].
  intros u a Ha. discriminate.
Qed.

(** ** The rounds of the check *)

(** The number of rows of the store that belong to a file. *)
Definition rows_of (d : IDB.Database) (id : Z) : nat :=
  length (filter (λ row : Z * Z * FileChunk.t, FileChunk.fileId row.2 = id)
                 (map_to_list (IDB.chunks d))).

(** What the check of the record at [ref] has to say when the store is [d]:
    a warning with the name of the file when the number of its rows is not
    the number of its chunks. *)
Definition warning_for (h : list Closure.t) (d : IDB.Database) (ref : nat) : list Effect :=
  match h !! ref with
  | Some c =>
      if decide (Z.of_nat (rows_of d (Closure.id c)) = Closure.totalChunks c) then []
      else [Warned (File.name (Closure.file c))]
  | None => []
  end.

Lemma stored_count_rows d id : stored_count d id = Z.of_nat (rows_of d id).
Proof.
  unfold stored_count, rows_of, IDB.getAll. rewrite values_of_filter, length_fmap. reflexivity.
Qed.

(** The activation after the head of its loop. *)
Definition advanced (a : Upload.t) (w : World) : Upload.t :=
  match array_of a w !! Upload.next a with
  | Some ref => Upload.mk (Upload.type a) (Upload.items a) (S (Upload.next a)) (AwaitGetAll ref)
  | None => Upload.with_phase (Settled Resolved) a
  end.

Definition farewell (a : Upload.t) (w : World) : list Effect :=
  match array_of a w !! Upload.next a with
  | Some _ => []
  | None => [Alerted (Upload.type a)]
  end.

Lemma nextRecord_fields u a w :
  let w' := nextRecord u a w in
  log w' = log w ++ farewell a w ∧
  uploads w' = <[u := advanced a w]> (uploads w) ∧
  images w' = images w ∧ videos w' = videos w ∧ heap w' = heap w ∧
  dbPromise w' = dbPromise w ∧ localStorage w' = localStorage w.
Proof.
  unfold nextRecord, farewell, advanced.
  destruct (array_of a w !! Upload.next a); simpl; rewrite ?app_nil_r; repeat split.
Qed.

(** One round: the [getAll] request of the activation at [u] succeeded. *)
Lemma getAll_round w u a (ref : nat) c d :
  Good w → uploads w !! u = Some a → Upload.phase a = AwaitGetAll ref →
  heap w !! ref = Some c → dbPromise w = Some d →
  let w' := step w (GetAllSettled u true) in
  log w' = log w ++ warning_for (heap w) d ref ++ farewell a w ∧
  uploads w' = <[u := advanced a w]> (uploads w) ∧
  images w' = images w ∧ videos w' = videos w ∧ heap w' = heap w ∧
  dbPromise w' = dbPromise w ∧ localStorage w' = localStorage w.
Proof.
  intros [HI HS] Hu Hph Hc Hd. simpl. unfold onGetAllSettled.
  rewrite Hu, Hph, Hd, (deref_valid _ _ _ Hc).
  destruct (inv_cells _ _ _ _ HI ref c Hc) as [_ Hpid _ Hpt _ _ _ _].
  destruct (sh_cell _ HS ref c Hc) as (_ & _ & Hname & _).
  change (Z.of_nat (length (filter (λ c0, FileChunk.fileId c0 = PreviewFile.id (Closure.placeholder c))
                              (IDB.getAll d))))
    with (stored_count d (PreviewFile.id (Closure.placeholder c))).
  rewrite stored_count_rows, Hpid. unfold totalChunks_or_0. rewrite Hpt, Hname. simpl.
  unfold warning_for. rewrite Hc, <- Hd.
  destruct (decide (Z.of_nat (rows_of d (Closure.id c)) = Closure.totalChunks c)) as [E|NE].
  - rewrite bool_decide_eq_false_2 by tauto. simpl. apply nextRecord_fields.
  - rewrite bool_decide_eq_true_2 by exact NE.
    destruct (nextRecord_fields u a (emit (Warned (File.name (Closure.file c))) w))
      as (H1 & H2 & H3 & H4 & H5 & H6 & H7).
    assert (Ea : array_of a (emit (Warned (File.name (Closure.file c))) w) = array_of a w).
    { apply array_of_same; reflexivity. }
    unfold farewell, advanced in *. rewrite Ea in H1, H2.
    rewrite H1, H2. simpl. rewrite <- app_assoc. repeat split; assumption.
Qed.

(** The rounds from the [k]-th record on, when every request succeeds and
    nothing else happens in between. *)
Lemma check_rounds type u d (m : nat) :
  ∀ (k : nat) w (ref : nat),
    Good w → dbPromise w = Some d →
    uploads w !! u = Some (Upload.mk type Live (S k) (AwaitGetAll ref)) →
    items type w !! k = Some ref →
    length (items type w) = (k + 1 + m)%nat →
    let w' := run (replicate (S m) (GetAllSettled u true)) w in
    log w' = log w ++ (drop k (items type w) ≫= warning_for (heap w) d) ++ [Alerted type] ∧
    uploads w' !! u
    = Some (Upload.mk type Live (length (items type w)) (Settled Resolved)) ∧
    localStorage w' = localStorage w ∧ dbPromise w' = dbPromise w ∧
    heap w' = heap w ∧ images w' = images w ∧ videos w' = videos w.
Proof.
  induction m as [|m IH]; intros k w ref HG Hd Hu Hk Hlen.
  - destruct HG as [HI HS].
    destruct (lookup_lt_is_Some_2 (heap w) ref) as [c Hc].
    { apply (sh_refs _ HS), (items_listed type), list_elem_of_lookup. eauto. }
    destruct (getAll_round w u _ ref c d (conj HI HS) Hu eq_refl Hc Hd)
      as (H1 & H2 & H3 & H4 & H5 & H6 & H7).
    unfold farewell, advanced, array_of in H1, H2; simpl in H1, H2.
    rewrite (lookup_ge_None_2 (items type w) (S k)) in H1, H2 by lia.
    cbv zeta. simpl replicate. rewrite run_single.
    assert (Hdrop : drop k (items type w) = [ref]).
    { rewrite (drop_S _ _ _ Hk), drop_ge by lia. reflexivity. }
    rewrite Hdrop. simpl. rewrite app_nil_r.
    split; [exact H1|]. split.
    { rewrite H2, list_lookup_insert_eq by (eapply lookup_lt_Some, Hu).
      unfold Upload.with_phase; simpl. do 3 f_equal. lia. }
    auto.
  - pose proof HG as [HI HS].
    destruct (lookup_lt_is_Some_2 (heap w) ref) as [c Hc].
    { apply (sh_refs _ HS), (items_listed type), list_elem_of_lookup. eauto. }
    destruct (getAll_round w u _ ref c d HG Hu eq_refl Hc Hd)
      as (H1 & H2 & H3 & H4 & H5 & H6 & H7).
    destruct (lookup_lt_is_Some_2 (items type w) (S k)) as [ref' Hk']; [lia|].
    unfold farewell, advanced, array_of in H1, H2; simpl in H1, H2.
    rewrite Hk' in H1, H2. rewrite app_nil_r in H1.
    cbv zeta. rewrite (replicate_S (S m)), run_cons.
    change (onGetAllSettled u true w) with (step w (GetAllSettled u true)) in *.
    set (w1 := step w (GetAllSettled u true)) in *.
    assert (Hi1 : items type w1 = items type w) by (destruct type; simpl; assumption).
    destruct (IH (S k) w1 ref') as (J1 & J2 & J3 & J4 & J5 & J6 & J7).
    + apply Good_step, HG.
    + rewrite H6. exact Hd.
    + rewrite H2. apply list_lookup_insert_eq. eapply lookup_lt_Some, Hu.
    + rewrite Hi1. exact Hk'.
    + rewrite Hi1. lia.
    + rewrite Hi1, H5 in J1. rewrite Hi1 in J2.
      split.
      { rewrite J1, H1, (drop_S _ _ _ Hk). simpl. rewrite <- !app_assoc. reflexivity. }
      split; [exact J2|].
      rewrite J3, J4, J5, J6, J7. auto.
Qed.

(** What the call of [uploadAll] does before its first [await]. *)
Lemma uploadAll_call type now w :
  items type w ≠ [] →
  let w1 := uploadAll type now w in
  localStorage w1
  = <[storageKey type := manifest_of now (records type w)]> (localStorage w) ∧
  log w1 = log w ++ [ManifestWritten (storageKey type)] ∧
  uploads w1 = uploads w ++ [Upload.mk type Live 0 AwaitDb] ∧
  images w1 = images w ∧ videos w1 = videos w ∧ heap w1 = heap w ∧
  dbPromise w1 = dbPromise w.
Proof.
  intros Hne. unfold uploadAll.
  rewrite bool_decide_eq_false_2 by (destruct (items type w); [congruence | simpl; lia]).
  repeat split.
Qed.

(** C9. On an empty partition [uploadAll] returns at once and changes
    nothing.  Otherwise it stores under the partition's key one manifest
    entry per record, with id, name, size, chunk count and a timestamp, and
    goes on to its check.  Each round of the check, whatever has happened
    since the call, counts the rows that the store holds for the record at
    that moment and warns when they are not as many as its chunks; warning
    or not, the loop goes on to the next record of the array, and after
    the last one the call ends with its [alert].  With a database that
    opened, requests that succeed and nothing in between, the call so
    checks every record of the partition and resolves. *)
Theorem uploadAll_manifest_and_check supported persisted stored evs type now :
  let w := run evs (initial supported persisted stored) in
  let fs := records type w in
  match items type w with
  | [] => uploadAll type now w = w
  | _ :: _ =>
      let w1 := uploadAll type now w in
      localStorage w1 = <[storageKey type := manifest_of now fs]> (localStorage w) ∧
      length (manifest_of now fs) = length (items type w) ∧
      (∀ k f, fs !! k = Some f →
              manifest_of now fs !! k
              = Some (Metadata.mk (PreviewFile.id f) (PreviewFile.fileName f)
                        (PreviewFile.size f) (PreviewFile.totalChunks f) (now k))) ∧
      log w1 = log w ++ [ManifestWritten (storageKey type)] ∧
      uploads w1 = uploads w ++ [Upload.mk type Live 0 AwaitDb] ∧
      images w1 = images w ∧ videos w1 = videos w ∧ heap w1 = heap w ∧
      dbPromise w1 = dbPromise w ∧
      ∀ d, dbPromise w = Some d →
        let u := length (uploads w) in
        let n := length (items type w) in
        let w2 := run (DbSettled u :: replicate n (GetAllSettled u true)) w1 in
        log w2 = log w1 ++ (items type w ≫= warning_for (heap w) d) ++ [Alerted type] ∧
        uploads w2 !! u = Some (Upload.mk type Live n (Settled Resolved)) ∧
        localStorage w2 = localStorage w1
  end ∧
  ∀ u a (ref : nat),
    uploads w !! u = Some a → Upload.phase a = AwaitGetAll ref →
    ∃ c d, heap w !! ref = Some c ∧ dbPromise w = Some d ∧
      let w' := step w (GetAllSettled u true) in
      log w' = log w ++ warning_for (heap w) d ref ++ farewell a w ∧
      uploads w' = <[u := advanced a w]> (uploads w) ∧
      images w' = images w ∧ videos w' = videos w ∧ heap w' = heap w ∧
      dbPromise w' = dbPromise w ∧ localStorage w' = localStorage w.
Proof.
  intros w fs.
  pose proof (Good_reachable supported persisted stored evs) as HG. fold w in HG.
  pose proof (Checked_reachable supported persisted stored evs) as HC. fold w in HC.
  split.
  - destruct (items type w) as [|r0 rs] eqn:Hit.
    { unfold uploadAll. rewrite Hit. reflexivity. }
    assert (Hne : items type w ≠ []) by (rewrite Hit; discriminate).
    destruct (uploadAll_call type now w Hne) as (U1 & U2 & U3 & U4 & U5 & U6 & U7).
    rewrite <- Hit. fold fs in U1.
    split; [exact U1|]. split.
    { rewrite manifest_of_length. apply records_length, HG. }
    split; [intros k f; apply manifest_of_lookup|].
    split; [exact U2|]. split; [exact U3|]. split; [exact U4|]. split; [exact U5|].
    split; [exact U6|]. split; [exact U7|].
    intros d Hd u n w2. set (w1 := uploadAll type now w) in *.
    assert (HG1 : Good w1) by (apply (Good_step w (UploadAll type now)), HG).
    assert (Hi1 : items type w1 = items type w) by (destruct type; simpl; assumption).
    assert (Hu1 : uploads w1 !! u = Some (Upload.mk type Live 0 AwaitDb)).
    { rewrite U3. unfold u. rewrite lookup_app_r by lia. rewrite Nat.sub_diag. reflexivity. }
    set (wd := step w1 (DbSettled u)).
    assert (Hwd : wd = nextRecord u (Upload.mk type Live 0 AwaitDb) w1).
    { unfold wd; simpl. unfold onDbSettled. rewrite Hu1, U7, Hd. reflexivity. }
    destruct (nextRecord_fields u (Upload.mk type Live 0 AwaitDb) w1)
      as (N1 & N2 & N3 & N4 & N5 & N6 & N7).
    rewrite <- Hwd in N1, N2, N3, N4, N5, N6, N7.
    unfold farewell, advanced, array_of in N1, N2; simpl in N1, N2.
    rewrite Hi1, Hit in N1, N2; simpl in N1, N2. rewrite app_nil_r in N1.
    assert (Hid : items type wd = items type w).
    { rewrite <- Hi1. destruct type; simpl; assumption. }
    destruct (check_rounds type u d (length rs) 0 wd r0) as (J1 & J2 & J3 & J4 & J5 & J6 & J7).
    + apply (Good_step w1 (DbSettled u)), HG1.
    + rewrite N6, U7. exact Hd.
    + rewrite N2. apply list_lookup_insert_eq. eapply lookup_lt_Some, Hu1.
    + rewrite Hid, Hit. reflexivity.
    + rewrite Hid, Hit. simpl. lia.
    + unfold w2, n. rewrite run_cons. fold wd. rewrite Hit. simpl length.
      rewrite Hid, Hit in J1, J2. simpl length in J2. rewrite drop_0, N5, U6, N1 in J1.
      split; [exact J1|]. split; [exact J2|]. rewrite J3, N7. reflexivity.
  - intros u a ref Hu Hph.
    destruct (HC u a Hu) as [_ Hn]. rewrite Hph in Hn. destruct Hn as [Hlt [d Hd]].
    destruct (lookup_lt_is_Some_2 _ _ Hlt) as [c Hc].
    exists c, d. split; [exact Hc|]. split; [exact Hd|].
    apply (getAll_round w u a ref c d HG Hu Hph Hc Hd).
Qed.

Definition small : File.t := File.mk "b.png" [Byte.x64; Byte.x65].

(** An export called right after two files were dropped: the rows of the
    first are asked for before its chunk is stored, the rows of the second
    after; only the first is warned about. *)
Example uploadAll_while_files_are_stored :
  let now := λ _, 1700000000000 in
  let w := run [HandleFiles [tiny; small] image; UploadAll image now; DbSettled 0;
                ReadSettled 0 true; ReadSettled 1 true; GetAllSettled 0 true;
                SaveSettled 0 true; SaveSettled 1 true; GetAllSettled 0 true]
               (initial true ∅ ∅) in
  localStorage w !! "uploaded_images"%string
  = Some [Metadata.mk 1 "a.png" 3 (Some 1) 1700000000000;
          Metadata.mk 2 "b.png" 2 (Some 1) 1700000000000] ∧
  log w = [ManifestWritten "uploaded_images"; PutStarted 1 0; PutStarted 2 0;
           Warned "a.png"; PutCommitted 1 0; PutCommitted 2 0; Alerted image] ∧
  Upload.phase <$> uploads w = [Settled Resolved].
Proof. vm_compute. repeat split. Qed.

(** The loop follows the array it was given: a file dropped while the check
    runs is checked as well, though the manifest does not have it; after
    [removeAll] the loop still has the array that was emptied from the
    field. *)
Example uploadAll_follows_its_array :
  let now := λ _, 1700000000000 in
  let w0 := run [HandleFiles [tiny] image; UploadAll image now; DbSettled 0]
                (initial true ∅ ∅) in
  let pushed := run [HandleFiles [small] image; GetAllSettled 0 true; GetAllSettled 0 true] w0 in
  let emptied := run [RemoveAll image (λ _, true); HandleFiles [small] image;
                      GetAllSettled 0 true] w0 in
  (log pushed = [ManifestWritten "uploaded_images"; Warned "a.png"; Warned "b.png";
                 Alerted image] ∧
   length <$> localStorage pushed !! "uploaded_images"%string = Some 1%nat) ∧
  (log emptied = [ManifestWritten "uploaded_images"; Emptied image;
                  ClearFailed 1 IDB.NotFoundError; Warned "a.png"; Alerted image] ∧
   images emptied = [1%nat]).
Proof. vm_compute. repeat split. Qed.

(** The two ways in which the call rejects: [openDB] had rejected, or a
    [getAll] request fails; the manifest is written all the same and there is
    no [alert]. *)
Example uploadAll_rejects :
  let now := λ _, 1700000000000 in
  let unsupported :=
    run [HandleFiles [tiny] image; UploadAll image now; DbSettled 0] (initial false ∅ ∅) in
  let unreadable :=
    run [HandleFiles [tiny] image; UploadAll image now; DbSettled 0; GetAllSettled 0 false]
        (initial true ∅ ∅) in
  (Upload.phase <$> uploads unsupported = [Settled (Rejected IDB.EnvironmentUnsupported)] ∧
   log unsupported = [ManifestWritten "uploaded_images"]) ∧
  (Upload.phase <$> uploads unreadable = [Settled (Rejected IDB.RequestError)] ∧
   log unreadable = [ManifestWritten "uploaded_images"]).
Proof. vm_compute. repeat split. Qed.

(** An export of a partition whose file lost its chunk: the manifest is
    written, the warning is logged, the call resolves. *)
Example uploadAll_on_truncated_store :
  let w := run (HandleFiles [tiny] image :: rounds 0 1) (initial true ∅ ∅) in
  let truncated := with_db (Some (IDB.mk [] ∅)) w in
  let w' := run [UploadAll image (λ _, 1700000000000); DbSettled 0; GetAllSettled 0 true]
                truncated in
  Upload.phase <$> uploads w' = [Settled Resolved] ∧
  localStorage w' !! "uploaded_images"%string
  = Some [Metadata.mk 1 "a.png" 3 (Some 1) 1700000000000] ∧
  log w' = log w ++ [ManifestWritten "uploaded_images"; Warned "a.png"; Alerted image].
Proof. vm_compute. repeat split. Qed.

Example uploadAll_on_empty_partition :
  let w := run (HandleFiles [tiny] image :: rounds 0 1) (initial true ∅ ∅) in
  uploadAll video (λ _, 1700000000000) w = w.
Proof. vm_compute. reflexivity. Qed.

(** * Looking a record up by its id *)

(** [findById]: the first record of [images] with that id, or else the
    first of [videos], or else [null]; the result is the object itself. *)
Definition findById (id : Z) (w : World) : option nat :=
  match list_find (has_id w id) (images w) with
  | Some (_, r) => Some r
  | None =>
      match list_find (has_id w id) (videos w) with
      | Some (_, r) => Some r
      | None => None
      end
  end.

(** [onPreviewLoaded]: the record is looked up; without one, or with one
    that is not loading, the handler returns; inside [zone.run] it returns
    when the progress is below 100, and has nothing left to do otherwise. *)
Definition onPreviewLoaded (id : Z) (w : World) : World :=
  match findById id w with
  | None => w
  | Some r =>
      match deref w r with
      | None => w
      | Some item =>
          if negb (PreviewFile.loading item) then w
          else if PreviewFile.progress item <? 100 then w
          else w
      end
  end.

Lemma onPreviewLoaded_changes_nothing id w : onPreviewLoaded id w = w.
Proof.
  unfold onPreviewLoaded. destruct (findById id w) as [r|]; [|reflexivity].
  destruct (deref w r) as [item|]; [|reflexivity].
  destruct (negb _); [reflexivity|]. destruct (_ <? _); reflexivity.
Qed.

(** [ngOnDestroy]: the object URL of every record of [images], then of
    [videos], is revoked. *)
Definition ngOnDestroy (w : World) : World :=
  fold_left (λ w it, revokeObjectUrl it w) (records image w ++ records video w) w.

Lemma has_id_good w id (r : nat) :
  Good w → (has_id w id r ↔ (r < length (heap w))%nat ∧ id = Z.of_nat r + 1).
Proof.
  intros [HI HS]. unfold has_id, deref. split.
  - destruct (heap w !! r) as [c|] eqn:Hr; [|discriminate]. simpl. intros E.
    split; [eapply lookup_lt_Some, Hr|].
    destruct (inv_cells _ _ _ _ HI r c Hr) as [Hid Hpid _ _ _ _ _ _]. congruence.
  - intros [Hlt ->]. destruct (lookup_lt_is_Some_2 _ _ Hlt) as [c Hr]. rewrite Hr. simpl.
    destruct (inv_cells _ _ _ _ HI r c Hr) as [Hid Hpid _ _ _ _ _ _]. congruence.
Qed.

Lemma list_find_has_id w id (l : list nat) :
  Good w → (∀ r, r ∈ l → (r < length (heap w))%nat) →
  match list_find (has_id w id) l with
  | Some (_, r) => r ∈ l ∧ id = Z.of_nat r + 1
  | None => ∀ r, r ∈ l → id ≠ Z.of_nat r + 1
  end.
Proof.
  intros HG Hl. destruct (list_find (has_id w id) l) as [[i r]|] eqn:E.
  - apply list_find_Some in E as (Hi & Hid & _).
    split; [eapply list_elem_of_lookup_2, Hi|]. apply (has_id_good w id r HG), Hid.
  - apply list_find_None in E. rewrite Forall_forall in E.
    intros r Hr ->. apply (E r Hr). apply (has_id_good w _ r HG). split; [apply Hl, Hr | reflexivity].
Qed.

Lemma findById_good id w :
  Good w →
  match findById id w with
  | Some r => r ∈ images w ++ videos w ∧ id = Z.of_nat r + 1
  | None => ∀ r, r ∈ images w ++ videos w → id ≠ Z.of_nat r + 1
  end.
Proof.
  intros HG. unfold findById.
  pose proof (list_find_has_id w id (images w) HG) as H1.
  pose proof (list_find_has_id w id (videos w) HG) as H2.
  destruct (list_find (has_id w id) (images w)) as [[i r]|].
  - destruct H1 as [Hr ->].
    { intros r' Hr'. apply (sh_refs _ (proj2 HG)), elem_of_app. auto. }
    split; [apply elem_of_app; auto | reflexivity].
  - destruct (list_find (has_id w id) (videos w)) as [[i r]|].
    + destruct H2 as [Hr ->].
      { intros r' Hr'. apply (sh_refs _ (proj2 HG)), elem_of_app. auto. }
      split; [apply elem_of_app; auto | reflexivity].
    + intros r Hr. apply elem_of_app in Hr as [Hr | Hr].
      * apply H1; [|exact Hr].
        intros r' Hr'. apply (sh_refs _ (proj2 HG)), elem_of_app. auto.
      * apply H2; [|exact Hr].
        intros r' Hr'. apply (sh_refs _ (proj2 HG)), elem_of_app. auto.
Qed.

(** X6. [findById] returns a record of [images] or [videos] with that id,
    the only one there is; it returns [null] exactly when no record shown
    has the id. *)
Theorem findById_finds_the_record supported persisted stored evs id :
  let w := run evs (initial supported persisted stored) in
  match findById id w with
  | Some r =>
      r ∈ images w ++ videos w ∧
      (∃ c, heap w !! r = Some c ∧ PreviewFile.id (Closure.placeholder c) = id) ∧
      ∀ r', r' ∈ images w ++ videos w → has_id w id r' → r' = r
  | None => ∀ p, p ∈ records image w ++ records video w → PreviewFile.id p ≠ id
  end.
Proof.
  intros w.
  pose proof (Good_reachable supported persisted stored evs) as HG. fold w in HG.
  pose proof (findById_good id w HG) as H.
  destruct (findById id w) as [r|].
  - destruct H as [Hr ->]. split; [exact Hr|]. split.
    + destruct (lookup_lt_is_Some_2 (heap w) r) as [c Hc]; [apply (sh_refs _ (proj2 HG)), Hr|].
      exists c. split; [exact Hc|].
      destruct (inv_cells _ _ _ _ (proj1 HG) r c Hc) as [Hid Hpid _ _ _ _ _ _]. congruence.
    + intros r' _ Hid. apply (has_id_good w _ r' HG) in Hid. lia.
  - intros p Hp Hid.
    assert (Hin : PreviewFile.id p ∈ PreviewFile.id <$> (records image w ++ records video w)).
    { apply list_elem_of_fmap. eauto. }
    rewrite fmap_app, (record_ids image w HG), (record_ids video w HG), <- fmap_app in Hin.
    apply list_elem_of_fmap in Hin as (r & E & Hr).
    apply (H r Hr). simpl in Hr. congruence.
Qed.

Lemma handleFiles_arrays files type w :
  let w' := handleFiles files type w in
  items type w' = items type w ++ seq (length (heap w)) (length files) ∧
  items (other type) w' = items (other type) w ∧
  length (heap w') = (length (heap w) + length files)%nat.
Proof.
  unfold handleFiles. revert w. induction files as [|f fs IH]; intros w; simpl.
  - rewrite app_nil_r. repeat split. lia.
  - destruct (IH (handleFile type w f)) as (I1 & I2 & L).
    destruct (handleFile_arrays type w f) as (J1 & J2 & _).
    rewrite I1, I2, L, J1, J2, handleFile_heap, length_app, <- app_assoc. simpl.
    replace (length (heap w) + 1)%nat with (S (length (heap w))) by lia.
    repeat split. lia.
Qed.

(** X7. After [handleFiles], [findById] finds each new record under its new
    id; after [removeAll] of a partition, it finds no record that was in the
    partition and still finds those of the other one. *)
Theorem findById_follows_the_arrays supported persisted stored evs :
  let w := run evs (initial supported persisted stored) in
  (∀ files type (k : nat), (k < length files)%nat →
     findById (idCounter w + Z.of_nat k + 1) (handleFiles files type w)
     = Some (length (heap w) + k)%nat) ∧
  (∀ type txOk id,
     findById id (removeAll type txOk w)
     = match findById id w with
       | Some r => if decide (r ∈ items type w) then None else Some r
       | None => None
       end).
Proof.
  intros w.
  pose proof (Good_reachable supported persisted stored evs) as HG. fold w in HG.
  split.
  - intros files type k Hk.
    set (w' := handleFiles files type w).
    assert (HG' : Good w') by apply (Good_step w (HandleFiles files type) HG).
    destruct (handleFiles_arrays files type w) as (I1 & _ & L). fold w' in I1, L.
    assert (Hin : (length (heap w) + k)%nat ∈ images w' ++ videos w').
    { apply (items_listed type). rewrite I1. apply elem_of_app. right.
      apply elem_of_seq. lia. }
    pose proof (findById_good (idCounter w + Z.of_nat k + 1) w' HG') as H.
    rewrite (inv_counter _ _ _ _ (proj1 HG)) in H |- *.
    destruct (findById _ w') as [r|].
    + destruct H as [_ E]. f_equal. lia.
    + exfalso. apply (H _ Hin). lia.
  - intros type txOk id.
    set (w' := removeAll type txOk w).
    assert (HG' : Good w') by apply (Good_step w (RemoveAll type txOk) HG).
    destruct (removeAll_arrays type txOk w) as (I1 & I2 & Hh & _). fold w' in I1, I2, Hh.
    pose proof (findById_good id w HG) as H.
    pose proof (findById_good id w' HG') as H'.
    assert (Hl : ∀ r, r ∈ images w' ++ videos w' ↔ r ∈ items (other type) w).
    { intros r. rewrite (images_videos_items type w'), I1, I2. reflexivity. }
    assert (Hw : ∀ r, r ∈ images w ++ videos w
                      ↔ r ∈ items type w ∨ r ∈ items (other type) w).
    { intros r. rewrite (images_videos_items type w), elem_of_app. reflexivity. }
    assert (Hdisj : ∀ r, r ∈ items type w → r ∈ items (other type) w → False).
    { pose proof (sh_nodup _ (proj2 HG)) as N.
      rewrite (images_videos_items type w) in N.
      apply NoDup_app in N as (_ & N & _). exact N. }
    destruct (findById id w) as [r|]; destruct (findById id w') as [r'|].
    + destruct H as [Hr ->]. destruct H' as [Hr' E].
      assert (r' = r) as -> by lia.
      apply Hl in Hr'. destruct (decide (r ∈ items type w)) as [Hin|]; [|reflexivity].
      destruct (Hdisj r Hin Hr').
    + destruct H as [Hr ->].
      destruct (decide (r ∈ items type w)) as [Hin|Hnin]; [reflexivity|].
      exfalso. apply Hw in Hr as [Hr | Hr]; [contradiction|].
      apply (H' r); [apply Hl, Hr | reflexivity].
    + destruct H' as [Hr' ->]. exfalso.
      apply (H r'); [apply Hw; right; apply Hl, Hr' | reflexivity].
    + reflexivity.
Qed.

(** ** Destroying the component *)

Lemma ngOnDestroy_fold (l : list PreviewFile.t) w :
  let w' := fold_left (λ w it, revokeObjectUrl it w) l w in
  same_records w w' ∧ dbPromise w' = dbPromise w ∧ localStorage w' = localStorage w ∧
  log w' = log w ++ (Revoked <$> omap PreviewFile.objectUrl l).
Proof.
  revert w. induction l as [|it l IH]; intros w; simpl.
  - rewrite app_nil_r. split; [apply same_records_refl | auto].
  - destruct (IH (revokeObjectUrl it w)) as (S1 & D & LS & L).
    split; [|split; [|split]].
    + eapply same_records_trans; [apply same_records_revokeObjectUrl | exact S1].
    + rewrite D. apply dbPromise_revokeObjectUrl.
    + rewrite LS. unfold revokeObjectUrl. destruct (PreviewFile.objectUrl it); reflexivity.
    + rewrite L, log_revokeObjectUrl, <- app_assoc. f_equal.
      unfold revocation. destruct (PreviewFile.objectUrl it); reflexivity.
Qed.

Lemma omap_Some {A} (l : list A) : omap (λ x, x) (Some <$> l) = l.
Proof. induction l as [|a l IH]; simpl; [reflexivity|]. f_equal. exact IH. Qed.

(** X8. [ngOnDestroy] revokes the object URL of every record that is in
    [images] or [videos], each once, images first; no URL was revoked
    before, so the URL of a record is revoked in the end exactly when the
    record is still in an array: what [removeAll] took out keeps its URL. *)
Theorem ngOnDestroy_revokes_what_is_listed supported persisted stored evs :
  let w := run evs (initial supported persisted stored) in
  let w' := ngOnDestroy w in
  log w' = log w ++ (Revoked <$> (images w ++ videos w)) ∧
  NoDup (images w ++ videos w) ∧
  (∀ u, Revoked u ∉ log w) ∧
  (∀ (r : nat) c, heap w !! r = Some c →
     PreviewFile.objectUrl (Closure.placeholder c) = Some r ∧
     (Revoked r ∈ log w' ↔ r ∈ images w ++ videos w)) ∧
  images w' = images w ∧ videos w' = videos w ∧ heap w' = heap w ∧
  dbPromise w' = dbPromise w.
Proof.
  intros w w'.
  pose proof (Good_reachable supported persisted stored evs) as HG. fold w in HG.
  destruct (ngOnDestroy_fold (records image w ++ records video w) w)
    as ((A1 & A2 & A3 & _) & D & _ & L).
  fold (ngOnDestroy w) in A1, A2, A3, D, L. fold w' in A1, A2, A3, D, L.
  assert (Hurls : omap PreviewFile.objectUrl (records image w ++ records video w)
                  = images w ++ videos w).
  { pose proof (record_urls image w HG) as U1. pose proof (record_urls video w HG) as U2.
    change (items image w) with (images w) in U1.
    change (items video w) with (videos w) in U2.
    rewrite <- (omap_Some (A:=ObjectURL) (images w ++ videos w)), fmap_app, <- U1, <- U2,
      <- fmap_app.
    generalize (records image w ++ records video w). intros l.
    induction l as [|p l IH]; simpl; [reflexivity|].
    destruct (PreviewFile.objectUrl p); simpl; [f_equal|]; exact IH. }
  rewrite Hurls in L.
  assert (Hq : ∀ u, Revoked u ∉ log w).
  { intros u Hu.
    destruct (run_log evs (initial supported persisted stored) (Inv_initial _ _ _))
      as (l & Hl & Hf).
    fold w in Hl. simpl in Hl. subst l. rewrite Forall_forall in Hf.
    apply (Hf _ Hu). exact I. }
  repeat split; try assumption.
  - apply (sh_nodup _ (proj2 HG)).
  - apply (sh_cell _ (proj2 HG) r c H).
  - rewrite L, elem_of_app, list_elem_of_fmap. intros [Hin | (r' & E & Hin)].
    + destruct (Hq _ Hin).
    + injection E as ->. exact Hin.
  - intros Hin. rewrite L, elem_of_app, list_elem_of_fmap. right. eauto.
Qed.

(** * The size of the chunks *)

Lemma byte_range_length (l : list Byte.byte) a b :
  0 <= a <= b → b <= Z.of_nat (length l) →
  Z.of_nat (length (byte_range l a b)) = b - a.
Proof.
  intros Ha Hb. unfold byte_range. rewrite length_take, length_drop. lia.
Qed.

(** X9. Every chunk stored for a file (of a size below 2^53) is not empty
    and holds at most [chunkSize] bytes: exactly [chunkSize] when it is not
    the last, and the rest of the file when it is; it carries the id, its
    index and the number of chunks of the file. *)
Theorem stored_chunks_are_full_but_the_last supported persisted stored evs (r : nat) c j :
  let w := run evs (initial supported persisted stored) in
  heap w !! r = Some c → File.size (Closure.file c) < 2 ^ 53 →
  0 <= j < Closure.currentChunk c →
  let size := File.size (Closure.file c) in
  let n := Closure.totalChunks c in
  ∃ d chunk,
    dbPromise w = Some d ∧ IDB.chunks d !! (Closure.id c, j) = Some chunk ∧
    FileChunk.fileId chunk = Closure.id c ∧ FileChunk.chunkIndex chunk = j ∧
    FileChunk.totalChunks chunk = n ∧
    Z.of_nat (length (FileChunk.data chunk)) = Z.min chunkSize (size - j * chunkSize) ∧
    0 < Z.of_nat (length (FileChunk.data chunk)) <= chunkSize ∧
    (j + 1 < n → Z.of_nat (length (FileChunk.data chunk)) = chunkSize) ∧
    (j + 1 = n → Z.of_nat (length (FileChunk.data chunk)) = size - (n - 1) * chunkSize).
Proof.
  intros w Hr Hsz Hj size n.
  pose proof (Inv_reachable supported persisted stored evs) as HI. fold w in HI.
  destruct (inv_cells _ _ _ _ HI r c Hr) as [_ _ Htot _ Hcur _ Hrows _].
  destruct (Hrows j Hj) as (d & Hd & Hrow).
  pose proof (File_size_nonneg (Closure.file c)) as H0.
  destruct (totalChunksOf_bounds (File.size (Closure.file c))) as [Hlo Hhi]; [lia|].
  rewrite <- Htot in Hlo, Hhi. fold size in Hlo, Hhi, H0. fold n in Hlo, Hhi, Hcur.
  assert (Hc : chunkSize = 262144) by reflexivity.
  assert (Hlen : Z.of_nat (length (FileChunk.data (chunk_of c j)))
                 = Z.min chunkSize (size - j * chunkSize)).
  { rewrite chunk_of_range by (try assumption; fold n; lia). simpl.
    rewrite byte_range_length; unfold File.size in *; fold size; lia. }
  exists d, (chunk_of c j). rewrite Hlen.
  repeat split; try assumption; try reflexivity; lia.
Qed.

Lemma stored_chunks_are_full_but_the_last_witness :
  let w := run (HandleFiles [tiny] image :: rounds 0 1) (initial true ∅ ∅) in
  let c := started (committed (started (fresh_closure (initial true ∅ ∅) tiny))) in
  let size := File.size (Closure.file c) in
  let n := Closure.totalChunks c in
  ∃ d chunk,
    dbPromise w = Some d ∧ IDB.chunks d !! (Closure.id c, 0) = Some chunk ∧
    FileChunk.fileId chunk = Closure.id c ∧ FileChunk.chunkIndex chunk = 0 ∧
    FileChunk.totalChunks chunk = n ∧
    Z.of_nat (length (FileChunk.data chunk)) = Z.min chunkSize (size - 0 * chunkSize) ∧
    0 < Z.of_nat (length (FileChunk.data chunk)) <= chunkSize ∧
    (0 + 1 < n → Z.of_nat (length (FileChunk.data chunk)) = chunkSize) ∧
    (0 + 1 = n → Z.of_nat (length (FileChunk.data chunk)) = size - (n - 1) * chunkSize).
Proof.
  intros w c.
  apply (stored_chunks_are_full_but_the_last true ∅ ∅
           (HandleFiles [tiny] image :: rounds 0 1) 0 c 0).
  - vm_compute. reflexivity.
  - vm_compute. reflexivity.
  - vm_compute. split; [discriminate | reflexivity].
Defined.

(** * An ingestion in which nothing fails *)

Lemma rounds_finish w (r : nat) c blob :
  heap w !! r = Some c → Closure.phase c = AwaitRead blob → is_Some (dbPromise w) →
  Closure.currentChunk c < Closure.totalChunks c →
  let k := Z.to_nat (Closure.totalChunks c - Closure.currentChunk c) in
  ∃ c', heap (run (rounds r k) w) !! r = Some c' ∧
        Closure.phase c' = Finished ∧
        Closure.currentChunk c' = Closure.totalChunks c ∧
        Closure.id c' = Closure.id c ∧ Closure.file c' = Closure.file c ∧
        is_Some (dbPromise (run (rounds r k) w)).
Proof.
  intros Hr Hph Hd Hlt k.
  destruct k as [|k'] eqn:Ek; [lia|].
  destruct (rounds_run k' w r c blob Hr Hph Hd) as (ck & Hck & Hcur & Htot & Hid & Hf & Hdk & Hphk);
    [lia|].
  destruct Hphk as [blobk Hphk]; [lia|]. destruct Hdk as [dk Hdk].
  simpl rounds. rewrite run_app.
  destruct (one_round _ r ck blobk dk Hck Hphk Hdk) as [H1 H2].
  exists (started (committed ck)). split; [exact H1|].
  unfold started. simpl.
  destruct (Z.leb_spec (Closure.totalChunks ck) (Closure.currentChunk ck + 1)); [|lia].
  simpl. repeat split; try assumption; lia.
Qed.

Lemma dbPromise_supported persisted stored evs :
  is_Some (dbPromise (run evs (initial true persisted stored))).
Proof.
  pose proof (run_keeps_rows evs (initial true persisted stored) (Inv_initial _ _ _)) as H.
  simpl in H. destruct H as (d & -> & _). eauto.
Qed.

(** X10. Where the database opened, a file handed to [handleFiles] whose
    reads and saves all succeed is complete after as many rounds (read,
    save, timer) as it has chunks: its closure has finished, the record
    shows [loading = false] and 100, every chunk is in the store, and the
    puts of the file were those of chunks 0 .. n - 1 in this order. *)
Theorem ingestion_completes persisted stored evs0 file type :
  let w := run evs0 (initial true persisted stored) in
  let r := length (heap w) in
  let id := idCounter w + 1 in
  let n := totalChunksOf (File.size file) in
  let w2 := run (HandleFiles [file] type :: rounds r (Z.to_nat n)) w in
  ∃ c d, heap w2 !! r = Some c ∧ dbPromise w2 = Some d ∧
    Closure.file c = file ∧ Closure.id c = id ∧
    Closure.phase c = Finished ∧ Closure.currentChunk c = n ∧
    PreviewFile.loading (Closure.placeholder c) = false ∧
    PreviewFile.progress (Closure.placeholder c) = 100 ∧
    (∀ j, 0 <= j < n → IDB.chunks d !! (id, j) = Some (chunk_of c j)) ∧
    puts_of id (log w2) = puts_until id n.
Proof.
  intros w r id n w2.
  set (w1 := step w (HandleFiles [file] type)).
  assert (Hw2 : w2 = run (rounds r (Z.to_nat n)) w1) by reflexivity.
  assert (HI2 : Inv w2).
  { unfold w2, w. rewrite <- run_app. apply Inv_reachable. }
  assert (Hh : heap w1 = heap w ++ [started (fresh_closure w file)]).
  { unfold w1; simpl. apply handleFile_heap. }
  set (c0 := started (fresh_closure w file)) in *.
  assert (Hc0 : heap w1 !! r = Some c0).
  { rewrite Hh. unfold r. rewrite lookup_app_r by lia. rewrite Nat.sub_diag. reflexivity. }
  assert (Hd1 : is_Some (dbPromise w1)).
  { unfold w1, w. change (step ?w ?e) with (run [e] w). rewrite <- run_app.
    apply dbPromise_supported. }
  pose proof (totalChunksOf_nonneg (File.size file)) as Hn. fold n in Hn.
  assert (Hfin : ∃ c, heap w2 !! r = Some c ∧ Closure.phase c = Finished ∧
                      Closure.file c = file ∧ Closure.id c = id ∧
                      is_Some (dbPromise w2)).
  { destruct (decide (n = 0)) as [E0 | Hpos].
    - rewrite Hw2, E0. simpl. exists c0. split; [exact Hc0|].
      unfold c0, started. simpl. fold n. rewrite E0. simpl. auto.
    - destruct (started_fresh w file) as (Ecur & Etot & Ef & Eid & blob & Eph); [fold n; lia|].
      fold c0 in Ecur, Etot, Ef, Eid, Eph. fold n in Etot.
      destruct (rounds_finish w1 r c0 blob Hc0 Eph Hd1) as (c & Hc & Hph & _ & Hid & Hf & Hd);
        [lia|].
      rewrite Etot, Ecur, Z.sub_0_r in Hc, Hd. rewrite <- Hw2 in Hc, Hd.
      exists c. unfold id. repeat split; try assumption; congruence. }
  destruct Hfin as (c & Hc & Hph & Hf & Hid & [d Hd]).
  destruct (inv_cells _ _ _ _ HI2 r c Hc) as [_ _ Htot _ _ Hok Hrows Hlog].
  unfold phase_ok in Hok. rewrite Hph in Hok. destruct Hok as (Hcur & Hl & Hp).
  rewrite Hf in Htot. fold n in Htot. rewrite Htot in Hcur.
  exists c, d. repeat split; try assumption.
  - intros j Hj. destruct (Hrows j) as (d' & Hd' & Hrow); [lia|].
    assert (d' = d) as -> by congruence. rewrite <- Hid. exact Hrow.
  - rewrite Hid, Hcur in Hlog. unfold pending in Hlog. rewrite Hph, app_nil_r in Hlog.
    exact Hlog.
Qed.

(** * A full bar before the last chunk *)

Lemma percentOf_199_200 : percentOf 199 200 = 100.
Proof. vm_compute. reflexivity. Qed.

Lemma percentOf_last_but_one (t : Z) : 200 <= t → percentOf (t - 1) t = 100.
Proof.
  intros Ht. apply Z.le_antisymm; [apply percentOf_le_100; lia|].
  rewrite <- percentOf_199_200.
  unfold percentOf, Binary64.round, Binary64.mul, Binary64.div.
  apply Qfloor_resp_le, Qplus_le_compat; [|apply Qle_refl].
  apply Binary64.fl_mono, Qmult_le_compat_r; [|discriminate].
  apply Binary64.fl_mono.
  assert (Pt : (0 < inject_Z t)%Q) by (apply inject_Z_pos; lia).
  apply Qle_shift_div_l; [exact Pt|].
  assert (H200 : (inject_Z 200 <= inject_Z t)%Q) by (rewrite <- Zle_Qle; exact Ht).
  unfold Z.sub. rewrite inject_Z_plus, inject_Z_opp.
  assert (E : (inject_Z 199 / inject_Z 200 == 199 # 200)%Q) by reflexivity.
  rewrite E. change (inject_Z 200) with 200%Q in H200. change (inject_Z 1) with 1%Q.
  set (x := inject_Z t) in *. clearbody x. lra.
Qed.

Lemma percentOf_below_200_table :
  forallb (λ t, percentOf (t - 1) t <=? 99) (seqZ 1 199) = true.
Proof. vm_compute. reflexivity. Qed.

Lemma percentOf_below_200 (c t : Z) : 0 <= c < t → t < 200 → percentOf c t <= 99.
Proof.
  intros Hc Ht.
  transitivity (percentOf (t - 1) t); [apply percentOf_mono; lia|].
  pose proof percentOf_below_200_table as H.
  rewrite forallb_forall in H. apply Z.leb_le, H.
  apply list_elem_of_In, elem_of_seqZ. lia.
Qed.

(** X11. While chunks of a file remain to be stored, its record shows a
    progress of 100 only if the file has at least 200 chunks; and for every
    file of at least 200 chunks the commit of the chunk before the last
    already sets the progress to 100. *)
Theorem full_bar_before_the_last_chunk supported persisted stored evs (r : nat) c :
  let w := run evs (initial supported persisted stored) in
  heap w !! r = Some c → Closure.currentChunk c < Closure.totalChunks c →
  (PreviewFile.progress (Closure.placeholder c) = 100 → 200 <= Closure.totalChunks c) ∧
  (200 <= Closure.totalChunks c →
   percentOf (Closure.totalChunks c - 1) (Closure.totalChunks c) = 100).
Proof.
  intros w Hr Hlt.
  pose proof (Inv_reachable supported persisted stored evs) as HI. fold w in HI.
  destruct (inv_cells _ _ _ _ HI r c Hr) as [_ _ _ _ Hcur Hok _ _].
  split; [|apply percentOf_last_but_one].
  intros Hp.
  assert (Hprog : PreviewFile.progress (Closure.placeholder c) = progress_of c).
  { unfold phase_ok in Hok. destruct (Closure.phase c); try tauto. lia. }
  rewrite Hprog in Hp. unfold progress_of in Hp.
  destruct (Z.eqb_spec (Closure.currentChunk c) 0); [discriminate|].
  destruct (Z_lt_le_dec (Closure.totalChunks c) 200) as [Hsmall|]; [|assumption].
  pose proof (percentOf_below_200 (Closure.currentChunk c) (Closure.totalChunks c)).
  lia.
Qed.

(** A file of 50 MiB has 200 chunks; when 199 of them are stored its record
    is still loading and shows 100. *)
Lemma progress_at_199_of_200 (file : File.t) w :
  File.size file = 52428800 →
  w = run (HandleFiles [file] video :: rounds 0 199) (initial true ∅ ∅) →
  ∃ c, heap w !! 0%nat = Some c ∧
       Closure.currentChunk c = 199 ∧ Closure.totalChunks c = 200 ∧
       PreviewFile.loading (Closure.placeholder c) = true ∧
       PreviewFile.progress (Closure.placeholder c) = 100.
Proof.
  intros Hsz Hw.
  assert (Ht : totalChunksOf (File.size file) = 200) by (rewrite Hsz; vm_compute; reflexivity).
  destruct (first_file_rounds 199 file video ∅ ∅ w Hw) as
    (c & blob & Hc & Hph & Hcur & Htot & _); [lia|].
  exists c. split; [exact Hc|]. split; [exact Hcur|]. split; [congruence|].
  assert (HI : Inv w) by (rewrite Hw; apply Inv_reachable).
  pose proof (ci_phase _ _ _ _ (inv_cells _ _ _ _ HI 0%nat c Hc)) as Hok.
  unfold phase_ok in Hok. rewrite Hph in Hok. destruct Hok as (_ & _ & Hl & Hp).
  split; [exact Hl|]. rewrite Hp. unfold progress_of. rewrite Hcur, Htot, Ht.
  vm_compute. reflexivity.
Qed.

Lemma full_bar_before_the_last_chunk_witness :
  let file := File.mk "film.mp4" (replicate (Z.to_nat 52428800) Byte.x00) in
  let w := run (HandleFiles [file] video :: rounds 0 199) (initial true ∅ ∅) in
  ∃ c, heap w !! 0%nat = Some c ∧
       Closure.currentChunk c = 199 ∧ Closure.totalChunks c = 200 ∧
       PreviewFile.loading (Closure.placeholder c) = true ∧
       PreviewFile.progress (Closure.placeholder c) = 100 ∧
       (PreviewFile.progress (Closure.placeholder c) = 100 → 200 <= Closure.totalChunks c) ∧
       (200 <= Closure.totalChunks c →
        percentOf (Closure.totalChunks c - 1) (Closure.totalChunks c) = 100).
Proof.
  intros file w.
  assert (Hsz : File.size file = 52428800).
  { unfold file, File.size. change (File.bytes (File.mk ?n ?l)) with l.
    rewrite length_replicate. apply Z2Nat.id. lia. }
  destruct (progress_at_199_of_200 file w Hsz eq_refl) as (c & Hc & Hcur & Htot & Hl & Hp).
  exists c. split; [exact Hc|]. split; [exact Hcur|]. split; [exact Htot|].
  split; [exact Hl|]. split; [exact Hp|].
  apply (full_bar_before_the_last_chunk true ∅ ∅
           (HandleFiles [file] video :: rounds 0 199) 0 c).
  - exact Hc.
  - rewrite Hcur, Htot. lia.
Defined.

(** * The size shown to the user *)

(** [x.toFixed(1)] for a number [0 <= x < 10^21]: the integer [n] nearest
    to [10 x], the larger one of two, written with its last digit after
    the point. *)
Definition toFixed1 (x : Q) : string :=
  let n := Qfloor (x * 10 + (1 # 2)) in
  pretty (n / 10) +:+ "." +:+ pretty (n mod 10).

(** [formatFileSize], on the size of a file (a non-negative integer). *)
Definition formatFileSize (size : Z) : string :=
  if size <? 1024 then pretty size +:+ " B"
  else if size <? 1024 * 1024 then
    toFixed1 (Binary64.div (inject_Z size) (inject_Z 1024)) +:+ " KB"
  else if size <? 1024 * 1024 * 1024 then
    toFixed1 (Binary64.div (inject_Z size) (inject_Z (1024 * 1024))) +:+ " MB"
  else
    toFixed1 (Binary64.div (inject_Z size) (inject_Z (1024 * 1024 * 1024))) +:+ " GB".

Example formatFileSize_examples :
  formatFileSize 0 = "0 B" ∧ formatFileSize 1023 = "1023 B" ∧
  formatFileSize 1024 = "1.0 KB" ∧ formatFileSize 1536 = "1.5 KB" ∧
  formatFileSize 300000 = "293.0 KB" ∧ formatFileSize 1048575 = "1024.0 KB" ∧
  formatFileSize 1048576 = "1.0 MB" ∧ formatFileSize 10485760 = "10.0 MB" ∧
  formatFileSize 5368709120 = "5.0 GB".
Proof. vm_compute. repeat split. Qed.

Definition unit_of (size : Z) : Z * string :=
  if size <? 1024 * 1024 then (1024, " KB")
  else if size <? 1024 * 1024 * 1024 then (1024 * 1024, " MB")
  else (1024 * 1024 * 1024, " GB").

Definition tenths (n : Z) : string := pretty (n / 10) +:+ "." +:+ pretty (n mod 10).

(** Dividing a size by a power of two is exact on numbers. *)
Lemma div_pow2_exact (size e : Z) :
  0 <= size < 2 ^ 53 → 0 <= e →
  (Binary64.div (inject_Z size) (inject_Z (2 ^ e)) == inject_Z size / inject_Z (2 ^ e))%Q.
Proof.
  intros Hs He. unfold Binary64.div.
  assert (E : (inject_Z size / inject_Z (2 ^ e) == inject_Z size * Binary64.two ^ (- e))%Q).
  { rewrite Binary64.pow_inject by exact He. unfold Qdiv. rewrite <- Qpower_opp. reflexivity. }
  rewrite E. apply Binary64.fl_exact, Hs.
Qed.

Lemma toFixed1_quotient (size e : Z) :
  0 <= size < 2 ^ 53 → 0 <= e →
  toFixed1 (Binary64.div (inject_Z size) (inject_Z (2 ^ e)))
  = tenths ((20 * size + 2 ^ e) / (2 * 2 ^ e)).
Proof.
  intros Hs He. unfold toFixed1. fold (tenths (Qfloor
    (Binary64.div (inject_Z size) (inject_Z (2 ^ e)) * 10 + (1 # 2)))).
  f_equal. rewrite Zdiv_Qdiv. apply Qfloor_comp.
  rewrite (div_pow2_exact size e Hs He).
  assert (Pu : (0 < inject_Z (2 ^ e))%Q) by (apply inject_Z_pos; lia).
  rewrite !inject_Z_plus, !inject_Z_mult.
  change (inject_Z 20) with 20%Q. change (inject_Z 2) with 2%Q.
  field. intros H. rewrite H in Pu. discriminate.
Qed.

(** X12. [formatFileSize] (for a size below 2^53) writes a size under 1024
    as the number of bytes, and a larger one in KB, MB or GB (by the
    thresholds 1024^2 and 1024^3) with one decimal: the number of tenths is
    the quotient rounded half up, computed without rounding error, so the
    value shown is within a twentieth of the exact one; it is at least 1.0,
    and can be 1024.0 just below a threshold. *)
Theorem formatFileSize_rounds_to_a_tenth (size : Z) :
  0 <= size < 2 ^ 53 →
  (size < 1024 → formatFileSize size = pretty size +:+ " B") ∧
  (1024 <= size →
   let '(u, suffix) := unit_of size in
   let n := (20 * size + u) / (2 * u) in
   formatFileSize size = tenths n +:+ suffix ∧
   - u < 2 * (n * u - 10 * size) <= u ∧
   10 <= n ∧ (size < 1024 * 1024 * 1024 → n <= 10240)).
Proof.
  intros Hs. unfold formatFileSize, unit_of. split.
  - intros Hlt. destruct (Z.ltb_spec size 1024); [reflexivity | lia].
  - intros Hge. destruct (Z.ltb_spec size 1024); [lia|].
    destruct (Z.ltb_spec size (1024 * 1024)).
    { change 1024 with (2 ^ 10) at 1. rewrite (toFixed1_quotient size 10) by lia.
      cbv zeta. change (2 ^ 10) with 1024.
      split; [reflexivity|]. Z.div_mod_to_equations. lia. }
    destruct (Z.ltb_spec size (1024 * 1024 * 1024)).
    { change (1024 * 1024) with (2 ^ 20) at 1. rewrite (toFixed1_quotient size 20) by lia.
      cbv zeta. change (2 ^ 20) with (1024 * 1024).
      split; [reflexivity|]. Z.div_mod_to_equations. lia. }
    change (1024 * 1024 * 1024) with (2 ^ 30) at 1. rewrite (toFixed1_quotient size 30) by lia.
    cbv zeta. change (2 ^ 30) with (1024 * 1024 * 1024).
    split; [reflexivity|]. Z.div_mod_to_equations. lia.
Qed.

Lemma formatFileSize_rounds_to_a_tenth_witness :
  (300000 < 1024 → formatFileSize 300000 = pretty 300000 +:+ " B") ∧
  (1024 <= 300000 →
   let '(u, suffix) := unit_of 300000 in
   let n := (20 * 300000 + u) / (2 * u) in
   formatFileSize 300000 = tenths n +:+ suffix ∧
   - u < 2 * (n * u - 10 * 300000) <= u ∧
   10 <= n ∧ (300000 < 1024 * 1024 * 1024 → n <= 10240)).
Proof. apply (formatFileSize_rounds_to_a_tenth 300000). lia. Defined.

(** * The variant with an animated progress

    [file-upload.ts] keeps an earlier version of the component: it stores
    no chunks, and shows for each dropped file a progress that a
    [requestAnimationFrame] loop drives from the clock until the preview
    has loaded. *)

(** ** Numbers of either sign

    Time differences can be negative (the time stamp of a frame can lie
    before the [performance.now()] of the handler that asked for it), so
    the rounding of [Binary64] is extended by symmetry. *)
Module Signed.
Local Open Scope Q_scope.

Definition fl (x : Q) : Q :=
  match Qcompare x 0 with
  | Lt => - Binary64.fl (- x)
  | _ => Binary64.fl x
  end.

Definition add (a b : Q) : Q := fl (a + b).
Definition sub (a b : Q) : Q := fl (a - b).
Definition div (a b : Q) : Q := fl (a / b).
Definition mul (a b : Q) : Q := fl (a * b).
(** [Math.min] *)
Definition min (a b : Q) : Q := if Qle_bool a b then a else b.

Lemma fl_nonneg_eq (x : Q) : 0 <= x -> fl x = Binary64.fl x.
Proof.
  intros H. unfold fl. destruct (Qcompare_spec x 0) as [E|E|E]; [reflexivity | lra | reflexivity].
Qed.

Lemma fl_neg_eq (x : Q) : x < 0 -> fl x = - Binary64.fl (- x).
Proof.
  intros H. unfold fl. destruct (Qcompare_spec x 0) as [E|E|E]; [lra | reflexivity | lra].
Qed.

Lemma fls_mono (x y : Q) : x <= y -> fl x <= fl y.
Proof.
  intros H. destruct (Qlt_le_dec x 0) as [Hx|Hx]; destruct (Qlt_le_dec y 0) as [Hy|Hy].
  - rewrite !fl_neg_eq by assumption.
    assert (Binary64.fl (- y) <= Binary64.fl (- x)) by (apply Binary64.fl_mono; lra). lra.
  - rewrite fl_neg_eq, fl_nonneg_eq by assumption.
    pose proof (Binary64.fl_nonneg (- x)). pose proof (Binary64.fl_nonneg y). lra.
  - lra.
  - rewrite !fl_nonneg_eq by assumption. apply Binary64.fl_mono, H.
Qed.

Lemma fls_integer (n : Z) : (0 <= n < 2 ^ 53)%Z -> fl (inject_Z n) == inject_Z n.
Proof.
  intros H. rewrite fl_nonneg_eq; [apply Binary64.fl_integer, H|].
  change 0 with (inject_Z 0). rewrite <- Zle_Qle. lia.
Qed.

Lemma fls_nonneg (x : Q) : 0 <= x -> 0 <= fl x.
Proof. intros H. rewrite fl_nonneg_eq by exact H. apply Binary64.fl_nonneg. Qed.

Lemma fls_nonpos (x : Q) : x <= 0 -> fl x <= 0.
Proof.
  intros H. destruct (Qlt_le_dec x 0) as [Hx|Hx].
  - rewrite fl_neg_eq by exact Hx. pose proof (Binary64.fl_nonneg (- x)). lra.
  - rewrite fl_nonneg_eq by exact Hx. rewrite Binary64.fl_nonpos by exact H. lra.
Qed.

Lemma min_spec (a b : Q) : (a <= b /\ min a b = a) \/ (b < a /\ min a b = b).
Proof.
  unfold min. destruct (Qle_bool a b) eqn:E.
  - left. split; [apply Qle_bool_iff, E | reflexivity].
  - right. split; [|reflexivity]. apply Qnot_le_lt. intros H.
    apply Qle_bool_iff in H. congruence.
Qed.

End Signed.

Module Animated.

(** [Math.min(1400, 300 + file.size / 1000)], in milliseconds. *)
Definition durationOf (size : Z) : Q :=
  Signed.min 1400 (Signed.add 300 (Signed.div (inject_Z size) 1000)).

(** The percentage that [step] computes at the time stamp [now]:
    [Math.max(0, Math.min(100, Math.round((elapsed / duration) * 100)))]
    with [elapsed = now - start]. *)
Definition percentAt (start duration now : Q) : Z :=
  let elapsed := Signed.sub now start in
  let percent := Binary64.round (Signed.mul (Signed.div elapsed duration) 100) in
  Z.max 0 (Z.min 100 percent).

Section Numbers.
Local Open Scope Q_scope.

Lemma durationOf_bounds (size : Z) :
  (0 <= size)%Z -> 300 <= durationOf size /\ durationOf size <= 1400.
Proof.
  intros Hs. unfold durationOf.
  set (d := Signed.add 300 (Signed.div (inject_Z size) 1000)).
  assert (Hd : 300 <= d).
  { unfold d, Signed.add, Signed.div.
    assert (H0 : 0 <= Signed.fl (inject_Z size / 1000)).
    { apply Signed.fls_nonneg. apply Qle_shift_div_l; [reflexivity|].
      rewrite Qmult_0_l. change 0 with (inject_Z 0). rewrite <- Zle_Qle. exact Hs. }
    assert (E : Signed.fl (inject_Z 300) == 300) by (apply Signed.fls_integer; lia).
    rewrite <- E at 1. apply Signed.fls_mono. change (inject_Z 300) with 300. lra. }
  destruct (Signed.min_spec 1400 d) as [[H ->] | [H ->]]; lra.
Qed.

Lemma percentAt_bounds start duration now :
  (0 <= percentAt start duration now <= 100)%Z.
Proof. unfold percentAt. lia. Qed.

Lemma percentAt_mono start duration now1 now2 :
  0 < duration -> now1 <= now2 ->
  (percentAt start duration now1 <= percentAt start duration now2)%Z.
Proof.
  intros Hd Hn. unfold percentAt, Binary64.round, Signed.mul, Signed.div, Signed.sub.
  apply Z.max_le_compat_l, Z.min_le_compat_l.
  apply Qfloor_resp_le, Qplus_le_compat; [|apply Qle_refl].
  apply Signed.fls_mono, Qmult_le_compat_r; [|discriminate].
  apply Signed.fls_mono, Qmult_le_compat_r; [|apply Qlt_le_weak, Qinv_lt_0_compat, Hd].
  apply Signed.fls_mono. lra.
Qed.

Lemma percentAt_before start duration now :
  0 < duration -> now <= start -> percentAt start duration now = 0%Z.
Proof.
  intros Hd Hn. unfold percentAt, Binary64.round, Signed.mul, Signed.div, Signed.sub.
  assert (H1 : Signed.fl (now - start) <= 0) by (apply Signed.fls_nonpos; lra).
  assert (H2 : Signed.fl (Signed.fl (now - start) / duration) <= 0).
  { apply Signed.fls_nonpos. apply Qle_shift_div_r; [exact Hd|]. lra. }
  assert (H3 : Signed.fl (Signed.fl (Signed.fl (now - start) / duration) * 100) <= 0).
  { apply Signed.fls_nonpos. lra. }
  set (y := Signed.fl (Signed.fl (Signed.fl (now - start) / duration) * 100)) in *.
  assert (H4 : (Qfloor (y + (1 # 2)) <= 0)%Z).
  { assert (E : (Qfloor (1 # 2) = 0)%Z) by reflexivity. rewrite <- E.
    apply Qfloor_resp_le. lra. }
  lia.
Qed.

Lemma percentAt_after start duration now :
  0 < duration -> duration <= Signed.sub now start ->
  percentAt start duration now = 100%Z.
Proof.
  intros Hd Hn. unfold percentAt, Binary64.round, Signed.mul, Signed.div.
  set (e := Signed.sub now start) in *.
  assert (E1 : Signed.fl (inject_Z 1) == 1) by (apply Signed.fls_integer; lia).
  assert (H2 : 1 <= Signed.fl (e / duration)).
  { rewrite <- E1. apply Signed.fls_mono. change (inject_Z 1) with 1.
    apply Qle_shift_div_l; [exact Hd|]. lra. }
  assert (E100 : Signed.fl (inject_Z 100) == 100) by (apply Signed.fls_integer; lia).
  assert (H3 : 100 <= Signed.fl (Signed.fl (e / duration) * 100)).
  { rewrite <- E100 at 1. apply Signed.fls_mono. change (inject_Z 100) with 100. lra. }
  set (y := Signed.fl (Signed.fl (e / duration) * 100)) in *.
  assert (H4 : (100 <= Qfloor (y + (1 # 2)))%Z).
  { assert (E : (Qfloor (201 # 2) = 100)%Z) by reflexivity. rewrite <- E.
    apply Qfloor_resp_le. lra. }
  lia.
Qed.

(** Once 1400 ms have passed the animation is at 100, whatever the size. *)
Lemma percentAt_after_1400 start duration now :
  0 < duration -> duration <= 1400 -> 1400 <= now - start ->
  percentAt start duration now = 100%Z.
Proof.
  intros Hd Hd' Hn. apply percentAt_after; [exact Hd|].
  assert (E : Signed.fl (inject_Z 1400) == 1400) by (apply Signed.fls_integer; lia).
  unfold Signed.sub. apply Qle_trans with (y := 1400); [exact Hd'|].
  rewrite <- E. apply Signed.fls_mono. exact Hn.
Qed.

End Numbers.

(** X13. The animation of a file lasts between 300 and 1400 ms; the
    percentage that [step] computes lies between 0 and 100, never decreases
    as the time stamp grows, is 0 up to the start and 100 once 1400 ms have
    passed. *)
Theorem animation_runs_from_0_to_100 (size : Z) (start now1 now2 : Q) :
  0 <= size → (now1 <= now2)%Q →
  let d := durationOf size in
  (300 <= d)%Q ∧ (d <= 1400)%Q ∧
  0 <= percentAt start d now1 <= percentAt start d now2 ∧
  percentAt start d now2 <= 100 ∧
  ((now1 <= start)%Q → percentAt start d now1 = 0) ∧
  ((1400 <= now2 - start)%Q → percentAt start d now2 = 100).
Proof.
  intros Hs Hn d. destruct (durationOf_bounds size Hs) as [D1 D2]. fold d in D1, D2.
  assert (Hd : (0 < d)%Q) by lra.
  split; [exact D1|]. split; [exact D2|].
  pose proof (percentAt_bounds start d now1). pose proof (percentAt_bounds start d now2).
  pose proof (percentAt_mono start d now1 now2 Hd Hn).
  split; [lia|]. split; [lia|]. split.
  - apply percentAt_before, Hd.
  - intros H2. apply percentAt_after_1400; assumption.
Qed.

Lemma animation_runs_from_0_to_100_witness :
  let d := durationOf 300000 in
  (300 <= d)%Q ∧ (d <= 1400)%Q ∧
  0 <= percentAt 1000 d 1100 <= percentAt 1000 d 1300 ∧
  percentAt 1000 d 1300 <= 100 ∧
  ((1100 <= 1000)%Q → percentAt 1000 d 1100 = 0) ∧
  ((1400 <= 1300 - 1000)%Q → percentAt 1000 d 1300 = 100).
Proof.
  apply (animation_runs_from_0_to_100 300000 1000 1100 1300).
  - lia.
  - vm_compute. discriminate.
Defined.

Example percentAt_examples :
  Qred (durationOf 300000) = 600%Q ∧ Qred (durationOf 5000000) = 1400%Q ∧
  percentAt 1000 600 990 = 0 ∧ percentAt 1000 600 1100 = 17 ∧
  percentAt 1000 600 1300 = 50 ∧ percentAt 1000 600 1700 = 100.
Proof. vm_compute. repeat split. Qed.

(** ** Data *)

(** [interface PreviewFile]; an id is a number: the counter of
    [handleFiles], or [Date.now() + Math.random()] in [onFileSelected]. *)
Module Preview.
Record t := mk {
  id : Qc;
  fileName : string;
  size : Z;
  url : option ObjectURL;
  objectUrl : option ObjectURL;
  loading : bool;
  progress : Z
}.

Definition with_progress (n : Z) (p : t) : t :=
  mk (id p) (fileName p) (size p) (url p) (objectUrl p) (loading p) n.

(** [item.progress = 100; item.loading = false] *)
Definition loaded (p : t) : t :=
  mk (id p) (fileName p) (size p) (url p) (objectUrl p) false 100.
End Preview.

(** The closure [step] of one file: what it captured. *)
Module Step.
Record t := mk {
  placeholder : nat;
  duration : Q;
  start : Q;
  type : Kind
}.
End Step.

(** One entry of the array that [uploadAll] serializes. *)
Module Entry.
Record t := mk {
  id : Qc;
  name : string;
  size : Z;
  url : option ObjectURL
}.
End Entry.

Inductive Effect :=
  | Revoked (u : ObjectURL)         (* [URL.revokeObjectURL] *)
  | Cancelled (handle : nat)        (* [cancelAnimationFrame] *)
  | InputCleared (type : Kind)      (* the value of a view child reset *)
  | TargetCleared                   (* [input.value = ''] on the event target *)
  | ManifestWritten (key : string)  (* [localStorage.setItem] *)
  | Alerted (type : Kind).          (* [alert] *)

(** The component, the objects its arrays refer to, and the browser: the
    list of animation frame callbacks with the identifier of the next one,
    the registry of object URLs, [localStorage]. *)
Record State := mkState {
  images : list nat;
  videos : list nat;
  heap : list Preview.t;
  isDragOver : Kind → bool;
  idCounter : Z;
  rafHandles : gmap Qc nat;
  viewChild : Kind → bool;
  frames : gmap nat Step.t;
  nextHandle : nat;
  nextUrl : ObjectURL;
  localStorage : gmap string (list Entry.t);
  log : list Effect
}.

Definition with_images (l : list nat) (s : State) : State :=
  mkState l (videos s) (heap s) (isDragOver s) (idCounter s) (rafHandles s) (viewChild s)
          (frames s) (nextHandle s) (nextUrl s) (localStorage s) (log s).

Definition with_videos (l : list nat) (s : State) : State :=
  mkState (images s) l (heap s) (isDragOver s) (idCounter s) (rafHandles s) (viewChild s)
          (frames s) (nextHandle s) (nextUrl s) (localStorage s) (log s).

Definition with_heap (h : list Preview.t) (s : State) : State :=
  mkState (images s) (videos s) h (isDragOver s) (idCounter s) (rafHandles s) (viewChild s)
          (frames s) (nextHandle s) (nextUrl s) (localStorage s) (log s).

Definition with_isDragOver (f : Kind → bool) (s : State) : State :=
  mkState (images s) (videos s) (heap s) f (idCounter s) (rafHandles s) (viewChild s)
          (frames s) (nextHandle s) (nextUrl s) (localStorage s) (log s).

Definition with_rafHandles (m : gmap Qc nat) (s : State) : State :=
  mkState (images s) (videos s) (heap s) (isDragOver s) (idCounter s) m (viewChild s)
          (frames s) (nextHandle s) (nextUrl s) (localStorage s) (log s).

Definition with_frames (m : gmap nat Step.t) (s : State) : State :=
  mkState (images s) (videos s) (heap s) (isDragOver s) (idCounter s) (rafHandles s)
          (viewChild s) m (nextHandle s) (nextUrl s) (localStorage s) (log s).

Definition with_localStorage (m : gmap string (list Entry.t)) (s : State) : State :=
  mkState (images s) (videos s) (heap s) (isDragOver s) (idCounter s) (rafHandles s)
          (viewChild s) (frames s) (nextHandle s) (nextUrl s) m (log s).

Definition emit (e : Effect) (s : State) : State :=
  mkState (images s) (videos s) (heap s) (isDragOver s) (idCounter s) (rafHandles s)
          (viewChild s) (frames s) (nextHandle s) (nextUrl s) (localStorage s) (log s ++ [e]).

Definition items (type : Kind) (s : State) : list nat :=
  match type with image => images s | video => videos s end.

Definition with_items (type : Kind) (l : list nat) (s : State) : State :=
  match type with image => with_images l s | video => with_videos l s end.

Definition records (type : Kind) (s : State) : list Preview.t :=
  omap (λ r : nat, heap s !! r) (items type s).

(** ** The browser *)

(** [requestAnimationFrame(step)]: the callback joins the list under a new
    handle. *)
Definition requestAnimationFrame (a : Step.t) (s : State) : nat * State :=
  let handle := nextHandle s in
  (handle,
   mkState (images s) (videos s) (heap s) (isDragOver s) (idCounter s) (rafHandles s)
           (viewChild s) (<[handle := a]> (frames s)) (S handle) (nextUrl s)
           (localStorage s) (log s)).

(** [cancelAnimationFrame(handle)] *)
Definition cancelAnimationFrame (handle : nat) (s : State) : State :=
  emit (Cancelled handle) (with_frames (delete handle (frames s)) s).

(** [if (it.objectUrl) URL.revokeObjectURL(it.objectUrl)] *)
Definition revoke (it : Preview.t) (s : State) : State :=
  match Preview.objectUrl it with
  | Some u => emit (Revoked u) s
  | None => s
  end.

(** [if (raf) cancelAnimationFrame(raf)] for [raf = this.rafHandles.get(id)]:
    a handle is a number, and 0 is not truthy. *)
Definition cancelIfAny (id : Qc) (s : State) : State :=
  match rafHandles s !! id with
  | Some raf => if (raf =? 0)%nat then s else cancelAnimationFrame raf s
  | None => s
  end.

(** ** The component *)

(** [storageKey] is the one of the later version. *)

(** [clearFileInput]: the view child of that type, when there is one. *)
Definition clearFileInput (type : Kind) (s : State) : State :=
  if viewChild s type then emit (InputCleared type) s else s.

(** The closure [step], called by the browser with the time stamp of the
    frame.  The array is copied onto itself ([this.images = [...this.images]]),
    which leaves its elements as they are. *)
Definition stepFrame (a : Step.t) (now : Q) (s : State) : State :=
  let percent := percentAt (Step.start a) (Step.duration a) now in
  match heap s !! Step.placeholder a with
  | None => s
  | Some p =>
      let s1 :=
        with_heap (<[Step.placeholder a := Preview.with_progress percent p]> (heap s)) s in
      if percent <? 100 then
        let '(handle, s2) := requestAnimationFrame a s1 in
        with_rafHandles (<[Preview.id p := handle]> (rafHandles s2)) s2
      else with_rafHandles (delete (Preview.id p) (rafHandles s1)) s1
  end.

(** The [forEach] callback of [handleFiles]; [start] is what
    [performance.now()] returns in it. *)
Definition handleFile (type : Kind) (s : State) (dropped : File.t * Q) : State :=
  let '(file, start) := dropped in
  let id := idCounter s + 1 in
  let objectUrl := nextUrl s in
  let placeholder :=
    Preview.mk (Qc_of_Z id) (File.name file) (File.size file) (Some objectUrl)
               (Some objectUrl) true 0 in
  let r := length (heap s) in
  let s1 :=
    mkState (images s) (videos s) (heap s ++ [placeholder]) (isDragOver s) id
            (rafHandles s) (viewChild s) (frames s) (nextHandle s) (S (nextUrl s))
            (localStorage s) (log s) in
  let s2 := with_items type (items type s1 ++ [r]) s1 in
  let duration := durationOf (File.size file) in
  let '(handle, s3) := requestAnimationFrame (Step.mk r duration start type) s2 in
  with_rafHandles (<[Qc_of_Z id := handle]> (rafHandles s3)) s3.

Definition handleFiles (files : list (File.t * Q)) (type : Kind) (s : State) : State :=
  fold_left (handleFile type) files s.

(** [onDragLeave] and [onFileDropped]; [files] is [event.dataTransfer?.files]. *)
Definition onDragLeave (type : Kind) (s : State) : State :=
  with_isDragOver (λ t, if decide (t = type) then false else isDragOver s t) s.

Definition onFileDropped (files : option (list (File.t * Q))) (type : Kind) (s : State)
  : State :=
  let s1 := onDragLeave type s in
  match files with
  | Some fs => handleFiles fs type s1
  | None => s1
  end.

(** The [forEach] callback of [onFileSelected]; [id] is the value of
    [Date.now() + Math.random()] in it. *)
Definition selectFile (type : Kind) (s : State) (selected : File.t * Qc) : State :=
  let '(file, id) := selected in
  let objectUrl := nextUrl s in
  let item :=
    Preview.mk id (File.name file) (File.size file) (Some objectUrl) (Some objectUrl)
               false 0 in
  let r := length (heap s) in
  let s1 :=
    mkState (images s) (videos s) (heap s ++ [item]) (isDragOver s) (idCounter s)
            (rafHandles s) (viewChild s) (frames s) (nextHandle s) (S (nextUrl s))
            (localStorage s) (log s) in
  with_items type (items type s1 ++ [r]) s1.

(** [onFileSelected]; [files] is [input.files]. *)
Definition onFileSelected (files : option (list (File.t * Qc))) (type : Kind) (s : State)
  : State :=
  match files with
  | None | Some [] => s
  | Some fs => emit TargetCleared (fold_left (selectFile type) fs s)
  end.

(** [i => i.id === id] on the object behind a reference. *)
Definition has_id (s : State) (id : Qc) (r : nat) : Prop :=
  Preview.id <$> heap s !! r = Some id.

#[global] Instance has_id_dec s id r : Decision (has_id s id r).
Proof. unfold has_id. apply _. Defined.

(** [findById] *)
Definition findById (id : Qc) (s : State) : option nat :=
  match list_find (has_id s id) (images s) with
  | Some (_, r) => Some r
  | None =>
      match list_find (has_id s id) (videos s) with
      | Some (_, r) => Some r
      | None => None
      end
  end.

(** [onPreviewLoaded] *)
Definition onPreviewLoaded (id : Qc) (s : State) : State :=
  match findById id s with
  | None => s
  | Some r =>
      let s1 :=
        match rafHandles s !! id with
        | Some raf =>
            if (raf =? 0)%nat then s
            else with_rafHandles (delete id (rafHandles s)) (cancelAnimationFrame raf s)
        | None => s
        end in
      match heap s1 !! r with
      | Some item => with_heap (<[r := Preview.loaded item]> (heap s1)) s1
      | None => s1
      end
  end.

(** One partition's part of [removePreview]: [findIndex], [splice], the
    revocation, the frame cancelled and forgotten, the input reset. *)
Definition removeFrom (type : Kind) (id : Qc) (s : State) : option State :=
  match list_find (has_id s id) (items type s) with
  | Some (idx, r) =>
      let s1 := with_items type (delete idx (items type s)) s in
      let s2 := match heap s1 !! r with Some it => revoke it s1 | None => s1 end in
      let s3 := cancelIfAny id s2 in
      let s4 := with_rafHandles (delete id (rafHandles s3)) s3 in
      Some (clearFileInput type s4)
  | None => None
  end.

Definition removePreview (id : Qc) (s : State) : State :=
  match removeFrom image id s with
  | Some s' => s'
  | None =>
      match removeFrom video id s with
      | Some s' => s'
      | None => s
      end
  end.

(** [removeAll] *)
Definition removeAll (type : Kind) (s : State) : State :=
  let s1 := fold_left (λ s it, revoke it s) (records type s) s in
  clearFileInput type (with_items type [] s1).

(** [uploadAll] *)
Definition uploadAll (type : Kind) (s : State) : State :=
  if bool_decide (length (items type s) = 0%nat) then s
  else
    let data :=
      (λ f, Entry.mk (Preview.id f) (Preview.fileName f) (Preview.size f) (Preview.url f))
        <$> records type s in
    let s1 :=
      emit (ManifestWritten (storageKey type))
           (with_localStorage (<[storageKey type := data]> (localStorage s)) s) in
    let s2 := fold_left (λ s it, revoke it s) (records type s1) s1 in
    let s3 := clearFileInput type (with_items type [] s2) in
    emit (Alerted type) s3.

(** [ngOnDestroy] *)
Definition ngOnDestroy (s : State) : State :=
  let s1 :=
    fold_left (λ s it, cancelIfAny (Preview.id it) (revoke it s))
              (records image s ++ records video s) s in
  with_rafHandles ∅ s1.

(** ** The component as a transition system *)

Inductive Event :=
  | DragLeave (type : Kind)
  | FileDropped (files : option (list (File.t * Q))) (type : Kind)
  | FileSelected (files : option (list (File.t * Qc))) (type : Kind)
  | FrameFired (handle : nat) (now : Q)
  | PreviewLoaded (id : Qc)
  | RemovePreview (id : Qc)
  | UploadAll (type : Kind)
  | RemoveAll (type : Kind).

(** The browser runs a callback of its list once, with the time stamp of
    the frame, and takes it off the list before. *)
Definition step (s : State) (e : Event) : State :=
  match e with
  | DragLeave type => onDragLeave type s
  | FileDropped files type => onFileDropped files type s
  | FileSelected files type => onFileSelected files type s
  | FrameFired handle now =>
      match frames s !! handle with
      | Some a => stepFrame a now (with_frames (delete handle (frames s)) s)
      | None => s
      end
  | PreviewLoaded id => onPreviewLoaded id s
  | RemovePreview id => removePreview id s
  | UploadAll type => uploadAll type s
  | RemoveAll type => removeAll type s
  end.

Definition run (evs : list Event) (s : State) : State := fold_left step evs s.

(** The component as constructed; the first handle the browser gives out
    is 1. *)
Definition initial (viewChildren : Kind → bool) (stored : gmap string (list Entry.t))
  : State :=
  mkState [] [] [] (λ _, false) 0 ∅ viewChildren ∅ 1%nat 0%nat stored [].

Example one_animation :
  let file := File.mk "a.png" [Byte.x61; Byte.x62; Byte.x63] in
  let s := run [FileDropped (Some [(file, 1000%Q)]) image;
                FrameFired 1 1010; FrameFired 2 1100; PreviewLoaded (Qc_of_Z 1);
                FrameFired 3 1200]
               (initial (λ _, true) ∅) in
  (λ p, (Preview.loading p, Preview.progress p)) <$> records image s = [(false, 100)] ∧
  log s = [Cancelled 3] ∧ frames s = ∅ ∧ rafHandles s = ∅.
Proof. vm_compute. repeat split. Qed.


(** ** Invariants *)

(** What the invariants read of a state: everything but the drag flags,
    the view children, [localStorage] and the log. *)
Definition core (s : State) :=
  (images s, videos s, heap s, idCounter s, rafHandles s, frames s, nextHandle s, nextUrl s).

Lemma core_emit e s : core (emit e s) = core s.
Proof. reflexivity. Qed.

Lemma core_revoke it s : core (revoke it s) = core s.
Proof. unfold revoke. destruct (Preview.objectUrl it); reflexivity. Qed.

Lemma core_clearFileInput type s : core (clearFileInput type s) = core s.
Proof. unfold clearFileInput. destruct (viewChild s type); reflexivity. Qed.

Lemma core_revoke_all (l : list Preview.t) s :
  core (fold_left (λ s it, revoke it s) l s) = core s.
Proof.
  revert s. induction l as [|it l IH]; intros s; simpl; [reflexivity|].
  rewrite IH. apply core_revoke.
Qed.

Record inv (s : State) : Prop := {
  iv_handle : (1 <= nextHandle s)%nat;
  iv_counter : 0 <= idCounter s;
  iv_url : nextUrl s = length (heap s);
  iv_refs : ∀ r, r ∈ images s ++ videos s → (r < length (heap s))%nat;
  iv_nodup : NoDup (images s ++ videos s);
  iv_obj : ∀ (r : nat) p, heap s !! r = Some p →
    Preview.objectUrl p = Some r ∧ Preview.url p = Some r ∧
    0 <= Preview.progress p <= 100;
  iv_raf : ∀ id handle, rafHandles s !! id = Some handle →
    (1 <= handle < nextHandle s)%nat;
  iv_frames : ∀ handle a, frames s !! handle = Some a →
    (1 <= handle < nextHandle s)%nat ∧ (0 < Step.duration a)%Q ∧
    ∃ p, heap s !! Step.placeholder a = Some p ∧
         rafHandles s !! Preview.id p = Some handle ∧
         Preview.loading p = true ∧
         ∃ k, Preview.id p = Qc_of_Z k ∧ 1 <= k <= idCounter s
}.

Lemma inv_core s s' : core s' = core s → inv s → inv s'.
Proof.
  unfold core. intros E [H1 H0 H2 H3 H4 H5 H6 H7].
  injection E as E1 E2 E3 E4 E5 E6 E7 E8.
  split; rewrite ?E1, ?E2, ?E3, ?E4, ?E5, ?E6, ?E7, ?E8; assumption.
Qed.

Lemma arrays_by_partition type s :
  images s ++ videos s ≡ₚ items type s ++ items (other type) s.
Proof. destruct type; simpl; [reflexivity|apply Permutation_app_comm]. Qed.

Lemma Qc_of_Z_inj (a b : Z) : Qc_of_Z a = Qc_of_Z b → a = b.
Proof.
  intros H. apply (f_equal this) in H. simpl in H. injection H. auto.
Qed.

(** Two callbacks of the list belong to different records. *)
Lemma frames_apart s h1 h2 a1 a2 p1 p2 :
  inv s → frames s !! h1 = Some a1 → frames s !! h2 = Some a2 →
  heap s !! Step.placeholder a1 = Some p1 → heap s !! Step.placeholder a2 = Some p2 →
  Preview.id p1 = Preview.id p2 → h1 = h2.
Proof.
  intros HI H1 H2 P1 P2 E.
  destruct (iv_frames _ HI _ _ H1) as (_ & _ & q1 & Q1 & R1 & _).
  destruct (iv_frames _ HI _ _ H2) as (_ & _ & q2 & Q2 & R2 & _).
  assert (q1 = p1) as -> by congruence. assert (q2 = p2) as -> by congruence.
  rewrite E in R1. congruence.
Qed.

(** New arrays that hold references of the old ones. *)
Lemma inv_with_sublists s l1 l2 :
  inv s → l1 ++ l2 `sublist_of` images s ++ videos s →
  inv (with_videos l2 (with_images l1 s)).
Proof.
  intros [H1 H0 H2 H3 H4 H5 H6 H7] Hsub. split; simpl; try assumption.
  - intros r Hr. apply H3. eapply elem_of_sublist; eassumption.
  - eapply sublist_NoDup; eassumption.
Qed.

Lemma inv_with_items_sublist type l s :
  inv s → l `sublist_of` items type s → inv (with_items type l s).
Proof.
  intros HI Hl.
  assert (E : core (with_items type l s)
              = core (with_videos (match type with image => videos s | video => l end)
                        (with_images (match type with image => l | video => images s end)
                           s))).
  { destruct type; reflexivity. }
  apply (inv_core _ _ E). apply inv_with_sublists; [exact HI|].
  destruct type; simpl in *; apply sublist_app; (reflexivity || assumption).
Qed.


(** ** The steps keep the invariants *)

(** The placeholder that [handleFiles] makes for a file. *)
Definition placeholder_of (id : Z) (u : ObjectURL) (file : File.t) : Preview.t :=
  Preview.mk (Qc_of_Z id) (File.name file) (File.size file) (Some u) (Some u) true 0.

Lemma handleFile_fields type s file start :
  let s' := handleFile type s (file, start) in
  items type s' = items type s ++ [length (heap s)] ∧
  items (other type) s' = items (other type) s ∧
  heap s' = heap s ++ [placeholder_of (idCounter s + 1) (nextUrl s) file] ∧
  idCounter s' = idCounter s + 1 ∧
  rafHandles s' = <[Qc_of_Z (idCounter s + 1) := nextHandle s]> (rafHandles s) ∧
  frames s'
  = <[nextHandle s := Step.mk (length (heap s)) (durationOf (File.size file)) start type]>
      (frames s) ∧
  nextHandle s' = S (nextHandle s) ∧ nextUrl s' = S (nextUrl s) ∧
  log s' = log s ∧ localStorage s' = localStorage s.
Proof. destruct type; repeat split. Qed.

Lemma inv_handleFile type s dropped : inv s → inv (handleFile type s dropped).
Proof.
  intros HI. destruct dropped as [file start].
  pose proof HI as [H1 H0 H2 H3 H4 H5 H6 H7].
  destruct (handleFile_fields type s file start)
    as (I1 & I2 & Hh & Hc & Hr & Hf & Hn & Hu & _ & _).
  set (s' := handleFile type s (file, start)) in *.
  assert (Hitems : ∀ r, r ∈ items type s ++ items (other type) s → (r < length (heap s))%nat).
  { intros r Hr'. apply H3. rewrite (arrays_by_partition type). exact Hr'. }
  split.
  - rewrite Hn. lia.
  - rewrite Hc. lia.
  - rewrite Hu, Hh, length_app, H2. simpl. lia.
  - intros r. rewrite (arrays_by_partition type s'), I1, I2, Hh, length_app. simpl.
    rewrite !elem_of_app, list_elem_of_singleton. intros [[Hr' | ->] | Hr']; [| lia |];
      (assert (r < length (heap s))%nat; [apply Hitems, elem_of_app; auto | lia]).
  - rewrite (arrays_by_partition type s'), I1, I2.
    rewrite (arrays_by_partition type) in H4.
    apply NoDup_app in H4 as (N1 & N2 & N3).
    rewrite <- app_assoc. simpl. apply NoDup_app. split; [exact N1|]. split.
    + intros r Hr'. rewrite elem_of_cons. intros [-> | Hr''].
      * assert (length (heap s) < length (heap s))%nat; [|lia].
        apply Hitems, elem_of_app. auto.
      * exact (N2 r Hr' Hr'').
    + apply NoDup_cons. split; [|exact N3].
      intros Hin. assert (length (heap s) < length (heap s))%nat; [|lia].
      apply Hitems, elem_of_app. auto.
  - intros r p. rewrite Hh. intros Hp.
    destruct (decide (r < length (heap s))%nat) as [Hlt | Hge].
    + rewrite lookup_app_l in Hp by exact Hlt. apply H5, Hp.
    + rewrite lookup_app_r in Hp by lia.
      destruct (r - length (heap s))%nat as [|k] eqn:Ek; [|discriminate].
      injection Hp as <-. simpl. assert (r = length (heap s)) as -> by lia.
      rewrite H2. repeat split; lia.
  - intros id handle. rewrite Hr, Hn.
    destruct (decide (Qc_of_Z (idCounter s + 1) = id)) as [<- | Hne].
    + rewrite lookup_insert_eq. intros E. injection E as <-. lia.
    + rewrite lookup_insert_ne by exact Hne. intros E. apply H6 in E. lia.
  - intros handle a. rewrite Hf, Hn, Hh, Hr, Hc.
    destruct (decide (nextHandle s = handle)) as [<- | Hne].
    + rewrite lookup_insert_eq. intros E. injection E as <-. simpl.
      split; [lia|]. split.
      { destruct (durationOf_bounds (File.size file) (File_size_nonneg file)). lra. }
      eexists. rewrite lookup_app_r by lia. rewrite Nat.sub_diag. simpl.
      split; [reflexivity|]. rewrite lookup_insert_eq. split; [reflexivity|].
      split; [reflexivity|]. exists (idCounter s + 1). split; [reflexivity | lia].
    + rewrite lookup_insert_ne by exact Hne. intros E.
      destruct (H7 _ _ E) as (Hh' & Hd & p & Hp & Hr' & Hl & k & Hk & Hk').
      split; [lia|]. split; [exact Hd|]. exists p.
      rewrite lookup_app_l by (eapply lookup_lt_Some, Hp).
      split; [exact Hp|]. split.
      * rewrite lookup_insert_ne; [exact Hr'|].
        rewrite Hk. intros E'. apply Qc_of_Z_inj in E'. lia.
      * split; [exact Hl|]. exists k. split; [exact Hk | lia].
Qed.


Lemma selectFile_fields type s file id :
  let s' := selectFile type s (file, id) in
  items type s' = items type s ++ [length (heap s)] ∧
  items (other type) s' = items (other type) s ∧
  heap s'
  = heap s ++ [Preview.mk id (File.name file) (File.size file) (Some (nextUrl s))
                 (Some (nextUrl s)) false 0] ∧
  idCounter s' = idCounter s ∧ rafHandles s' = rafHandles s ∧ frames s' = frames s ∧
  nextHandle s' = nextHandle s ∧ nextUrl s' = S (nextUrl s) ∧
  log s' = log s ∧ localStorage s' = localStorage s.
Proof. destruct type; repeat split. Qed.

Lemma inv_selectFile type s selected : inv s → inv (selectFile type s selected).
Proof.
  intros HI. destruct selected as [file id].
  pose proof HI as [H1 H0 H2 H3 H4 H5 H6 H7].
  destruct (selectFile_fields type s file id)
    as (I1 & I2 & Hh & Hc & Hr & Hf & Hn & Hu & _ & _).
  set (s' := selectFile type s (file, id)) in *.
  assert (Hitems : ∀ r, r ∈ items type s ++ items (other type) s → (r < length (heap s))%nat).
  { intros r Hr'. apply H3. rewrite (arrays_by_partition type). exact Hr'. }
  split.
  - rewrite Hn. lia.
  - rewrite Hc. lia.
  - rewrite Hu, Hh, length_app, H2. simpl. lia.
  - intros r. rewrite (arrays_by_partition type s'), I1, I2, Hh, length_app. simpl.
    rewrite !elem_of_app, list_elem_of_singleton. intros [[Hr' | ->] | Hr']; [| lia |];
      (assert (r < length (heap s))%nat; [apply Hitems, elem_of_app; auto | lia]).
  - rewrite (arrays_by_partition type s'), I1, I2.
    rewrite (arrays_by_partition type) in H4.
    apply NoDup_app in H4 as (N1 & N2 & N3).
    rewrite <- app_assoc. simpl. apply NoDup_app. split; [exact N1|]. split.
    + intros r Hr'. rewrite elem_of_cons. intros [-> | Hr''].
      * assert (length (heap s) < length (heap s))%nat; [|lia].
        apply Hitems, elem_of_app. auto.
      * exact (N2 r Hr' Hr'').
    + apply NoDup_cons. split; [|exact N3].
      intros Hin. assert (length (heap s) < length (heap s))%nat; [|lia].
      apply Hitems, elem_of_app. auto.
  - intros r p. rewrite Hh. intros Hp.
    destruct (decide (r < length (heap s))%nat) as [Hlt | Hge].
    + rewrite lookup_app_l in Hp by exact Hlt. apply H5, Hp.
    + rewrite lookup_app_r in Hp by lia.
      destruct (r - length (heap s))%nat as [|k] eqn:Ek; [|discriminate].
      injection Hp as <-. simpl. assert (r = length (heap s)) as -> by lia.
      rewrite H2. repeat split; lia.
  - intros id' handle. rewrite Hr, Hn. apply H6.
  - intros handle a. rewrite Hf, Hn, Hh, Hr, Hc. intros E.
    destruct (H7 _ _ E) as (Hh' & Hd & p & Hp & Hr' & Hl & Hk).
    split; [exact Hh'|]. split; [exact Hd|]. exists p.
    rewrite lookup_app_l by (eapply lookup_lt_Some, Hp). auto.
Qed.

(** The frame of an id cancelled and forgotten, as [removePreview] and
    (when there is one) [onPreviewLoaded] do. *)
Definition forget (id : Qc) (s : State) : State :=
  let s1 := cancelIfAny id s in
  with_rafHandles (delete id (rafHandles s1)) s1.

Lemma forget_fields id s :
  inv s →
  images (forget id s) = images s ∧ videos (forget id s) = videos s ∧
  heap (forget id s) = heap s ∧ idCounter (forget id s) = idCounter s ∧
  nextHandle (forget id s) = nextHandle s ∧ nextUrl (forget id s) = nextUrl s ∧
  localStorage (forget id s) = localStorage s ∧
  rafHandles (forget id s) = delete id (rafHandles s) ∧
  match rafHandles s !! id with
  | Some raf => frames (forget id s) = delete raf (frames s) ∧
                log (forget id s) = log s ++ [Cancelled raf]
  | None => frames (forget id s) = frames s ∧ log (forget id s) = log s
  end.
Proof.
  intros HI. unfold forget, cancelIfAny.
  destruct (rafHandles s !! id) as [raf|] eqn:E; [|repeat split].
  pose proof (iv_raf _ HI _ _ E) as Hraf.
  destruct (Nat.eqb_spec raf 0); [lia|]. repeat split.
Qed.

(** After that no callback of the list belongs to a record of that id. *)
Lemma forget_frames id s handle a :
  inv s → frames (forget id s) !! handle = Some a →
  frames s !! handle = Some a ∧
  ∀ p, heap s !! Step.placeholder a = Some p → Preview.id p ≠ id.
Proof.
  intros HI Hf.
  destruct (forget_fields id s HI) as (_ & _ & _ & _ & _ & _ & _ & _ & Hfr).
  assert (Hold : frames s !! handle = Some a ∧
                 (∀ raf, rafHandles s !! id = Some raf → handle ≠ raf)).
  { destruct (rafHandles s !! id) as [raf|] eqn:E.
    - destruct Hfr as [Hfr _]. rewrite Hfr in Hf.
      apply lookup_delete_Some in Hf as [Hne Hf]. split; [exact Hf|].
      intros raf' E'. injection E' as <-. congruence.
    - destruct Hfr as [Hfr _]. rewrite Hfr in Hf. split; [exact Hf|]. intros raf' E'.
      discriminate. }
  destruct Hold as [Hold Hne]. split; [exact Hold|].
  intros p Hp Hid.
  destruct (iv_frames _ HI _ _ Hold) as (_ & _ & q & Hq & Hr & _).
  assert (q = p) as -> by congruence. rewrite Hid in Hr.
  apply (Hne _ Hr). reflexivity.
Qed.

Lemma inv_forget id s : inv s → inv (forget id s).
Proof.
  intros HI. pose proof HI as [H1 H0 H2 H3 H4 H5 H6 H7].
  destruct (forget_fields id s HI) as (E1 & E2 & E3 & E4 & E5 & E6 & _ & E8 & _).
  split; rewrite ?E1, ?E2, ?E3, ?E4, ?E5, ?E6, ?E8; try assumption.
  - intros id' handle Hl. apply lookup_delete_Some in Hl as [_ Hl]. eapply H6, Hl.
  - intros handle a Hf.
    destruct (forget_frames id s handle a HI Hf) as [Hold Hne].
    destruct (H7 _ _ Hold) as (Hh & Hd & p & Hp & Hr & Hl & Hk).
    split; [exact Hh|]. split; [exact Hd|]. exists p. split; [exact Hp|].
    split; [|auto]. rewrite lookup_delete_ne; [exact Hr|].
    intros E. apply (Hne p Hp). congruence.
Qed.

(** An object updated in a way that keeps its identity and that no
    callback of the list can see. *)
Lemma inv_update s (r : nat) p p' :
  inv s → heap s !! r = Some p →
  Preview.id p' = Preview.id p → Preview.objectUrl p' = Preview.objectUrl p →
  Preview.url p' = Preview.url p → 0 <= Preview.progress p' <= 100 →
  (Preview.loading p' = Preview.loading p ∨
   ∀ handle a, frames s !! handle = Some a → Step.placeholder a ≠ r) →
  inv (with_heap (<[r := p']> (heap s)) s).
Proof.
  intros [H1 H0 H2 H3 H4 H5 H6 H7] Hr Eid Eo Eu Hp Hl.
  pose proof (lookup_lt_Some _ _ _ Hr) as Hlt.
  split; simpl; rewrite ?length_insert; try assumption.
  - intros r' q Hq. destruct (decide (r' = r)) as [-> | Hne].
    + rewrite list_lookup_insert_eq in Hq by exact Hlt. injection Hq as <-.
      destruct (H5 r p Hr) as (A & B & _). rewrite Eo, Eu. auto.
    + rewrite list_lookup_insert_ne in Hq by congruence. apply H5, Hq.
  - intros handle a Hf.
    destruct (H7 _ _ Hf) as (Hh & Hd & q & Hq & Hraf & Hlq & Hk).
    split; [exact Hh|]. split; [exact Hd|].
    destruct (decide (Step.placeholder a = r)) as [E | Hne].
    + rewrite E in Hq. assert (q = p) as -> by congruence.
      destruct Hl as [Hl | Hl]; [|destruct (Hl _ _ Hf E)].
      exists p'. rewrite E, list_lookup_insert_eq by exact Hlt.
      rewrite Eid, Hl. auto.
    + exists q. rewrite list_lookup_insert_ne by congruence. auto.
Qed.


Lemma inv_frameFired s handle now a :
  inv s → frames s !! handle = Some a →
  inv (stepFrame a now (with_frames (delete handle (frames s)) s)).
Proof.
  intros HI Ha. pose proof HI as [H1 H0 H2 H3 H4 H5 H6 H7].
  destruct (H7 _ _ Ha) as (Hh & Hd & p & Hp & Hraf & Hl & k & Hk & Hk').
  pose proof (lookup_lt_Some _ _ _ Hp) as Hlt.
  assert (Hothers : ∀ handle' a', handle' ≠ handle → frames s !! handle' = Some a' →
            Step.placeholder a' ≠ Step.placeholder a ∧
            ∃ q, heap s !! Step.placeholder a' = Some q ∧ Preview.id q ≠ Preview.id p ∧
                 rafHandles s !! Preview.id q = Some handle' ∧ Preview.loading q = true ∧
                 (1 <= handle' < nextHandle s)%nat ∧ (0 < Step.duration a')%Q ∧
                 ∃ k, Preview.id q = Qc_of_Z k ∧ 1 <= k <= idCounter s).
  { intros handle' a' Hne Ha'.
    destruct (H7 _ _ Ha') as (Hh' & Hd' & q & Hq & Hraf' & Hl' & Hk'').
    assert (Hid : Preview.id q ≠ Preview.id p).
    { intros E. apply Hne. eapply (frames_apart s handle' handle); eauto. }
    split; [intros E; rewrite E in Hq; congruence|].
    exists q. auto 10. }
  unfold stepFrame. simpl. rewrite Hp.
  set (percent := percentAt (Step.start a) (Step.duration a) now).
  pose proof (percentAt_bounds (Step.start a) (Step.duration a) now) as Hpc. fold percent in Hpc.
  destruct (percent <? 100); simpl.
  - split; simpl; rewrite ?length_insert; try assumption.
    + lia.
    + intros r q Hq. destruct (decide (r = Step.placeholder a)) as [-> | Hne].
      * rewrite list_lookup_insert_eq in Hq by exact Hlt. injection Hq as <-. simpl.
        destruct (H5 _ _ Hp) as (A & B & _). auto.
      * rewrite list_lookup_insert_ne in Hq by congruence. apply H5, Hq.
    + intros id h'. destruct (decide (Preview.id p = id)) as [<- | Hne].
      * rewrite lookup_insert_eq. intros E. injection E as <-. lia.
      * rewrite lookup_insert_ne by exact Hne. intros E. apply H6 in E. lia.
    + intros h' a'. destruct (decide (nextHandle s = h')) as [<- | Hne].
      * rewrite lookup_insert_eq. intros E. injection E as <-.
        split; [lia|]. split; [exact Hd|].
        exists (Preview.with_progress percent p).
        rewrite list_lookup_insert_eq by exact Hlt. simpl.
        rewrite lookup_insert_eq. split; [reflexivity|]. split; [reflexivity|].
        split; [exact Hl|]. eauto.
      * rewrite lookup_insert_ne by exact Hne. intros E.
        apply lookup_delete_Some in E as [Hne' E].
        destruct (Hothers h' a') as (Hr & q & Hq & Hid & Hraf' & Hl' & Hh' & Hd' & Hk'');
          [congruence | exact E |].
        split; [lia|]. split; [exact Hd'|]. exists q.
        rewrite list_lookup_insert_ne by congruence.
        rewrite lookup_insert_ne by congruence. auto.
  - split; simpl; rewrite ?length_insert; try assumption.
    + intros r q Hq. destruct (decide (r = Step.placeholder a)) as [-> | Hne].
      * rewrite list_lookup_insert_eq in Hq by exact Hlt. injection Hq as <-. simpl.
        destruct (H5 _ _ Hp) as (A & B & _). auto.
      * rewrite list_lookup_insert_ne in Hq by congruence. apply H5, Hq.
    + intros id h' E. apply lookup_delete_Some in E as [_ E]. eapply H6, E.
    + intros h' a' E. apply lookup_delete_Some in E as [Hne' E].
      destruct (Hothers h' a') as (Hr & q & Hq & Hid & Hraf' & Hl' & Hh' & Hd' & Hk'');
        [congruence | exact E |].
      split; [exact Hh'|]. split; [exact Hd'|]. exists q.
      rewrite list_lookup_insert_ne by congruence.
      rewrite lookup_delete_ne by congruence. auto.
Qed.

Lemma has_id_lookup s id (r : nat) :
  has_id s id r ↔ ∃ p, heap s !! r = Some p ∧ Preview.id p = id.
Proof.
  unfold has_id. destruct (heap s !! r) as [p|]; simpl; split.
  - intros E. injection E as <-. eauto.
  - intros (q & E & <-). injection E as <-. reflexivity.
  - discriminate.
  - intros (q & E & _). discriminate.
Qed.

Lemma findById_Some id s (r : nat) :
  findById id s = Some r →
  r ∈ images s ++ videos s ∧ ∃ p, heap s !! r = Some p ∧ Preview.id p = id.
Proof.
  unfold findById.
  destruct (list_find (has_id s id) (images s)) as [[i r1]|] eqn:E1.
  - intros E. injection E as <-. apply list_find_Some in E1 as (Hi & Hid & _).
    split; [apply elem_of_app; left; eapply list_elem_of_lookup_2, Hi|].
    apply has_id_lookup, Hid.
  - destruct (list_find (has_id s id) (videos s)) as [[i r2]|] eqn:E2; [|discriminate].
    intros E. injection E as <-. apply list_find_Some in E2 as (Hi & Hid & _).
    split; [apply elem_of_app; right; eapply list_elem_of_lookup_2, Hi|].
    apply has_id_lookup, Hid.
Qed.

Lemma findById_None id s :
  findById id s = None → ∀ r, r ∈ images s ++ videos s → ¬ has_id s id r.
Proof.
  unfold findById.
  destruct (list_find (has_id s id) (images s)) as [[i r1]|] eqn:E1; [discriminate|].
  destruct (list_find (has_id s id) (videos s)) as [[i r2]|] eqn:E2; [discriminate|].
  intros _ r Hr. apply list_find_None in E1, E2. rewrite Forall_forall in E1, E2.
  apply elem_of_app in Hr as [Hr | Hr]; auto.
Qed.

(** [onPreviewLoaded] on a record that exists: the frame registered under
    the id is cancelled and forgotten, then the record is marked. *)
Lemma onPreviewLoaded_found id s (r : nat) :
  inv s → findById id s = Some r →
  ∃ item s1,
    heap s !! r = Some item ∧ Preview.id item = id ∧
    onPreviewLoaded id s = with_heap (<[r := Preview.loaded item]> (heap s)) s1 ∧
    inv s1 ∧ heap s1 = heap s ∧ images s1 = images s ∧ videos s1 = videos s ∧
    rafHandles s1 !! id = None ∧
    (∀ handle a, frames s1 !! handle = Some a →
       frames s !! handle = Some a ∧
       ∀ p, heap s !! Step.placeholder a = Some p → Preview.id p ≠ id).
Proof.
  intros HI Hf. destruct (findById_Some id s r Hf) as (_ & item & Hitem & Hid).
  unfold onPreviewLoaded. rewrite Hf.
  destruct (rafHandles s !! id) as [raf|] eqn:E.
  - pose proof (iv_raf _ HI _ _ E) as Hraf.
    assert (Es : with_rafHandles (delete id (rafHandles s)) (cancelAnimationFrame raf s)
                 = forget id s).
    { unfold forget, cancelIfAny. rewrite E. destruct (Nat.eqb_spec raf 0); [lia|reflexivity]. }
    destruct (Nat.eqb_spec raf 0); [lia|]. rewrite Es.
    destruct (forget_fields id s HI) as (E1 & E2 & E3 & _ & _ & _ & _ & E8 & _).
    rewrite E3, Hitem. exists item, (forget id s).
    split; [reflexivity|]. split; [exact Hid|]. split; [reflexivity|].
    split; [apply inv_forget, HI|]. split; [exact E3|]. split; [exact E1|].
    split; [exact E2|]. split; [rewrite E8; apply lookup_delete_eq|].
    intros handle a Ha. apply (forget_frames id s handle a HI Ha).
  - rewrite Hitem. exists item, s.
    split; [reflexivity|]. split; [exact Hid|]. split; [reflexivity|].
    split; [exact HI|]. split; [reflexivity|]. split; [reflexivity|].
    split; [reflexivity|]. split; [exact E|].
    intros handle a Ha. split; [exact Ha|]. intros p Hp Hid'.
    destruct (iv_frames _ HI _ _ Ha) as (_ & _ & q & Hq & Hr & _).
    assert (q = p) as -> by congruence. congruence.
Qed.

Lemma inv_onPreviewLoaded id s : inv s → inv (onPreviewLoaded id s).
Proof.
  intros HI. destruct (findById id s) as [r|] eqn:Hf.
  - destruct (onPreviewLoaded_found id s r HI Hf)
      as (item & s1 & Hitem & Hid & -> & HI1 & Hh & _ & _ & _ & Hfr).
    rewrite <- Hh. apply (inv_update s1 r item); try reflexivity.
    + exact HI1.
    + rewrite Hh. exact Hitem.
    + simpl. lia.
    + right. intros handle a Ha E. destruct (Hfr _ _ Ha) as [_ Hne].
      apply (Hne item); [rewrite E; exact Hitem | exact Hid].
  - unfold onPreviewLoaded. rewrite Hf. exact HI.
Qed.

Lemma core_fields s s' :
  core s' = core s →
  images s' = images s ∧ videos s' = videos s ∧ heap s' = heap s ∧
  idCounter s' = idCounter s ∧ rafHandles s' = rafHandles s ∧ frames s' = frames s ∧
  nextHandle s' = nextHandle s ∧ nextUrl s' = nextUrl s.
Proof. unfold core. intros E. injection E. intros. repeat split; assumption. Qed.

Lemma removeFrom_found type id s s' :
  inv s → removeFrom type id s = Some s' →
  ∃ idx (r : nat) it,
    list_find (has_id s id) (items type s) = Some (idx, r) ∧
    items type s !! idx = Some r ∧ heap s !! r = Some it ∧ Preview.id it = id ∧
    (∀ j (r' : nat), items type s !! j = Some r' → (j < idx)%nat → ¬ has_id s id r') ∧
    items type s' = delete idx (items type s) ∧
    items (other type) s' = items (other type) s ∧
    heap s' = heap s ∧ idCounter s' = idCounter s ∧
    nextHandle s' = nextHandle s ∧ nextUrl s' = nextUrl s ∧
    rafHandles s' = delete id (rafHandles s) ∧
    (∀ handle a, frames s' !! handle = Some a →
       frames s !! handle = Some a ∧
       ∀ p, heap s !! Step.placeholder a = Some p → Preview.id p ≠ id) ∧
    Revoked r ∈ log s'.
Proof.
  intros HI. unfold removeFrom.
  destruct (list_find (has_id s id) (items type s)) as [[idx r]|] eqn:E; [|discriminate].
  intros Hs. injection Hs as <-.
  apply list_find_Some in E as (Hidx & Hid & Hfirst).
  apply has_id_lookup in Hid as (it & Hit & Hid).
  exists idx, r, it.
  set (s1 := with_items type (delete idx (items type s)) s).
  assert (C1 : core s1 = core (with_items type (delete idx (items type s)) s)) by reflexivity.
  assert (HI1 : inv s1).
  { apply inv_with_items_sublist; [exact HI | apply sublist_delete]. }
  assert (Hh1 : heap s1 = heap s) by (unfold s1; destruct type; reflexivity).
  rewrite Hh1, Hit.
  set (s2 := revoke it s1).
  assert (C2 : core s2 = core s1) by apply core_revoke.
  assert (HI2 : inv s2) by (apply (inv_core _ _ C2), HI1).
  assert (Hlog2 : Revoked r ∈ log s2).
  { unfold s2, revoke. destruct (iv_obj _ HI r it Hit) as (-> & _). simpl.
    apply elem_of_app. right. constructor. }
  fold (forget id s2).
  destruct (forget_fields id s2 HI2) as (F1 & F2 & F3 & F4 & F5 & F6 & _ & F8 & F9).
  assert (Cs : ∀ s0, core (clearFileInput type s0) = core s0) by (intros; apply core_clearFileInput).
  destruct (core_fields _ _ (Cs (forget id s2))) as (G1 & G2 & G3 & G4 & G5 & G6 & G7 & G8).
  destruct (core_fields _ _ C2) as (K1 & K2 & K3 & K4 & K5 & K6 & K7 & K8).
  assert (Hitems : ∀ t, items t (clearFileInput type (forget id s2)) = items t s1).
  { intros []; unfold items; congruence. }
  split; [reflexivity|].
  split; [exact Hidx|]. split; [reflexivity|]. split; [exact Hid|].
  split; [exact Hfirst|].
  split; [rewrite Hitems; unfold s1; destruct type; reflexivity|].
  split; [rewrite Hitems; unfold s1; destruct type; reflexivity|].
  split; [congruence|].
  split; [rewrite G4, F4, K4; unfold s1; destruct type; reflexivity|].
  split; [rewrite G7, F5, K7; unfold s1; destruct type; reflexivity|].
  split; [rewrite G8, F6, K8; unfold s1; destruct type; reflexivity|].
  split; [rewrite G5, F8, K5; unfold s1; destruct type; reflexivity|].
  split.
  - intros handle a H. rewrite G6 in H.
    destruct (forget_frames id s2 handle a HI2 H) as [Hf Hne].
    rewrite K6 in Hf. split; [unfold s1 in Hf; destruct type; exact Hf|].
    intros p Hp. apply Hne. rewrite K3, Hh1. exact Hp.
  - assert (Hl : ∃ l, log (forget id s2) = log s2 ++ l).
    { destruct (rafHandles s2 !! id); destruct F9 as [_ ->]; eauto.
      exists []. rewrite app_nil_r. reflexivity. }
    destruct Hl as [l Hl]. unfold clearFileInput.
    destruct (viewChild (forget id s2) type).
    + change (Revoked r ∈ log (forget id s2) ++ [InputCleared type]).
      rewrite Hl, !elem_of_app. auto.
    + rewrite Hl, elem_of_app. auto.
Qed.

Lemma inv_removeFrom type id s s' : inv s → removeFrom type id s = Some s' → inv s'.
Proof.
  intros HI. unfold removeFrom.
  destruct (list_find (has_id s id) (items type s)) as [[idx r]|] eqn:E; [|discriminate].
  intros Hs. injection Hs as <-.
  apply (inv_core _ _ (core_clearFileInput _ _)).
  apply inv_forget.
  set (s1 := with_items type (delete idx (items type s)) s).
  assert (HI1 : inv s1).
  { apply inv_with_items_sublist; [exact HI | apply sublist_delete]. }
  destruct (heap s1 !! r); [|exact HI1].
  apply (inv_core _ _ (core_revoke _ _)), HI1.
Qed.

Lemma inv_removePreview id s : inv s → inv (removePreview id s).
Proof.
  intros HI. unfold removePreview.
  destruct (removeFrom image id s) as [s'|] eqn:E1; [eapply inv_removeFrom; eassumption|].
  destruct (removeFrom video id s) as [s'|] eqn:E2; [eapply inv_removeFrom; eassumption|].
  exact HI.
Qed.

Lemma inv_emptied type s0 s :
  inv s → core s0 = core s → inv (clearFileInput type (with_items type [] s0)).
Proof.
  intros HI C. apply (inv_core _ _ (core_clearFileInput _ _)).
  apply inv_with_items_sublist; [apply (inv_core _ _ C), HI | apply sublist_nil_l].
Qed.

Lemma inv_removeAll type s : inv s → inv (removeAll type s).
Proof. intros HI. unfold removeAll. apply (inv_emptied type _ s HI), core_revoke_all. Qed.

Lemma inv_uploadAll type s : inv s → inv (uploadAll type s).
Proof.
  intros HI. unfold uploadAll. case_bool_decide; [exact HI|].
  apply (inv_core _ _ (core_emit _ _)).
  apply (inv_emptied type _ s HI). rewrite core_revoke_all. reflexivity.
Qed.

Lemma inv_handleFiles files type s : inv s → inv (handleFiles files type s).
Proof.
  unfold handleFiles. revert s. induction files as [|f fs IH]; intros s HI; simpl; [exact HI|].
  apply IH, inv_handleFile, HI.
Qed.

Lemma inv_selectFiles files type s : inv s → inv (fold_left (selectFile type) files s).
Proof.
  revert s. induction files as [|f fs IH]; intros s HI; simpl; [exact HI|].
  apply IH, inv_selectFile, HI.
Qed.

Lemma inv_step s e : inv s → inv (step s e).
Proof.
  intros HI. destruct e as [type|files type|files type|handle now|id|id|type|type]; simpl.
  - apply (inv_core s _); [reflexivity | exact HI].
  - unfold onFileDropped.
    assert (HI1 : inv (onDragLeave type s)) by (apply (inv_core s _); [reflexivity | exact HI]).
    destruct files; [apply inv_handleFiles, HI1 | exact HI1].
  - unfold onFileSelected. destruct files as [[|f fs]|]; try exact HI.
    apply (inv_core _ _ (core_emit _ _)), (inv_selectFiles (f :: fs)), HI.
  - destruct (frames s !! handle) as [a|] eqn:Ha; [|exact HI].
    apply inv_frameFired; assumption.
  - apply inv_onPreviewLoaded, HI.
  - apply inv_removePreview, HI.
  - apply inv_uploadAll, HI.
  - apply inv_removeAll, HI.
Qed.

Lemma inv_run evs s : inv s → inv (run evs s).
Proof.
  unfold run. revert s. induction evs as [|e evs IH]; intros s HI; simpl; [exact HI|].
  apply IH, inv_step, HI.
Qed.

Lemma inv_initial viewChildren stored : inv (initial viewChildren stored).
Proof.
  split; simpl; try lia; try (intros; discriminate).
  - intros r Hr. inversion Hr.
  - constructor.
Qed.

Lemma inv_reachable viewChildren stored evs : inv (run evs (initial viewChildren stored)).
Proof. apply inv_run, inv_initial. Qed.


(** ** How a step changes one record *)

Lemma handleFiles_objects files type s :
  ∃ ps, heap (handleFiles files type s) = heap s ++ ps ∧ length ps = length files ∧
        Forall (λ p, Preview.loading p = true ∧ Preview.progress p = 0) ps.
Proof.
  unfold handleFiles. revert s. induction files as [|[file start] fs IH]; intros s; simpl.
  - exists []. rewrite app_nil_r. auto.
  - destruct (IH (handleFile type s (file, start))) as (ps & Hh & Hl & Hp).
    destruct (handleFile_fields type s file start) as (_ & _ & E & _).
    rewrite E, <- app_assoc in Hh. eexists. split; [exact Hh|]. simpl.
    split; [rewrite Hl; reflexivity|]. constructor; [split; reflexivity | exact Hp].
Qed.

Lemma selectFiles_heap files type s :
  ∃ ps, heap (fold_left (selectFile type) files s) = heap s ++ ps.
Proof.
  revert s. induction files as [|[file id] fs IH]; intros s; simpl.
  - exists []. rewrite app_nil_r. reflexivity.
  - destruct (IH (selectFile type s (file, id))) as (ps & Hh).
    destruct (selectFile_fields type s file id) as (_ & _ & E & _).
    rewrite E, <- app_assoc in Hh. eauto.
Qed.

Lemma removePreview_objects id s : heap (removePreview id s) = heap s.
Proof.
  assert (H : ∀ type s', removeFrom type id s = Some s' → heap s' = heap s).
  { intros type s'. unfold removeFrom.
    destruct (list_find (has_id s id) (items type s)) as [[idx r]|]; [|discriminate].
    intros E. injection E as <-.
    set (s1 := with_items type (delete idx (items type s)) s).
    assert (E1 : heap s1 = heap s) by (destruct type; reflexivity).
    set (s2 := match heap s1 !! r with Some it => revoke it s1 | None => s1 end).
    assert (E2 : heap s2 = heap s).
    { unfold s2. destruct (heap s1 !! r); [|exact E1].
      unfold revoke. destruct (Preview.objectUrl _); exact E1. }
    assert (E3 : heap (cancelIfAny id s2) = heap s).
    { unfold cancelIfAny. destruct (rafHandles s2 !! id) as [raf|]; [|exact E2].
      destruct (raf =? 0)%nat; exact E2. }
    unfold clearFileInput. simpl. destruct (viewChild _ type); exact E3. }
  unfold removePreview.
  destruct (removeFrom image id s) as [s'|] eqn:E1; [apply (H image), E1|].
  destruct (removeFrom video id s) as [s'|] eqn:E2; [apply (H video), E2|]. reflexivity.
Qed.

Lemma removeAll_objects type s : heap (removeAll type s) = heap s.
Proof.
  unfold removeAll.
  destruct (core_fields _ _ (core_clearFileInput type
              (with_items type [] (fold_left (λ s it, revoke it s) (records type s) s))))
    as (_ & _ & -> & _).
  destruct (core_fields _ _ (core_revoke_all (records type s) s)) as (_ & _ & <- & _).
  destruct type; reflexivity.
Qed.

Lemma uploadAll_objects type s : heap (uploadAll type s) = heap s.
Proof.
  unfold uploadAll. case_bool_decide; [reflexivity|].
  set (s1 := emit (ManifestWritten (storageKey type)) _).
  change (heap (clearFileInput type
            (with_items type [] (fold_left (λ s it, revoke it s) (records type s1) s1)))
          = heap s1).
  destruct (core_fields _ _ (core_clearFileInput type
              (with_items type [] (fold_left (λ s it, revoke it s) (records type s1) s1))))
    as (_ & _ & -> & _).
  destruct (core_fields _ _ (core_revoke_all (records type s1) s1)) as (_ & _ & <- & _).
  destruct type; reflexivity.
Qed.

(** What a step can do to a record: nothing, a new percentage from its
    frame while it is loading, or the mark of [onPreviewLoaded]. *)
Inductive changes (s : State) (r : nat) (p : Preview.t) : Event → Preview.t → Prop :=
  | changes_frame handle now a :
      frames s !! handle = Some a → Step.placeholder a = r →
      Preview.loading p = true →
      changes s r p (FrameFired handle now)
        (Preview.with_progress (percentAt (Step.start a) (Step.duration a) now) p)
  | changes_loaded :
      changes s r p (PreviewLoaded (Preview.id p)) (Preview.loaded p).

Lemma step_object s e (r : nat) p :
  inv s → heap s !! r = Some p →
  ∃ p', heap (step s e) !! r = Some p' ∧ (p' = p ∨ changes s r p e p').
Proof.
  intros HI Hr. pose proof (lookup_lt_Some _ _ _ Hr) as Hlt.
  destruct e as [type|files type|files type|handle now|id|id|type|type]; simpl.
  - eauto.
  - unfold onFileDropped. destruct files as [fs|]; [|eauto].
    destruct (handleFiles_objects fs type (onDragLeave type s)) as (ps & -> & _).
    exists p. simpl. rewrite lookup_app_l by exact Hlt. auto.
  - unfold onFileSelected. destruct files as [[|f fs]|]; eauto.
    destruct (selectFiles_heap (f :: fs) type s) as (ps & Hh).
    exists p. change (heap (emit TargetCleared ?x)) with (heap x).
    rewrite Hh, lookup_app_l by exact Hlt. auto.
  - destruct (frames s !! handle) as [a|] eqn:Ha; [|eauto].
    destruct (iv_frames _ HI _ _ Ha) as (_ & _ & q & Hq & _ & Hl & _).
    unfold stepFrame. simpl. rewrite Hq.
    assert (Hh : ∀ s', heap s' = <[Step.placeholder a :=
                  Preview.with_progress (percentAt (Step.start a) (Step.duration a) now) q]>
                  (heap s) →
              ∃ p', heap s' !! r = Some p' ∧
                    (p' = p ∨ changes s r p (FrameFired handle now) p')).
    { intros s' ->. destruct (decide (Step.placeholder a = r)) as [E | Hne].
      - rewrite E in Hq. assert (q = p) as -> by congruence.
        rewrite E, list_lookup_insert_eq by exact Hlt.
        eexists. split; [reflexivity|]. right. econstructor; eassumption.
      - rewrite list_lookup_insert_ne by exact Hne. eauto. }
    destruct (_ <? 100); apply Hh; reflexivity.
  - destruct (findById id s) as [r0|] eqn:Hf.
    + destruct (onPreviewLoaded_found id s r0 HI Hf)
        as (item & s1 & Hitem & Hid & -> & _).
      simpl. destruct (decide (r0 = r)) as [-> | Hne].
      * assert (item = p) as -> by congruence.
        rewrite list_lookup_insert_eq by exact Hlt.
        eexists. split; [reflexivity|]. right. rewrite <- Hid. constructor.
      * rewrite list_lookup_insert_ne by exact Hne. eauto.
    + unfold onPreviewLoaded. rewrite Hf. eauto.
  - rewrite removePreview_objects. eauto.
  - rewrite uploadAll_objects. eauto.
  - rewrite removeAll_objects. eauto.
Qed.

(** X14. A record that is loading, or that shows 100, keeps this for ever:
    whatever happens later it has the same id and a progress between 0 and
    100, it shows 100 whenever it is not loading, and once it is not loading
    it never changes again. *)
Theorem a_loaded_record_stays_at_100 viewChildren stored evs0 evs (r : nat) p p' :
  let s := run evs0 (initial viewChildren stored) in
  heap s !! r = Some p →
  (Preview.loading p = false → Preview.progress p = 100) →
  heap (run evs s) !! r = Some p' →
  Preview.id p' = Preview.id p ∧
  0 <= Preview.progress p' <= 100 ∧
  (Preview.loading p' = false → Preview.progress p' = 100) ∧
  (Preview.loading p = false → p' = p).
Proof.
  intros s Hr HG Hr'.
  pose proof (inv_reachable viewChildren stored evs0) as HI. fold s in HI.
  assert (Hbounds : 0 <= Preview.progress p' <= 100).
  { apply (iv_obj _ (inv_run evs s HI) r p' Hr'). }
  clearbody s. revert s p HI Hr HG Hr'. unfold run.
  induction evs as [|e evs IH]; intros s p HI Hr HG Hr'; simpl in Hr'.
  - assert (p' = p) as -> by congruence. auto.
  - destruct (step_object s e r p HI Hr) as (p1 & H1 & Hc).
    assert (Hstep : Preview.id p1 = Preview.id p ∧
                    (Preview.loading p1 = false → Preview.progress p1 = 100) ∧
                    (Preview.loading p = false → p1 = p)).
    { destruct Hc as [-> | [handle now a Ha Hpl Hl | ]]; auto.
      - simpl. rewrite Hl. repeat split; congruence.
      - simpl. repeat split; try reflexivity. intros Hl.
        destruct p; simpl in *. rewrite Hl, (HG Hl). reflexivity. }
    destruct Hstep as (S1 & S2 & S3).
    destruct (IH (step s e) p1 (inv_step s e HI) H1 S2 Hr') as (I1 & I2 & I3 & I4).
    split; [congruence|]. split; [exact I2|]. split; [exact I3|].
    intros Hl. rewrite <- (S3 Hl). apply I4. rewrite (S3 Hl). exact Hl.
Qed.

Lemma a_loaded_record_stays_at_100_witness :
  let file := File.mk "a.png" [Byte.x61; Byte.x62; Byte.x63] in
  let s := run [FileDropped (Some [(file, 1000%Q)]) image] (initial (λ _, true) ∅) in
  let p := placeholder_of 1 0%nat file in
  let p' := Preview.loaded p in
  Preview.id p' = Preview.id p ∧
  0 <= Preview.progress p' <= 100 ∧
  (Preview.loading p' = false → Preview.progress p' = 100) ∧
  (Preview.loading p = false → p' = p).
Proof.
  intros file s p p'.
  apply (a_loaded_record_stays_at_100 (λ _, true) ∅
           [FileDropped (Some [(file, 1000%Q)]) image]
           [FrameFired 1 1010; PreviewLoaded (Qc_of_Z 1)] 0 p p').
  - vm_compute. reflexivity.
  - vm_compute. discriminate.
  - vm_compute. reflexivity.
Defined.

(** ** The progress over time *)

Lemma frameFired_fields s handle now a p :
  frames s !! handle = Some a → heap s !! Step.placeholder a = Some p →
  let s' := step s (FrameFired handle now) in
  let percent := percentAt (Step.start a) (Step.duration a) now in
  heap s' = <[Step.placeholder a := Preview.with_progress percent p]> (heap s) ∧
  frames s'
  = (if percent <? 100 then <[nextHandle s := a]> (delete handle (frames s))
     else delete handle (frames s)) ∧
  rafHandles s'
  = (if percent <? 100 then <[Preview.id p := nextHandle s]> (rafHandles s)
     else delete (Preview.id p) (rafHandles s)) ∧
  images s' = images s ∧ videos s' = videos s ∧ log s' = log s ∧
  localStorage s' = localStorage s.
Proof.
  intros Ha Hp. simpl. rewrite Ha. unfold stepFrame. simpl. rewrite Hp.
  destruct (_ <? 100); repeat split.
Qed.

Lemma handleFiles_frames files type s handle a :
  frames (handleFiles files type s) !! handle = Some a →
  frames s !! handle = Some a ∨ (length (heap s) <= Step.placeholder a)%nat.
Proof.
  unfold handleFiles. revert s. induction files as [|[file start] fs IH]; intros s.
  - simpl. auto.
  - change (fold_left (handleFile type) ((file, start) :: fs) s)
      with (fold_left (handleFile type) fs (handleFile type s (file, start))).
    intros H. destruct (handleFile_fields type s file start) as (_ & _ & Hh & _ & _ & Hf & _).
    destruct (IH _ H) as [H1 | H1].
    + rewrite Hf in H1. destruct (decide (nextHandle s = handle)) as [<- | Hne].
      * rewrite lookup_insert_eq in H1. injection H1 as <-. simpl. auto.
      * rewrite lookup_insert_ne in H1 by exact Hne. auto.
    + rewrite Hh, length_app in H1. right. lia.
Qed.

Lemma selectFiles_frames files type s :
  frames (fold_left (selectFile type) files s) = frames s.
Proof.
  revert s. induction files as [|[file id] fs IH]; intros s; simpl; [reflexivity|].
  rewrite IH. apply (selectFile_fields type s file id).
Qed.

Lemma removePreview_frames id s handle a :
  inv s → frames (removePreview id s) !! handle = Some a → frames s !! handle = Some a.
Proof.
  intros HI. unfold removePreview.
  destruct (removeFrom image id s) as [s'|] eqn:E1.
  { intros H. destruct (removeFrom_found image id s s' HI E1)
      as (_ & _ & _ & _ & _ & _ & _ & _ & _ & _ & _ & _ & _ & _ & _ & Hf & _).
    apply (Hf _ _ H). }
  destruct (removeFrom video id s) as [s'|] eqn:E2; [|auto].
  intros H. destruct (removeFrom_found video id s s' HI E2)
    as (_ & _ & _ & _ & _ & _ & _ & _ & _ & _ & _ & _ & _ & _ & _ & Hf & _).
  apply (Hf _ _ H).
Qed.

Lemma frames_removeAll type s : frames (removeAll type s) = frames s.
Proof.
  unfold removeAll.
  destruct (core_fields _ _ (core_clearFileInput type
              (with_items type [] (fold_left (λ s it, revoke it s) (records type s) s))))
    as (_ & _ & _ & _ & _ & -> & _).
  destruct (core_fields _ _ (core_revoke_all (records type s) s))
    as (_ & _ & _ & _ & _ & <- & _).
  destruct type; reflexivity.
Qed.

Lemma frames_uploadAll type s : frames (uploadAll type s) = frames s.
Proof.
  unfold uploadAll. case_bool_decide; [reflexivity|].
  set (s1 := emit (ManifestWritten (storageKey type)) _).
  change (frames (clearFileInput type
            (with_items type [] (fold_left (λ s it, revoke it s) (records type s1) s1)))
          = frames s1).
  destruct (core_fields _ _ (core_clearFileInput type
              (with_items type [] (fold_left (λ s it, revoke it s) (records type s1) s1))))
    as (_ & _ & _ & _ & _ & -> & _).
  destruct (core_fields _ _ (core_revoke_all (records type s1) s1))
    as (_ & _ & _ & _ & _ & <- & _).
  destruct type; reflexivity.
Qed.

(** The time stamps of the frames of a run never go back, from [t] on. *)
Fixpoint timely (t : Q) (evs : list Event) : Prop :=
  match evs with
  | [] => True
  | FrameFired _ now :: evs' => (t <= now)%Q ∧ timely now evs'
  | _ :: evs' => timely t evs'
  end.

Definition time_after (t : Q) (e : Event) : Q :=
  match e with FrameFired _ now => now | _ => t end.

(** What every callback of the list will show is at least what its record
    shows now, at every time stamp from [t] on. *)
Definition ahead (t : Q) (s : State) : Prop :=
  ∀ handle a p, frames s !! handle = Some a → heap s !! Step.placeholder a = Some p →
    ∀ now, (t <= now)%Q →
      Preview.progress p <= percentAt (Step.start a) (Step.duration a) now.

Lemma ahead_step t s e :
  inv s → ahead t s → timely t [e] → ahead (time_after t e) (step s e).
Proof.
  intros HI HA Ht.
  assert (Hkeep : ∀ handle a p,
            frames (step s e) !! handle = Some a →
            heap (step s e) !! Step.placeholder a = Some p →
            frames s !! handle = Some a → heap s !! Step.placeholder a = Some p →
            ∀ now, (time_after t e <= now)%Q →
              Preview.progress p <= percentAt (Step.start a) (Step.duration a) now).
  { intros handle a p _ _ Ha Hp now Hnow. apply (HA handle a p Ha Hp).
    destruct e; simpl in *; try exact Hnow. destruct Ht as [Ht _].
    eapply Qle_trans; eassumption. }
  intros handle a p Ha' Hp' now Hnow.
  destruct e as [type|files type|files type|h now0|id|id|type|type].
  - apply (Hkeep handle a p Ha' Hp'); assumption.
  - simpl in Ha', Hp'. unfold onFileDropped in *.
    destruct files as [fs|]; [|apply (Hkeep handle a p Ha' Hp'); assumption].
    destruct (handleFiles_objects fs type (onDragLeave type s)) as (ps & Hh & _ & Hps).
    rewrite Hh in Hp'. simpl in Hp'.
    destruct (handleFiles_frames fs type _ handle a Ha') as [Hold | Hnew].
    + simpl in Hold. destruct (iv_frames _ HI _ _ Hold) as (_ & _ & q & Hq & _).
      rewrite lookup_app_l in Hp' by (eapply lookup_lt_Some, Hq).
      apply (HA handle a p Hold Hp'). exact Hnow.
    + simpl in Hnew. rewrite lookup_app_r in Hp' by exact Hnew.
      rewrite Forall_forall in Hps.
      destruct (Hps p) as [_ ->]; [eapply list_elem_of_lookup_2, Hp'|].
      apply percentAt_bounds.
  - simpl in Ha', Hp'. unfold onFileSelected in *.
    destruct files as [[|f fs]|]; try (apply (Hkeep handle a p Ha' Hp'); assumption).
    change (frames (emit TargetCleared ?x)) with (frames x) in Ha'.
    change (heap (emit TargetCleared ?x)) with (heap x) in Hp'.
    rewrite selectFiles_frames in Ha'.
    destruct (selectFiles_heap (f :: fs) type s) as (ps & Hh). rewrite Hh in Hp'.
    destruct (iv_frames _ HI _ _ Ha') as (_ & _ & q & Hq & _).
    rewrite lookup_app_l in Hp' by (eapply lookup_lt_Some, Hq).
    apply (HA handle a p Ha' Hp'). exact Hnow.
  - destruct (frames s !! h) as [a0|] eqn:Ha0.
    2:{ simpl in Ha', Hp'. rewrite Ha0 in Ha', Hp'.
        apply (HA handle a p Ha' Hp'). destruct Ht as [Ht _]. simpl in Hnow.
        eapply Qle_trans; eassumption. }
    destruct (iv_frames _ HI _ _ Ha0) as (_ & Hd & p0 & Hp0 & _).
    destruct (frameFired_fields s h now0 a0 p0 Ha0 Hp0) as (Hh & Hf & _).
    rewrite Hh in Hp'. rewrite Hf in Ha'. simpl in Hnow. destruct Ht as [Ht _].
    pose proof (lookup_lt_Some _ _ _ Hp0) as Hlt.
    assert (Hsame : Step.placeholder a = Step.placeholder a0 →
              frames s !! handle = Some a → handle ≠ h → False).
    { intros E Ha Hne. apply Hne.
      destruct (iv_frames _ HI _ _ Ha) as (_ & _ & q & Hq & _).
      eapply (frames_apart s handle h a a0 q p0 HI Ha Ha0 Hq Hp0).
      rewrite E in Hq. congruence. }
    assert (Hold : frames s !! handle = Some a → handle ≠ h →
              Preview.progress p <= percentAt (Step.start a) (Step.duration a) now).
    { intros Ha Hne.
      rewrite list_lookup_insert_ne in Hp'
        by (intros E; apply (Hsame (eq_sym E) Ha Hne)).
      apply (HA handle a p Ha Hp'). eapply Qle_trans; eassumption. }
    destruct (percentAt (Step.start a0) (Step.duration a0) now0 <? 100).
    + destruct (decide (nextHandle s = handle)) as [<- | Hne].
      * rewrite lookup_insert_eq in Ha'. injection Ha' as <-.
        rewrite list_lookup_insert_eq in Hp' by exact Hlt. injection Hp' as <-. simpl.
        apply percentAt_mono; assumption.
      * rewrite lookup_insert_ne in Ha' by exact Hne.
        apply lookup_delete_Some in Ha' as [Hne' Ha']. apply Hold; [exact Ha' | congruence].
    + apply lookup_delete_Some in Ha' as [Hne' Ha']. apply Hold; [exact Ha' | congruence].
  - simpl in Ha', Hp'. destruct (findById id s) as [r0|] eqn:Hf.
    + destruct (onPreviewLoaded_found id s r0 HI Hf)
        as (item & s1 & Hitem & Hid & E & _ & _ & _ & _ & _ & Hfr).
      rewrite E in Ha', Hp'. simpl in Ha', Hp'.
      destruct (Hfr _ _ Ha') as [Ha Hne].
      assert (Hr : Step.placeholder a ≠ r0).
      { intros Er. apply (Hne item); [rewrite Er; exact Hitem | exact Hid]. }
      rewrite list_lookup_insert_ne in Hp' by congruence.
      apply (HA handle a p Ha Hp'). exact Hnow.
    + unfold onPreviewLoaded in Ha', Hp'. rewrite Hf in Ha', Hp'.
      apply (HA handle a p Ha' Hp'). exact Hnow.
  - simpl in Ha', Hp'. rewrite removePreview_objects in Hp'.
    apply (HA handle a p (removePreview_frames id s handle a HI Ha') Hp'). exact Hnow.
  - simpl in Ha', Hp'. rewrite uploadAll_objects in Hp'. rewrite frames_uploadAll in Ha'.
    apply (HA handle a p Ha' Hp'). exact Hnow.
  - simpl in Ha', Hp'. rewrite removeAll_objects in Hp'. rewrite frames_removeAll in Ha'.
    apply (HA handle a p Ha' Hp'). exact Hnow.
Qed.

Lemma progress_step t s e (r : nat) p p' :
  inv s → ahead t s → timely t [e] →
  heap s !! r = Some p → heap (step s e) !! r = Some p' →
  Preview.progress p <= Preview.progress p'.
Proof.
  intros HI HA Ht Hr Hr'.
  destruct (step_object s e r p HI Hr) as (p1 & H1 & Hc).
  assert (p1 = p') as -> by congruence.
  destruct Hc as [-> | Hc]; [lia|].
  inversion Hc as [handle now a Ha Hpl Hl He Hp | He Hp]; subst; simpl.
  - apply (HA handle a p Ha); [exact Hr|]. apply Ht.
  - apply (iv_obj _ HI r p Hr).
Qed.

Lemma timely_cons t e evs : timely t (e :: evs) → timely t [e] ∧ timely (time_after t e) evs.
Proof. destruct e; simpl; tauto. Qed.

Lemma progress_along t evs s (r : nat) p p' :
  inv s → ahead t s → timely t evs →
  heap s !! r = Some p → heap (run evs s) !! r = Some p' →
  Preview.progress p <= Preview.progress p'.
Proof.
  unfold run. revert t s p. induction evs as [|e evs IH]; intros t s p HI HA Ht Hr Hr'.
  - simpl in Hr'. assert (p' = p) as -> by congruence. lia.
  - simpl in Hr'. apply timely_cons in Ht as [Ht1 Ht2].
    destruct (step_object s e r p HI Hr) as (p1 & H1 & _).
    transitivity (Preview.progress p1).
    + apply (progress_step t s e r p p1); assumption.
    + apply (IH (time_after t e) (step s e) p1); try assumption.
      * apply inv_step, HI.
      * apply ahead_step; assumption.
Qed.

Lemma ahead_run t evs s :
  inv s → ahead t s → timely t evs →
  ∃ t', ahead t' (run evs s) ∧ ∀ evs', timely t (evs ++ evs') → timely t' evs'.
Proof.
  unfold run. revert t s. induction evs as [|e evs IH]; intros t s HI HA Ht.
  - exists t. auto.
  - apply timely_cons in Ht as [Ht1 Ht2].
    destruct (IH (time_after t e) (step s e)) as (t' & HA' & Hrest); try assumption.
    + apply inv_step, HI.
    + apply ahead_step; assumption.
    + exists t'. split; [exact HA'|]. intros evs' H.
      apply Hrest. change ((e :: evs) ++ evs') with (e :: (evs ++ evs')) in H.
      apply timely_cons in H. tauto.
Qed.

(** X15. When the time stamps of the frames never go back, the progress of
    a record never decreases, and stays between 0 and 100. *)
Theorem animated_progress_never_decreases viewChildren stored t evs0 evs (r : nat) p p' :
  let s := run evs0 (initial viewChildren stored) in
  timely t (evs0 ++ evs) →
  heap s !! r = Some p → heap (run evs s) !! r = Some p' →
  0 <= Preview.progress p <= Preview.progress p' ∧ Preview.progress p' <= 100.
Proof.
  intros s Ht Hr Hr'.
  pose proof (inv_reachable viewChildren stored evs0) as HI. fold s in HI.
  assert (Ht0 : timely t evs0).
  { clear -Ht. revert t Ht. induction evs0 as [|e evs0 IH]; intros t Ht; [exact I|].
    change ((e :: evs0) ++ evs) with (e :: (evs0 ++ evs)) in Ht.
    apply timely_cons in Ht as [H1 H2]. destruct e; simpl in *; try (apply IH; assumption).
    split; [tauto | apply IH; assumption]. }
  destruct (ahead_run t evs0 (initial viewChildren stored) (inv_initial _ _)) as (t' & HA & Hrest).
  { intros handle a q Ha. discriminate. }
  { exact Ht0. }
  fold s in HA.
  pose proof (progress_along t' evs s r p p' HI HA (Hrest evs Ht) Hr Hr') as Hm.
  pose proof (iv_obj _ HI r p Hr) as (_ & _ & Hb).
  pose proof (iv_obj _ (inv_run evs s HI) r p' Hr') as (_ & _ & Hb').
  lia.
Qed.

Lemma animated_progress_never_decreases_witness :
  let file := File.mk "a.png" [Byte.x61; Byte.x62; Byte.x63] in
  let p := placeholder_of 1 0%nat file in
  let p' := Preview.with_progress 33 p in
  0 <= Preview.progress p <= Preview.progress p' ∧ Preview.progress p' <= 100.
Proof.
  intros file p p'.
  apply (animated_progress_never_decreases (λ _, true) ∅ 0%Q
           [FileDropped (Some [(file, 1000%Q)]) image]
           [FrameFired 1 1010; FrameFired 2 1100] 0 p p').
  - simpl. split; [discriminate|]. split; [discriminate | exact I].
  - vm_compute. reflexivity.
  - vm_compute. reflexivity.
Defined.


(** ** Taking a record away *)

Lemma removePreview_search id s :
  match findById id s with
  | Some r => ∃ type, removeFrom type id s = Some (removePreview id s) ∧ r ∈ items type s ∧
                      ∃ idx, list_find (has_id s id) (items type s) = Some (idx, r)
  | None => removePreview id s = s
  end.
Proof.
  unfold findById, removePreview.
  destruct (list_find (has_id s id) (images s)) as [[i r]|] eqn:E1.
  - exists image. unfold removeFrom at 1 2. simpl items. rewrite E1.
    split; [reflexivity|]. split; [|eauto].
    apply list_find_Some in E1 as (Hi & _). eapply list_elem_of_lookup_2, Hi.
  - assert (N1 : removeFrom image id s = None).
    { unfold removeFrom. simpl items. rewrite E1. reflexivity. }
    rewrite N1.
    destruct (list_find (has_id s id) (videos s)) as [[i r]|] eqn:E2.
    + exists video. unfold removeFrom at 1 2. simpl items. rewrite E2.
      split; [reflexivity|]. split; [|eauto].
      apply list_find_Some in E2 as (Hi & _). eapply list_elem_of_lookup_2, Hi.
    + unfold removeFrom. simpl items. rewrite E2. reflexivity.
Qed.

Lemma elem_of_delete_NoDup {A} (l : list A) (i : nat) (x y : A) :
  NoDup l → l !! i = Some x → (y ∈ delete i l ↔ y ∈ l ∧ y ≠ x).
Proof.
  intros Hnd Hi. rewrite <- (take_drop_middle l i x Hi) in Hnd.
  rewrite delete_take_drop.
  rewrite <- (take_drop_middle l i x Hi) at 3.
  apply NoDup_app in Hnd as (N1 & N2 & N3). apply NoDup_cons in N3 as [N3 N4].
  rewrite !elem_of_app, elem_of_cons. split.
  - intros [H | H]; (split; [auto|]); intros ->; [apply (N2 x H); left | contradiction].
  - intros [[H | [-> | H]] Hne]; auto. contradiction.
Qed.

(** X16. [removePreview] of an id that some record shown has takes exactly
    that record (the one [findById] finds) out of its array and leaves
    every other record, revokes its object URL, and cancels and forgets the
    frame registered under the id, so that no callback of a record of that
    id is left; for an id that no record has it changes nothing. *)
Theorem removePreview_takes_one_record viewChildren stored evs id :
  let s := run evs (initial viewChildren stored) in
  let s' := removePreview id s in
  match findById id s with
  | Some r =>
      (∃ p, heap s !! r = Some p ∧ Preview.id p = id ∧ Preview.objectUrl p = Some r) ∧
      (∀ r', r' ∈ images s' ++ videos s' ↔ r' ∈ images s ++ videos s ∧ r' ≠ r) ∧
      length (images s' ++ videos s') = pred (length (images s ++ videos s)) ∧
      heap s' = heap s ∧ Revoked r ∈ log s' ∧
      rafHandles s' !! id = None ∧
      (∀ handle a p, frames s' !! handle = Some a →
         heap s' !! Step.placeholder a = Some p → Preview.id p ≠ id)
  | None => s' = s
  end.
Proof.
  intros s s'.
  pose proof (inv_reachable viewChildren stored evs) as HI. fold s in HI.
  pose proof (removePreview_search id s) as H. fold s' in H.
  destruct (findById id s) as [r|]; [|exact H].
  destruct H as (type & Hrm & Hin & idx0 & Hfind).
  destruct (removeFrom_found type id s s' HI Hrm)
    as (idx & r1 & it & Hfind' & Hidx & Hit & Hid & _ & I1 & I2 & Hh & _ & _ & _ & Hraf
        & Hfr & Hlog).
  assert (r1 = r ∧ idx = idx0) as [-> ->].
  { rewrite Hfind in Hfind'. injection Hfind' as <- <-. auto. }
  assert (Hnd : NoDup (items type s ++ items (other type) s)).
  { rewrite <- (arrays_by_partition type). apply (iv_nodup _ HI). }
  pose proof Hnd as Hnd'. apply NoDup_app in Hnd' as (N1 & N2 & _).
  split; [exists it; split; [exact Hit|]; split; [exact Hid|]; apply (iv_obj _ HI r it Hit)|].
  split.
  { intros r'. rewrite (arrays_by_partition type s'), (arrays_by_partition type s), I1, I2.
    rewrite !elem_of_app, (elem_of_delete_NoDup _ idx0 r r' N1 Hidx). split.
    - intros [[H1 H2] | H]; [auto|]. split; [auto|]. intros ->. apply (N2 r Hin H).
    - intros [[H | H] Hne]; auto. }
  split.
  { rewrite (arrays_by_partition type s'), (arrays_by_partition type s), I1, I2.
    rewrite !length_app, length_delete by eauto.
    pose proof (lookup_lt_Some _ _ _ Hidx). lia. }
  split; [exact Hh|]. split; [exact Hlog|].
  split; [rewrite Hraf; apply lookup_delete_eq|].
  intros handle a p Ha Hp. rewrite Hh in Hp. destruct (Hfr _ _ Ha) as [_ Hne].
  apply (Hne p Hp).
Qed.


(** ** The callbacks and the records *)

(** X17. Every callback waiting for a frame belongs to a record that is
    loading and is registered in [rafHandles] under the id of that record,
    and no record has two; so [onPreviewLoaded], which marks the record it
    finds as loaded at 100, leaves no callback of a record of that id and
    no handle under the id.  For an id that no record has it changes
    nothing. *)
Theorem preview_load_ends_the_animation viewChildren stored evs id :
  let s := run evs (initial viewChildren stored) in
  let s' := onPreviewLoaded id s in
  (∀ handle a, frames s !! handle = Some a →
     ∃ p, heap s !! Step.placeholder a = Some p ∧ Preview.loading p = true ∧
          rafHandles s !! Preview.id p = Some handle) ∧
  (∀ h1 h2 a1 a2, frames s !! h1 = Some a1 → frames s !! h2 = Some a2 →
     Step.placeholder a1 = Step.placeholder a2 → h1 = h2) ∧
  match findById id s with
  | Some r =>
      (∃ p, heap s !! r = Some p ∧ Preview.id p = id ∧
            heap s' = <[r := Preview.loaded p]> (heap s)) ∧
      images s' = images s ∧ videos s' = videos s ∧
      rafHandles s' !! id = None ∧
      (∀ handle a p, frames s' !! handle = Some a →
         heap s' !! Step.placeholder a = Some p →
         frames s !! handle = Some a ∧ Preview.id p ≠ id)
  | None => s' = s
  end.
Proof.
  intros s s'.
  pose proof (inv_reachable viewChildren stored evs) as HI. fold s in HI.
  split; [|split].
  - intros handle a Ha.
    destruct (iv_frames _ HI _ _ Ha) as (_ & _ & p & Hp & Hr & Hl & _). eauto.
  - intros h1 h2 a1 a2 H1 H2 E.
    destruct (iv_frames _ HI _ _ H1) as (_ & _ & p1 & P1 & _).
    destruct (iv_frames _ HI _ _ H2) as (_ & _ & p2 & P2 & _).
    apply (frames_apart s h1 h2 a1 a2 p1 p2 HI H1 H2 P1 P2).
    rewrite E in P1. congruence.
  - destruct (findById id s) as [r|] eqn:Hf.
    + destruct (onPreviewLoaded_found id s r HI Hf)
        as (item & s1 & Hitem & Hid & E & _ & Hh & Hi & Hv & Hraf & Hfr).
      fold s' in E. rewrite E. simpl.
      split; [exists item; auto|]. split; [exact Hi|]. split; [exact Hv|].
      split; [exact Hraf|].
      intros handle a p Ha Hp. destruct (Hfr _ _ Ha) as [Hold Hne].
      split; [exact Hold|].
      assert (Hr : Step.placeholder a ≠ r).
      { intros Er. apply (Hne item); [rewrite Er; exact Hitem | exact Hid]. }
      rewrite list_lookup_insert_ne in Hp by congruence. apply (Hne p Hp).
    + unfold s', onPreviewLoaded. rewrite Hf. reflexivity.
Qed.

(** ** Emptying a partition *)

Lemma revoke_all_fields (l : list Preview.t) s :
  let s' := fold_left (λ s it, revoke it s) l s in
  core s' = core s ∧ localStorage s' = localStorage s ∧ viewChild s' = viewChild s ∧
  log s' = log s ++ (Revoked <$> omap Preview.objectUrl l).
Proof.
  revert s. induction l as [|it l IH]; intros s; simpl.
  - rewrite app_nil_r. auto.
  - destruct (IH (revoke it s)) as (C & L & V & G). rewrite C, L, V, G.
    unfold revoke. destruct (Preview.objectUrl it); simpl; rewrite <- ?app_assoc; auto.
Qed.

Lemma clearFileInput_fields type s :
  let s' := clearFileInput type s in
  core s' = core s ∧ localStorage s' = localStorage s ∧
  log s' = log s ++ (if viewChild s type then [InputCleared type] else []).
Proof.
  unfold clearFileInput. destruct (viewChild s type); simpl; rewrite ?app_nil_r; auto.
Qed.

Lemma records_urls type s :
  inv s → omap Preview.objectUrl (records type s) = items type s.
Proof.
  intros HI.
  assert (H : ∀ l : list nat, (∀ r, r ∈ l → (r < length (heap s))%nat) →
            omap Preview.objectUrl (omap (λ r : nat, heap s !! r) l) = l).
  { induction l as [|r l IH]; intros Hl; simpl; [reflexivity|].
    destruct (lookup_lt_is_Some_2 (heap s) r) as [p Hp]; [apply Hl; left|].
    rewrite Hp. simpl. destruct (iv_obj _ HI r p Hp) as (-> & _). simpl.
    f_equal. apply IH. intros r' Hr'. apply Hl. right. exact Hr'. }
  apply H. intros r Hr. apply (iv_refs _ HI).
  rewrite (arrays_by_partition type), elem_of_app. auto.
Qed.

Lemma records_entry_urls type s :
  inv s → Preview.url <$> records type s = Some <$> items type s.
Proof.
  intros HI.
  assert (H : ∀ l : list nat, (∀ r, r ∈ l → (r < length (heap s))%nat) →
            Preview.url <$> omap (λ r : nat, heap s !! r) l = Some <$> l).
  { induction l as [|r l IH]; intros Hl; simpl; [reflexivity|].
    destruct (lookup_lt_is_Some_2 (heap s) r) as [p Hp]; [apply Hl; left|].
    rewrite Hp. simpl. destruct (iv_obj _ HI r p Hp) as (_ & -> & _).
    f_equal. apply IH. intros r' Hr'. apply Hl. right. exact Hr'. }
  apply H. intros r Hr. apply (iv_refs _ HI).
  rewrite (arrays_by_partition type), elem_of_app. auto.
Qed.

(** X18. [uploadAll] of this version does nothing on an empty partition;
    otherwise it writes one entry per record under the key of the partition,
    each with the object URL of its record, then revokes every one of these
    URLs, empties the partition, resets its input and alerts: the URLs in
    the manifest are revoked when the call returns.  Callbacks waiting for
    a frame are left alone. *)
Theorem uploadAll_stores_urls_it_revokes viewChildren stored evs type :
  let s := run evs (initial viewChildren stored) in
  let s' := uploadAll type s in
  let data :=
    (λ f, Entry.mk (Preview.id f) (Preview.fileName f) (Preview.size f) (Preview.url f))
      <$> records type s in
  match items type s with
  | [] => s' = s
  | _ :: _ =>
      localStorage s' = <[storageKey type := data]> (localStorage s) ∧
      Entry.url <$> data = Some <$> items type s ∧
      log s' = log s ++ [ManifestWritten (storageKey type)]
                 ++ (Revoked <$> items type s)
                 ++ (if viewChild s type then [InputCleared type] else [])
                 ++ [Alerted type] ∧
      items type s' = [] ∧ items (other type) s' = items (other type) s ∧
      heap s' = heap s ∧ frames s' = frames s ∧ rafHandles s' = rafHandles s
  end.
Proof.
  intros s s' data.
  pose proof (inv_reachable viewChildren stored evs) as HI. fold s in HI.
  unfold s', uploadAll.
  destruct (items type s) as [|r0 l] eqn:Hitems; [reflexivity|].
  rewrite bool_decide_eq_false_2 by discriminate.
  set (s1 := emit (ManifestWritten (storageKey type)) _).
  assert (HI1 : inv s1) by (apply (inv_core s s1); [reflexivity | exact HI]).
  assert (R1 : records type s1 = records type s) by (destruct type; reflexivity).
  destruct (revoke_all_fields (records type s1) s1) as (C2 & L2 & V2 & G2).
  set (s2 := fold_left (λ s it, revoke it s) (records type s1) s1) in *.
  destruct (clearFileInput_fields type (with_items type [] s2)) as (C3 & L3 & G3).
  set (s3 := clearFileInput type (with_items type [] s2)) in *.
  destruct (core_fields _ _ C3) as (A1 & A2 & A3 & _ & A5 & A6 & _).
  destruct (core_fields _ _ C2) as (B1 & B2 & B3 & _ & B5 & B6 & _).
  assert (Hit : ∀ t, items t s3 = items t (with_items type [] s2)).
  { intros []; unfold items; assumption. }
  assert (Hit2 : ∀ t, items t s2 = items t s).
  { intros []; unfold items; [rewrite B1 | rewrite B2]; reflexivity. }
  split.
  { change (localStorage s3 = <[storageKey type := data]> (localStorage s)).
    rewrite L3. transitivity (localStorage s2); [destruct type; reflexivity|].
    rewrite L2. reflexivity. }
  split.
  { unfold data. rewrite <- list_fmap_compose.
    rewrite <- Hitems. apply (records_entry_urls type s HI). }
  split.
  { change (log s3 ++ [Alerted type] = log s ++ [ManifestWritten (storageKey type)]
              ++ (Revoked <$> (r0 :: l))
              ++ (if viewChild s type then [InputCleared type] else []) ++ [Alerted type]).
    rewrite G3.
    assert (E1 : log (with_items type [] s2) = log s2) by (destruct type; reflexivity).
    assert (E2 : viewChild (with_items type [] s2) type = viewChild s type).
    { transitivity (viewChild s2 type); [destruct type; reflexivity|]. rewrite V2. reflexivity. }
    rewrite E1, E2, G2, R1, (records_urls type s HI), Hitems.
    change (log s1) with (log s ++ [ManifestWritten (storageKey type)]).
    rewrite <- !app_assoc. reflexivity. }
  split; [change (items type s3 = []); rewrite Hit; destruct type; reflexivity|].
  split.
  { change (items (other type) s3 = items (other type) s). rewrite Hit.
    transitivity (items (other type) s2); [destruct type; reflexivity | apply Hit2]. }
  split.
  { change (heap s3 = heap s). rewrite A3.
    transitivity (heap s2); [destruct type; reflexivity | exact B3]. }
  split.
  { change (frames s3 = frames s). rewrite A6.
    transitivity (frames s2); [destruct type; reflexivity | exact B6]. }
  change (rafHandles s3 = rafHandles s). rewrite A5.
  transitivity (rafHandles s2); [destruct type; reflexivity | exact B5].
Qed.


(** X19. [removeAll] of this version revokes the object URL of every
    record of the partition, each once and in order, empties the partition
    and resets its input; the other partition, the objects, [localStorage]
    and the callbacks waiting for a frame stay as they are: the animations
    of the records taken out are not cancelled. *)
Theorem removeAll_revokes_and_keeps_the_frames viewChildren stored evs type :
  let s := run evs (initial viewChildren stored) in
  let s' := removeAll type s in
  log s' = log s ++ (Revoked <$> items type s)
             ++ (if viewChild s type then [InputCleared type] else []) ∧
  NoDup (items type s) ∧
  items type s' = [] ∧ items (other type) s' = items (other type) s ∧
  heap s' = heap s ∧ frames s' = frames s ∧ rafHandles s' = rafHandles s ∧
  localStorage s' = localStorage s.
Proof.
  intros s s'.
  pose proof (inv_reachable viewChildren stored evs) as HI. fold s in HI.
  unfold s', removeAll.
  destruct (revoke_all_fields (records type s) s) as (C2 & L2 & V2 & G2).
  set (s2 := fold_left (λ s it, revoke it s) (records type s) s) in *.
  destruct (clearFileInput_fields type (with_items type [] s2)) as (C3 & L3 & G3).
  set (s3 := clearFileInput type (with_items type [] s2)) in *.
  destruct (core_fields _ _ C3) as (A1 & A2 & A3 & _ & A5 & A6 & _).
  destruct (core_fields _ _ C2) as (B1 & B2 & B3 & _ & B5 & B6 & _).
  assert (Hit : ∀ t, items t s3 = items t (with_items type [] s2)).
  { intros []; unfold items; assumption. }
  assert (Hit2 : ∀ t, items t s2 = items t s).
  { intros []; unfold items; [rewrite B1 | rewrite B2]; reflexivity. }
  split.
  { rewrite G3.
    assert (E1 : log (with_items type [] s2) = log s2) by (destruct type; reflexivity).
    assert (E2 : viewChild (with_items type [] s2) type = viewChild s type).
    { transitivity (viewChild s2 type); [destruct type; reflexivity|]. rewrite V2. reflexivity. }
    rewrite E1, E2, G2, (records_urls type s HI), <- !app_assoc. reflexivity. }
  split.
  { pose proof (iv_nodup _ HI) as N. rewrite (arrays_by_partition type) in N.
    apply NoDup_app in N as (N & _). exact N. }
  split; [rewrite Hit; destruct type; reflexivity|].
  split.
  { rewrite Hit. transitivity (items (other type) s2); [destruct type; reflexivity | apply Hit2]. }
  split; [rewrite A3; transitivity (heap s2); [destruct type; reflexivity | exact B3]|].
  split; [rewrite A6; transitivity (frames s2); [destruct type; reflexivity | exact B6]|].
  split; [rewrite A5; transitivity (rafHandles s2); [destruct type; reflexivity | exact B5]|].
  rewrite L3. transitivity (localStorage s2); [destruct type; reflexivity | exact L2].
Qed.

(** ** Destroying the component *)

Lemma cancelIfAny_fields id s :
  (∀ handle, rafHandles s !! id = Some handle → handle ≠ 0%nat) →
  let s' := cancelIfAny id s in
  rafHandles s' = rafHandles s ∧ heap s' = heap s ∧
  images s' = images s ∧ videos s' = videos s ∧
  frames s' = match rafHandles s !! id with
              | Some raf => delete raf (frames s)
              | None => frames s
              end ∧
  (∀ e, e ∈ log s → e ∈ log s').
Proof.
  intros Hraf. unfold cancelIfAny.
  destruct (rafHandles s !! id) as [raf|] eqn:E.
  - destruct (Nat.eqb_spec raf 0) as [-> | Hne]; [destruct (Hraf _ eq_refl eq_refl)|].
    split; [reflexivity|]. split; [reflexivity|]. split; [reflexivity|].
    split; [reflexivity|]. split; [reflexivity|].
    intros e He. simpl. apply elem_of_app. auto.
  - split; [reflexivity|]. split; [reflexivity|]. split; [reflexivity|].
    split; [reflexivity|]. split; [reflexivity|]. auto.
Qed.

Lemma revoke_log it s :
  (∀ e, e ∈ log s → e ∈ log (revoke it s)) ∧
  (∀ u, Preview.objectUrl it = Some u → Revoked u ∈ log (revoke it s)).
Proof.
  unfold revoke. destruct (Preview.objectUrl it) as [u|]; simpl.
  - split.
    + intros e He. apply elem_of_app. auto.
    + intros u' E. injection E as <-. apply elem_of_app. right. constructor.
  - split; [auto | discriminate].
Qed.

Lemma destroy_fold (l : list Preview.t) s :
  (∀ id handle, rafHandles s !! id = Some handle → handle ≠ 0%nat) →
  let s' := fold_left (λ s it, cancelIfAny (Preview.id it) (revoke it s)) l s in
  rafHandles s' = rafHandles s ∧ heap s' = heap s ∧
  images s' = images s ∧ videos s' = videos s ∧
  (∀ handle a, frames s' !! handle = Some a →
     frames s !! handle = Some a ∧
     ∀ it, it ∈ l → rafHandles s !! Preview.id it ≠ Some handle) ∧
  (∀ e, e ∈ log s → e ∈ log s') ∧
  (∀ it u, it ∈ l → Preview.objectUrl it = Some u → Revoked u ∈ log s').
Proof.
  revert s. induction l as [|it l IH]; intros s Hraf.
  - simpl. split; [reflexivity|]. split; [reflexivity|]. split; [reflexivity|].
    split; [reflexivity|]. split; [|split; [auto|]].
    + intros handle a Ha. split; [exact Ha|]. intros it Hit. inversion Hit.
    + intros it u Hit. inversion Hit.
  - change (fold_left (λ s it, cancelIfAny (Preview.id it) (revoke it s)) (it :: l) s)
      with (fold_left (λ s it, cancelIfAny (Preview.id it) (revoke it s)) l
              (cancelIfAny (Preview.id it) (revoke it s))).
    destruct (core_fields _ _ (core_revoke it s)) as (R1 & R2 & R3 & _ & R5 & R6 & _).
    destruct (revoke_log it s) as [L1 L2].
    destruct (cancelIfAny_fields (Preview.id it) (revoke it s))
      as (C1 & C2 & C3 & C4 & C5 & C6).
    { intros handle. rewrite R5. apply Hraf. }
    set (s1 := cancelIfAny (Preview.id it) (revoke it s)) in *.
    destruct (IH s1) as (I1 & I2 & I3 & I4 & I5 & I6 & I7).
    { intros id handle. rewrite C1, R5. apply Hraf. }
    cbv zeta. rewrite I1, I2, I3, I4, C1, C2, C3, C4, R1, R2, R3, R5.
    split; [reflexivity|]. split; [reflexivity|]. split; [reflexivity|].
    split; [reflexivity|]. split; [|split].
    + intros handle a Ha. destruct (I5 _ _ Ha) as [Ha1 Hnot].
      rewrite C1, R5 in Hnot. rewrite C5, R5, R6 in Ha1.
      assert (Hold : frames s !! handle = Some a ∧
                     rafHandles s !! Preview.id it ≠ Some handle).
      { destruct (rafHandles s !! Preview.id it) as [raf|]; [|split; [exact Ha1 | discriminate]].
        apply lookup_delete_Some in Ha1 as [Hne Ha1]. split; [exact Ha1 | congruence]. }
      destruct Hold as [Hold Hne]. split; [exact Hold|].
      intros it' Hit'. apply elem_of_cons in Hit' as [-> | Hit']; [exact Hne | apply Hnot, Hit'].
    + intros e He. apply I6, C6, L1, He.
    + intros it' u Hit' Hu. apply elem_of_cons in Hit' as [-> | Hit'].
      * apply I6, C6, L2, Hu.
      * apply (I7 it' u Hit' Hu).
Qed.

(** X20. [ngOnDestroy] of this version revokes the object URL of every
    record shown and empties [rafHandles]; the callbacks it leaves waiting
    for a frame are those of records that are in no array any more. *)
Theorem ngOnDestroy_cancels_what_is_listed viewChildren stored evs :
  let s := run evs (initial viewChildren stored) in
  let s' := ngOnDestroy s in
  rafHandles s' = ∅ ∧ heap s' = heap s ∧
  (∀ r, r ∈ images s ++ videos s → Revoked r ∈ log s') ∧
  (∀ handle a, frames s' !! handle = Some a →
     frames s !! handle = Some a ∧ Step.placeholder a ∉ images s ++ videos s).
Proof.
  intros s s'.
  pose proof (inv_reachable viewChildren stored evs) as HI. fold s in HI.
  destruct (destroy_fold (records image s ++ records video s) s)
    as (D1 & D2 & D3 & D4 & D5 & D6 & D7).
  { intros id handle H. apply (iv_raf _ HI) in H. lia. }
  assert (Hrec : ∀ r, r ∈ images s ++ videos s →
            ∃ p, heap s !! r = Some p ∧ p ∈ records image s ++ records video s).
  { intros r Hr. destruct (lookup_lt_is_Some_2 (heap s) r) as [p Hp]; [apply (iv_refs _ HI), Hr|].
    exists p. split; [exact Hp|].
    apply elem_of_app in Hr. rewrite elem_of_app. unfold records.
    destruct Hr as [Hr | Hr]; [left | right]; apply list_elem_of_omap; eauto. }
  unfold s', ngOnDestroy. simpl. split; [reflexivity|]. split; [exact D2|]. split.
  - intros r Hr. destruct (Hrec r Hr) as (p & Hp & Hin).
    apply (D7 p r Hin). apply (iv_obj _ HI r p Hp).
  - intros handle a Ha. apply D5 in Ha as [Ha Hnot]. split; [exact Ha|].
    intros Hr. destruct (Hrec _ Hr) as (p & Hp & Hin).
    destruct (iv_frames _ HI _ _ Ha) as (_ & _ & q & Hq & Hraf & _).
    assert (q = p) as -> by congruence. apply (Hnot p Hin Hraf).
Qed.

Example orphan_animation_survives :
  let file := File.mk "a.png" [Byte.x61; Byte.x62; Byte.x63] in
  let s := run [FileDropped (Some [(file, 1000%Q)]) image; RemoveAll image]
               (initial (λ _, true) ∅) in
  images s = [] ∧ log s = [Revoked 0%nat; InputCleared image] ∧
  dom (frames (ngOnDestroy s)) = {[ 1%nat ]} ∧
  (λ p, Preview.progress p) <$> heap (run [FrameFired 1 1100] s) = [33].
Proof. vm_compute. repeat split. Qed.

End Animated.
